(** * Elemental: local kernels, entry access and norms of the distributed
      dense-matrix library, embedded in Rocq.

    The development follows the C++ sources:

    - [src/core/imports/blas/Gemm.hpp]       (module [Blas])
    - [src/blas_like/level3/Gemm.cpp]        (module [Level3])
    - [src/blas_like/level3/Trr2k/Local.hpp] (module [Trr2k])
    - [src/core/DistMatrix/VR_Star.cpp]      (module [VRStar])
    - [src/blas/level1/Dot/Dot.cpp]          (module [DotMCMR])
    - [src/lapack/Norms/HermitianOneNorm.cpp] (module [Norms])

    The shifts and local lengths of the cyclic distributions (module
    [Distribution]) and the redistribution between distributions (module
    [Redist]) are not among these sources; they are modelled from the
    specification.

    Integers of the program ([int], [BlasInt], [Int]) are modelled as [Z];
    index arithmetic is assumed not to overflow.  A C array reached through
    a pointer is a function from offsets to scalars. *)

From Stdlib Require Import ZArith List Lia Bool String Ascii.
From Stdlib Require Import Ring Ring_theory.
From Stdlib Require PrimFloat.
Import ListNotations.

Set Implicit Arguments.
Local Open Scope Z_scope.

(* ===================================================================== *)
(** * Counted loops *)
(* ===================================================================== *)

Module Loops.

(** [iter_from cnt i body s] runs [body i], [body (i+1)], ... [cnt] times. *)
Fixpoint iter_from {S : Type} (cnt : nat) (i : Z) (body : Z -> S -> S) (s : S) : S :=
  match cnt with
  | O => s
  | Datatypes.S c => iter_from c (i + 1) body (body i s)
  end.

(** [For lo hi body s] is the C loop [for( x=lo; x<hi; ++x ) s = body x s]. *)
Definition For {S : Type} (lo hi : Z) (body : Z -> S -> S) (s : S) : S :=
  iter_from (Z.to_nat (hi - lo)) lo body s.

Lemma iter_from_snoc {S : Type} (body : Z -> S -> S) :
  forall cnt i s,
    iter_from (Datatypes.S cnt) i body s =
    body (i + Z.of_nat cnt) (iter_from cnt i body s).
Proof.
  induction cnt as [|cnt IH]; intros i s.
  - simpl. now rewrite Z.add_0_r.
  - change (iter_from (Datatypes.S (Datatypes.S cnt)) i body s)
      with (iter_from (Datatypes.S cnt) (i + 1) body (body i s)).
    rewrite IH. simpl iter_from at 2.
    f_equal. lia.
Qed.

Lemma For_nil {S : Type} (body : Z -> S -> S) lo hi s :
  hi <= lo -> For lo hi body s = s.
Proof.
  intros H. unfold For. replace (Z.to_nat (hi - lo)) with O by lia. reflexivity.
Qed.

Lemma For_snoc {S : Type} (body : Z -> S -> S) lo hi s :
  lo <= hi -> For lo (hi + 1) body s = body hi (For lo hi body s).
Proof.
  intros H. unfold For.
  replace (Z.to_nat (hi + 1 - lo)) with (Datatypes.S (Z.to_nat (hi - lo))) by lia.
  rewrite iter_from_snoc. f_equal. lia.
Qed.

Lemma For_cons {S : Type} (body : Z -> S -> S) lo hi s :
  lo < hi -> For lo hi body s = For (lo + 1) hi body (body lo s).
Proof.
  intros H. unfold For.
  replace (Z.to_nat (hi - lo)) with (Datatypes.S (Z.to_nat (hi - (lo + 1)))) by lia.
  reflexivity.
Qed.

(** Loop invariant rule. *)
Lemma For_inv {S : Type} (P : Z -> S -> Prop) (body : Z -> S -> S) lo hi s :
  lo <= hi ->
  P lo s ->
  (forall x t, lo <= x < hi -> P x t -> P (x + 1) (body x t)) ->
  P hi (For lo hi body s).
Proof.
  intros Hle H0 Hstep.
  assert (G : forall d, 0 <= d -> lo + d <= hi -> P (lo + d) (For lo (lo + d) body s)).
  { intros d Hd. pattern d. apply natlike_ind; trivial.
    - intros _. rewrite Z.add_0_r. rewrite For_nil by lia. exact H0.
    - intros x Hx IH Hb.
      replace (lo + Z.succ x) with ((lo + x) + 1) by lia.
      rewrite For_snoc by lia. apply Hstep; [lia|]. apply IH. lia. }
  specialize (G (hi - lo)). replace (lo + (hi - lo)) with hi in G by lia.
  apply G; lia.
Qed.

(** Two loops with bodies that agree on the range compute the same. *)
Lemma For_ext {S : Type} (f g : Z -> S -> S) lo hi s :
  (forall x t, lo <= x < hi -> f x t = g x t) ->
  For lo hi f s = For lo hi g s.
Proof.
  intros H. destruct (Z_le_gt_dec lo hi) as [Hle|Hgt].
  - apply (For_inv (fun x t => t = For lo x g s)); trivial.
    + now rewrite For_nil by lia.
    + intros x t Hx ->. rewrite For_snoc by lia. now apply H.
  - now rewrite !For_nil by lia.
Qed.

(** A loop over arrays whose body acts cell by cell acts cell by cell. *)
Lemma For_pointwise {V : Type} (body : Z -> (Z -> V) -> (Z -> V))
      (h : Z -> Z -> V -> V) lo hi :
  (forall x C a, lo <= x < hi -> body x C a = h x a (C a)) ->
  forall C a, For lo hi body C a = For lo hi (fun x v => h x a v) (C a).
Proof.
  intros Hb C a. destruct (Z_le_gt_dec lo hi) as [Hle|Hgt].
  - apply (For_inv (fun x t => t a = For lo x (fun x v => h x a v) (C a)));
      trivial.
    + now rewrite For_nil by lia.
    + intros x t Hx Ht. rewrite For_snoc by lia. rewrite Hb by lia.
      now rewrite Ht.
  - now rewrite !For_nil by lia.
Qed.

(** A loop whose body changes the value only when the counter hits one
    index [a - off] performs that single step, if the index is in range. *)
Lemma For_select {V : Type} (F : Z -> V -> V) (sel : Z) lo hi v :
  For lo hi (fun x w => if sel =? x then F x w else w) v =
  if (lo <=? sel) && (sel <? hi) then F sel v else v.
Proof.
  destruct (Z_le_gt_dec lo hi) as [Hle|Hgt].
  - apply (For_inv (fun x t =>
             t = if (lo <=? sel) && (sel <? x) then F sel v else v)); trivial.
    + destruct (Z.leb_spec lo sel), (Z.ltb_spec sel lo); simpl; trivial; lia.
    + intros x t Hx ->.
      destruct (Z.eqb_spec sel x) as [->|Hne].
      * destruct (Z.leb_spec lo x), (Z.ltb_spec x x), (Z.ltb_spec x (x + 1));
          simpl; trivial; lia.
      * destruct (Z.leb_spec lo sel), (Z.ltb_spec sel x),
          (Z.ltb_spec sel (x + 1)); simpl; trivial; lia.
  - rewrite For_nil by lia.
    destruct (Z.leb_spec lo sel), (Z.ltb_spec sel hi); simpl; trivial; lia.
Qed.

Lemma For_id {V : Type} lo hi (v : V) : For lo hi (fun _ w => w) v = v.
Proof.
  destruct (Z_le_gt_dec lo hi).
  - apply (For_inv (fun _ t => t = v)); trivial.
  - now rewrite For_nil by lia.
Qed.

(** The same for a body that fires when a strided index [s + x*c] hits the
    cell [a]. *)
Lemma For_select_strided {V : Type} (F : Z -> V -> V) (a s c : Z) lo hi v :
  0 < c ->
  For lo hi (fun x w => if a =? s + x * c then F x w else w) v =
  if ((a - s) mod c =? 0) && (lo <=? (a - s) / c) && ((a - s) / c <? hi)
  then F ((a - s) / c) v else v.
Proof.
  intros Hc.
  pose proof (Z.div_mod (a - s) c ltac:(lia)) as Hd.
  destruct (Z.eqb_spec ((a - s) mod c) 0) as [E|E]; cbn [andb].
  - rewrite (For_ext _ (fun x w => if (a - s) / c =? x then F x w else w)).
    + apply For_select.
    + intros x t _.
      destruct (Z.eqb_spec a (s + x * c)), (Z.eqb_spec ((a - s) / c) x);
        trivial; exfalso; nia.
  - rewrite (For_ext _ (fun _ w => w)).
    + apply For_id.
    + intros x t _. destruct (Z.eqb_spec a (s + x * c)) as [Ea|]; trivial.
      exfalso. apply E. replace (a - s) with (x * c) by lia.
      apply Z.mod_mul. lia.
Qed.

End Loops.
Import Loops.

(* ===================================================================== *)
(** * Scalars *)
(* ===================================================================== *)

(** The element type [T] of the templates: "any ring, e.g., the (Gaussian)
    integers and the real/complex numbers".  [eqb] is [operator==], [Conj]
    is complex conjugation (the identity on real types). *)
Record Scalar : Type := {
  carrier :> Type;
  zero : carrier;
  one : carrier;
  add : carrier -> carrier -> carrier;
  mul : carrier -> carrier -> carrier;
  sub : carrier -> carrier -> carrier;
  opp : carrier -> carrier;
  eqb : carrier -> carrier -> bool;
  Conj : carrier -> carrier;
  scalar_ring : ring_theory zero one add mul sub opp (@eq carrier);
  eqb_eq : forall x y, eqb x y = true <-> x = y
}.

Arguments zero {s}.
Arguments one {s}.
Arguments add {s}.
Arguments mul {s}.
Arguments sub {s}.
Arguments opp {s}.
Arguments eqb {s}.
Arguments Conj {s}.

Declare Scope scalar_scope.
Delimit Scope scalar_scope with K.
Infix "+" := add : scalar_scope.
Infix "*" := mul : scalar_scope.
Infix "-" := sub : scalar_scope.
Notation "- x" := (opp x) : scalar_scope.
Infix "==" := eqb (at level 70, no associativity) : scalar_scope.

(** The integers, [T = Int]. *)
Definition ZScalar : Scalar :=
  {| carrier := Z; zero := 0; one := 1; add := Z.add; mul := Z.mul;
     sub := Z.sub; opp := Z.opp; eqb := Z.eqb; Conj := fun x => x;
     scalar_ring := Zth; eqb_eq := Z.eqb_eq |}.

(** The Gaussian integers, [T = Complex<Int>]: pairs (real, imaginary). *)
Module Gauss.

Definition t : Type := (Z * Z)%type.
Definition gadd (x y : t) : t := (fst x + fst y, snd x + snd y).
Definition gmul (x y : t) : t :=
  (fst x * fst y - snd x * snd y, fst x * snd y + snd x * fst y).
Definition gopp (x : t) : t := (- fst x, - snd x).
Definition gsub (x y : t) : t := (fst x - fst y, snd x - snd y).
Definition geqb (x y : t) : bool := (fst x =? fst y) && (snd x =? snd y).
Definition gconj (x : t) : t := (fst x, - snd x).

Lemma gring : ring_theory (0, 0) (1, 0) gadd gmul gsub gopp (@eq t).
Proof.
  constructor; intros; repeat match goal with x : (_ * _)%type |- _ => destruct x end;
    unfold gadd, gmul, gsub, gopp; cbn [fst snd]; apply f_equal2; ring.
Qed.

Lemma geqb_eq (x y : t) : geqb x y = true <-> x = y.
Proof.
  destruct x as [a b], y as [c d]. unfold geqb. simpl.
  rewrite andb_true_iff, !Z.eqb_eq. split.
  - intros [-> ->]. reflexivity.
  - intros H. injection H. auto.
Qed.

Definition GScalar : Scalar :=
  {| carrier := t; zero := (0, 0); one := (1, 0); add := gadd; mul := gmul;
     sub := gsub; opp := gopp; eqb := geqb; Conj := gconj;
     scalar_ring := gring; eqb_eq := geqb_eq |}.

End Gauss.

(** [std::toupper] on the plain character set. *)
Definition toupper (c : ascii) : ascii :=
  let n := N_of_ascii c in
  if ((97 <=? n) && (n <=? 122))%N then ascii_of_N (n - 32) else c.

(* ===================================================================== *)
(** * The portable reference kernel [blas::Gemm] *)
(* ===================================================================== *)

Module Blas.

Section Kernel.

Variable T : Scalar.
Add Ring TRing : (scalar_ring T).
Local Open Scope scalar_scope.

(** A C array seen from its base pointer. *)
Definition buffer : Type := Z -> T.

(** The assignment [C[idx] = v]. *)
Definition upd (C : buffer) (idx : Z) (v : T) : buffer :=
  fun a => if Z.eqb a idx then v else C a.

(** [template<typename T> void Gemm(transA, transB, m, n, k, alpha, A, ALDim,
    B, BLDim, beta, C, CLDim)], lines 53-268 of Gemm.hpp.  [A] and [B] are
    [const] arrays stored apart from [C]; the result is the final content
    of [C]. *)
Definition Gemm (transA transB : ascii) (m n k : Z)
    (alpha : T) (A : buffer) (ALDim : Z) (B : buffer) (BLDim : Z)
    (beta : T) (C : buffer) (CLDim : Z) : buffer :=
  if (0 <? m)%Z && (0 <? n)%Z && (k =? 0)%Z && (beta == zero) then
    For 0 n (fun j C =>
      For 0 m (fun i C => upd C (i + j * CLDim)%Z zero) C) C
  else
    (* Scale C *)
    let C :=
      if beta == zero then
        For 0 n (fun j C =>
          For 0 m (fun i C => upd C (i + j * CLDim)%Z zero) C) C
      else if negb (beta == one) then
        For 0 n (fun j C =>
          For 0 m (fun i C =>
            upd C (i + j * CLDim)%Z (C (i + j * CLDim)%Z * beta)) C) C
      else C in
    (* Naive implementation *)
    if Ascii.eqb (toupper transA) "N" && Ascii.eqb (toupper transB) "N" then
      (* C := alpha A B + C *)
      For 0 n (fun j C =>
        For 0 k (fun l C =>
          let gamma := alpha * B (l + j * BLDim)%Z in
          For 0 m (fun i C =>
            let delta := A (i + l * ALDim)%Z * gamma in
            upd C (i + j * CLDim)%Z (C (i + j * CLDim)%Z + delta)) C) C) C
    else if Ascii.eqb (toupper transA) "N" then
      if Ascii.eqb (toupper transB) "T" then
        (* C := alpha A B^T + C *)
        For 0 n (fun j C =>
          For 0 k (fun l C =>
            let gamma := alpha * B (j + l * BLDim)%Z in
            For 0 m (fun i C =>
              let delta := A (i + l * ALDim)%Z * gamma in
              upd C (i + j * CLDim)%Z (C (i + j * CLDim)%Z + delta)) C) C) C
      else
        (* C := alpha A B^H + C *)
        For 0 n (fun j C =>
          For 0 k (fun l C =>
            let gamma := Conj (B (j + l * BLDim)%Z) * alpha in
            For 0 m (fun i C =>
              let delta := A (i + l * ALDim)%Z * gamma in
              upd C (i + j * CLDim)%Z (C (i + j * CLDim)%Z + delta)) C) C) C
    else if Ascii.eqb (toupper transB) "N" then
      if Ascii.eqb (toupper transA) "T" then
        (* C := alpha A^T B + C *)
        For 0 n (fun j C =>
          For 0 m (fun i C =>
            let gamma :=
              For 0 k (fun l gamma =>
                let delta := A (l + i * ALDim)%Z * B (l + j * BLDim)%Z in
                gamma + delta) zero in
            let gamma := gamma * alpha in
            upd C (i + j * CLDim)%Z (C (i + j * CLDim)%Z + gamma)) C) C
      else
        (* C := alpha A^H B + C *)
        For 0 n (fun j C =>
          For 0 m (fun i C =>
            let gamma :=
              For 0 k (fun l gamma =>
                let delta := Conj (A (l + i * ALDim)%Z) * B (l + j * BLDim)%Z in
                gamma + delta) zero in
            let gamma := gamma * alpha in
            upd C (i + j * CLDim)%Z (C (i + j * CLDim)%Z + gamma)) C) C
    else
      if Ascii.eqb (toupper transA) "T" && Ascii.eqb (toupper transB) "T" then
        (* C := alpha A^T B^T + C *)
        For 0 n (fun j C =>
          For 0 m (fun i C =>
            let gamma :=
              For 0 k (fun l gamma =>
                let delta := A (l + i * ALDim)%Z * B (j + l * BLDim)%Z in
                gamma + delta) zero in
            let gamma := gamma * alpha in
            upd C (i + j * CLDim)%Z (C (i + j * CLDim)%Z + gamma)) C) C
      else if Ascii.eqb (toupper transA) "T" then
        (* C := alpha A^T B^H + C *)
        For 0 n (fun j C =>
          For 0 m (fun i C =>
            let gamma :=
              For 0 k (fun l gamma =>
                let delta := Conj (B (j + l * BLDim)%Z) * A (l + i * ALDim)%Z in
                gamma + delta) zero in
            let gamma := gamma * alpha in
            upd C (i + j * CLDim)%Z (C (i + j * CLDim)%Z + gamma)) C) C
      else if Ascii.eqb (toupper transB) "T" then
        (* C := alpha A^H B^T + C *)
        For 0 n (fun j C =>
          For 0 m (fun i C =>
            let gamma :=
              For 0 k (fun l gamma =>
                let delta := Conj (A (l + i * ALDim)%Z) * B (j + l * BLDim)%Z in
                gamma + delta) zero in
            let gamma := gamma * alpha in
            upd C (i + j * CLDim)%Z (C (i + j * CLDim)%Z + gamma)) C) C
      else
        (* C := alpha A^H B^H + C *)
        For 0 n (fun j C =>
          For 0 m (fun i C =>
            let gamma :=
              For 0 k (fun l gamma =>
                let delta := Conj (A (l + i * ALDim)%Z) in
                let phi := Conj (B (j + l * BLDim)%Z) in
                let delta := delta * phi in
                gamma + delta) zero in
            let gamma := gamma * alpha in
            upd C (i + j * CLDim)%Z (C (i + j * CLDim)%Z + gamma)) C) C.

(** ** What the kernel is meant to compute *)

(** Entry [(r,c)] of [op(M)] for a column-major array [M] with leading
    dimension [LDim]: the identity for ['N'], the transpose for ['T'], the
    conjugate transpose for ['C']. *)
Definition op (trans : ascii) (M : buffer) (LDim : Z) (r c : Z) : T :=
  if Ascii.eqb (toupper trans) "N" then M (r + c * LDim)%Z
  else if Ascii.eqb (toupper trans) "T" then M (c + r * LDim)%Z
  else Conj (M (c + r * LDim)%Z).

(** [sum k f] is [f 0 + f 1 + ... + f (k-1)], accumulated left to right. *)
Definition sum (k : Z) (f : Z -> T) : T :=
  For 0 k (fun l acc => acc + f l) zero.

(** The orientation characters accepted by BLAS. *)
Definition orientation_char (c : ascii) : Prop :=
  toupper c = "N"%char \/ toupper c = "T"%char \/ toupper c = "C"%char.

(** ** Loop nests of the kernel, cell by cell *)

Lemma upd_eq (C : buffer) idx v a :
  upd C idx v a = if (a =? idx)%Z then v else C a.
Proof. reflexivity. Qed.

(** Cell [a] lies in column [j] of an [m]-row window with stride [CLDim]. *)
Definition in_col (m CLDim j a : Z) : bool :=
  ((j * CLDim <=? a) && (a <? j * CLDim + m))%Z.

(** Cell [a] is an entry of the [m] x [n] window. *)
Definition in_window (m n CLDim a : Z) : Prop :=
  exists i j, (0 <= i < m /\ 0 <= j < n /\ a = i + j * CLDim)%Z.

Lemma For_if_const (c : bool) (f : Z -> T -> T) lo hi v :
  For lo hi (fun x w => if c then f x w else w) v =
  if c then For lo hi f v else v.
Proof.
  destruct c; trivial.
  destruct (Z_le_gt_dec lo hi).
  - apply (For_inv (fun _ t => t = v)); trivial.
  - now rewrite For_nil by lia.
Qed.

(** One column: the loop over [i] touches cell [i + j*CLDim] only. *)
Lemma For_cells (F : Z -> T -> T) (m CLDim j : Z) (C : buffer) (a : Z) :
  For 0 m (fun i C => upd C (i + j * CLDim)%Z (F i (C (i + j * CLDim)%Z))) C a =
  if in_col m CLDim j a then F (a - j * CLDim)%Z (C a) else C a.
Proof.
  rewrite (For_pointwise
             (fun i C => upd C (i + j * CLDim)%Z (F i (C (i + j * CLDim)%Z)))
             (fun i a v => if (a - j * CLDim =? i)%Z then F i v else v)).
  - rewrite For_select. unfold in_col.
    destruct (Z.leb_spec 0 (a - j * CLDim)), (Z.ltb_spec (a - j * CLDim) m),
      (Z.leb_spec (j * CLDim) a), (Z.ltb_spec a (j * CLDim + m));
      simpl; trivial; lia.
  - intros x C0 b _. rewrite upd_eq.
    destruct (Z.eqb_spec b (x + j * CLDim)), (Z.eqb_spec (b - j * CLDim) x);
      subst; trivial; lia.
Qed.

Lemma in_col_unique m CLDim i j j' :
  (0 <= i < m)%Z -> (m <= CLDim)%Z ->
  in_col m CLDim j' (i + j * CLDim) = (j =? j')%Z.
Proof.
  intros Hi Hm. unfold in_col.
  destruct (Z.eqb_spec j j') as [->|Hne].
  - destruct (Z.leb_spec (j' * CLDim) (i + j' * CLDim)),
      (Z.ltb_spec (i + j' * CLDim) (j' * CLDim + m)); simpl; trivial; lia.
  - destruct (Z.leb_spec (j' * CLDim) (i + j * CLDim)),
      (Z.ltb_spec (i + j * CLDim) (j' * CLDim + m)); simpl; trivial.
    exfalso. assert (j < j' \/ j' < j)%Z as [Hlt|Hlt] by lia; nia.
Qed.

Lemma in_col_window m n CLDim j a :
  (0 <= j < n)%Z -> in_col m CLDim j a = true -> in_window m n CLDim a.
Proof.
  unfold in_col. intros Hj H. apply andb_true_iff in H.
  destruct H as [H1 H2]. apply Z.leb_le in H1. apply Z.ltb_lt in H2.
  exists (a - j * CLDim)%Z, j. lia.
Qed.

(** A loop over columns whose body rewrites only its own column: inside the
    window every cell gets the update of its column ... *)
Lemma For_matrix_in (body : Z -> buffer -> buffer) (G : Z -> Z -> T -> T)
      (m n CLDim : Z) :
  (m <= CLDim)%Z ->
  (forall j C a, (0 <= j < n)%Z ->
     body j C a = if in_col m CLDim j a then G j (a - j * CLDim)%Z (C a) else C a) ->
  forall C i j, (0 <= i < m)%Z -> (0 <= j < n)%Z ->
    For 0 n body C (i + j * CLDim)%Z = G j i (C (i + j * CLDim)%Z).
Proof.
  intros Hm Hb C i j Hi Hj.
  rewrite (For_pointwise body
             (fun j a v => if in_col m CLDim j a
                           then G j (a - j * CLDim)%Z v else v)) by exact Hb.
  rewrite (For_ext _ (fun x w => if (j =? x)%Z then G x i w else w)).
  - rewrite For_select.
    destruct (Z.leb_spec 0 j), (Z.ltb_spec j n); simpl; trivial; lia.
  - intros x t _. rewrite in_col_unique by lia.
    destruct (Z.eqb_spec j x); trivial. subst. f_equal. lia.
Qed.

(** ... and outside the window nothing is written. *)
Lemma For_matrix_out (body : Z -> buffer -> buffer) (G : Z -> Z -> T -> T)
      (m n CLDim : Z) :
  (forall j C a, (0 <= j < n)%Z ->
     body j C a = if in_col m CLDim j a then G j (a - j * CLDim)%Z (C a) else C a) ->
  forall C a, ~ in_window m n CLDim a -> For 0 n body C a = C a.
Proof.
  intros Hb C a Hout.
  rewrite (For_pointwise body
             (fun j a v => if in_col m CLDim j a
                           then G j (a - j * CLDim)%Z v else v)) by exact Hb.
  destruct (Z_le_gt_dec 0 n).
  - apply (For_inv (fun _ t => t = C a)); trivial.
    intros x t Hx ->. destruct (in_col m CLDim x a) eqn:E; trivial.
    exfalso. apply Hout. now apply in_col_window with x.
  - now rewrite For_nil by lia.
Qed.

(** ** Sums *)

Lemma sum_nil k f : (k <= 0)%Z -> sum k f = zero.
Proof. intros H. unfold sum. now rewrite For_nil. Qed.

Lemma sum_snoc k f : (0 <= k)%Z -> sum (k + 1) f = sum k f + f k.
Proof. intros H. unfold sum. now rewrite For_snoc. Qed.

Lemma sum_ext k f g :
  (forall l, (0 <= l < k)%Z -> f l = g l) -> sum k f = sum k g.
Proof.
  intros H. unfold sum. apply For_ext. intros x t Hx. now rewrite H.
Qed.

(** Accumulating onto a start value adds the sum to it. *)
Lemma accumulate k f v :
  For 0 k (fun l w => w + f l) v = v + sum k f.
Proof.
  destruct (Z_le_gt_dec 0 k).
  - apply (For_inv (fun x t => t = v + sum x f)); trivial.
    + rewrite sum_nil by lia. ring.
    + intros x t Hx ->. rewrite sum_snoc by lia. ring.
  - rewrite For_nil, sum_nil by lia. ring.
Qed.

Lemma sum_scale k (c : T) f g :
  (forall l, (0 <= l < k)%Z -> g l = c * f l) -> sum k g = c * sum k f.
Proof.
  intros H. destruct (Z_le_gt_dec 0 k).
  - revert H. pattern k. apply natlike_ind; trivial.
    + intros _. rewrite !sum_nil by lia. ring.
    + intros x Hx IH H. unfold Z.succ. rewrite !sum_snoc by lia.
      rewrite IH, H by (try intros; try apply H; lia). ring.
  - rewrite !sum_nil by lia. ring.
Qed.

(** ** The two shapes of loop nest in the kernel *)

Section Nests.

Variables (m n CLDim : Z).

(** Loops over [j] then [i] that rewrite cell [(i,j)] from its old value:
    the zero fill, the scaling by [beta] and the dot-product variants. *)
Definition nest_ji (F : Z -> Z -> T -> T) (C : buffer) : buffer :=
  For 0 n (fun j C =>
    For 0 m (fun i C =>
      upd C (i + j * CLDim)%Z (F j i (C (i + j * CLDim)%Z))) C) C.

(** Loops over [j], [l] then [i] that add [u j l i] to cell [(i,j)]: the
    axpy variants, used when [A] is not transposed. *)
Definition nest_jli (k : Z) (u : Z -> Z -> Z -> T) (C : buffer) : buffer :=
  For 0 n (fun j C =>
    For 0 k (fun l C =>
      For 0 m (fun i C =>
        upd C (i + j * CLDim)%Z (C (i + j * CLDim)%Z + u j l i)) C) C) C.

Lemma nest_ji_in F C i j :
  (m <= CLDim)%Z -> (0 <= i < m)%Z -> (0 <= j < n)%Z ->
  nest_ji F C (i + j * CLDim)%Z = F j i (C (i + j * CLDim)%Z).
Proof.
  intros Hm Hi Hj. unfold nest_ji.
  apply For_matrix_in with (m := m) (G := fun j i v => F j i v); trivial.
  intros j0 C0 a _. apply (For_cells (F j0)).
Qed.

Lemma nest_ji_out F C a :
  ~ in_window m n CLDim a -> nest_ji F C a = C a.
Proof.
  intros Hout. unfold nest_ji.
  apply For_matrix_out with (m := m) (n := n) (CLDim := CLDim) (G := fun j i v => F j i v); trivial.
  intros j0 C0 b _. apply (For_cells (F j0)).
Qed.

Lemma nest_jli_col k u j C a :
  For 0 k (fun l C =>
      For 0 m (fun i C =>
        upd C (i + j * CLDim)%Z (C (i + j * CLDim)%Z + u j l i)) C) C a =
  if in_col m CLDim j a
  then C a + sum k (fun l => u j l (a - j * CLDim)%Z) else C a.
Proof.
  rewrite (For_pointwise _
             (fun l a v => if in_col m CLDim j a
                           then v + u j l (a - j * CLDim)%Z else v)).
  - rewrite For_if_const. now rewrite accumulate.
  - intros l C0 b _. apply (For_cells (fun i v => v + u j l i)).
Qed.

Lemma nest_jli_in k u C i j :
  (m <= CLDim)%Z -> (0 <= i < m)%Z -> (0 <= j < n)%Z ->
  nest_jli k u C (i + j * CLDim)%Z =
  C (i + j * CLDim)%Z + sum k (fun l => u j l i).
Proof.
  intros Hm Hi Hj. unfold nest_jli.
  apply For_matrix_in with (m := m) (G := fun j i v => v + sum k (fun l => u j l i)); trivial.
  intros j0 C0 a _. apply nest_jli_col.
Qed.

Lemma nest_jli_out k u C a :
  ~ in_window m n CLDim a -> nest_jli k u C a = C a.
Proof.
  intros Hout. unfold nest_jli.
  apply For_matrix_out with (m := m) (n := n) (CLDim := CLDim) (G := fun j i v => v + sum k (fun l => u j l i)); trivial.
  intros j0 C0 b _. apply nest_jli_col.
Qed.

End Nests.

(** The scaling step of the kernel. *)
Definition scaled (m n : Z) (beta : T) (C : buffer) (CLDim : Z) : buffer :=
  if beta == zero then nest_ji m n CLDim (fun _ _ _ => zero) C
  else if negb (beta == one) then nest_ji m n CLDim (fun _ _ v => v * beta) C
  else C.

Lemma scaled_in m n beta C CLDim i j :
  (m <= CLDim)%Z -> (0 <= i < m)%Z -> (0 <= j < n)%Z ->
  scaled m n beta C CLDim (i + j * CLDim)%Z = beta * C (i + j * CLDim)%Z.
Proof.
  intros Hm Hi Hj. unfold scaled.
  destruct (beta == zero) eqn:E0.
  - apply eqb_eq in E0. subst beta. rewrite nest_ji_in by trivial. ring.
  - destruct (beta == one) eqn:E1; simpl.
    + apply eqb_eq in E1. subst beta. ring.
    + rewrite nest_ji_in by trivial. ring.
Qed.

Lemma scaled_out m n beta C CLDim a :
  ~ in_window m n CLDim a -> scaled m n beta C CLDim a = C a.
Proof.
  intros Hout. unfold scaled.
  destruct (beta == zero); [now apply nest_ji_out|].
  destruct (beta == one); simpl; trivial. now apply nest_ji_out.
Qed.

(** The kernel, written with the named loop nests. *)
Lemma Gemm_unfold transA transB m n k alpha A ALDim B BLDim beta C CLDim :
  Gemm transA transB m n k alpha A ALDim B BLDim beta C CLDim =
  if (0 <? m)%Z && (0 <? n)%Z && (k =? 0)%Z && (beta == zero) then
    nest_ji m n CLDim (fun _ _ _ => zero) C
  else
    let C := scaled m n beta C CLDim in
    let dot (d : Z -> Z -> Z -> T) :=
      nest_ji m n CLDim
        (fun j i v => v + For 0 k (fun l gamma => gamma + d j i l) zero * alpha) C in
    if Ascii.eqb (toupper transA) "N" && Ascii.eqb (toupper transB) "N" then
      nest_jli m n CLDim k
        (fun j l i => A (i + l * ALDim)%Z * (alpha * B (l + j * BLDim)%Z)) C
    else if Ascii.eqb (toupper transA) "N" then
      if Ascii.eqb (toupper transB) "T" then
        nest_jli m n CLDim k
          (fun j l i => A (i + l * ALDim)%Z * (alpha * B (j + l * BLDim)%Z)) C
      else
        nest_jli m n CLDim k
          (fun j l i =>
             A (i + l * ALDim)%Z * (Conj (B (j + l * BLDim)%Z) * alpha)) C
    else if Ascii.eqb (toupper transB) "N" then
      if Ascii.eqb (toupper transA) "T" then
        dot (fun j i l => A (l + i * ALDim)%Z * B (l + j * BLDim)%Z)
      else
        dot (fun j i l => Conj (A (l + i * ALDim)%Z) * B (l + j * BLDim)%Z)
    else
      if Ascii.eqb (toupper transA) "T" && Ascii.eqb (toupper transB) "T" then
        dot (fun j i l => A (l + i * ALDim)%Z * B (j + l * BLDim)%Z)
      else if Ascii.eqb (toupper transA) "T" then
        dot (fun j i l => Conj (B (j + l * BLDim)%Z) * A (l + i * ALDim)%Z)
      else if Ascii.eqb (toupper transB) "T" then
        dot (fun j i l => Conj (A (l + i * ALDim)%Z) * B (j + l * BLDim)%Z)
      else
        dot (fun j i l =>
               Conj (A (l + i * ALDim)%Z) * Conj (B (j + l * BLDim)%Z)).
Proof. reflexivity. Qed.

(** ** Correctness of the kernel *)

(** The value the contract assigns to entry [(i,j)] of [C]. *)
Definition Gemm_entry (transA transB : ascii) (k : Z)
    (alpha : T) (A : buffer) (ALDim : Z) (B : buffer) (BLDim : Z)
    (beta : T) (C : buffer) (CLDim : Z) (i j : Z) : T :=
  alpha * sum k (fun l => op transA A ALDim i l * op transB B BLDim l j)
  + beta * C (i + j * CLDim)%Z.

Lemma dot_entry m n CLDim k alpha beta C (d : Z -> Z -> Z -> T) f i j :
  (m <= CLDim)%Z -> (0 <= i < m)%Z -> (0 <= j < n)%Z ->
  (forall l, (0 <= l < k)%Z -> d j i l = f l) ->
  nest_ji m n CLDim
    (fun j i v => v + For 0 k (fun l gamma => gamma + d j i l) zero * alpha)
    (scaled m n beta C CLDim) (i + j * CLDim)%Z =
  alpha * sum k f + beta * C (i + j * CLDim)%Z.
Proof.
  intros Hm Hi Hj Hd. rewrite nest_ji_in, scaled_in by trivial.
  rewrite accumulate. rewrite sum_ext with (g := f) by exact Hd. ring.
Qed.

Lemma axpy_entry m n CLDim k alpha beta C (u : Z -> Z -> Z -> T) f i j :
  (m <= CLDim)%Z -> (0 <= i < m)%Z -> (0 <= j < n)%Z ->
  (forall l, (0 <= l < k)%Z -> u j l i = alpha * f l) ->
  nest_jli m n CLDim k u (scaled m n beta C CLDim) (i + j * CLDim)%Z =
  alpha * sum k f + beta * C (i + j * CLDim)%Z.
Proof.
  intros Hm Hi Hj Hu. rewrite nest_jli_in, scaled_in by trivial.
  rewrite sum_scale with (c := alpha) (f := f) by exact Hu. ring.
Qed.

Ltac orient_cases HA HB :=
  destruct HA as [HA|[HA|HA]], HB as [HB|[HB|HB]];
  unfold op; rewrite ?HA, ?HB;
  repeat match goal with
         | |- context [Ascii.eqb ?x ?y] =>
             let b := eval vm_compute in (Ascii.eqb x y) in
             change (Ascii.eqb x y) with b
         end;
  cbn [andb].

(** Entry [(i,j)] of the window after the call. *)
Lemma Gemm_window transA transB m n k alpha A ALDim B BLDim beta C CLDim i j :
  orientation_char transA -> orientation_char transB ->
  (m <= CLDim)%Z -> (0 <= i < m)%Z -> (0 <= j < n)%Z ->
  Gemm transA transB m n k alpha A ALDim B BLDim beta C CLDim (i + j * CLDim)%Z =
  Gemm_entry transA transB k alpha A ALDim B BLDim beta C CLDim i j.
Proof.
  intros HA HB Hm Hi Hj. rewrite Gemm_unfold. unfold Gemm_entry.
  destruct ((0 <? m)%Z && (0 <? n)%Z && (k =? 0)%Z && (beta == zero)) eqn:E.
  - apply andb_true_iff in E. destruct E as [E Eb].
    apply andb_true_iff in E. destruct E as [_ Ek].
    apply eqb_eq in Eb. apply Z.eqb_eq in Ek. subst.
    rewrite nest_ji_in by trivial. rewrite sum_nil by lia. ring.
  - cbv zeta.
    orient_cases HA HB;
      first [ apply axpy_entry | apply dot_entry ]; trivial;
      intros l _; ring.
Qed.

(** C1. For orientation characters in N, T, C (either case), all
    [m, n, k >= 0] and a column-major [C] with leading dimension
    [CLDim >= m], [blas::Gemm] leaves in every entry [(i,j)] of the [m] x [n]
    window of [C] the value
    [alpha * (sum over l < k of op(A)(i,l) * op(B)(l,j)) + beta * C(i,j)],
    computed with the ring operations of the element type. *)
Theorem Gemm_correct transA transB m n k alpha A ALDim B BLDim beta C CLDim i j :
  orientation_char transA -> orientation_char transB ->
  (0 <= m)%Z -> (0 <= n)%Z -> (0 <= k)%Z -> (m <= CLDim)%Z ->
  (0 <= i < m)%Z -> (0 <= j < n)%Z ->
  Gemm transA transB m n k alpha A ALDim B BLDim beta C CLDim (i + j * CLDim)%Z =
  alpha * sum k (fun l => op transA A ALDim i l * op transB B BLDim l j)
  + beta * C (i + j * CLDim)%Z.
Proof.
  intros HA HB _ _ _ Hm Hi Hj. now apply Gemm_window.
Qed.

(** Cells of [C] outside the [m] x [n] window are not written. *)
Lemma Gemm_frame transA transB m n k alpha A ALDim B BLDim beta C CLDim a :
  ~ in_window m n CLDim a ->
  Gemm transA transB m n k alpha A ALDim B BLDim beta C CLDim a = C a.
Proof.
  intros Hout. rewrite Gemm_unfold.
  destruct ((0 <? m)%Z && (0 <? n)%Z && (k =? 0)%Z && (beta == zero)).
  - now apply nest_ji_out.
  - cbv zeta.
    repeat match goal with
           | |- context [if ?c then _ else _] => destruct c
           end;
      first [ rewrite nest_jli_out by trivial | rewrite nest_ji_out by trivial ];
      now apply scaled_out.
Qed.

End Kernel.

Arguments sum [T] k f.

End Blas.

(** ** The kernel on concrete arrays *)

Module BlasExamples.

(** An array initialised from a list; cells beyond the list hold [d]. *)
Definition of_list {V : Type} (d : V) (l : list V) : Z -> V :=
  fun a => if a <? 0 then d else nth (Z.to_nat a) l d.

(** The first [len] cells of an array. *)
Definition dump {V : Type} (len : nat) (C : Z -> V) : list V :=
  map (fun a => C (Z.of_nat a)) (seq 0 len).

(** [[1 3] [2 4]] * [[5 7] [6 8]] with [alpha = 1], [beta = 0], stored by
    columns. *)
Example gemm_nn_2x2 :
  dump 4 (@Blas.Gemm ZScalar "N" "N" 2 2 2 1
            (of_list 0 [1; 2; 3; 4]) 2 (of_list 0 [5; 6; 7; 8]) 2
            0 (of_list 0 [9; 9; 9; 9]) 2)
  = [23; 34; 31; 46].
Proof. vm_compute. reflexivity. Qed.

(** The same operands with [A] transposed, [alpha = 2], [beta = 3] and a
    padded [C] ([CLDim = 3]): the padding cells keep their value. *)
Example gemm_tn_2x2_padded :
  dump 6 (@Blas.Gemm ZScalar "t" "n" 2 2 2 2
            (of_list 0 [1; 2; 3; 4]) 2 (of_list 0 [5; 6; 7; 8]) 2
            3 (of_list 0 [1; 1; 77; 1; 1; 88]) 3)
  = [37; 81; 77; 49; 109; 88].
Proof. vm_compute. reflexivity. Qed.

(** Over the Gaussian integers with [B] conjugate-transposed:
    [(1+i) * conj(2+3i) = 5 - i]. *)
Example gemm_nc_gauss :
  dump 1 (@Blas.Gemm Gauss.GScalar "N" "C" 1 1 1 (1, 0)
            (of_list (0, 0) [(1, 1)]) 1 (of_list (0, 0) [(2, 3)]) 1
            (0, 0) (of_list (0, 0) [(7, 7)]) 1)
  = [(5, -1)].
Proof. vm_compute. reflexivity. Qed.

(** With a leading dimension smaller than [m] the columns of [C] overlap
    and the entries are no longer independent: the kernel relies on the
    column-major invariant [CLDim >= m]. *)
Example gemm_overlapping_columns :
  dump 3 (@Blas.Gemm ZScalar "N" "N" 2 2 0 1
            (of_list 0 []) 1 (of_list 0 []) 1
            2 (of_list 0 [1; 1; 1]) 1)
  = [2; 4; 2].
Proof. vm_compute. reflexivity. Qed.

Lemma Gemm_correct_witness :
  Blas.orientation_char "n" /\ Blas.orientation_char "C" /\
  0 <= 2 /\ 0 <= 2 /\ 0 <= 3 /\ 2 <= 4 /\ 0 <= 1 < 2 /\ 0 <= 1 < 2 /\
  @Blas.Gemm Gauss.GScalar "n" "C" 2 2 3 (2, 1)
     (of_list (0, 0) [(1, 1); (2, 0); (0, 1); (3, 3); (1, 0); (0, 2)]) 2
     (of_list (0, 0) [(1, 0); (0, 1); (2, 2); (1, 1); (3, 0); (0, 3)]) 2
     (1, 2) (of_list (0, 0) [(1, 0); (2, 0); (9, 9); (9, 9);
                             (3, 0); (4, 0); (9, 9); (9, 9)]) 4
     (1 + 1 * 4)
  = @Blas.Gemm_entry Gauss.GScalar "n" "C" 3 (2, 1)
     (of_list (0, 0) [(1, 1); (2, 0); (0, 1); (3, 3); (1, 0); (0, 2)]) 2
     (of_list (0, 0) [(1, 0); (0, 1); (2, 2); (1, 1); (3, 0); (0, 3)]) 2
     (1, 2) (of_list (0, 0) [(1, 0); (2, 0); (9, 9); (9, 9);
                             (3, 0); (4, 0); (9, 9); (9, 9)]) 4
     1 1.
Proof.
  assert (Hn : Blas.orientation_char "n") by (left; reflexivity).
  assert (Hc : Blas.orientation_char "C") by (right; right; reflexivity).
  do 8 (split; [first [assumption | lia]|]).
  apply (@Blas.Gemm_correct Gauss.GScalar "n" "C" 2 2 3); trivial; lia.
Defined.

End BlasExamples.

(* ===================================================================== *)
(** * Level 3: [Gemm] on matrices *)
(* ===================================================================== *)

(** How a call ends: normally, or with a [LogicError] thrown.  Both carry
    the state the caller is left with. *)
Inductive outcome (S : Type) : Type :=
| Done (s : S)
| LogicError (msg : string) (s : S).

Arguments Done {S} s.
Arguments LogicError {S} msg s.

Definition raised {S : Type} (o : outcome S) : bool :=
  match o with Done _ => false | LogicError _ _ => true end.

Definition final {S : Type} (o : outcome S) : S :=
  match o with Done s => s | LogicError _ s => s end.

Inductive Orientation : Type := NORMAL | TRANSPOSE | ADJOINT.

Definition is_normal (o : Orientation) : bool :=
  match o with NORMAL => true | _ => false end.

(** Modelled from the spec: [OrientationToChar] is declared outside the given
    sources; it yields the BLAS character of the orientation ("op is the
    identity for 'N', transpose for 'T', and conjugate-transpose for 'C'"). *)
Definition OrientationToChar (o : Orientation) : ascii :=
  match o with NORMAL => "N" | TRANSPOSE => "T" | ADJOINT => "C" end%char.

Module Level3.

Section Sequential.

Variable T : Scalar.
Add Ring TRing3 : (scalar_ring T).
Local Open Scope scalar_scope.

(** [Matrix<T>]: a column-major window of [Height] x [Width] entries with
    leading dimension [LDim]; [Buffer] is the memory seen from [Buffer()]. *)
Record Matrix : Type := {
  Height : Z;
  Width : Z;
  LDim : Z;
  Buffer : Blas.buffer T
}.

Definition with_buffer (M : Matrix) (b : Blas.buffer T) : Matrix :=
  {| Height := Height M; Width := Width M; LDim := LDim M; Buffer := b |}.

(** [A.Get(i,j)]. *)
Definition Get (M : Matrix) (i j : Z) : T := Buffer M (i + j * LDim M)%Z.

(** The layout invariant of the data model: "dimensioned by leading
    dimension >= local height". *)
Definition well_formed (M : Matrix) : Prop :=
  (0 <= Height M /\ 0 <= Width M /\ Height M <= LDim M)%Z.

(** [MemZero( buf, n )]: clears [n] cells starting at [buf + start]. *)
Definition MemZero (start n : Z) (b : Blas.buffer T) : Blas.buffer T :=
  For 0 n (fun x b => Blas.upd b (start + x)%Z zero) b.

(** [Zero( Matrix<T>& A )], Zero.hpp. *)
Definition Zero (A : Matrix) : Matrix :=
  let height := Height A in
  let width := Width A in
  let ALDim := LDim A in
  let ABuf := Buffer A in
  if (ALDim =? height)%Z then
    with_buffer A (MemZero 0 (height * width) ABuf)
  else
    with_buffer A
      (For 0 width (fun j b => MemZero (j * ALDim) height b) ABuf).

(** Modelled from the spec: [Matrix::operator*=] is declared outside the
    given sources; it is the scale phase, "apply beta to C in place (local
    scalar multiply per process, no communication -- this also handles beta=0
    as a zeroing shortcut)". *)
Definition Scale (beta : T) (C : Matrix) : Matrix :=
  if beta == zero then Zero C
  else if negb (beta == one) then
    with_buffer C
      (For 0 (Width C) (fun j b =>
         For 0 (Height C) (fun i b =>
           Blas.upd b (i + j * LDim C)%Z (b (i + j * LDim C)%Z * beta)) b)
         (Buffer C))
  else C.

(** The conformance test at the head of [Gemm]: the message of the
    [LogicError] it throws, if any. *)
Definition conformance_error (orientA orientB : Orientation)
    (A B C : Matrix) : option string :=
  if is_normal orientA && is_normal orientB then
    if negb (Height A =? Height C)%Z ||
       negb (Width B =? Width C)%Z ||
       negb (Width A =? Height B)%Z
    then Some "Nonconformal GemmNN"%string else None
  else if is_normal orientA then
    if negb (Height A =? Height C)%Z ||
       negb (Height B =? Width C)%Z ||
       negb (Width A =? Width B)%Z
    then Some "Nonconformal GemmN(T/C)"%string else None
  else if is_normal orientB then
    if negb (Width A =? Height C)%Z ||
       negb (Width B =? Width C)%Z ||
       negb (Height A =? Height B)%Z
    then Some "Nonconformal Gemm(T/C)N"%string else None
  else
    if negb (Width A =? Height C)%Z ||
       negb (Height B =? Width C)%Z ||
       negb (Height A =? Width B)%Z
    then Some "Nonconformal Gemm(T/C)(T/C)"%string else None.

(** [Gemm( orientA, orientB, alpha, A, B, beta, C )] on [Matrix<T>],
    Gemm.cpp lines 33-105, on the CPU path (the initial value of
    [gemm_cpu_gpu_switch]).  The state is the matrix [C]. *)
Definition Gemm (orientA orientB : Orientation)
    (alpha : T) (A B : Matrix) (beta : T) (C : Matrix) : outcome Matrix :=
  match conformance_error orientA orientB A B C with
  | Some msg => LogicError msg C
  | None =>
      let transA := OrientationToChar orientA in
      let transB := OrientationToChar orientB in
      let m := Height C in
      let n := Width C in
      let k := if is_normal orientA then Width A else Height A in
      if negb (k =? 0)%Z then
        Done (with_buffer C
                (Blas.Gemm transA transB m n k
                   alpha (Buffer A) (LDim A) (Buffer B) (LDim B)
                   beta (Buffer C) (LDim C)))
      else
        Done (Scale beta C)
  end.

(** ** Conformance, in the words of the contract *)

(** Height and width of [op(M)]. *)
Definition opHeight (o : Orientation) (M : Matrix) : Z :=
  if is_normal o then Height M else Width M.
Definition opWidth (o : Orientation) (M : Matrix) : Z :=
  if is_normal o then Width M else Height M.

(** [op(A)] is [C.Height x k], [op(B)] is [k x C.Width]. *)
Definition conformal (orientA orientB : Orientation) (A B C : Matrix) : Prop :=
  opHeight orientA A = Height C /\
  opWidth orientB B = Width C /\
  opWidth orientA A = opHeight orientB B.

Lemma conformance_error_None orientA orientB A B C :
  conformance_error orientA orientB A B C = None <->
  conformal orientA orientB A B C.
Proof.
  unfold conformance_error, conformal, opHeight, opWidth.
  destruct (is_normal orientA), (is_normal orientB); cbn [andb];
    match goal with
    | |- context [negb (?a =? ?b)%Z || negb (?c =? ?d)%Z || negb (?e =? ?f)%Z] =>
        destruct (Z.eqb_spec a b), (Z.eqb_spec c d), (Z.eqb_spec e f)
    end; cbn [negb orb]; split; intros H;
    try discriminate; try reflexivity; try tauto.
Qed.

Lemma Gemm_raises_iff orientA orientB alpha A B beta C :
  raised (Gemm orientA orientB alpha A B beta C) = true <->
  ~ conformal orientA orientB A B C.
Proof.
  rewrite <- conformance_error_None. unfold Gemm.
  destruct (conformance_error orientA orientB A B C) eqn:E.
  - cbn. split; [discriminate | reflexivity].
  - destruct (negb _); cbn; split; try discriminate; intros H; now elim H.
Qed.

Lemma Gemm_raise_keeps_C orientA orientB alpha A B beta C :
  raised (Gemm orientA orientB alpha A B beta C) = true ->
  final (Gemm orientA orientB alpha A B beta C) = C.
Proof.
  unfold Gemm.
  destruct (conformance_error orientA orientB A B C) eqn:E; cbn; trivial.
  destruct (negb _); cbn; discriminate.
Qed.

(** ** Zeroing and scaling, entry by entry *)

Lemma MemZero_spec start n b a :
  MemZero start n b a =
  if ((start <=? a) && (a <? start + n))%Z then zero else b a.
Proof.
  unfold MemZero.
  rewrite (For_pointwise (V := T)
             (fun x b => Blas.upd b (start + x)%Z zero)
             (fun x a v => if (a - start =? x)%Z then zero else v)).
  - rewrite For_select.
    destruct (Z.leb_spec 0 (a - start)), (Z.ltb_spec (a - start) n),
      (Z.leb_spec start a), (Z.ltb_spec a (start + n));
      simpl; trivial; lia.
  - intros x C0 c _. rewrite Blas.upd_eq.
    destruct (Z.eqb_spec c (start + x)), (Z.eqb_spec (c - start) x);
      subst; trivial; lia.
Qed.

(** With [LDim = Height] the window is the contiguous block of
    [Height * Width] cells. *)
Lemma contiguous_window h w a :
  (0 <= h)%Z -> (0 <= w)%Z ->
  (0 <= a < h * w)%Z <-> Blas.in_window h w h a.
Proof.
  intros Hh Hw. split.
  - intros Ha. assert (0 < h)%Z by nia.
    exists (a mod h)%Z, (a / h)%Z.
    pose proof (Z.mod_pos_bound a h ltac:(lia)).
    pose proof (Z.div_mod a h ltac:(lia)).
    assert (0 <= a / h)%Z by (apply Z.div_pos; lia).
    assert (a / h < w)%Z by (apply Z.div_lt_upper_bound; lia).
    lia.
  - intros (i & j & Hi & Hj & ->). nia.
Qed.

Lemma Zero_dims A :
  Height (Zero A) = Height A /\ Width (Zero A) = Width A /\
  LDim (Zero A) = LDim A.
Proof. unfold Zero. destruct (_ =? _)%Z; cbn; auto. Qed.

Lemma Zero_column_loop h w ld (b : Blas.buffer T) :
  forall j C a, (0 <= j < w)%Z ->
    MemZero (j * ld) h C a =
    if Blas.in_col h ld j a then (fun _ _ _ => zero) j (a - j * ld)%Z (C a)
    else C a.
Proof. intros j C a _. rewrite MemZero_spec. reflexivity. Qed.

Lemma Zero_in A i j :
  well_formed A -> (0 <= i < Height A)%Z -> (0 <= j < Width A)%Z ->
  Get (Zero A) i j = zero.
Proof.
  intros (Hh & Hw & Hl) Hi Hj. unfold Get, Zero.
  destruct (Z.eqb_spec (LDim A) (Height A)) as [E|E]; cbn.
  - rewrite MemZero_spec. rewrite E.
    assert (0 <= i + j * Height A < Height A * Width A)%Z by nia.
    destruct (Z.leb_spec 0 (i + j * Height A)),
      (Z.ltb_spec (i + j * Height A) (0 + Height A * Width A));
      simpl; trivial; lia.
  - rewrite (Blas.For_matrix_in (m := Height A) _ (fun _ _ _ => zero));
      trivial.
    apply Zero_column_loop. exact (Buffer A).
Qed.

Lemma Zero_out A a :
  well_formed A -> ~ Blas.in_window (Height A) (Width A) (LDim A) a ->
  Buffer (Zero A) a = Buffer A a.
Proof.
  intros (Hh & Hw & Hl) Hout. unfold Zero.
  destruct (Z.eqb_spec (LDim A) (Height A)) as [E|E]; cbn.
  - rewrite MemZero_spec. rewrite E in Hout.
    destruct (Z.leb_spec 0 a), (Z.ltb_spec a (0 + Height A * Width A));
      simpl; trivial.
    exfalso. apply Hout. apply contiguous_window; lia.
  - apply (Blas.For_matrix_out (m := Height A) (CLDim := LDim A)
             _ (fun _ _ _ => zero)); trivial.
    apply Zero_column_loop. exact (Buffer A).
Qed.

Lemma Scale_dims beta C :
  Height (Scale beta C) = Height C /\ Width (Scale beta C) = Width C /\
  LDim (Scale beta C) = LDim C.
Proof.
  unfold Scale. destruct (beta == zero); [apply Zero_dims|].
  destruct (negb _); cbn; auto.
Qed.

Lemma Scale_unfold beta C :
  Scale beta C =
  if beta == zero then Zero C
  else if negb (beta == one) then
    with_buffer C
      (Blas.nest_ji (Height C) (Width C) (LDim C) (fun _ _ v => v * beta)
         (Buffer C))
  else C.
Proof. reflexivity. Qed.

Lemma Scale_in beta C i j :
  well_formed C -> (0 <= i < Height C)%Z -> (0 <= j < Width C)%Z ->
  Get (Scale beta C) i j = beta * Get C i j.
Proof.
  intros Hwf Hi Hj. rewrite Scale_unfold.
  destruct (beta == zero) eqn:E0.
  - apply eqb_eq in E0. subst. rewrite Zero_in by trivial. ring.
  - destruct (beta == one) eqn:E1; cbn [negb].
    + apply eqb_eq in E1. subst. ring.
    + unfold Get. cbn [LDim Buffer with_buffer].
      destruct Hwf as (_ & _ & Hl).
      rewrite Blas.nest_ji_in by trivial.
      ring.
Qed.

Lemma Scale_zero_in C i j :
  well_formed C -> (0 <= i < Height C)%Z -> (0 <= j < Width C)%Z ->
  Get (Scale zero C) i j = zero.
Proof. intros Hwf Hi Hj. rewrite Scale_in by trivial. ring. Qed.

Lemma Scale_out beta C a :
  well_formed C -> ~ Blas.in_window (Height C) (Width C) (LDim C) a ->
  Buffer (Scale beta C) a = Buffer C a.
Proof.
  intros Hwf Hout. rewrite Scale_unfold.
  destruct (beta == zero); [now apply Zero_out|].
  destruct (beta == one); cbn [negb]; trivial.
  cbn [Buffer with_buffer].
  now apply Blas.nest_ji_out.
Qed.

(** ** What [Gemm] leaves in [C] *)

(** Entry [(r,c)] of [op(M)]. *)
Definition opGet (o : Orientation) (M : Matrix) (r c : Z) : T :=
  match o with
  | NORMAL => Get M r c
  | TRANSPOSE => Get M c r
  | ADJOINT => Conj (Get M c r)
  end.

Lemma op_OrientationToChar o M r c :
  Blas.op (OrientationToChar o) (Buffer M) (LDim M) r c = opGet o M r c.
Proof. destruct o; reflexivity. Qed.

Lemma orientation_char_OrientationToChar o :
  Blas.orientation_char (OrientationToChar o).
Proof.
  destruct o; [left | right; left | right; right]; reflexivity.
Qed.

(** Entry [(i,j)] of [alpha op(A) op(B) + beta C]. *)
Definition Gemm_value (orientA orientB : Orientation)
    (alpha : T) (A B : Matrix) (beta : T) (C : Matrix) (i j : Z) : T :=
  alpha * Blas.sum (opWidth orientA A)
            (fun l => opGet orientA A i l * opGet orientB B l j)
  + beta * Get C i j.

Lemma Gemm_final_dims orientA orientB alpha A B beta C :
  let C' := final (Gemm orientA orientB alpha A B beta C) in
  Height C' = Height C /\ Width C' = Width C /\ LDim C' = LDim C.
Proof.
  unfold Gemm. destruct (conformance_error _ _ _ _ _); cbn; auto.
  destruct (negb _); cbn; auto. apply Scale_dims.
Qed.

Lemma Gemm_final_in orientA orientB alpha A B beta C i j :
  conformal orientA orientB A B C -> well_formed C ->
  (0 <= i < Height C)%Z -> (0 <= j < Width C)%Z ->
  Get (final (Gemm orientA orientB alpha A B beta C)) i j =
  Gemm_value orientA orientB alpha A B beta C i j.
Proof.
  intros Hc Hwf Hi Hj. unfold Gemm.
  apply conformance_error_None in Hc. rewrite Hc.
  unfold Gemm_value, opWidth. cbv zeta.
  destruct (Z.eqb_spec (if is_normal orientA then Width A else Height A) 0)
    as [E|E]; cbn [negb final].
  - rewrite Scale_in by trivial. rewrite E, Blas.sum_nil by lia. ring.
  - unfold Get at 1. cbn [Buffer LDim with_buffer].
    destruct Hwf as (_ & _ & Hl).
    rewrite Blas.Gemm_window;
      auto using orientation_char_OrientationToChar.
    unfold Blas.Gemm_entry. f_equal. f_equal.
    apply Blas.sum_ext. intros l _.
    now rewrite !op_OrientationToChar.
Qed.

Lemma Gemm_final_out orientA orientB alpha A B beta C a :
  well_formed C ->
  ~ Blas.in_window (Height C) (Width C) (LDim C) a ->
  Buffer (final (Gemm orientA orientB alpha A B beta C)) a = Buffer C a.
Proof.
  intros Hwf Hout. unfold Gemm.
  destruct (conformance_error _ _ _ _ _); cbn [final]; trivial.
  cbv zeta. destruct (negb _); cbn [final Buffer with_buffer].
  - now apply Blas.Gemm_frame.
  - now apply Scale_out.
Qed.

Lemma Gemm_conformal_Done orientA orientB alpha A B beta C :
  conformal orientA orientB A B C ->
  Gemm orientA orientB alpha A B beta C =
  Done (final (Gemm orientA orientB alpha A B beta C)).
Proof.
  intros Hc. apply conformance_error_None in Hc. unfold Gemm. rewrite Hc.
  cbv zeta. now destruct (negb _).
Qed.

(** With a zero contraction dimension the call is the scale phase alone:
    neither [alpha] nor the operands' buffers are looked at. *)
Lemma Gemm_k0 orientA orientB alpha A B beta C :
  conformal orientA orientB A B C ->
  (if is_normal orientA then Width A else Height A) = 0%Z ->
  Gemm orientA orientB alpha A B beta C = Done (Scale beta C).
Proof.
  intros Hc Hk. apply conformance_error_None in Hc. unfold Gemm.
  rewrite Hc. cbv zeta. rewrite Hk. reflexivity.
Qed.

End Sequential.

(** ** The distributed overload *)

Section Distributed.

Variable T : Scalar.
Local Open Scope scalar_scope.

(** Modelled from the spec: [GemmAlgorithm] is declared outside the given
    sources; the entry point only tests it against [GEMM_CANNON] and hands it
    on to the chosen variant of the "collective algorithm skeleton". *)
Inductive GemmAlgorithm : Type :=
| GEMM_DEFAULT | GEMM_SUMMA_A | GEMM_SUMMA_B | GEMM_SUMMA_C
| GEMM_SUMMA_DOT | GEMM_CANNON.

Definition is_cannon (alg : GemmAlgorithm) : bool :=
  match alg with GEMM_CANNON => true | _ => false end.

(** [AbstractDistMatrix<T>] as one process holds it: the global extent and
    the local matrix. *)
Record AbstractDistMatrix : Type := {
  DHeight : Z;
  DWidth : Z;
  LocalMatrix : Matrix T
}.

(** A collective or point-to-point call issued by the calling process. *)
Inductive Comm : Type :=
| Redistribution (operand : string)
| Reduction (panel : Z)
| PanelBroadcast (panel : Z).

(** The state of a distributed call: the output matrix and the
    communication issued so far. *)
Definition DistState : Type := (AbstractDistMatrix * list Comm)%type.

(** Modelled from the spec: [AbstractDistMatrix::operator*=] is declared
    outside the given sources; the scale phase is a "local scalar multiply
    per process, no communication". *)
Definition ScaleDist (beta : T) (C : AbstractDistMatrix) : AbstractDistMatrix :=
  {| DHeight := DHeight C; DWidth := DWidth C;
     LocalMatrix := Scale beta (LocalMatrix C) |}.

(** The algorithm variants the entry point dispatches to ([gemm::Cannon_NN],
    [gemm::SUMMA_NN], ... of Gemm/NN.hpp, NT.hpp, TN.hpp, TT.hpp, which are
    not among the given sources). *)
Record Variants : Type := {
  Cannon_NN : T -> AbstractDistMatrix -> AbstractDistMatrix ->
              AbstractDistMatrix -> outcome DistState;
  SUMMA_NN : T -> AbstractDistMatrix -> AbstractDistMatrix ->
             AbstractDistMatrix -> GemmAlgorithm -> outcome DistState;
  SUMMA_NT : Orientation -> T -> AbstractDistMatrix -> AbstractDistMatrix ->
             AbstractDistMatrix -> GemmAlgorithm -> outcome DistState;
  SUMMA_TN : Orientation -> T -> AbstractDistMatrix -> AbstractDistMatrix ->
             AbstractDistMatrix -> GemmAlgorithm -> outcome DistState;
  SUMMA_TT : Orientation -> Orientation -> T -> AbstractDistMatrix ->
             AbstractDistMatrix -> AbstractDistMatrix -> GemmAlgorithm ->
             outcome DistState
}.

(** [Gemm( orientA, orientB, alpha, A, B, beta, C, alg )] on
    [AbstractDistMatrix<T>], Gemm.cpp lines 122-151. *)
Definition GemmDist (V : Variants) (orientA orientB : Orientation)
    (alpha : T) (A B : AbstractDistMatrix) (beta : T)
    (C : AbstractDistMatrix) (alg : GemmAlgorithm) : outcome DistState :=
  let C := ScaleDist beta C in
  if is_normal orientA && is_normal orientB then
    if is_cannon alg then Cannon_NN V alpha A B C
    else SUMMA_NN V alpha A B C alg
  else if is_normal orientA then
    SUMMA_NT V orientB alpha A B C alg
  else if is_normal orientB then
    SUMMA_TN V orientA alpha A B C alg
  else
    SUMMA_TT V orientA orientB alpha A B C alg.

(** Global conformance of distributed operands: [op(A)] is
    [C.Height x K] and [op(B)] is [K x C.Width]. *)
Definition contraction (orientA : Orientation) (A : AbstractDistMatrix) : Z :=
  if is_normal orientA then DWidth A else DHeight A.

Definition dist_conformalb (orientA orientB : Orientation)
    (A B C : AbstractDistMatrix) : bool :=
  ((if is_normal orientA then DHeight A else DWidth A) =? DHeight C)%Z &&
  ((if is_normal orientB then DWidth B else DHeight B) =? DWidth C)%Z &&
  (contraction orientA A =?
     (if is_normal orientB then DHeight B else DWidth B))%Z.

Definition dist_conformal (orientA orientB : Orientation)
    (A B C : AbstractDistMatrix) : Prop :=
  (if is_normal orientA then DHeight A else DWidth A) = DHeight C /\
  (if is_normal orientB then DWidth B else DHeight B) = DWidth C /\
  contraction orientA A = (if is_normal orientB then DHeight B else DWidth B).

Lemma dist_conformalb_spec orientA orientB A B C :
  dist_conformalb orientA orientB A B C = true <->
  dist_conformal orientA orientB A B C.
Proof.
  unfold dist_conformalb, dist_conformal.
  rewrite !andb_true_iff, !Z.eqb_eq. tauto.
Qed.

Section Skeleton.

(** The panel phase of a variant for [K <> 0] (operand alignment, panel
    decomposition, reduction): code outside the given sources, left open. *)
Variable panels :
  Orientation -> Orientation -> T -> AbstractDistMatrix ->
  AbstractDistMatrix -> AbstractDistMatrix -> GemmAlgorithm -> DistState.

(** Modelled from the spec: the algorithm variants are outside the given
    sources.  "dimension mismatches between A, B, C ... are reported before
    any communication is issued"; "k=0 contraction dimension short-circuits
    to the pure-scale step"; otherwise operands are aligned, panels are
    multiplied locally and reduced. *)
Definition skeleton (orientA orientB : Orientation) (alpha : T)
    (A B C : AbstractDistMatrix) (alg : GemmAlgorithm) : outcome DistState :=
  if negb (dist_conformalb orientA orientB A B C) then
    LogicError "Nonconformal matrices" (C, [])
  else if (contraction orientA A =? 0)%Z then
    Done (C, [])
  else
    Done (panels orientA orientB alpha A B C alg).

Definition SpecVariants : Variants :=
  {| Cannon_NN := fun alpha A B C =>
                    skeleton NORMAL NORMAL alpha A B C GEMM_CANNON;
     SUMMA_NN := skeleton NORMAL NORMAL;
     SUMMA_NT := skeleton NORMAL;
     SUMMA_TN := fun orientA => skeleton orientA NORMAL;
     SUMMA_TT := skeleton |}.

(** With these variants the entry point is the skeleton run on the scaled
    [C]. *)
Lemma GemmDist_skeleton orientA orientB alpha A B beta C alg :
  GemmDist SpecVariants orientA orientB alpha A B beta C alg =
  skeleton orientA orientB alpha A B (ScaleDist beta C) alg.
Proof.
  unfold GemmDist.
  destruct orientA, orientB; cbn [is_normal andb]; try reflexivity.
  destruct alg; reflexivity.
Qed.

Lemma GemmDist_raises orientA orientB alpha A B beta C alg :
  dist_conformalb orientA orientB A B C = false ->
  GemmDist SpecVariants orientA orientB alpha A B beta C alg =
  LogicError "Nonconformal matrices" (ScaleDist beta C, []).
Proof.
  intros H. rewrite GemmDist_skeleton. unfold skeleton.
  change (dist_conformalb orientA orientB A B (ScaleDist beta C))
    with (dist_conformalb orientA orientB A B C).
  now rewrite H.
Qed.

Lemma GemmDist_k0 orientA orientB alpha A B beta C alg :
  dist_conformalb orientA orientB A B C = true ->
  contraction orientA A = 0%Z ->
  GemmDist SpecVariants orientA orientB alpha A B beta C alg =
  Done (ScaleDist beta C, []).
Proof.
  intros H Hk. rewrite GemmDist_skeleton. unfold skeleton.
  change (dist_conformalb orientA orientB A B (ScaleDist beta C))
    with (dist_conformalb orientA orientB A B C).
  rewrite H, Hk. reflexivity.
Qed.

Lemma GemmDist_raised_iff orientA orientB alpha A B beta C alg :
  raised (GemmDist SpecVariants orientA orientB alpha A B beta C alg) = true <->
  dist_conformalb orientA orientB A B C = false.
Proof.
  rewrite GemmDist_skeleton. unfold skeleton.
  change (dist_conformalb orientA orientB A B (ScaleDist beta C))
    with (dist_conformalb orientA orientB A B C).
  destruct (dist_conformalb orientA orientB A B C); cbn [negb].
  - destruct (_ =? _)%Z; cbn; split; discriminate.
  - cbn. split; reflexivity.
Qed.

End Skeleton.

End Distributed.

End Level3.

(** ** Conformance errors and the zero-contraction shortcut *)

Module GemmClaims.

Import Level3.

(** C3 (as amended). The sequential [Matrix] overload raises its
    nonconformal-dimensions error exactly when the shapes violate the
    conformance conditions of the orientation pair, and then [C] is as it
    was.  The distributed overload has no check of its own: it scales [C] by
    [beta] first (a local step) and dispatches; with variants that check on
    entry it raises exactly on nonconformal global shapes, before any
    communication, and leaves [C] scaled by [beta]. *)
Theorem Gemm_conformance (T : Scalar) (orientA orientB : Orientation)
    (alpha beta : T) :
  (forall A B C : Matrix T,
     (raised (Gemm orientA orientB alpha A B beta C) = true <->
      ~ conformal orientA orientB A B C) /\
     (raised (Gemm orientA orientB alpha A B beta C) = true ->
      final (Gemm orientA orientB alpha A B beta C) = C)) /\
  (forall panels (A B C : AbstractDistMatrix T) (alg : GemmAlgorithm),
     (raised (GemmDist (SpecVariants panels)
                orientA orientB alpha A B beta C alg) = true <->
      ~ dist_conformal orientA orientB A B C) /\
     (raised (GemmDist (SpecVariants panels)
                orientA orientB alpha A B beta C alg) = true ->
      final (GemmDist (SpecVariants panels)
               orientA orientB alpha A B beta C alg) =
      (ScaleDist beta C, []))).
Proof.
  split.
  - intros A B C. split.
    + apply Gemm_raises_iff.
    + apply Gemm_raise_keeps_C.
  - intros panels A B C alg. split.
    + rewrite GemmDist_raised_iff, <- dist_conformalb_spec.
      destruct (dist_conformalb orientA orientB A B C); split;
        intros H; try discriminate; try reflexivity; try congruence.
    + intros H. apply GemmDist_raised_iff in H.
      now rewrite GemmDist_raises.
Qed.

(** A 1 x 1 matrix of integers. *)
Definition single (v : Z) : Matrix ZScalar :=
  @Build_Matrix ZScalar 1 1 1 (BlasExamples.of_list 0 [v]).

Definition dist (h w : Z) (M : Matrix ZScalar) : AbstractDistMatrix ZScalar :=
  {| DHeight := h; DWidth := w; LocalMatrix := M |}.

Definition no_panels :
  Orientation -> Orientation -> ZScalar -> AbstractDistMatrix ZScalar ->
  AbstractDistMatrix ZScalar -> AbstractDistMatrix ZScalar ->
  GemmAlgorithm -> DistState ZScalar :=
  fun _ _ _ _ _ C _ => (C, []).

(** The distributed overload called with [A] 1 x 1, [B] 2 x 2 and [C] 1 x 1
    holding 1, [beta = 2]: the error is raised, and [C] holds 2 by then. *)
Lemma GemmDist_scales_before_raising :
  raised (GemmDist (SpecVariants no_panels) NORMAL NORMAL
            (1 : ZScalar) (dist 1 1 (single 5)) (dist 2 2 (single 7))
            (2 : ZScalar) (dist 1 1 (single 1)) GEMM_DEFAULT) = true /\
  Get (LocalMatrix
         (fst (final (GemmDist (SpecVariants no_panels) NORMAL NORMAL
                        (1 : ZScalar) (dist 1 1 (single 5))
                        (dist 2 2 (single 7))
                        (2 : ZScalar) (dist 1 1 (single 1)) GEMM_DEFAULT))))
      0 0 = 2 /\
  Get (LocalMatrix (dist 1 1 (single 1))) 0 0 = 1.
Proof. vm_compute. auto. Qed.

(** The sequential overload on the same shapes leaves [C] alone. *)
Example Gemm_raises_untouched :
  Gemm NORMAL NORMAL (1 : ZScalar) (single 5)
    (@Build_Matrix ZScalar 2 2 2 (BlasExamples.of_list 0 [1; 2; 3; 4]))
    (2 : ZScalar) (single 1)
  = LogicError "Nonconformal GemmNN" (single 1).
Proof. reflexivity. Qed.

(** C5. With a zero contraction dimension the sequential [Gemm] is the
    scale [C := beta C] alone, whatever [alpha] and the buffers of [A] and
    [B] hold; every entry becomes [beta] times its old value, so zero for
    [beta = 0].  The distributed [Gemm] with [K = 0] and [beta = 0] ends
    with no communication issued, the extent of [C] unchanged (the output
    shape of [op(A) op(B)]) and every local entry zero. *)
Theorem Gemm_zero_contraction (T : Scalar) (orientA orientB : Orientation)
    (alpha beta : T) :
  (forall A B C : Matrix T,
     conformal orientA orientB A B C -> well_formed C ->
     opWidth orientA A = 0 ->
     Gemm orientA orientB alpha A B beta C = Done (Scale beta C) /\
     (forall alpha' bufA bufB,
        Gemm orientA orientB alpha' (with_buffer A bufA) (with_buffer B bufB)
          beta C = Gemm orientA orientB alpha A B beta C) /\
     (forall i j, 0 <= i < Height C -> 0 <= j < Width C ->
        Get (Scale beta C) i j = mul beta (Get C i j) /\
        (beta = zero -> Get (Scale beta C) i j = zero))) /\
  (forall panels (A B C : AbstractDistMatrix T) (alg : GemmAlgorithm),
     dist_conformal orientA orientB A B C ->
     well_formed (LocalMatrix C) ->
     contraction orientA A = 0 ->
     GemmDist (SpecVariants panels) orientA orientB alpha A B zero C alg =
       Done (ScaleDist zero C, []) /\
     DHeight (ScaleDist zero C) =
       (if is_normal orientA then DHeight A else DWidth A) /\
     DWidth (ScaleDist zero C) =
       (if is_normal orientB then DWidth B else DHeight B) /\
     (forall i j,
        0 <= i < Height (LocalMatrix C) -> 0 <= j < Width (LocalMatrix C) ->
        Get (LocalMatrix (ScaleDist zero C)) i j = zero)).
Proof.
  split.
  - intros A B C Hc Hwf Hk. split; [|split].
    + apply Gemm_k0; trivial.
    + intros alpha' bufA bufB. rewrite !Gemm_k0; trivial.
    + intros i j Hi Hj. split.
      * now apply Scale_in.
      * intros ->. now apply Scale_zero_in.
  - intros panels A B C alg Hc Hwf Hk. split; [|split; [|split]].
    + apply GemmDist_k0; trivial. now apply dist_conformalb_spec.
    + cbn. symmetry. apply Hc.
    + cbn. symmetry. apply Hc.
    + intros i j Hi Hj. cbn [LocalMatrix ScaleDist].
      now apply Scale_zero_in.
Qed.

(** A 2 x 0 by 0 x 3 product added to a 2 x 3 matrix. *)
Definition A20 : Matrix ZScalar :=
  @Build_Matrix ZScalar 2 0 2 (BlasExamples.of_list 0 []).
Definition B03 : Matrix ZScalar :=
  @Build_Matrix ZScalar 0 3 1 (BlasExamples.of_list 0 []).
Definition C23 : Matrix ZScalar :=
  @Build_Matrix ZScalar 2 3 2 (BlasExamples.of_list 0 [1; 2; 3; 4; 5; 6]).

Lemma Gemm_zero_contraction_witness :
  conformal NORMAL NORMAL A20 B03 C23 /\ well_formed C23 /\
  opWidth NORMAL A20 = 0 /\
  Gemm NORMAL NORMAL (7 : ZScalar) A20 B03 (3 : ZScalar) C23
    = Done (Scale (3 : ZScalar) C23) /\
  dist_conformal NORMAL NORMAL (dist 2 0 A20) (dist 0 3 B03) (dist 2 3 C23) /\
  contraction NORMAL (dist 2 0 A20) = 0 /\
  GemmDist (SpecVariants no_panels) NORMAL NORMAL (7 : ZScalar)
    (dist 2 0 A20) (dist 0 3 B03) (0 : ZScalar) (dist 2 3 C23) GEMM_DEFAULT
    = Done (ScaleDist (0 : ZScalar) (dist 2 3 C23), []).
Proof.
  assert (Hc : conformal NORMAL NORMAL A20 B03 C23) by (repeat split).
  assert (Hwf : well_formed C23) by (unfold well_formed; cbn; lia).
  assert (Hk : opWidth NORMAL A20 = 0) by reflexivity.
  assert (Hdc : dist_conformal NORMAL NORMAL (dist 2 0 A20) (dist 0 3 B03)
                  (dist 2 3 C23)) by (repeat split).
  assert (Hdk : contraction NORMAL (dist 2 0 A20) = 0) by reflexivity.
  split; [exact Hc|]. split; [exact Hwf|]. split; [exact Hk|].
  split.
  { exact (proj1 (proj1 (@Gemm_zero_contraction ZScalar NORMAL NORMAL
                           (7 : ZScalar) (3 : ZScalar))
                    A20 B03 C23 Hc Hwf Hk)). }
  split; [exact Hdc|]. split; [exact Hdk|].
  exact (proj1 (proj2 (@Gemm_zero_contraction ZScalar NORMAL NORMAL
                         (7 : ZScalar) (3 : ZScalar))
                  no_panels (dist 2 0 A20) (dist 0 3 B03) (dist 2 3 C23)
                  GEMM_DEFAULT Hdc Hwf Hdk)).
Defined.

End GemmClaims.

(* ===================================================================== *)
(** * Cyclic distributions: shifts and local lengths *)
(* ===================================================================== *)

Module Distribution.

(** Modelled from the spec: [utilities::Shift] is declared outside the given
    sources.  The shift is the "alignment adjusted by this process's grid
    coordinate": the first global index owned by the process with the given
    [rank], when index 0 belongs to rank [align] and indices are dealt out
    cyclically over [modulus] ranks. *)
Definition Shift (rank align modulus : Z) : Z :=
  Z.rem (rank + modulus - align) modulus.

(** Modelled from the spec: [utilities::LocalLength] is declared outside the
    given sources.  "local height = ceil((M - colShift)/stride)": the number
    of indices [shift, shift + modulus, ...] below [n]. *)
Definition LocalLength (n shift modulus : Z) : Z :=
  if n >? shift then Z.quot (n - shift - 1) modulus + 1 else 0.

Lemma Shift_mod rank align modulus :
  0 <= rank -> 0 <= align < modulus ->
  Shift rank align modulus = (rank - align) mod modulus.
Proof.
  intros Hr Ha. unfold Shift. rewrite Z.rem_mod_nonneg by lia.
  replace (rank + modulus - align) with (rank - align + 1 * modulus) by lia.
  apply Z.mod_add. lia.
Qed.

Lemma Shift_range rank align modulus :
  0 <= rank -> 0 <= align < modulus ->
  0 <= Shift rank align modulus < modulus.
Proof.
  intros Hr Ha. rewrite Shift_mod by trivial. apply Z.mod_pos_bound. lia.
Qed.

(** The rank that owns global index [i]. *)
Definition owner (i align modulus : Z) : Z := Z.rem (i + align) modulus.

Lemma owner_range i align modulus :
  0 <= i -> 0 <= align < modulus -> 0 <= owner i align modulus < modulus.
Proof.
  intros Hi Ha. unfold owner. rewrite Z.rem_mod_nonneg by lia.
  apply Z.mod_pos_bound. lia.
Qed.

Lemma Shift_owner i align modulus :
  0 <= i -> 0 <= align < modulus ->
  Shift (owner i align modulus) align modulus = i mod modulus.
Proof.
  intros Hi Ha. rewrite Shift_mod by (trivial; apply owner_range; lia).
  unfold owner. rewrite Z.rem_mod_nonneg by lia.
  rewrite Zminus_mod_idemp_l. f_equal. lia.
Qed.

(** A rank owns [i] exactly when its shift is the residue of [i]. *)
Lemma Shift_eq_iff_owner rank i align modulus :
  0 <= i -> 0 <= align < modulus -> 0 <= rank < modulus ->
  Shift rank align modulus = i mod modulus <-> rank = owner i align modulus.
Proof.
  intros Hi Ha Hr. split.
  - intros H. rewrite Shift_mod in H by lia.
    unfold owner. rewrite Z.rem_mod_nonneg by lia.
    assert (E : (rank - align + align) mod modulus =
                (i + align) mod modulus).
    { rewrite <- (Zplus_mod_idemp_l (rank - align)), H.
      now rewrite Zplus_mod_idemp_l. }
    replace (rank - align + align) with rank in E by lia.
    rewrite Z.mod_small in E by lia. exact E.
  - intros ->. now apply Shift_owner.
Qed.

(** Local index of a global index on its owner, and back. *)
Lemma local_index_div i shift modulus :
  0 <= i -> 0 < modulus -> shift = i mod modulus ->
  Z.quot (i - shift) modulus = i / modulus.
Proof.
  intros Hi Hm ->.
  pose proof (Z.mod_pos_bound i modulus Hm).
  pose proof (Z.div_mod i modulus ltac:(lia)).
  pose proof (Z.mod_le i modulus Hi Hm).
  rewrite Z.quot_div_nonneg by lia.
  replace (i - i mod modulus) with ((i / modulus) * modulus) by lia.
  apply Z.div_mul. lia.
Qed.

Lemma local_global i shift modulus :
  0 <= i -> 0 < modulus -> shift = i mod modulus ->
  shift + Z.quot (i - shift) modulus * modulus = i.
Proof.
  intros Hi Hm Hs. rewrite local_index_div by trivial. subst.
  pose proof (Z.div_mod i modulus ltac:(lia)). lia.
Qed.

Lemma LocalLength_nonneg n shift modulus :
  0 < modulus -> 0 <= LocalLength n shift modulus.
Proof.
  intros Hm. unfold LocalLength. destruct (Z.gtb_spec n shift); [|lia].
  rewrite Z.quot_div_nonneg by lia.
  assert (0 <= (n - shift - 1) / modulus) by (apply Z.div_pos; lia). lia.
Qed.

(** [iLoc] is a local index exactly when its global index is below [n]. *)
Lemma LocalLength_spec n shift modulus iLoc :
  0 < modulus -> 0 <= shift -> 0 <= iLoc ->
  iLoc < LocalLength n shift modulus <-> shift + iLoc * modulus < n.
Proof.
  intros Hm Hs Hi. unfold LocalLength.
  destruct (Z.gtb_spec n shift) as [Hn|Hn].
  - rewrite Z.quot_div_nonneg by lia.
    pose proof (Z.div_mod (n - shift - 1) modulus ltac:(lia)) as Hd.
    pose proof (Z.mod_pos_bound (n - shift - 1) modulus Hm) as Hb.
    set (q := (n - shift - 1) / modulus) in *.
    set (r := (n - shift - 1) mod modulus) in *.
    split; intros H1.
    + assert (iLoc * modulus <= q * modulus)
        by (apply Z.mul_le_mono_nonneg_r; lia).
      lia.
    + destruct (Z_lt_ge_dec iLoc (q + 1)) as [|Hge]; trivial.
      assert ((q + 1) * modulus <= iLoc * modulus)
        by (apply Z.mul_le_mono_nonneg_r; lia).
      lia.
  - split; intros H1; [lia|].
    assert (0 <= iLoc * modulus) by (apply Z.mul_nonneg_nonneg; lia). lia.
Qed.

Lemma LocalLength_mono n n' shift modulus :
  0 < modulus -> 0 <= shift -> n <= n' ->
  LocalLength n shift modulus <= LocalLength n' shift modulus.
Proof.
  intros Hm Hs Hn.
  destruct (Z_le_gt_dec (LocalLength n shift modulus)
              (LocalLength n' shift modulus)) as [|Hgt]; trivial.
  exfalso.
  pose proof (@LocalLength_nonneg n' shift modulus Hm) as H0.
  assert (H1 : LocalLength n' shift modulus < LocalLength n shift modulus)
    by lia.
  apply LocalLength_spec in H1; trivial.
  assert (H2 : ~ LocalLength n' shift modulus < LocalLength n' shift modulus)
    by lia.
  apply H2. apply LocalLength_spec; trivial. lia.
Qed.

(** The local length is determined by which local indices it admits. *)
Lemma length_unique (P : Z -> Prop) L1 L2 :
  0 <= L1 -> 0 <= L2 ->
  (forall iLoc, 0 <= iLoc -> (iLoc < L1 <-> P iLoc)) ->
  (forall iLoc, 0 <= iLoc -> (iLoc < L2 <-> P iLoc)) ->
  L1 = L2.
Proof.
  intros H1 H2 C1 C2.
  destruct (Z.lt_trichotomy L1 L2) as [Hlt|[Heq|Hgt]]; trivial; exfalso.
  - apply C2 in Hlt; trivial. apply C1 in Hlt; trivial. lia.
  - apply C1 in Hgt; trivial. apply C2 in Hgt; trivial. lia.
Qed.

Lemma strided_mod shift iLoc modulus :
  0 <= shift < modulus -> (shift + iLoc * modulus) mod modulus = shift.
Proof.
  intros Hs. rewrite Z.mod_add by lia. apply Z.mod_small. lia.
Qed.

(** Index [n] is local: it is the next local index. *)
Lemma LocalLength_succ_hit n shift modulus :
  0 <= shift < modulus -> 0 <= n -> n mod modulus = shift ->
  LocalLength (n + 1) shift modulus = LocalLength n shift modulus + 1 /\
  shift + LocalLength n shift modulus * modulus = n.
Proof.
  intros Hs Hn Hmod.
  assert (Hm : 0 < modulus) by lia.
  pose proof (Z.div_mod n modulus ltac:(lia)) as Hd. rewrite Hmod in Hd.
  assert (Hq : 0 <= n / modulus) by (apply Z.div_pos; lia).
  assert (HL : LocalLength n shift modulus = n / modulus).
  { apply length_unique with (P := fun iLoc => shift + iLoc * modulus < n).
    - now apply LocalLength_nonneg.
    - trivial.
    - intros iLoc Hi. apply LocalLength_spec; lia.
    - intros iLoc Hi. split; intros H; nia. }
  split.
  - rewrite HL.
    apply length_unique with (P := fun iLoc => shift + iLoc * modulus < n + 1).
    + now apply LocalLength_nonneg.
    + lia.
    + intros iLoc Hi. apply LocalLength_spec; lia.
    + intros iLoc Hi. split; intros H; nia.
  - rewrite HL. lia.
Qed.

(** Index [n] is not local: the local length does not change. *)
Lemma LocalLength_succ_miss n shift modulus :
  0 <= shift < modulus -> 0 <= n -> n mod modulus <> shift ->
  LocalLength (n + 1) shift modulus = LocalLength n shift modulus.
Proof.
  intros Hs Hn Hmod. assert (Hm : 0 < modulus) by lia.
  apply length_unique with (P := fun iLoc => shift + iLoc * modulus < n).
  - now apply LocalLength_nonneg.
  - now apply LocalLength_nonneg.
  - intros iLoc Hi. rewrite LocalLength_spec by lia.
    split; intros H; [|lia].
    assert (shift + iLoc * modulus <> n); [|lia].
    intros E. apply Hmod. rewrite <- E. now apply strided_mod.
  - intros iLoc Hi. apply LocalLength_spec; lia.
Qed.

Lemma LocalLength_0 shift modulus :
  0 <= shift -> LocalLength 0 shift modulus = 0.
Proof.
  intros Hs. unfold LocalLength. destruct (Z.gtb_spec 0 shift); lia.
Qed.

(** On its owner a global index is a local index. *)
Lemma owner_local n i shift modulus :
  0 <= shift < modulus -> 0 <= i < n -> i mod modulus = shift ->
  0 <= i / modulus < LocalLength n shift modulus /\
  shift + i / modulus * modulus = i.
Proof.
  intros Hs Hi Hmod. assert (Hm : 0 < modulus) by lia.
  pose proof (Z.div_mod i modulus ltac:(lia)) as Hd. rewrite Hmod in Hd.
  assert (Hq : 0 <= i / modulus) by (apply Z.div_pos; lia).
  split; [split; trivial|lia].
  apply LocalLength_spec; lia.
Qed.

(** ** Windows of a cyclic distribution *)

(** The window that starts at global index [i]: its first local index is
    local index [LocalLength i shift modulus] of the whole, and its shift is
    the distance from [i] to the first global index owned at or after
    [i]. *)
Lemma shift_sub i shift modulus :
  0 <= shift < modulus -> 0 <= i ->
  (shift - i) mod modulus + i = shift + LocalLength i shift modulus * modulus.
Proof.
  intros Hs Hi. assert (Hm : 0 < modulus) by lia.
  pose proof (@LocalLength_nonneg i shift modulus Hm) as HL.
  set (L := LocalLength i shift modulus) in *.
  assert (Hge : i <= shift + L * modulus).
  { destruct (Z_le_gt_dec i (shift + L * modulus)); trivial.
    assert (L < L); [|lia]. apply LocalLength_spec; lia. }
  assert (Hlt : shift + L * modulus < i + modulus).
  { destruct (Z.eq_dec L 0) as [E|E]; [rewrite E; lia|].
    assert (H1 : L - 1 < L) by lia.
    apply LocalLength_spec in H1; lia. }
  replace (shift - i) with ((shift + L * modulus - i) + (- L) * modulus)
    by lia.
  rewrite Z.mod_add, Z.mod_small by lia. lia.
Qed.

Lemma shift_sub_range i shift modulus :
  0 < modulus -> 0 <= (shift - i) mod modulus < modulus.
Proof. intros Hm. now apply Z.mod_pos_bound. Qed.

Lemma LocalLength_sub i h shift modulus :
  0 <= shift < modulus -> 0 <= i -> 0 <= h ->
  LocalLength h ((shift - i) mod modulus) modulus =
  LocalLength (i + h) shift modulus - LocalLength i shift modulus.
Proof.
  intros Hs Hi Hh. assert (Hm : 0 < modulus) by lia.
  pose proof (@shift_sub i shift modulus Hs Hi) as Hsh.
  pose proof (@shift_sub_range i shift modulus Hm) as Hr.
  pose proof (@LocalLength_mono i (i + h) shift modulus Hm) as Hmono.
  pose proof (@LocalLength_nonneg i shift modulus Hm) as HL.
  apply length_unique
    with (P := fun iLoc => (shift - i) mod modulus + iLoc * modulus < h).
  - now apply LocalLength_nonneg.
  - lia.
  - intros iLoc Hl. apply LocalLength_spec; lia.
  - intros iLoc Hl.
    assert (E : iLoc < LocalLength (i + h) shift modulus
                       - LocalLength i shift modulus <->
                iLoc + LocalLength i shift modulus
                < LocalLength (i + h) shift modulus) by lia.
    rewrite E. rewrite LocalLength_spec by lia. split; intros H; nia.
Qed.

(** A dimension that is not distributed: every index is local. *)
Lemma LocalLength_star n : 0 <= n -> LocalLength n 0 1 = n.
Proof.
  intros Hn. unfold LocalLength. destruct (Z.gtb_spec n 0).
  - rewrite Z.quot_1_r. lia.
  - lia.
Qed.

End Distribution.

(* ===================================================================== *)
(** * Entry access of [DistMatrix<complex<Z>,VR,Star>] *)
(* ===================================================================== *)

Module VRStar.

Import Distribution.

Section Complex.

(** "Z: representation of a real ring"; [std::complex<Z>] is a pair. *)
Variable R : Type.

Definition complex : Type := (R * R)%type.
Definition real (z : complex) : R := fst z.
Definition imag (z : complex) : R := snd z.

(** A [VR,*] matrix over a grid of [GridSize] processes, all processes at
    once: [LocalEntries rank] is the local matrix of the process whose
    [VRRank()] is [rank]. *)
Record DistMatrix : Type := {
  Height : Z;
  Width : Z;
  ColAlignment : Z;
  GridSize : Z;
  LocalEntries : Z -> Z -> Z -> complex
}.

(** [ColShift()] and [LocalHeight()] on the process with the given rank. *)
Definition ColShift (A : DistMatrix) (rank : Z) : Z :=
  Shift rank (ColAlignment A) (GridSize A).

Definition LocalHeight (A : DistMatrix) (rank : Z) : Z :=
  LocalLength (Height A) (ColShift A rank) (GridSize A).

Definition GetLocalEntry (A : DistMatrix) (rank iLoc j : Z) : complex :=
  LocalEntries A rank iLoc j.

Definition SetLocalEntry (A : DistMatrix) (rank iLoc j : Z) (v : complex)
  : DistMatrix :=
  {| Height := Height A; Width := Width A;
     ColAlignment := ColAlignment A; GridSize := GridSize A;
     LocalEntries := fun r il jl =>
       if (r =? rank) && (il =? iLoc) && (jl =? j) then v
       else LocalEntries A r il jl |}.

(** Modelled from the spec: [AssertValidEntry] is declared outside the given
    sources; "Get/Set with (i,j) outside [0,M)x[0,N) is an error". *)
Definition ValidEntry (A : DistMatrix) (i j : Z) : bool :=
  (0 <=? i) && (i <? Height A) && (0 <=? j) && (j <? Width A).

(** A collective call on the grid's VR communicator. *)
Inductive Comm : Type :=
| Bcast (root : Z).

(** [Broadcast( &u, 1, root, g.VRComm() )]: every process of the
    communicator ends with the root's [u]; [None] is an unset variable. *)
Definition Broadcast (size root : Z) (u : Z -> option R) (rank : Z) : option R :=
  if (0 <=? root) && (root <? size) then u root else u rank.

(** The variable [u] of process [rank] when it reaches the broadcast. *)
Definition GetReal_u (A : DistMatrix) (i j rank : Z) : option R :=
  let ownerRank := Z.rem (i + ColAlignment A) (GridSize A) in
  if rank =? ownerRank then
    let iLoc := Z.quot (i - ColShift A rank) (GridSize A) in
    Some (real (GetLocalEntry A rank iLoc j))
  else None.

Definition GetImag_u (A : DistMatrix) (i j rank : Z) : option R :=
  let ownerRank := Z.rem (i + ColAlignment A) (GridSize A) in
  if rank =? ownerRank then
    let iLoc := Z.quot (i - ColShift A rank) (GridSize A) in
    Some (imag (GetLocalEntry A rank iLoc j))
  else None.

(** [GetReal( i, j )] as run by process [rank]; [release] tells whether the
    library was built with [RELEASE] defined.  The state is the value
    returned and the communication issued. *)
Definition GetReal (release : bool) (rank : Z) (A : DistMatrix) (i j : Z)
  : outcome (option R * list Comm) :=
  if negb release && negb (ValidEntry A i j) then
    LogicError "Entry is out of bounds" (None, [])
  else
    let ownerRank := Z.rem (i + ColAlignment A) (GridSize A) in
    Done (Broadcast (GridSize A) ownerRank (GetReal_u A i j) rank,
          [Bcast ownerRank]).

Definition GetImag (release : bool) (rank : Z) (A : DistMatrix) (i j : Z)
  : outcome (option R * list Comm) :=
  if negb release && negb (ValidEntry A i j) then
    LogicError "Entry is out of bounds" (None, [])
  else
    let ownerRank := Z.rem (i + ColAlignment A) (GridSize A) in
    Done (Broadcast (GridSize A) ownerRank (GetImag_u A i j) rank,
          [Bcast ownerRank]).

(** [SetReal( i, j, u )] and [SetImag( i, j, v )] as run by process [rank].
    The state is the matrix and the communication issued. *)
Definition SetReal (release : bool) (rank : Z) (A : DistMatrix) (i j : Z)
    (u : R) : outcome (DistMatrix * list Comm) :=
  if negb release && negb (ValidEntry A i j) then
    LogicError "Entry is out of bounds" (A, [])
  else
    let ownerRank := Z.rem (i + ColAlignment A) (GridSize A) in
    if rank =? ownerRank then
      let iLoc := Z.quot (i - ColShift A rank) (GridSize A) in
      let v := imag (GetLocalEntry A rank iLoc j) in
      Done (SetLocalEntry A rank iLoc j (u, v), [])
    else Done (A, []).

Definition SetImag (release : bool) (rank : Z) (A : DistMatrix) (i j : Z)
    (v : R) : outcome (DistMatrix * list Comm) :=
  if negb release && negb (ValidEntry A i j) then
    LogicError "Entry is out of bounds" (A, [])
  else
    let ownerRank := Z.rem (i + ColAlignment A) (GridSize A) in
    if rank =? ownerRank then
      let iLoc := Z.quot (i - ColShift A rank) (GridSize A) in
      let u := real (GetLocalEntry A rank iLoc j) in
      Done (SetLocalEntry A rank iLoc j (u, v), [])
    else Done (A, []).

(** ** The distribution, in the words of the data model *)

(** The grid is not empty and the alignment is a rank of it. *)
Definition grid_ok (A : DistMatrix) : Prop :=
  0 < GridSize A /\ 0 <= ColAlignment A < GridSize A.

(** Process [rank] stores row [i] of the matrix. *)
Definition owns (A : DistMatrix) (rank i : Z) : Prop :=
  exists iLoc, 0 <= iLoc < LocalHeight A rank /\
               ColShift A rank + iLoc * GridSize A = i.

(** The local matrices hold the global matrix [G]: local row [iLoc] of the
    process with shift [s] is global row [s + iLoc * p]; all columns are
    local. *)
Definition represents (A : DistMatrix) (G : Z -> Z -> complex) : Prop :=
  forall rank iLoc j,
    0 <= rank < GridSize A -> 0 <= iLoc < LocalHeight A rank ->
    0 <= j < Width A ->
    LocalEntries A rank iLoc j = G (ColShift A rank + iLoc * GridSize A) j.

Definition ownerRank (A : DistMatrix) (i : Z) : Z :=
  (i + ColAlignment A) mod GridSize A.

Lemma ValidEntry_spec A i j :
  ValidEntry A i j = true <-> 0 <= i < Height A /\ 0 <= j < Width A.
Proof.
  unfold ValidEntry. rewrite !andb_true_iff, !Z.leb_le, !Z.ltb_lt. tauto.
Qed.

Lemma owner_rem A i :
  grid_ok A -> 0 <= i ->
  Z.rem (i + ColAlignment A) (GridSize A) = ownerRank A i.
Proof. intros [Hp Ha] Hi. unfold ownerRank. apply Z.rem_mod_nonneg; lia. Qed.

Lemma ownerRank_range A i :
  grid_ok A -> 0 <= i -> 0 <= ownerRank A i < GridSize A.
Proof. intros [Hp Ha] Hi. apply Z.mod_pos_bound. lia. Qed.

Lemma owner_ColShift A i :
  grid_ok A -> 0 <= i -> ColShift A (ownerRank A i) = i mod GridSize A.
Proof.
  intros [Hp Ha] Hi. unfold ColShift.
  rewrite <- owner_rem by (try split; lia).
  now apply Shift_owner.
Qed.

(** On the owner the local row [(i - colShift)/p] is in range and is row
    [i]. *)
Lemma owner_local_row A i :
  grid_ok A -> 0 <= i < Height A ->
  let iLoc := Z.quot (i - ColShift A (ownerRank A i)) (GridSize A) in
  0 <= iLoc < LocalHeight A (ownerRank A i) /\
  ColShift A (ownerRank A i) + iLoc * GridSize A = i.
Proof.
  intros Hg Hi. pose proof Hg as [Hp Ha].
  pose proof (@owner_ColShift A i Hg ltac:(lia)) as Hs.
  pose proof (Z.mod_pos_bound i (GridSize A) Hp) as Hb.
  cbv zeta.
  assert (Hback : ColShift A (ownerRank A i) +
                  Z.quot (i - ColShift A (ownerRank A i)) (GridSize A)
                  * GridSize A = i)
    by (apply local_global; lia).
  assert (H0 : 0 <= Z.quot (i - ColShift A (ownerRank A i)) (GridSize A)).
  { rewrite local_index_div by lia. apply Z.div_pos; lia. }
  split; [split; trivial|trivial].
  unfold LocalHeight. apply LocalLength_spec; lia.
Qed.

Lemma owns_iff_owner A rank i :
  grid_ok A -> 0 <= i < Height A -> 0 <= rank < GridSize A ->
  owns A rank i <-> rank = ownerRank A i.
Proof.
  intros Hg Hi Hr. pose proof Hg as [Hp Ha]. split.
  - intros (iLoc & Hl & E).
    unfold ownerRank. rewrite <- Z.rem_mod_nonneg by lia.
    apply Shift_eq_iff_owner; try lia.
    fold (ColShift A rank).
    pose proof (@Shift_range rank (ColAlignment A) (GridSize A)
                  ltac:(lia) Ha) as Hs.
    fold (ColShift A rank) in Hs.
    rewrite <- E. rewrite Z.mod_add by lia. now rewrite Z.mod_small.
  - intros ->. eexists. now apply owner_local_row.
Qed.

Lemma Broadcast_owner A i (u : Z -> option R) rank :
  grid_ok A -> 0 <= i ->
  Broadcast (GridSize A) (ownerRank A i) u rank = u (ownerRank A i).
Proof.
  intros Hg Hi. unfold Broadcast.
  pose proof (@ownerRank_range A i Hg Hi).
  destruct (Z.leb_spec 0 (ownerRank A i)),
    (Z.ltb_spec (ownerRank A i) (GridSize A)); simpl; trivial; lia.
Qed.

Lemma owner_reads_global A G i j :
  grid_ok A -> represents A G -> 0 <= i < Height A -> 0 <= j < Width A ->
  GetLocalEntry A (ownerRank A i)
    (Z.quot (i - ColShift A (ownerRank A i)) (GridSize A)) j = G i j.
Proof.
  intros Hg Hrep Hi Hj.
  destruct (@owner_local_row A i Hg Hi) as [Hl Hback].
  unfold GetLocalEntry. rewrite Hrep; trivial.
  - now rewrite Hback.
  - apply ownerRank_range; trivial. lia.
Qed.

(** C7. For an in-bounds [(i,j)] the row [i] is stored by exactly one
    process, the one with VR rank [(i + colAlignment) mod p]; that process
    reads its local entry [((i - colShift)/p, j)], and after the broadcast
    over the VR communicator every process returns the real (for [GetImag]
    the imaginary) part of the global entry [(i,j)]. *)
Theorem GetReal_GetImag_owner A G release i j rank :
  grid_ok A -> represents A G ->
  0 <= i < Height A -> 0 <= j < Width A -> 0 <= rank < GridSize A ->
  0 <= ownerRank A i < GridSize A /\
  (forall r, 0 <= r < GridSize A -> owns A r i <-> r = ownerRank A i) /\
  GetReal_u A i j (ownerRank A i) =
    Some (real (GetLocalEntry A (ownerRank A i)
                  (Z.quot (i - ColShift A (ownerRank A i)) (GridSize A)) j)) /\
  GetImag_u A i j (ownerRank A i) =
    Some (imag (GetLocalEntry A (ownerRank A i)
                  (Z.quot (i - ColShift A (ownerRank A i)) (GridSize A)) j)) /\
  GetReal release rank A i j =
    Done (Some (real (G i j)), [Bcast (ownerRank A i)]) /\
  GetImag release rank A i j =
    Done (Some (imag (G i j)), [Bcast (ownerRank A i)]).
Proof.
  intros Hg Hrep Hi Hj Hr.
  assert (Hv : ValidEntry A i j = true) by (apply ValidEntry_spec; lia).
  assert (Hu : GetReal_u A i j (ownerRank A i) =
               Some (real (GetLocalEntry A (ownerRank A i)
                  (Z.quot (i - ColShift A (ownerRank A i)) (GridSize A)) j))).
  { unfold GetReal_u. cbv zeta. rewrite owner_rem by (trivial; lia).
    now rewrite Z.eqb_refl. }
  assert (Hw : GetImag_u A i j (ownerRank A i) =
               Some (imag (GetLocalEntry A (ownerRank A i)
                  (Z.quot (i - ColShift A (ownerRank A i)) (GridSize A)) j))).
  { unfold GetImag_u. cbv zeta. rewrite owner_rem by (trivial; lia).
    now rewrite Z.eqb_refl. }
  split; [apply ownerRank_range; trivial; lia|].
  split; [intros r Hrr; now apply owns_iff_owner|].
  split; [exact Hu|]. split; [exact Hw|]. split.
  - unfold GetReal. rewrite Hv, andb_false_r. cbv zeta.
    rewrite owner_rem by (trivial; lia).
    rewrite Broadcast_owner by (trivial; lia).
    rewrite Hu. now rewrite (owner_reads_global Hg Hrep Hi Hj).
  - unfold GetImag. rewrite Hv, andb_false_r. cbv zeta.
    rewrite owner_rem by (trivial; lia).
    rewrite Broadcast_owner by (trivial; lia).
    rewrite Hw. now rewrite (owner_reads_global Hg Hrep Hi Hj).
Qed.

(** The matrix [G] with entry [(i,j)] replaced by [z]. *)
Definition with_entry (G : Z -> Z -> complex) (i j : Z) (z : complex)
  : Z -> Z -> complex :=
  fun i' j' => if (i' =? i) && (j' =? j) then z else G i' j'.

Lemma SetLocalEntry_represents A G i j z :
  grid_ok A -> represents A G -> 0 <= i < Height A ->
  represents
    (SetLocalEntry A (ownerRank A i)
       (Z.quot (i - ColShift A (ownerRank A i)) (GridSize A)) j z)
    (with_entry G i j z).
Proof.
  intros Hg Hrep Hi rank iLoc jl Hr Hl Hj.
  destruct (@owner_local_row A i Hg Hi) as [Hloc Hback].
  pose proof Hg as [Hp Ha].
  cbn [LocalEntries SetLocalEntry GridSize] in *.
  change (LocalHeight (SetLocalEntry A _ _ j z) rank)
    with (LocalHeight A rank) in Hl.
  change (ColShift (SetLocalEntry A _ _ j z) rank) with (ColShift A rank).
  change (Width (SetLocalEntry A _ _ j z)) with (Width A) in Hj.
  unfold with_entry.
  destruct (Z.eqb_spec rank (ownerRank A i)) as [->|Hne]; cbn [andb].
  - destruct (Z.eqb_spec iLoc
                (Z.quot (i - ColShift A (ownerRank A i)) (GridSize A)))
      as [->|Hil]; cbn [andb].
    + rewrite Hback, Z.eqb_refl. cbn [andb].
      destruct (Z.eqb_spec jl j); trivial.
      rewrite Hrep by trivial. now rewrite Hback.
    + destruct (Z.eqb_spec (ColShift A (ownerRank A i) + iLoc * GridSize A) i)
        as [E|E]; cbn [andb]; [|now apply Hrep].
      exfalso. apply Hil.
      rewrite <- Hback in E at 2.
      apply Z.add_reg_l in E. apply Z.mul_reg_r in E; lia.
  - destruct (Z.eqb_spec (ColShift A rank + iLoc * GridSize A) i)
      as [E|E]; cbn [andb]; [|now apply Hrep].
    exfalso. apply Hne. apply owns_iff_owner; trivial.
    exists iLoc. split; trivial.
Qed.

(** C8. For an in-bounds [(i,j)], [SetReal] changes nothing on a process
    that is not the owner of row [i]; on the owner it replaces the single
    local entry [((i - colShift)/p, j)] by [u] with the old imaginary part,
    so that the global matrix changes in entry [(i,j)] only; no
    communication is issued.  [SetImag] does the same with the roles of the
    two parts exchanged. *)
Theorem SetReal_SetImag_frame A release i j (u : R) rank :
  grid_ok A -> 0 <= i < Height A -> 0 <= j < Width A ->
  0 <= rank < GridSize A ->
  let iLoc := Z.quot (i - ColShift A (ownerRank A i)) (GridSize A) in
  let old := LocalEntries A (ownerRank A i) iLoc j in
  (rank <> ownerRank A i ->
     SetReal release rank A i j u = Done (A, []) /\
     SetImag release rank A i j u = Done (A, [])) /\
  (rank = ownerRank A i ->
     SetReal release rank A i j u =
       Done (SetLocalEntry A rank iLoc j (u, imag old), []) /\
     SetImag release rank A i j u =
       Done (SetLocalEntry A rank iLoc j (real old, u), [])) /\
  (forall z,
     LocalEntries (SetLocalEntry A (ownerRank A i) iLoc j z)
       (ownerRank A i) iLoc j = z /\
     (forall r il jl,
        r <> ownerRank A i \/ il <> iLoc \/ jl <> j ->
        LocalEntries (SetLocalEntry A (ownerRank A i) iLoc j z) r il jl =
        LocalEntries A r il jl) /\
     (forall G, represents A G ->
        represents (SetLocalEntry A (ownerRank A i) iLoc j z)
          (with_entry G i j z))).
Proof.
  intros Hg Hi Hj Hr iLoc old.
  assert (Hv : ValidEntry A i j = true) by (apply ValidEntry_spec; lia).
  split; [|split].
  - intros Hne. unfold SetReal, SetImag. rewrite Hv, andb_false_r.
    cbv zeta. rewrite owner_rem by (trivial; lia).
    destruct (Z.eqb_spec rank (ownerRank A i)); [contradiction|]. auto.
  - intros ->. unfold SetReal, SetImag. rewrite Hv, andb_false_r.
    cbv zeta. rewrite owner_rem by (trivial; lia).
    rewrite Z.eqb_refl. auto.
  - intros z. split; [|split].
    + cbn [LocalEntries SetLocalEntry]. now rewrite !Z.eqb_refl.
    + intros r il jl H. cbn [LocalEntries SetLocalEntry].
      destruct (Z.eqb_spec r (ownerRank A i)), (Z.eqb_spec il iLoc),
        (Z.eqb_spec jl j); cbn [andb]; trivial.
      exfalso. destruct H as [H|[H|H]]; contradiction.
    + intros G Hrep. now apply SetLocalEntry_represents.
Qed.


End Complex.

End VRStar.

(** ** A 3 x 2 matrix of Gaussian integers on a grid of two processes *)

Module VRStarExamples.

Import VRStar.

(** Global entry [(i,j)] is [(10 i + j) + (100 + 10 i + j) I]. *)
Definition G0 : Z -> Z -> complex Z :=
  fun i j => (10 * i + j, 100 + 10 * i + j).

(** Column alignment 1: rank 1 stores rows 0 and 2, rank 0 stores row 1. *)
Definition A0 : DistMatrix Z :=
  {| Height := 3; Width := 2; ColAlignment := 1; GridSize := 2;
     LocalEntries := fun rank iLoc j =>
       G0 (Distribution.Shift rank 1 2 + iLoc * 2) j |}.

Lemma A0_grid_ok : grid_ok A0.
Proof. unfold grid_ok. cbn. lia. Qed.

Lemma A0_represents : represents A0 G0.
Proof. intros rank iLoc j _ _ _. reflexivity. Qed.

Example A0_GetReal_row2 :
  GetReal true 0 A0 2 1 = Done (Some 21, [Bcast 1]) /\
  GetReal true 1 A0 2 1 = Done (Some 21, [Bcast 1]) /\
  GetImag false 0 A0 1 0 = Done (Some 110, [Bcast 0]).
Proof. vm_compute. auto. Qed.

Example A0_SetReal_row1 :
  final (GetReal true 1 (fst (final (SetReal true 0 A0 1 1 7))) 1 1)
    = (Some 7, [Bcast 0]) /\
  final (GetImag true 1 (fst (final (SetReal true 0 A0 1 1 7))) 1 1)
    = (Some 111, [Bcast 0]) /\
  final (GetReal true 1 (fst (final (SetReal true 1 A0 1 1 7))) 1 1)
    = (Some 11, [Bcast 0]).
Proof. vm_compute. auto. Qed.

Lemma GetReal_GetImag_owner_witness :
  grid_ok A0 /\ represents A0 G0 /\
  0 <= 2 < Height A0 /\ 0 <= 1 < Width A0 /\ 0 <= 0 < GridSize A0 /\
  0 <= ownerRank A0 2 < GridSize A0 /\
  (forall r, 0 <= r < GridSize A0 -> owns A0 r 2 <-> r = ownerRank A0 2) /\
  GetReal_u A0 2 1 (ownerRank A0 2) =
    Some (real (GetLocalEntry A0 (ownerRank A0 2)
                  (Z.quot (2 - ColShift A0 (ownerRank A0 2)) (GridSize A0)) 1)) /\
  GetImag_u A0 2 1 (ownerRank A0 2) =
    Some (imag (GetLocalEntry A0 (ownerRank A0 2)
                  (Z.quot (2 - ColShift A0 (ownerRank A0 2)) (GridSize A0)) 1)) /\
  GetReal true 0 A0 2 1 = Done (Some (real (G0 2 1)), [Bcast (ownerRank A0 2)]) /\
  GetImag true 0 A0 2 1 = Done (Some (imag (G0 2 1)), [Bcast (ownerRank A0 2)]).
Proof.
  split; [exact A0_grid_ok|]. split; [exact A0_represents|].
  split; [cbn; lia|]. split; [cbn; lia|]. split; [cbn; lia|].
  apply (@GetReal_GetImag_owner Z A0 G0 true 2 1 0);
    [exact A0_grid_ok | exact A0_represents | cbn; lia ..].
Defined.

Lemma SetReal_SetImag_frame_witness :
  grid_ok A0 /\ 0 <= 1 < Height A0 /\ 0 <= 1 < Width A0 /\
  0 <= 0 < GridSize A0 /\
  let iLoc := Z.quot (1 - ColShift A0 (ownerRank A0 1)) (GridSize A0) in
  let old := LocalEntries A0 (ownerRank A0 1) iLoc 1 in
  (0 <> ownerRank A0 1 ->
     SetReal true 0 A0 1 1 7 = Done (A0, []) /\
     SetImag true 0 A0 1 1 7 = Done (A0, [])) /\
  (0 = ownerRank A0 1 ->
     SetReal true 0 A0 1 1 7 =
       Done (SetLocalEntry A0 0 iLoc 1 (7, imag old), []) /\
     SetImag true 0 A0 1 1 7 =
       Done (SetLocalEntry A0 0 iLoc 1 (real old, 7), [])) /\
  (forall z,
     LocalEntries (SetLocalEntry A0 (ownerRank A0 1) iLoc 1 z)
       (ownerRank A0 1) iLoc 1 = z /\
     (forall r il jl,
        r <> ownerRank A0 1 \/ il <> iLoc \/ jl <> 1 ->
        LocalEntries (SetLocalEntry A0 (ownerRank A0 1) iLoc 1 z) r il jl =
        LocalEntries A0 r il jl) /\
     (forall G, represents A0 G ->
        represents (SetLocalEntry A0 (ownerRank A0 1) iLoc 1 z)
          (with_entry G 1 1 z))).
Proof.
  split; [exact A0_grid_ok|].
  split; [cbn; lia|]. split; [cbn; lia|]. split; [cbn; lia|].
  apply (@SetReal_SetImag_frame Z A0 true 1 1 7 0);
    [exact A0_grid_ok | cbn; lia ..].
Defined.



End VRStarExamples.

(* ===================================================================== *)
(** * Collective calls of [blas::internal::Dot] for a [MC,MR] vector *)
(* ===================================================================== *)

Module DotMCMR.

(** The communicators of a process grid: the whole grid, the column
    communicator [MCComm()] of a grid column and the row communicator
    [MRComm()] of a grid row. *)
Inductive CommId : Type :=
| GridComm
| MCComm (col : Z)
| MRComm (row : Z).

Definition CommId_eqb (a b : CommId) : bool :=
  match a, b with
  | GridComm, GridComm => true
  | MCComm x, MCComm y => x =? y
  | MRComm x, MRComm y => x =? y
  | _, _ => false
  end.

Lemma CommId_eqb_eq a b : CommId_eqb a b = true <-> a = b.
Proof.
  destruct a, b; cbn; try rewrite Z.eqb_eq; split; intros H;
    try discriminate; try reflexivity; congruence.
Qed.

(** The shape of a collective call: what must agree on all members of the
    communicator for the call to complete. *)
Inductive Shape : Type :=
| SRedistribute
| SAllReduceSum
| SBroadcast (root : Z).

Section Dot.

(** The element type, and the local kernel [blas::Dot] on two local
    matrices (outside the given sources). *)
Variable T : Type.
Variable LocalData : Type.
Variable local_dot : LocalData -> LocalData -> T.

(** A collective call with what the caller contributes. *)
Inductive Call : Type :=
| Redistribute
| AllReduceSum (localDot : T)
| Broadcast (root : Z).

Definition shape (c : Call) : Shape :=
  match c with
  | Redistribute => SRedistribute
  | AllReduceSum _ => SAllReduceSum
  | Broadcast root => SBroadcast root
  end.

Definition Event : Type := (CommId * Call)%type.

(** What all processes know of a distributed vector. *)
Record Meta : Type := {
  Height : Z;
  Width : Z;
  ColAlignment : Z;
  RowAlignment : Z;
  GridId : Z
}.

(** The checks under [#ifndef RELEASE]: the message thrown, if any. *)
Definition debug_check (x y : Meta) : option string :=
  if negb (GridId x =? GridId y) then
    Some "x and y must be distributed over the same grid."%string
  else if (negb (Height x =? 1) && negb (Width x =? 1)) ||
          (negb (Height y =? 1) && negb (Width y =? 1)) then
    Some "Dot requires x and y to be vectors."%string
  else
    let xLength := if Width x =? 1 then Height x else Width x in
    let yLength := if Width y =? 1 then Height y else Width y in
    if negb (xLength =? yLength) then
      Some "Dot requires x and y to be the same length."%string
    else None.

(** [blas::internal::Dot( x, y )] for [y] in [MC,MR], Dot.cpp lines 85-173,
    as run by the process in grid row [MCRank] and grid column [MRRank]:
    the collective calls it issues, in order.  [xLocal] is the local matrix
    of the redistributed [x], [yLocal] that of [y]. *)
Definition Dot (release : bool) (MCRank MRRank : Z) (x y : Meta)
    (xLocal yLocal : LocalData) : outcome (list Event) :=
  match (if release then None else debug_check x y) with
  | Some msg => LogicError msg []
  | None =>
      if (Width x =? 1) && (Width y =? 1) then
        let ownerCol := RowAlignment y in
        Done ([(GridComm, Redistribute)]
              ++ (if MRRank =? ownerCol
                  then [(MCComm MRRank, AllReduceSum (local_dot xLocal yLocal))]
                  else [])
              ++ [(MRComm MCRank, Broadcast ownerCol)])
      else if Width x =? 1 then
        let ownerRow := ColAlignment y in
        Done ([(GridComm, Redistribute)]
              ++ (if MCRank =? ownerRow
                  then [(MRComm MCRank, AllReduceSum (local_dot xLocal yLocal))]
                  else [])
              ++ [(MCComm MRRank, Broadcast ownerRow)])
      else if Width y =? 1 then
        let ownerCol := RowAlignment y in
        Done ([(GridComm, Redistribute)]
              ++ (if MRRank =? ownerCol
                  then [(MCComm MRRank, AllReduceSum (local_dot xLocal yLocal))]
                  else [])
              ++ [(MRComm MCRank, Broadcast ownerCol)])
      else
        let ownerRow := ColAlignment y in
        Done ([(GridComm, Redistribute)]
              ++ (if MCRank =? ownerRow
                  then [(MRComm MCRank, AllReduceSum (local_dot xLocal yLocal))]
                  else [])
              ++ [(MCComm MRRank, Broadcast ownerRow)])
  end.

(** The process in row [MCRank] and column [MRRank] is a member of the
    communicator. *)
Definition member (MCRank MRRank : Z) (K : CommId) : bool :=
  match K with
  | GridComm => true
  | MCComm col => MRRank =? col
  | MRComm row => MCRank =? row
  end.

(** The shapes of the calls a process issues on communicator [K]. *)
Definition calls_on (K : CommId) (tr : list Event) : list Shape :=
  map (fun e => shape (snd e)) (filter (fun e => CommId_eqb (fst e) K) tr).

(** The vectors are columns ([n] x 1) on both sides, or [y] is a column. *)
Definition column_case (x y : Meta) : bool :=
  ((Width x =? 1) && (Width y =? 1)) ||
  (negb (Width x =? 1) && (Width y =? 1)).

Lemma Dot_column_case release MCRank MRRank x y xLocal yLocal :
  column_case x y = true ->
  Dot release MCRank MRRank x y xLocal yLocal =
  match (if release then None else debug_check x y) with
  | Some msg => LogicError msg []
  | None =>
      Done ([(GridComm, Redistribute)]
            ++ (if MRRank =? RowAlignment y
                then [(MCComm MRRank, AllReduceSum (local_dot xLocal yLocal))]
                else [])
            ++ [(MRComm MCRank, Broadcast (RowAlignment y))])
  end.
Proof.
  unfold column_case, Dot. intros H.
  destruct (if release then None else debug_check x y); trivial.
  destruct (Width x =? 1), (Width y =? 1); cbn in H |- *;
    trivial; discriminate.
Qed.

Lemma Dot_row_case release MCRank MRRank x y xLocal yLocal :
  column_case x y = false ->
  Dot release MCRank MRRank x y xLocal yLocal =
  match (if release then None else debug_check x y) with
  | Some msg => LogicError msg []
  | None =>
      Done ([(GridComm, Redistribute)]
            ++ (if MCRank =? ColAlignment y
                then [(MRComm MCRank, AllReduceSum (local_dot xLocal yLocal))]
                else [])
            ++ [(MCComm MRRank, Broadcast (ColAlignment y))])
  end.
Proof.
  unfold column_case, Dot. intros H.
  destruct (if release then None else debug_check x y); trivial.
  destruct (Width x =? 1), (Width y =? 1); cbn in H |- *;
    trivial; discriminate.
Qed.

(** Two members of a communicator issue the same calls on it, whatever
    their local data. *)
Lemma same_calls_on release K x y r1 c1 r2 c2 xl1 yl1 xl2 yl2 :
  member r1 c1 K = true -> member r2 c2 K = true ->
  raised (Dot release r1 c1 x y xl1 yl1) =
    raised (Dot release r2 c2 x y xl2 yl2) /\
  calls_on K (final (Dot release r1 c1 x y xl1 yl1)) =
    calls_on K (final (Dot release r2 c2 x y xl2 yl2)).
Proof.
  intros M1 M2.
  destruct (column_case x y) eqn:Hc.
  - rewrite !Dot_column_case by trivial.
    destruct (if release then None else debug_check x y); cbn; auto.
    split; trivial. unfold calls_on.
    destruct K as [|k|k]; cbn in M1, M2 |- *.
    + destruct (c1 =? RowAlignment y), (c2 =? RowAlignment y); reflexivity.
    + apply Z.eqb_eq in M1, M2. subst c1 c2.
      destruct (k =? RowAlignment y); cbn; rewrite ?Z.eqb_refl; reflexivity.
    + apply Z.eqb_eq in M1, M2. subst r1 r2.
      destruct (c1 =? RowAlignment y), (c2 =? RowAlignment y); cbn;
        rewrite ?Z.eqb_refl; reflexivity.
  - rewrite !Dot_row_case by trivial.
    destruct (if release then None else debug_check x y); cbn; auto.
    split; trivial. unfold calls_on.
    destruct K as [|k|k]; cbn in M1, M2 |- *.
    + destruct (r1 =? ColAlignment y), (r2 =? ColAlignment y); reflexivity.
    + apply Z.eqb_eq in M1, M2. subst c1 c2.
      destruct (r1 =? ColAlignment y), (r2 =? ColAlignment y); cbn;
        rewrite ?Z.eqb_refl; reflexivity.
    + apply Z.eqb_eq in M1, M2. subst r1 r2.
      destruct (k =? ColAlignment y); cbn; rewrite ?Z.eqb_refl; reflexivity.
Qed.

(** ** All processes of the grid together *)

Section System.

(** Grid height and width; the process in row [row] and column [col] has
    [MCRank() = row] and [MRRank() = col]. *)
Variables (r c : Z).
Variable release : bool.
Variables (x y : Meta).
Variables (xLocal yLocal : Z -> Z -> LocalData).

Definition in_grid (row col : Z) : Prop := 0 <= row < r /\ 0 <= col < c.

(** The calls each process still has to issue. *)
Definition state : Type := Z -> Z -> list Event.

Definition init : state :=
  fun row col =>
    final (Dot release row col x y (xLocal row col) (yLocal row col)).

(** A collective call on [K] can complete: [K] has a member, and every
    member is at a call on [K], all of the same shape. *)
Definition ready (K : CommId) (st : state) : Prop :=
  (exists row col, in_grid row col /\ member row col K = true) /\
  exists s, forall row col,
      in_grid row col -> member row col K = true ->
      exists call rest, st row col = (K, call) :: rest /\ shape call = s.

(** One collective call completes on all members of its communicator. *)
Definition step (st st' : state) : Prop :=
  exists K, ready K st /\
    forall row col, in_grid row col ->
      st' row col = if member row col K then tl (st row col) else st row col.

Inductive run : state -> state -> Prop :=
| run_refl st st' :
    (forall row col, in_grid row col -> st' row col = st row col) ->
    run st st'
| run_step st st' st'' : run st st' -> step st' st'' -> run st st''.

Definition finished (st : state) : Prop :=
  forall row col, in_grid row col -> st row col = [].

(** *** The states the grid goes through *)

(** The coordinate that selects the owner line, and the one that selects
    the communicator of the final broadcast. *)
Definition line (row col : Z) : Z := if column_case x y then col else row.
Definition cls (row col : Z) : Z := if column_case x y then row else col.
Definition commA (k : Z) : CommId := if column_case x y then MCComm k else MRComm k.
Definition commB (k : Z) : CommId := if column_case x y then MRComm k else MCComm k.
Definition nlines : Z := if column_case x y then c else r.
Definition nclasses : Z := if column_case x y then r else c.
Definition ownerLine : Z :=
  if column_case x y then RowAlignment y else ColAlignment y.

(** The pending calls of a process when the redistribution is done iff
    [g], the reduction is done iff [a], and the broadcast of class [k] is
    done iff [b k]. *)
Definition pending (g a : bool) (b : Z -> bool) : state :=
  fun row col =>
    (if g then [] else [(GridComm, Redistribute)])
    ++ (if line row col =? ownerLine then
          if a then []
          else [(commA (line row col),
                 AllReduceSum (local_dot (xLocal row col) (yLocal row col)))]
        else [])
    ++ (if b (cls row col) then []
        else [(commB (cls row col), Broadcast ownerLine)]).

Lemma init_pending row col :
  (if release then None else debug_check x y) = None ->
  init row col = pending false false (fun _ => false) row col.
Proof.
  intros Hd. unfold init, pending, line, cls, commA, commB, ownerLine.
  destruct (column_case x y) eqn:Hc.
  - rewrite Dot_column_case by trivial. now rewrite Hd.
  - rewrite Dot_row_case by trivial. now rewrite Hd.
Qed.

Lemma init_raised row col msg :
  (if release then None else debug_check x y) = Some msg ->
  init row col = [].
Proof.
  intros Hd. unfold init, Dot. now rewrite Hd.
Qed.

Lemma member_commA row col k :
  member row col (commA k) = (line row col =? k).
Proof. unfold commA, line. now destruct (column_case x y). Qed.

Lemma member_commB row col k :
  member row col (commB k) = (cls row col =? k).
Proof. unfold commB, cls. now destruct (column_case x y). Qed.

Lemma in_grid_line_cls row col :
  in_grid row col <->
  0 <= line row col < nlines /\ 0 <= cls row col < nclasses.
Proof.
  unfold in_grid, line, cls, nlines, nclasses.
  destruct (column_case x y); tauto.
Qed.

(** The process on line [l] in class [k]. *)
Lemma process_at l k :
  0 <= l < nlines -> 0 <= k < nclasses ->
  exists row col, in_grid row col /\ line row col = l /\ cls row col = k.
Proof.
  unfold in_grid, line, cls, nlines, nclasses.
  destruct (column_case x y); intros Hl Hk;
    [exists k, l | exists l, k]; auto.
Qed.

Lemma commA_neq_commB k k' : commA k <> commB k'.
Proof. unfold commA, commB. destruct (column_case x y); discriminate. Qed.

Lemma commA_inj k k' : commA k = commA k' -> k = k'.
Proof. unfold commA. destruct (column_case x y); congruence. Qed.

Lemma commB_inj k k' : commB k = commB k' -> k = k'.
Proof. unfold commB. destruct (column_case x y); congruence. Qed.

Lemma commA_not_grid k : commA k <> GridComm.
Proof. unfold commA. destruct (column_case x y); discriminate. Qed.

Lemma commB_not_grid k : commB k <> GridComm.
Proof. unfold commB. destruct (column_case x y); discriminate. Qed.

(** *** Progress *)

Hypothesis Hr : 0 < r.
Hypothesis Hc : 0 < c.
Hypothesis Howner : 0 <= ownerLine < nlines.

Lemma nlines_pos : 0 < nlines.
Proof. unfold nlines. destruct (column_case x y); trivial. Qed.

Lemma nclasses_pos : 0 < nclasses.
Proof. unfold nclasses. destruct (column_case x y); trivial. Qed.

(** [st] is [pending g a b] on the grid. *)
Definition at_phase (st : state) (g a : bool) (b : Z -> bool) : Prop :=
  forall row col, in_grid row col -> st row col = pending g a b row col.

(** The redistribution completes. *)
Lemma step_redistribute st st' a b :
  at_phase st false a b -> at_phase st' true a b -> step st st'.
Proof.
  intros Hst Hst'. exists GridComm. split.
  - split.
    + exists 0, 0. unfold in_grid. cbn. split; [lia | reflexivity].
    + exists SRedistribute. intros row col Hg _.
      rewrite (Hst row col Hg). unfold pending. cbn [app].
      eexists _, _. split; reflexivity.
  - intros row col Hg. cbn [member].
    rewrite (Hst row col Hg), (Hst' row col Hg). reflexivity.
Qed.

(** The reduction on the owner line completes. *)
Lemma step_reduce st st' b :
  at_phase st true false b -> at_phase st' true true b -> step st st'.
Proof.
  intros Hst Hst'. exists (commA ownerLine). split.
  - split.
    + destruct (@process_at ownerLine 0 Howner) as (row & col & Hg & Hl & Hk).
      { pose proof nclasses_pos. lia. }
      exists row, col. split; trivial.
      rewrite member_commA, Hl. apply Z.eqb_refl.
    + exists SAllReduceSum. intros row col Hg Hm.
      rewrite member_commA in Hm. apply Z.eqb_eq in Hm.
      rewrite (Hst row col Hg). unfold pending. cbn [app].
      rewrite Hm, Z.eqb_refl. cbn [app].
      eexists _, _. split; reflexivity.
  - intros row col Hg. rewrite member_commA.
    rewrite (Hst row col Hg), (Hst' row col Hg). unfold pending. cbn [app].
    destruct (line row col =? ownerLine); reflexivity.
Qed.

(** The broadcast of class [k] completes. *)
Lemma step_broadcast st st' b b' k :
  at_phase st true true b -> at_phase st' true true b' ->
  0 <= k < nclasses -> b k = false ->
  (forall k', 0 <= k' < nclasses -> b' k' = (k' =? k) || b k') ->
  step st st'.
Proof.
  intros Hst Hst' Hk Hbk Hb'. exists (commB k). split.
  - split.
    + destruct (@process_at 0 k) as (row & col & Hg & Hl & Hc');
        [pose proof nlines_pos; lia | trivial |].
      exists row, col. split; trivial.
      rewrite member_commB, Hc'. apply Z.eqb_refl.
    + exists (SBroadcast ownerLine). intros row col Hg Hm.
      rewrite member_commB in Hm. apply Z.eqb_eq in Hm.
      rewrite (Hst row col Hg). unfold pending. cbn [app].
      rewrite Hm, Hbk.
      destruct (line row col =? ownerLine); cbn [app];
        eexists _, _; split; reflexivity.
  - intros row col Hg. rewrite member_commB.
    rewrite (Hst row col Hg), (Hst' row col Hg). unfold pending. cbn [app].
    apply in_grid_line_cls in Hg. destruct Hg as [_ Hcl].
    rewrite Hb' by trivial.
    destruct (Z.eqb_spec (cls row col) k) as [E|E]; cbn [orb].
    + rewrite E, Hbk.
      destruct (line row col =? ownerLine); reflexivity.
    + reflexivity.
Qed.

(** Some class below [n] is not done, or all are. *)
Lemma find_pending_class (b : Z -> bool) n :
  0 <= n ->
  (exists k, 0 <= k < n /\ b k = false) \/
  (forall k, 0 <= k < n -> b k = true).
Proof.
  intros Hn. pattern n. apply natlike_ind; trivial.
  - right. intros k Hk. lia.
  - intros m Hm [(k & Hk & E)|Hall].
    + left. exists k. split; [lia | trivial].
    + destruct (b m) eqn:E.
      * right. intros k Hk.
        destruct (Z.eq_dec k m) as [->|]; trivial. apply Hall. lia.
      * left. exists m. split; [lia | trivial].
Qed.

(** The constraints the order of calls puts on the phases. *)
Definition consistent (g a : bool) (b : Z -> bool) : Prop :=
  (a = true -> g = true) /\
  (forall k, 0 <= k < nclasses -> b k = true -> a = true).

Definition Inv (st : state) : Prop :=
  exists g a b, consistent g a b /\ at_phase st g a b.

Lemma Inv_progress st :
  Inv st -> finished st \/ exists st', step st st'.
Proof.
  intros (g & a & b & [Hag Hba] & Hst).
  destruct g.
  - destruct a.
    + destruct (@find_pending_class b nclasses) as [(k & Hk & E)|Hall].
      { pose proof nclasses_pos. lia. }
      * right. exists (pending true true (fun k' => (k' =? k) || b k')).
        apply step_broadcast with (b := b) (b' := fun k' => (k' =? k) || b k')
                                  (k := k); trivial.
        intros row col _. reflexivity.
      * left. intros row col Hg. rewrite (Hst row col Hg).
        unfold pending. apply in_grid_line_cls in Hg.
        rewrite Hall by apply Hg.
        destruct (line row col =? ownerLine); reflexivity.
    + right. exists (pending true true b).
      apply step_reduce with (b := b); trivial.
      intros row col _. reflexivity.
  - right. exists (pending true a b).
    apply step_redistribute with (a := a) (b := b); trivial.
    intros row col _. reflexivity.
Qed.

(** *** The phases are all the grid can reach *)

Lemma pop_redistribute a b row col :
  tl (pending false a b row col) = pending true a b row col.
Proof. reflexivity. Qed.

Lemma pop_reduce b row col :
  (if member row col (commA ownerLine)
   then tl (pending true false b row col)
   else pending true false b row col) = pending true true b row col.
Proof.
  rewrite member_commA. unfold pending. cbn [app].
  destruct (line row col =? ownerLine); reflexivity.
Qed.

Lemma pop_broadcast b k row col :
  b k = false ->
  (if member row col (commB k)
   then tl (pending true true b row col)
   else pending true true b row col) =
  pending true true (fun k' => (k' =? k) || b k') row col.
Proof.
  intros Hbk. rewrite member_commB. unfold pending. cbn [app].
  destruct (Z.eqb_spec (cls row col) k) as [E|E]; cbn [orb].
  - rewrite E, Hbk. destruct (line row col =? ownerLine); reflexivity.
  - reflexivity.
Qed.

(** Which communicator can complete in which phase. *)
Lemma ready_phase st g a b K :
  consistent g a b -> at_phase st g a b -> ready K st ->
  (g = false /\ K = GridComm) \/
  (g = true /\ a = false /\ K = commA ownerLine) \/
  (g = true /\ a = true /\
   exists k, 0 <= k < nclasses /\ b k = false /\ K = commB k).
Proof.
  intros [Hag Hba] Hst [(row0 & col0 & Hg0 & Hm0) (sh & Hready)].
  destruct (Hready row0 col0 Hg0 Hm0) as (call & rest & Hhead & _).
  rewrite (Hst row0 col0 Hg0) in Hhead.
  pose proof (proj1 (in_grid_line_cls row0 col0) Hg0) as [Hl0 Hk0].
  destruct g.
  - right. destruct a.
    + right. split; trivial. split; trivial.
      exists (cls row0 col0). split; trivial.
      unfold pending in Hhead. cbn [app] in Hhead.
      destruct (b (cls row0 col0)) eqn:Eb.
      * destruct (line row0 col0 =? ownerLine); discriminate.
      * split; trivial.
        destruct (line row0 col0 =? ownerLine); cbn [app] in Hhead;
          congruence.
    + left. split; trivial. split; trivial.
      assert (Hb0 : b (cls row0 col0) = false).
      { destruct (b (cls row0 col0)) eqn:Eb; trivial.
        specialize (Hba _ Hk0 Eb). discriminate. }
      unfold pending in Hhead. cbn [app] in Hhead. rewrite Hb0 in Hhead.
      destruct (Z.eqb_spec (line row0 col0) ownerLine) as [E|E];
        cbn [app] in Hhead.
      * rewrite E in Hhead. congruence.
      * (* the broadcast of the class cannot complete: its member on the
           owner line still has the reduction to do *)
        exfalso.
        assert (HK : K = commB (cls row0 col0)) by congruence.
        destruct (@process_at ownerLine (cls row0 col0) Howner Hk0)
          as (row1 & col1 & Hg1 & Hl1 & Hk1).
        assert (Hm1 : member row1 col1 K = true).
        { rewrite HK, member_commB, Hk1. apply Z.eqb_refl. }
        destruct (Hready row1 col1 Hg1 Hm1) as (call1 & rest1 & Hh1 & _).
        rewrite (Hst row1 col1 Hg1) in Hh1.
        unfold pending in Hh1. cbn [app] in Hh1.
        rewrite Hl1, Z.eqb_refl in Hh1. cbn [app] in Hh1.
        injection Hh1 as Hh1 _ _. rewrite HK in Hh1.
        now apply commA_neq_commB in Hh1.
  - left. split; trivial.
    unfold pending in Hhead. cbn [app] in Hhead. congruence.
Qed.

Lemma step_Inv st st' : Inv st -> step st st' -> Inv st'.
Proof.
  intros (g & a & b & Hcons & Hst) (K & Hready & Hst').
  destruct (ready_phase Hcons Hst Hready)
    as [[-> ->]|[(-> & -> & ->)|(-> & -> & k & Hk & Hbk & ->)]].
  - exists true, a, b. split.
    + destruct Hcons as [Hag Hba]. split; auto.
    + intros row col Hg. rewrite (Hst' row col Hg). cbn [member].
      rewrite (Hst row col Hg). apply pop_redistribute.
  - exists true, true, b. split.
    + split; auto.
    + intros row col Hg. rewrite (Hst' row col Hg), (Hst row col Hg).
      apply pop_reduce.
  - exists true, true, (fun k' => (k' =? k) || b k'). split.
    + split; auto.
    + intros row col Hg. rewrite (Hst' row col Hg), (Hst row col Hg).
      now apply pop_broadcast.
Qed.

Lemma Inv_init : Inv init.
Proof.
  destruct (if release then None else debug_check x y) as [msg|] eqn:Hd.
  - exists true, true, (fun _ => true). split.
    + split; auto.
    + intros row col _. rewrite (init_raised _ _ Hd). unfold pending.
      cbn [app]. destruct (line row col =? ownerLine); reflexivity.
  - exists false, false, (fun _ => false). split.
    + split; intros; discriminate.
    + intros row col _. now apply init_pending.
Qed.

Lemma run_Inv st st' : Inv st -> run st st' -> Inv st'.
Proof.
  intros Hinv Hrun. induction Hrun as [st st' Heq|st st' st'' _ IH Hstep].
  - destruct Hinv as (g & a & b & Hcons & Hst).
    exists g, a, b. split; trivial.
    intros row col Hg. rewrite (Heq row col Hg). now apply Hst.
  - apply step_Inv with st'; auto.
Qed.

(** *** A complete run *)

Lemma pending_ext g a b b' row col :
  in_grid row col ->
  (forall k, 0 <= k < nclasses -> b k = b' k) ->
  pending g a b row col = pending g a b' row col.
Proof.
  intros Hg Hb. unfold pending. apply in_grid_line_cls in Hg.
  now rewrite (Hb (cls row col)) by apply Hg.
Qed.

Lemma run_broadcasts st n :
  0 <= n <= nclasses ->
  at_phase st true true (fun _ => false) ->
  run st (pending true true (fun k => k <? n)).
Proof.
  intros [Hn0 Hn]. revert Hn. pattern n. apply natlike_ind; trivial.
  - intros _ Hst. apply run_refl. intros row col Hg.
    rewrite (Hst row col Hg). apply pending_ext; trivial.
    intros k Hk. apply Z.ltb_ge. lia.
  - intros m Hm IH Hle Hst.
    apply run_step with (pending true true (fun k => k <? m)).
    + apply IH; trivial. lia.
    + apply step_broadcast with (b := fun k => k <? m)
                                (b' := fun k => k <? Z.succ m) (k := m).
      * intros row col _. reflexivity.
      * intros row col _. reflexivity.
      * lia.
      * apply Z.ltb_irrefl.
      * intros k' Hk'.
        destruct (Z.eqb_spec k' m), (Z.ltb_spec k' m),
          (Z.ltb_spec k' (Z.succ m)); cbn; trivial; lia.
Qed.

Lemma complete_run : exists st, run init st /\ finished st.
Proof.
  destruct (if release then None else debug_check x y) as [msg|] eqn:Hd.
  - exists init. split.
    + apply run_refl. reflexivity.
    + intros row col _. now apply init_raised with msg.
  - exists (pending true true (fun k => k <? nclasses)). split.
    + assert (H1 : run init (pending true false (fun _ => false))).
      { apply run_step with init; [apply run_refl; reflexivity|].
        apply step_redistribute with (a := false) (b := fun _ => false).
        - intros row col _. now apply init_pending.
        - intros row col _. reflexivity. }
      assert (H2 : run init (pending true true (fun _ => false))).
      { apply run_step with (pending true false (fun _ => false)); trivial.
        apply step_reduce with (b := fun _ => false);
          intros row col _; reflexivity. }
      clear H1.
      assert (H3 : run (pending true true (fun _ => false))
                       (pending true true (fun k => k <? nclasses))).
      { apply run_broadcasts.
        - pose proof nclasses_pos. lia.
        - intros row col _. reflexivity. }
      clear - H2 H3. induction H3 as [s1 s2 Heq|s1 s2 s3 _ IH Hs].
      * destruct H2 as [s0 s1 Heq0|s0 s1' s1 Hr0 Hs0].
        -- apply run_refl. intros row col Hg.
           rewrite (Heq row col Hg). now apply Heq0.
        -- apply run_step with s1'; trivial.
           destruct Hs0 as (K & Hready & Hnext). exists K. split; trivial.
           intros row col Hg. rewrite (Heq row col Hg). now apply Hnext.
      * apply run_step with s2; auto.
    + intros row col Hg. unfold pending. cbn [app].
      apply in_grid_line_cls in Hg. destruct Hg as [_ Hk].
      destruct (Z.ltb_spec (cls row col) nclasses); [|lia].
      destruct (line row col =? ownerLine); reflexivity.
Qed.

(** C6. Two members of one communicator issue the same sequence of
    collective calls on it, whatever their local data.  When the checks
    pass every process redistributes; if [y] is a column, exactly the
    processes of the owner column [y.RowAlignment()] reduce their local
    dot over their column communicator and every process takes part in the
    broadcast from that column over its row communicator; if [y] is not a
    column, exactly the processes of the owner row [y.ColAlignment()]
    reduce over their row communicator and every process takes part in
    the broadcast from that row over its column communicator.  From every
    state the grid can reach either all processes are done or some
    collective call can complete, and a run to completion exists. *)
Theorem Dot_collectives_aligned :
  (forall K r1 c1 r2 c2 xl1 yl1 xl2 yl2,
     member r1 c1 K = true -> member r2 c2 K = true ->
     raised (Dot release r1 c1 x y xl1 yl1) =
       raised (Dot release r2 c2 x y xl2 yl2) /\
     calls_on K (final (Dot release r1 c1 x y xl1 yl1)) =
       calls_on K (final (Dot release r2 c2 x y xl2 yl2))) /\
  ((if release then None else debug_check x y) = None ->
   forall row col xl yl,
     Dot release row col x y xl yl =
     Done (if Width y =? 1 then
             [(GridComm, Redistribute)]
             ++ (if col =? RowAlignment y
                 then [(MCComm col, AllReduceSum (local_dot xl yl))]
                 else [])
             ++ [(MRComm row, Broadcast (RowAlignment y))]
           else
             [(GridComm, Redistribute)]
             ++ (if row =? ColAlignment y
                 then [(MRComm row, AllReduceSum (local_dot xl yl))]
                 else [])
             ++ [(MCComm col, Broadcast (ColAlignment y))])) /\
  (forall st, run init st -> finished st \/ exists st', step st st') /\
  (exists st, run init st /\ finished st).
Proof.
  split; [|split; [|split]].
  - intros K r1 c1 r2 c2 xl1 yl1 xl2 yl2. apply same_calls_on.
  - intros Hd row col xl yl.
    destruct (Width y =? 1) eqn:Hw.
    + rewrite Dot_column_case.
      * now rewrite Hd.
      * unfold column_case. rewrite Hw.
        now destruct (Width x =? 1).
    + rewrite Dot_row_case.
      * now rewrite Hd.
      * unfold column_case. rewrite Hw. now rewrite !andb_false_r.
  - intros st Hrun. apply Inv_progress. apply run_Inv with init; trivial.
    apply Inv_init.
  - apply complete_run.
Qed.

End System.

End Dot.

End DotMCMR.

(** ** [Dot] on a 2 x 3 grid *)

Module DotExamples.

Import DotMCMR.

Definition dotZ (a b : list Z) : Z :=
  fold_left Z.add (map (fun p => fst p * snd p) (combine a b)) 0.

(** Column vectors of length 4; [y] is aligned to grid column 1. *)
Definition x4 : Meta :=
  {| Height := 4; Width := 1; ColAlignment := 0; RowAlignment := 0;
     GridId := 0 |}.
Definition y4 : Meta :=
  {| Height := 4; Width := 1; ColAlignment := 0; RowAlignment := 1;
     GridId := 0 |}.

(** A process of the owner column with two local entries, one with none,
    and a process outside the owner column. *)
Example Dot_owner_column :
  Dot dotZ false 0 1 x4 y4 [1; 2] [3; 4] =
    Done [(GridComm, Redistribute Z); (MCComm 1, AllReduceSum 11);
          (MRComm 0, Broadcast Z 1)] /\
  Dot dotZ false 1 1 x4 y4 [] [] =
    Done [(GridComm, Redistribute Z); (MCComm 1, AllReduceSum 0);
          (MRComm 1, Broadcast Z 1)] /\
  Dot dotZ false 1 2 x4 y4 [] [] =
    Done [(GridComm, Redistribute Z); (MRComm 1, Broadcast Z 1)].
Proof. vm_compute. auto. Qed.

(** Local data: rows of the owner column of row 0 hold entries, all other
    processes are empty. *)
Definition xLocal0 (row col : Z) : list Z :=
  if (row =? 0) && (col =? 1) then [1; 2] else [].
Definition yLocal0 (row col : Z) : list Z :=
  if (row =? 0) && (col =? 1) then [3; 4] else [].

Lemma Dot_collectives_aligned_witness :
  0 < 2 /\ 0 < 3 /\ 0 <= ownerLine x4 y4 < nlines 2 3 x4 y4 /\
  ((forall K r1 c1 r2 c2 xl1 yl1 xl2 yl2,
      member r1 c1 K = true -> member r2 c2 K = true ->
      raised (Dot dotZ false r1 c1 x4 y4 xl1 yl1) =
        raised (Dot dotZ false r2 c2 x4 y4 xl2 yl2) /\
      calls_on K (final (Dot dotZ false r1 c1 x4 y4 xl1 yl1)) =
        calls_on K (final (Dot dotZ false r2 c2 x4 y4 xl2 yl2))) /\
   ((if false then None else debug_check x4 y4) = None ->
    forall row col xl yl,
      Dot dotZ false row col x4 y4 xl yl =
      Done (if Width y4 =? 1 then
              [(GridComm, Redistribute Z)]
              ++ (if col =? RowAlignment y4
                  then [(MCComm col, AllReduceSum (dotZ xl yl))]
                  else [])
              ++ [(MRComm row, Broadcast Z (RowAlignment y4))]
            else
              [(GridComm, Redistribute Z)]
              ++ (if row =? ColAlignment y4
                  then [(MRComm row, AllReduceSum (dotZ xl yl))]
                  else [])
              ++ [(MCComm col, Broadcast Z (ColAlignment y4))])) /\
   (forall st, run 2 3 (init dotZ false x4 y4 xLocal0 yLocal0) st ->
      finished 2 3 st \/ exists st', step 2 3 st st') /\
   (exists st, run 2 3 (init dotZ false x4 y4 xLocal0 yLocal0) st /\
               finished 2 3 st)).
Proof.
  split; [lia|]. split; [lia|].
  split; [vm_compute; split; [discriminate | reflexivity]|].
  apply (@Dot_collectives_aligned Z (list Z) dotZ 2 3 false x4 y4
           xLocal0 yLocal0); try lia.
  vm_compute. split; [discriminate | reflexivity].
Defined.

(** A row vector of length 4 owned by grid row 1; its row alignment is 0. *)
Definition yRow4 : Meta :=
  {| Height := 1; Width := 4; ColAlignment := 1; RowAlignment := 0;
     GridId := 0 |}.

(** For a row vector [y] the reduction runs over the row communicator of
    the owner row and the broadcast over the column communicators: the
    process in row 1 and column 2, outside the column [y.RowAlignment()],
    reduces over [MRComm 1]; the process in row 0 and column 0, inside it,
    reduces over no communicator; and both broadcast over their column
    communicator, not their row communicator. *)
Lemma row_vector_reduces_over_row_communicator :
  RowAlignment yRow4 = 0 /\
  Dot dotZ false 1 2 x4 yRow4 [1; 2] [3; 4] =
    Done [(GridComm, Redistribute Z); (MRComm 1, AllReduceSum 11);
          (MCComm 2, Broadcast Z 1)] /\
  Dot dotZ false 0 0 x4 yRow4 [] [] =
    Done [(GridComm, Redistribute Z); (MCComm 0, Broadcast Z 1)].
Proof. vm_compute. auto. Qed.

End DotExamples.

(* ===================================================================== *)
(** * [lapack::HermitianOneNorm] *)
(* ===================================================================== *)

(** "R: representation of real number", with the operations the norm uses:
    [+], [0] and [std::max].  Nothing is assumed of them: the norm is
    instantiated for [float] and [double], whose addition rounds. *)
Record RealType : Type := {
  real_carrier :> Type;
  rzero : real_carrier;
  radd : real_carrier -> real_carrier -> real_carrier;
  rmax : real_carrier -> real_carrier -> real_carrier
}.

Arguments rzero {r}.
Arguments radd {r}.
Arguments rmax {r}.

(** A real type whose addition is exact: associative and commutative, with
    [0] neutral.  The integers and the rationals are; [float] and [double]
    are not. *)
Class Exact (R : RealType) : Prop := {
  radd_assoc : forall a b c : R, radd a (radd b c) = radd (radd a b) c;
  radd_comm : forall a b : R, radd a b = radd b a;
  radd_0_l : forall a : R, radd rzero a = a
}.

(** The integers as a real type. *)
Definition ZReal : RealType :=
  {| real_carrier := Z; rzero := 0; radd := Z.add; rmax := Z.max |}.

#[export] Instance ZReal_exact : Exact ZReal :=
  {| radd_assoc := Z.add_assoc : forall a b c : ZReal, _;
     radd_comm := Z.add_comm : forall a b : ZReal, _;
     radd_0_l := Z.add_0_l : forall a : ZReal, _ |}.

(** [double]: IEEE 754 binary64 with round to nearest even; [std::max( a,
    b )] is [(a < b) ? b : a]. *)
Definition Float64 : RealType :=
  {| real_carrier := PrimFloat.float; rzero := PrimFloat.zero;
     radd := PrimFloat.add;
     rmax := fun a b => if PrimFloat.ltb a b then b else a |}.

Module Norms.

Import Distribution.

Section Norm.

Variable R : RealType.
(** The entries: [R] itself or [std::complex<R>]; [Abs] is their modulus. *)
Variable F : Type.
Variable Abs : F -> R.

Inductive Shape : Type := Lower | Upper.

(** A returned value, or a [std::runtime_error] thrown. *)
Inductive result : Type :=
| Value (v : R)
| RuntimeError (msg : string).

(** ** The sequential norm *)

(** [Matrix<R>]: the extent and [A.Get(i,j)]. *)
Record Matrix : Type := {
  Height : Z;
  Width : Z;
  Get : Z -> Z -> F
}.

(** [HermitianOneNorm( shape, A )] for [Matrix], lines 36-75 (and 78-118
    for complex entries: the same text). *)
Definition HermitianOneNorm (shape : Shape) (A : Matrix) : result :=
  if negb (Height A =? Width A) then
    RuntimeError "Hermitian matrices must be square."
  else
    let maxColSum := rzero in
    match shape with
    | Upper =>
        Value
          (For 0 (Width A) (fun j maxColSum =>
             let colSum := rzero in
             let colSum :=
               For 0 (j + 1) (fun i colSum => radd colSum (Abs (Get A i j)))
                   colSum in
             let colSum :=
               For (j + 1) (Height A)
                   (fun i colSum => radd colSum (Abs (Get A j i))) colSum in
             rmax maxColSum colSum) maxColSum)
    | Lower =>
        Value
          (For 0 (Width A) (fun j maxColSum =>
             let colSum := rzero in
             let colSum :=
               For 0 j (fun i colSum => radd colSum (Abs (Get A j i)))
                   colSum in
             let colSum :=
               For j (Height A)
                   (fun i colSum => radd colSum (Abs (Get A i j))) colSum in
             rmax maxColSum colSum) maxColSum)
    end.

(** ** The distributed norm *)

(** A [std::vector<R>] and the assignment [v[idx] = x]. *)
Definition vec : Type := Z -> R.
Definition vset (v : vec) (idx : Z) (x : R) : vec :=
  fun a => if a =? idx then x else v a.

(** A [MC,MR] matrix on an [r] x [c] grid, all processes at once:
    [LocalEntry row col] is the local matrix of the process in grid row
    [row] and grid column [col]. *)
Record DistMatrix : Type := {
  DHeight : Z;
  DWidth : Z;
  GridHeight : Z;
  GridWidth : Z;
  ColAlignment : Z;
  RowAlignment : Z;
  LocalEntry : Z -> Z -> Z -> Z -> F
}.

Definition ColShift (A : DistMatrix) (row : Z) : Z :=
  Shift row (ColAlignment A) (GridHeight A).
Definition RowShift (A : DistMatrix) (col : Z) : Z :=
  Shift col (RowAlignment A) (GridWidth A).
Definition LocalHeight (A : DistMatrix) (row : Z) : Z :=
  LocalLength (DHeight A) (ColShift A row) (GridHeight A).
Definition LocalWidth (A : DistMatrix) (col : Z) : Z :=
  LocalLength (DWidth A) (RowShift A col) (GridWidth A).

(** The vector [partialColSums] of the process in grid row [row] and grid
    column [col] when it reaches the [AllReduce], lines 136-178 (Upper) and
    190-225 (Lower). *)
Definition partialColSums (shape : Shape) (A : DistMatrix) (row col : Z)
  : vec :=
  let r := GridHeight A in
  let c := GridWidth A in
  let rowShift := RowShift A col in
  let colShift := ColShift A row in
  let GetLocalEntry := LocalEntry A row col in
  match shape with
  | Upper =>
      let myPartialUpperColSums : vec :=
        For 0 (LocalWidth A col) (fun jLocal v =>
          let j := rowShift + jLocal * c in
          let numUpperRows := LocalLength (j + 1) colShift r in
          let v := vset v jLocal rzero in
          For 0 numUpperRows (fun iLocal v =>
            vset v jLocal (radd (v jLocal) (Abs (GetLocalEntry iLocal jLocal))))
            v) (fun _ => rzero) in
      let myPartialStrictlyUpperRowSums : vec :=
        For 0 (LocalHeight A row) (fun iLocal v =>
          let i := colShift + iLocal * r in
          let numLowerCols := LocalLength (i + 1) rowShift c in
          let v := vset v iLocal rzero in
          For numLowerCols (LocalWidth A col) (fun jLocal v =>
            vset v iLocal (radd (v iLocal) (Abs (GetLocalEntry iLocal jLocal))))
            v) (fun _ => rzero) in
      let partialColSums : vec := fun _ => rzero in
      let partialColSums :=
        For 0 (LocalWidth A col) (fun jLocal p =>
          let j := rowShift + jLocal * c in
          vset p j (myPartialUpperColSums jLocal)) partialColSums in
      For 0 (LocalHeight A row) (fun iLocal p =>
        let i := colShift + iLocal * r in
        vset p i (radd (p i) (myPartialStrictlyUpperRowSums iLocal)))
        partialColSums
  | Lower =>
      let myPartialLowerColSums : vec :=
        For 0 (LocalWidth A col) (fun jLocal v =>
          let j := rowShift + jLocal * c in
          let numStrictlyUpperRows := LocalLength j colShift r in
          let v := vset v jLocal rzero in
          For numStrictlyUpperRows (LocalHeight A row) (fun iLocal v =>
            vset v jLocal (radd (v jLocal) (Abs (GetLocalEntry iLocal jLocal))))
            v) (fun _ => rzero) in
      let myPartialStrictlyLowerRowSums : vec :=
        For 0 (LocalHeight A row) (fun iLocal v =>
          let i := colShift + iLocal * r in
          let numStrictlyLowerCols := LocalLength i rowShift c in
          let v := vset v iLocal rzero in
          For 0 numStrictlyLowerCols (fun jLocal v =>
            vset v iLocal (radd (v iLocal) (Abs (GetLocalEntry iLocal jLocal))))
            v) (fun _ => rzero) in
      let partialColSums : vec := fun _ => rzero in
      let partialColSums :=
        For 0 (LocalWidth A col) (fun jLocal p =>
          let j := rowShift + jLocal * c in
          vset p j (myPartialLowerColSums jLocal)) partialColSums in
      For 0 (LocalHeight A row) (fun iLocal p =>
        let i := colShift + iLocal * r in
        vset p i (radd (p i) (myPartialStrictlyLowerRowSums iLocal)))
        partialColSums
  end.

(** [AllReduce( send, recv, n, MPI_SUM, g.VCComm() )]: every process
    receives the entrywise sum of the vectors sent, here added in the order
    of the VC ranks [row + col * r]. *)
Definition AllReduce (r c : Z) (send : Z -> Z -> vec) : vec :=
  fun j =>
    For 0 c (fun col acc =>
      For 0 r (fun row acc => radd acc (send row col j)) acc) rzero.

(** [HermitianOneNorm( shape, A )] for [DistMatrix<R,MC,MR>], lines 121-239
    (and 242-359 for complex entries), as returned on the process in grid
    row [row] and grid column [col]. *)
Definition HermitianOneNormDist (shape : Shape) (A : DistMatrix)
    (row col : Z) : result :=
  if negb (DHeight A =? DWidth A) then
    RuntimeError "Hermitian matrices must be square."
  else
    let maxColSum := rzero in
    let colSums :=
      AllReduce (GridHeight A) (GridWidth A) (partialColSums shape A) in
    Value
      (For 0 (DWidth A) (fun j maxColSum => rmax maxColSum (colSums j))
         maxColSum).

(** ** Sums in [R] *)

(** [rsum lo hi f] is [f lo + ... + f (hi-1)], accumulated left to right. *)
Definition rsum (lo hi : Z) (f : Z -> R) : R :=
  For lo hi (fun x acc => radd acc (f x)) rzero.

(** Induction on the upper bound of a range. *)
Lemma range_ind (P : Z -> Prop) lo :
  P lo -> (forall hi, lo <= hi -> P hi -> P (hi + 1)) ->
  forall hi, lo <= hi -> P hi.
Proof.
  intros H0 Hs hi Hle.
  replace hi with (lo + (hi - lo)) by lia.
  assert (Hd : 0 <= hi - lo) by lia. revert Hd.
  generalize (hi - lo). intros d Hd. pattern d.
  apply natlike_ind; trivial.
  - now rewrite Z.add_0_r.
  - intros k Hk IH. replace (lo + Z.succ k) with (lo + k + 1) by lia.
    apply Hs; [lia | trivial].
Qed.

(** A sum that is carried on in the same accumulator, whatever the
    addition. *)
Lemma rsum_continue lo mid hi f :
  lo <= mid <= hi ->
  For mid hi (fun x acc => radd acc (f x)) (rsum lo mid f) = rsum lo hi f.
Proof.
  intros [Hlo Hhi]. revert hi Hhi. apply range_ind.
  - now rewrite For_nil by lia.
  - intros hi Hle IH. unfold rsum in *.
    rewrite For_snoc by trivial. rewrite IH.
    now rewrite (@For_snoc R _ lo hi) by lia.
Qed.

(** ** Sums in exact arithmetic *)

Section Exactness.

Context {R_exact : Exact R}.

Lemma radd_0_r (a : R) : radd a rzero = a.
Proof. rewrite radd_comm. apply radd_0_l. Qed.

Lemma rsum_nil lo hi f : hi <= lo -> rsum lo hi f = rzero.
Proof. intros H. unfold rsum. now rewrite For_nil. Qed.

Lemma rsum_snoc lo hi f :
  lo <= hi -> rsum lo (hi + 1) f = radd (rsum lo hi f) (f hi).
Proof. intros H. unfold rsum. now rewrite For_snoc. Qed.

Lemma rsum_ext lo hi f g :
  (forall x, lo <= x < hi -> f x = g x) -> rsum lo hi f = rsum lo hi g.
Proof.
  intros H. unfold rsum. apply For_ext. intros x t Hx. now rewrite H.
Qed.

Lemma raccumulate lo hi f (v : R) :
  For lo hi (fun x acc => radd acc (f x)) v = radd v (rsum lo hi f).
Proof.
  destruct (Z_le_gt_dec lo hi) as [Hle|Hgt].
  - revert hi Hle. apply range_ind.
    + rewrite rsum_nil, For_nil by lia. now rewrite radd_0_r.
    + intros hi Hle IH. rewrite For_snoc, rsum_snoc by trivial.
      rewrite IH. symmetry. apply radd_assoc.
  - rewrite rsum_nil, For_nil by lia. now rewrite radd_0_r.
Qed.

Lemma rsum_zero lo hi : rsum lo hi (fun _ => rzero) = rzero.
Proof.
  destruct (Z_le_gt_dec lo hi) as [Hle|Hgt].
  - revert hi Hle. apply range_ind.
    + now rewrite rsum_nil by lia.
    + intros hi Hle IH. rewrite rsum_snoc by trivial.
      rewrite IH. apply radd_0_l.
  - now rewrite rsum_nil by lia.
Qed.

Lemma radd_swap (a b c d : R) :
  radd (radd a b) (radd c d) = radd (radd a c) (radd b d).
Proof.
  rewrite <- !radd_assoc. f_equal.
  rewrite !radd_assoc. f_equal. apply radd_comm.
Qed.

Lemma rsum_add lo hi f g :
  rsum lo hi (fun x => radd (f x) (g x)) =
  radd (rsum lo hi f) (rsum lo hi g).
Proof.
  destruct (Z_le_gt_dec lo hi) as [Hle|Hgt].
  - revert hi Hle. apply range_ind.
    + rewrite !rsum_nil by lia. now rewrite radd_0_l.
    + intros hi Hle IH. rewrite !rsum_snoc by trivial.
      rewrite IH. apply radd_swap.
  - rewrite !rsum_nil by lia. now rewrite radd_0_l.
Qed.

Lemma rsum_exchange lo hi lo' hi' (f : Z -> Z -> R) :
  rsum lo hi (fun x => rsum lo' hi' (fun y => f x y)) =
  rsum lo' hi' (fun y => rsum lo hi (fun x => f x y)).
Proof.
  destruct (Z_le_gt_dec lo hi) as [Hle|Hgt].
  - revert hi Hle. apply range_ind.
    + rewrite rsum_nil by lia.
      rewrite (rsum_ext _ (fun _ => rzero)).
      * now rewrite rsum_zero.
      * intros y _. now rewrite rsum_nil by lia.
    + intros hi Hle IH. rewrite rsum_snoc by trivial. rewrite IH.
      rewrite <- rsum_add. apply rsum_ext.
      intros y _. now rewrite rsum_snoc by trivial.
  - rewrite rsum_nil by lia.
    rewrite (rsum_ext _ (fun _ => rzero)).
    + now rewrite rsum_zero.
    + intros y _. now rewrite rsum_nil by lia.
Qed.

Lemma rsum_split lo mid hi f :
  lo <= mid <= hi ->
  rsum lo hi f = radd (rsum lo mid f) (rsum mid hi f).
Proof.
  intros [H1 H2]. revert hi H2. apply range_ind.
  - rewrite (rsum_nil (lo := mid)) by lia. now rewrite radd_0_r.
  - intros hi Hle IH. rewrite !rsum_snoc by lia. rewrite IH.
    symmetry. apply radd_assoc.
Qed.

Lemma rsum_if_const (b : bool) lo hi f :
  rsum lo hi (fun x => if b then f x else rzero) =
  if b then rsum lo hi f else rzero.
Proof. destruct b; trivial. apply rsum_zero. Qed.

(** A sum with a single term that is not zero. *)
Lemma rsum_single lo hi k (v : R) :
  lo <= k < hi ->
  rsum lo hi (fun x => if x =? k then v else rzero) = v.
Proof.
  intros Hk. unfold rsum.
  rewrite (For_ext _ (fun x w => if k =? x then radd w v else w)).
  - rewrite For_select.
    destruct (Z.leb_spec lo k), (Z.ltb_spec k hi); simpl; try lia.
    apply radd_0_l.
  - intros x t _. rewrite (Z.eqb_sym x k).
    destruct (k =? x); trivial. apply radd_0_r.
Qed.

(** ** Sums over the local indices of a process *)

(** The local indices between two local lengths are the global indices of
    the range that the process owns. *)
Lemma strided_sum lo n shift modulus (f : Z -> R) :
  0 <= shift < modulus -> 0 <= lo <= n ->
  rsum (LocalLength lo shift modulus) (LocalLength n shift modulus)
       (fun iLoc => f (shift + iLoc * modulus)) =
  rsum lo n (fun i => if i mod modulus =? shift then f i else rzero).
Proof.
  intros Hs [Hlo Hn]. revert n Hn. apply range_ind.
  - now rewrite !rsum_nil by lia.
  - intros n Hle IH. rewrite (rsum_snoc _ Hle).
    assert (Hmono : LocalLength lo shift modulus <=
                    LocalLength n shift modulus)
      by (apply LocalLength_mono; lia).
    destruct (Z.eqb_spec (n mod modulus) shift) as [E|E].
    + destruct (@LocalLength_succ_hit n shift modulus Hs ltac:(lia) E)
        as [E1 E2].
      rewrite E1, (rsum_snoc _ Hmono), IH. now rewrite E2.
    + rewrite LocalLength_succ_miss by (trivial; lia).
      rewrite IH. symmetry. apply radd_0_r.
Qed.

(** Summing over the ranks, each global index is met on its owner only. *)
Lemma owner_sum modulus align i (v : R) :
  0 <= align < modulus -> 0 <= i ->
  rsum 0 modulus
       (fun rank => if i mod modulus =? Shift rank align modulus
                    then v else rzero) = v.
Proof.
  intros Ha Hi.
  rewrite (rsum_ext _ (fun rank => if rank =? owner i align modulus
                                   then v else rzero)).
  - apply rsum_single. apply owner_range; lia.
  - intros rank Hr.
    pose proof (@Shift_eq_iff_owner rank i align modulus Hi Ha Hr) as Hiff.
    destruct (Z.eqb_spec (i mod modulus) (Shift rank align modulus)) as [E|E],
      (Z.eqb_spec rank (owner i align modulus)) as [E'|E']; trivial;
      exfalso.
    + apply E'. apply Hiff. now symmetry.
    + apply E. symmetry. now apply Hiff.
Qed.

(** ** The vectors of one process *)

Lemma vset_eq (v : vec) idx x a :
  vset v idx x a = if a =? idx then x else v a.
Proof. reflexivity. Qed.

Lemma cell_accumulate lo hi k (g : Z -> R) (v0 : vec) a :
  For lo hi (fun x v => vset v k (radd (v k) (g x))) v0 a =
  if a =? k then radd (v0 k) (rsum lo hi g) else v0 a.
Proof.
  rewrite (For_pointwise
             (fun x (v : vec) => vset v k (radd (v k) (g x)))
             (fun x a w => if a =? k then radd w (g x) else w)).
  - destruct (Z.eqb_spec a k) as [->|E].
    + apply raccumulate.
    + apply For_id.
  - intros x C b _. rewrite vset_eq.
    destruct (Z.eqb_spec b k) as [->|]; trivial.
Qed.

(** The loops that fill [myPartial...Sums]. *)
Lemma fill_sums n (lo hi : Z -> Z) (g : Z -> Z -> R) (v0 : vec) a :
  For 0 n (fun x v =>
    For (lo x) (hi x) (fun y v => vset v x (radd (v x) (g x y)))
        (vset v x rzero)) v0 a =
  if (0 <=? a) && (a <? n) then rsum (lo a) (hi a) (g a) else v0 a.
Proof.
  rewrite (For_pointwise
             (fun x (v : vec) =>
                For (lo x) (hi x) (fun y v => vset v x (radd (v x) (g x y)))
                    (vset v x rzero))
             (fun x a w => if a =? x then rsum (lo x) (hi x) (g x) else w)).
  - apply (For_select (fun x _ => rsum (lo x) (hi x) (g x))).
  - intros x C b _. rewrite cell_accumulate, !vset_eq.
    destruct (Z.eqb_spec b x) as [->|]; trivial.
    rewrite Z.eqb_refl. apply radd_0_l.
Qed.

(** The loop that stores the column sums at their global indices, and the
    loop that adds the row sums at theirs. *)
Lemma scatter n shift stride (u : Z -> R) (p0 : vec) a :
  0 < stride ->
  For 0 n (fun x p => vset p (shift + x * stride) (u x)) p0 a =
  if ((a - shift) mod stride =? 0) && (0 <=? (a - shift) / stride)
     && ((a - shift) / stride <? n)
  then u ((a - shift) / stride) else p0 a.
Proof.
  intros Hs.
  rewrite (For_pointwise
             (fun x (p : vec) => vset p (shift + x * stride) (u x))
             (fun x a w => if a =? shift + x * stride then u x else w)).
  - now apply (For_select_strided (fun x _ => u x)).
  - intros x C b _. apply vset_eq.
Qed.

Lemma scatter_add n shift stride (w : Z -> R) (p0 : vec) a :
  0 < stride ->
  For 0 n (fun x p =>
    vset p (shift + x * stride) (radd (p (shift + x * stride)) (w x))) p0 a =
  if ((a - shift) mod stride =? 0) && (0 <=? (a - shift) / stride)
     && ((a - shift) / stride <? n)
  then radd (p0 a) (w ((a - shift) / stride)) else p0 a.
Proof.
  intros Hs.
  rewrite (For_pointwise
             (fun x (p : vec) =>
                vset p (shift + x * stride)
                     (radd (p (shift + x * stride)) (w x)))
             (fun x a v => if a =? shift + x * stride
                           then radd v (w x) else v)).
  - now apply (For_select_strided (fun x v => radd v (w x))).
  - intros x C b _. rewrite vset_eq.
    destruct (Z.eqb_spec b (shift + x * stride)) as [->|]; trivial.
Qed.

(** For an index of the matrix, the stored-at-[a] test of the two loops is
    the ownership test. *)
Lemma hit_owner n a shift stride :
  0 <= shift < stride -> 0 <= a < n ->
  ((a - shift) mod stride =? 0) && (0 <=? (a - shift) / stride)
    && ((a - shift) / stride <? LocalLength n shift stride)
  = (a mod stride =? shift).
Proof.
  intros Hs Ha. assert (Hm : 0 < stride) by lia.
  destruct (Z.eqb_spec (a mod stride) shift) as [E|E].
  - destruct (@owner_local n a shift stride Hs Ha E) as [[H0 H1] Hback].
    assert (Hq : a - shift = a / stride * stride) by lia.
    rewrite Hq, Z.mod_mul, Z.div_mul by lia. cbn [Z.eqb andb].
    destruct (Z.leb_spec 0 (a / stride)),
      (Z.ltb_spec (a / stride) (LocalLength n shift stride));
      cbn; trivial; lia.
  - destruct (Z.eqb_spec ((a - shift) mod stride) 0) as [E0|E0];
      cbn [andb]; trivial.
    exfalso. apply E.
    pose proof (Z.div_mod (a - shift) stride ltac:(lia)) as Hd.
    rewrite E0 in Hd.
    replace a with (shift + (a - shift) / stride * stride) by lia.
    now apply strided_mod.
Qed.

(** ** The distribution, in the words of the data model *)

Definition grid_ok (A : DistMatrix) : Prop :=
  0 < GridHeight A /\ 0 < GridWidth A /\
  0 <= ColAlignment A < GridHeight A /\
  0 <= RowAlignment A < GridWidth A.

(** The local matrices hold the global matrix [G]: local entry
    [(iLocal, jLocal)] of the process in grid row [row] and grid column
    [col] is global entry
    [(colShift + iLocal * r, rowShift + jLocal * c)]. *)
Definition represents (A : DistMatrix) (G : Z -> Z -> F) : Prop :=
  forall row col iLocal jLocal,
    0 <= row < GridHeight A -> 0 <= col < GridWidth A ->
    0 <= iLocal < LocalHeight A row -> 0 <= jLocal < LocalWidth A col ->
    LocalEntry A row col iLocal jLocal =
    G (ColShift A row + iLocal * GridHeight A)
      (RowShift A col + jLocal * GridWidth A).

Lemma owner_index a shift stride :
  0 <= shift < stride -> 0 <= a -> a mod stride = shift ->
  (a - shift) / stride = a / stride.
Proof.
  intros Hs Ha E.
  pose proof (Z.div_mod a stride ltac:(lia)) as Hd. rewrite E in Hd.
  replace (a - shift) with (a / stride * stride) by lia.
  apply Z.div_mul. lia.
Qed.

Section Process.

Variable A : DistMatrix.
Variable G : Z -> Z -> F.
Variable n : Z.
Variables (row col : Z).
Hypothesis Hgrid : grid_ok A.
Hypothesis Hrep : represents A G.
Hypothesis Hheight : DHeight A = n.
Hypothesis Hwidth : DWidth A = n.
Hypothesis Hrow : 0 <= row < GridHeight A.
Hypothesis Hcol : 0 <= col < GridWidth A.

Lemma ColShift_range : 0 <= ColShift A row < GridHeight A.
Proof. destruct Hgrid as (? & ? & ? & ?). apply Shift_range; lia. Qed.

Lemma RowShift_range : 0 <= RowShift A col < GridWidth A.
Proof. destruct Hgrid as (? & ? & ? & ?). apply Shift_range; lia. Qed.

(** The local entries in terms of [G], for local indices given as bounds on
    global ones. *)
Lemma local_entry iLocal jLocal hi hj :
  hi <= n -> hj <= n ->
  0 <= iLocal < LocalLength hi (ColShift A row) (GridHeight A) ->
  0 <= jLocal < LocalLength hj (RowShift A col) (GridWidth A) ->
  LocalEntry A row col iLocal jLocal =
  G (ColShift A row + iLocal * GridHeight A)
    (RowShift A col + jLocal * GridWidth A).
Proof.
  intros Hhi Hhj Hi Hj.
  pose proof ColShift_range. pose proof RowShift_range.
  apply Hrep; trivial.
  - unfold LocalHeight. rewrite Hheight.
    pose proof (@LocalLength_mono hi n (ColShift A row) (GridHeight A)
                  ltac:(lia) ltac:(lia) Hhi). lia.
  - unfold LocalWidth. rewrite Hwidth.
    pose proof (@LocalLength_mono hj n (RowShift A col) (GridWidth A)
                  ltac:(lia) ltac:(lia) Hhj). lia.
Qed.

(** The sums of the global entries of a range that this process owns, in
    column [a] and in row [a]. *)
Definition own_col_sum (lo hi a : Z) : R :=
  rsum lo hi (fun i => if i mod GridHeight A =? ColShift A row
                       then Abs (G i a) else rzero).
Definition own_row_sum (lo hi a : Z) : R :=
  rsum lo hi (fun j => if j mod GridWidth A =? RowShift A col
                       then Abs (G a j) else rzero).

(** A sum over local rows between two local lengths, in the local column
    of the global column [a]. *)
Lemma local_col_sum lo hi a :
  0 <= lo <= hi -> hi <= n -> 0 <= a < n ->
  a mod GridWidth A = RowShift A col ->
  rsum (LocalLength lo (ColShift A row) (GridHeight A))
       (LocalLength hi (ColShift A row) (GridHeight A))
       (fun iLocal => Abs (LocalEntry A row col iLocal (a / GridWidth A)))
  = own_col_sum lo hi a.
Proof.
  intros Hlo Hhi Ha Ea.
  pose proof ColShift_range as Hcs. pose proof RowShift_range as Hrs.
  destruct (@owner_local n a _ _ Hrs Ha Ea) as [Hq Hback].
  unfold own_col_sum. rewrite <- strided_sum by lia.
  apply rsum_ext. intros iLocal Hi.
  assert (0 <= LocalLength lo (ColShift A row) (GridHeight A))
    by (apply LocalLength_nonneg; lia).
  rewrite (@local_entry iLocal (a / GridWidth A) hi n) by lia.
  now rewrite Hback.
Qed.

Lemma local_row_sum lo hi a :
  0 <= lo <= hi -> hi <= n -> 0 <= a < n ->
  a mod GridHeight A = ColShift A row ->
  rsum (LocalLength lo (RowShift A col) (GridWidth A))
       (LocalLength hi (RowShift A col) (GridWidth A))
       (fun jLocal => Abs (LocalEntry A row col (a / GridHeight A) jLocal))
  = own_row_sum lo hi a.
Proof.
  intros Hlo Hhi Ha Ea.
  pose proof ColShift_range as Hcs. pose proof RowShift_range as Hrs.
  destruct (@owner_local n a _ _ Hcs Ha Ea) as [Hq Hback].
  unfold own_row_sum. rewrite <- strided_sum by lia.
  apply rsum_ext. intros jLocal Hj.
  assert (0 <= LocalLength lo (RowShift A col) (GridWidth A))
    by (apply LocalLength_nonneg; lia).
  rewrite (@local_entry (a / GridHeight A) jLocal n hi) by lia.
  now rewrite Hback.
Qed.

Lemma local_col_sum0 hi a :
  0 <= hi <= n -> 0 <= a < n -> a mod GridWidth A = RowShift A col ->
  rsum 0 (LocalLength hi (ColShift A row) (GridHeight A))
       (fun iLocal => Abs (LocalEntry A row col iLocal (a / GridWidth A)))
  = own_col_sum 0 hi a.
Proof.
  intros Hhi Ha Ea. rewrite <- local_col_sum by (trivial; lia).
  rewrite LocalLength_0; trivial. apply ColShift_range.
Qed.

Lemma local_row_sum0 hi a :
  0 <= hi <= n -> 0 <= a < n -> a mod GridHeight A = ColShift A row ->
  rsum 0 (LocalLength hi (RowShift A col) (GridWidth A))
       (fun jLocal => Abs (LocalEntry A row col (a / GridHeight A) jLocal))
  = own_row_sum 0 hi a.
Proof.
  intros Hhi Ha Ea. rewrite <- local_row_sum by (trivial; lia).
  rewrite LocalLength_0; trivial. apply RowShift_range.
Qed.

(** Entry [a] of [partialColSums] on this process. *)
Lemma partialColSums_Upper a :
  0 <= a < n ->
  partialColSums Upper A row col a =
  radd (if a mod GridWidth A =? RowShift A col
        then own_col_sum 0 (a + 1) a else rzero)
       (if a mod GridHeight A =? ColShift A row
        then own_row_sum (a + 1) n a else rzero).
Proof.
  intros Ha.
  pose proof ColShift_range as Hcs. pose proof RowShift_range as Hrs.
  unfold partialColSums. cbv zeta.
  rewrite scatter_add by lia. rewrite scatter by lia.
  unfold LocalHeight, LocalWidth. rewrite Hheight, Hwidth.
  rewrite !hit_owner by lia.
  rewrite !(fill_sums _ _ _ (fun x y => Abs (LocalEntry A row col x y))),
          !(fill_sums _ _ _ (fun x y => Abs (LocalEntry A row col y x))).
  assert (Hcolpart :
    (if a mod GridWidth A =? RowShift A col
     then
       if (0 <=? (a - RowShift A col) / GridWidth A) &&
          ((a - RowShift A col) / GridWidth A <?
           LocalLength n (RowShift A col) (GridWidth A))
       then rsum 0
              (LocalLength
                 (RowShift A col + (a - RowShift A col) / GridWidth A
                                   * GridWidth A + 1)
                 (ColShift A row) (GridHeight A))
              (fun y => Abs (LocalEntry A row col y
                               ((a - RowShift A col) / GridWidth A)))
       else rzero
     else rzero) =
    (if a mod GridWidth A =? RowShift A col
     then own_col_sum 0 (a + 1) a else rzero)).
  { destruct (Z.eqb_spec (a mod GridWidth A) (RowShift A col)) as [E|E];
      trivial.
    rewrite owner_index by (trivial; lia).
    destruct (@owner_local n a _ _ Hrs Ha E) as [Hq Hback].
    rewrite Hback.
    destruct (Z.leb_spec 0 (a / GridWidth A)),
      (Z.ltb_spec (a / GridWidth A)
         (LocalLength n (RowShift A col) (GridWidth A)));
      cbn [andb]; try lia.
    apply local_col_sum0; trivial; lia. }
  rewrite Hcolpart.
  destruct (Z.eqb_spec (a mod GridHeight A) (ColShift A row)) as [E|E].
  - f_equal.
    rewrite owner_index by (trivial; lia).
    destruct (@owner_local n a _ _ Hcs Ha E) as [Hq Hback].
    rewrite Hback.
    destruct (Z.leb_spec 0 (a / GridHeight A)),
      (Z.ltb_spec (a / GridHeight A)
         (LocalLength n (ColShift A row) (GridHeight A)));
      cbn [andb]; try lia.
    apply local_row_sum; trivial; lia.
  - symmetry. apply radd_0_r.
Qed.

Lemma partialColSums_Lower a :
  0 <= a < n ->
  partialColSums Lower A row col a =
  radd (if a mod GridWidth A =? RowShift A col
        then own_col_sum a n a else rzero)
       (if a mod GridHeight A =? ColShift A row
        then own_row_sum 0 a a else rzero).
Proof.
  intros Ha.
  pose proof ColShift_range as Hcs. pose proof RowShift_range as Hrs.
  unfold partialColSums. cbv zeta.
  rewrite scatter_add by lia. rewrite scatter by lia.
  unfold LocalHeight, LocalWidth. rewrite Hheight, Hwidth.
  rewrite !hit_owner by lia.
  rewrite !(fill_sums _ _ _ (fun x y => Abs (LocalEntry A row col x y))),
          !(fill_sums _ _ _ (fun x y => Abs (LocalEntry A row col y x))).
  assert (Hcolpart :
    (if a mod GridWidth A =? RowShift A col
     then
       if (0 <=? (a - RowShift A col) / GridWidth A) &&
          ((a - RowShift A col) / GridWidth A <?
           LocalLength n (RowShift A col) (GridWidth A))
       then rsum
              (LocalLength
                 (RowShift A col + (a - RowShift A col) / GridWidth A
                                   * GridWidth A)
                 (ColShift A row) (GridHeight A))
              (LocalLength n (ColShift A row) (GridHeight A))
              (fun y => Abs (LocalEntry A row col y
                               ((a - RowShift A col) / GridWidth A)))
       else rzero
     else rzero) =
    (if a mod GridWidth A =? RowShift A col
     then own_col_sum a n a else rzero)).
  { destruct (Z.eqb_spec (a mod GridWidth A) (RowShift A col)) as [E|E];
      trivial.
    rewrite owner_index by (trivial; lia).
    destruct (@owner_local n a _ _ Hrs Ha E) as [Hq Hback].
    rewrite Hback.
    destruct (Z.leb_spec 0 (a / GridWidth A)),
      (Z.ltb_spec (a / GridWidth A)
         (LocalLength n (RowShift A col) (GridWidth A)));
      cbn [andb]; try lia.
    apply local_col_sum; trivial; lia. }
  rewrite Hcolpart.
  destruct (Z.eqb_spec (a mod GridHeight A) (ColShift A row)) as [E|E].
  - f_equal.
    rewrite owner_index by (trivial; lia).
    destruct (@owner_local n a _ _ Hcs Ha E) as [Hq Hback].
    rewrite Hback.
    destruct (Z.leb_spec 0 (a / GridHeight A)),
      (Z.ltb_spec (a / GridHeight A)
         (LocalLength n (ColShift A row) (GridHeight A)));
      cbn [andb]; try lia.
    apply local_row_sum0; trivial; lia.
  - symmetry. apply radd_0_r.
Qed.

End Process.

(** ** The reduction over the grid *)

Lemma AllReduce_rsum r c (send : Z -> Z -> vec) j :
  AllReduce r c send j =
  rsum 0 c (fun col => rsum 0 r (fun row => send row col j)).
Proof.
  unfold AllReduce, rsum at 1. apply For_ext.
  intros col acc _. apply raccumulate.
Qed.

Section Reduction.

Variable A : DistMatrix.
Variable G : Z -> Z -> F.
Variable n : Z.
Hypothesis Hgrid : grid_ok A.
Hypothesis Hrep : represents A G.
Hypothesis Hheight : DHeight A = n.
Hypothesis Hwidth : DWidth A = n.

(** Summed over the grid, the owned parts of a column and of a row are
    the whole column and the whole row. *)
Lemma grid_col_sum lo hi a :
  0 <= lo -> 0 <= a ->
  rsum 0 (GridWidth A) (fun col =>
    rsum 0 (GridHeight A) (fun row =>
      if a mod GridWidth A =? RowShift A col
      then own_col_sum A G row lo hi a else rzero)) =
  rsum lo hi (fun i => Abs (G i a)).
Proof.
  intros Hlo Ha. destruct Hgrid as (Hr & Hc & Hca & Hra).
  rewrite (rsum_ext _ (fun col =>
             if a mod GridWidth A =? RowShift A col
             then rsum lo hi (fun i => Abs (G i a)) else rzero)).
  - now apply owner_sum.
  - intros col _. rewrite rsum_if_const.
    destruct (a mod GridWidth A =? RowShift A col); trivial.
    unfold own_col_sum. rewrite rsum_exchange.
    apply rsum_ext. intros i Hi. apply owner_sum; trivial. lia.
Qed.

Lemma grid_row_sum lo hi a :
  0 <= lo -> 0 <= a ->
  rsum 0 (GridWidth A) (fun col =>
    rsum 0 (GridHeight A) (fun row =>
      if a mod GridHeight A =? ColShift A row
      then own_row_sum A G col lo hi a else rzero)) =
  rsum lo hi (fun j => Abs (G a j)).
Proof.
  intros Hlo Ha. destruct Hgrid as (Hr & Hc & Hca & Hra).
  rewrite rsum_exchange.
  rewrite (rsum_ext _ (fun row =>
             if a mod GridHeight A =? ColShift A row
             then rsum lo hi (fun j => Abs (G a j)) else rzero)).
  - now apply owner_sum.
  - intros row _. rewrite rsum_if_const.
    destruct (a mod GridHeight A =? ColShift A row); trivial.
    unfold own_row_sum. rewrite rsum_exchange.
    apply rsum_ext. intros j Hj. apply owner_sum; trivial. lia.
Qed.

(** Entry [a] of [colSums] after the [AllReduce]. *)
Lemma colSums_Upper a :
  0 <= a < n ->
  AllReduce (GridHeight A) (GridWidth A) (partialColSums Upper A) a =
  radd (rsum 0 (a + 1) (fun i => Abs (G i a)))
       (rsum (a + 1) n (fun j => Abs (G a j))).
Proof.
  intros Ha. rewrite AllReduce_rsum.
  rewrite (rsum_ext _ (fun col =>
     rsum 0 (GridHeight A) (fun row =>
       radd (if a mod GridWidth A =? RowShift A col
             then own_col_sum A G row 0 (a + 1) a else rzero)
            (if a mod GridHeight A =? ColShift A row
             then own_row_sum A G col (a + 1) n a else rzero)))).
  - rewrite (rsum_ext _ (fun col =>
       radd (rsum 0 (GridHeight A) (fun row =>
               if a mod GridWidth A =? RowShift A col
               then own_col_sum A G row 0 (a + 1) a else rzero))
            (rsum 0 (GridHeight A) (fun row =>
               if a mod GridHeight A =? ColShift A row
               then own_row_sum A G col (a + 1) n a else rzero))))
      by (intros col _; apply rsum_add).
    rewrite rsum_add. rewrite grid_col_sum, grid_row_sum by lia.
    reflexivity.
  - intros col Hcol. apply rsum_ext. intros row Hrow.
    now apply partialColSums_Upper with (n := n).
Qed.

Lemma colSums_Lower a :
  0 <= a < n ->
  AllReduce (GridHeight A) (GridWidth A) (partialColSums Lower A) a =
  radd (rsum a n (fun i => Abs (G i a)))
       (rsum 0 a (fun j => Abs (G a j))).
Proof.
  intros Ha. rewrite AllReduce_rsum.
  rewrite (rsum_ext _ (fun col =>
     rsum 0 (GridHeight A) (fun row =>
       radd (if a mod GridWidth A =? RowShift A col
             then own_col_sum A G row a n a else rzero)
            (if a mod GridHeight A =? ColShift A row
             then own_row_sum A G col 0 a a else rzero)))).
  - rewrite (rsum_ext _ (fun col =>
       radd (rsum 0 (GridHeight A) (fun row =>
               if a mod GridWidth A =? RowShift A col
               then own_col_sum A G row a n a else rzero))
            (rsum 0 (GridHeight A) (fun row =>
               if a mod GridHeight A =? ColShift A row
               then own_row_sum A G col 0 a a else rzero))))
      by (intros col _; apply rsum_add).
    rewrite rsum_add. rewrite grid_col_sum, grid_row_sum by lia.
    reflexivity.
  - intros col Hcol. apply rsum_ext. intros row Hrow.
    now apply partialColSums_Lower with (n := n).
Qed.

End Reduction.

(** ** The norm, in the words of its contract *)

(** The single [Matrix] holding the full global data of [A]. *)
Definition global (A : DistMatrix) (G : Z -> Z -> F) : Matrix :=
  {| Height := DHeight A; Width := DWidth A; Get := G |}.

(** The modulus of entry [(i,j)] of the Hermitian matrix determined by the
    stored triangle: the entry itself on the stored side, the mirrored one
    (conjugated, which has the same modulus) on the other side. *)
Definition hermitian_abs (shape : Shape) (G : Z -> Z -> F) (i j : Z) : R :=
  match shape with
  | Upper => if i <=? j then Abs (G i j) else Abs (G j i)
  | Lower => if j <=? i then Abs (G i j) else Abs (G j i)
  end.

(** The maximum over the columns [j] of the sum over [i] of these moduli. *)
Definition one_norm (shape : Shape) (n : Z) (G : Z -> Z -> F) : R :=
  For 0 n (fun j m => rmax m (rsum 0 n (fun i => hermitian_abs shape G i j)))
      rzero.

Lemma column_sum_Upper n G j :
  0 <= j < n ->
  radd (rsum 0 (j + 1) (fun i => Abs (G i j)))
       (rsum (j + 1) n (fun i => Abs (G j i))) =
  rsum 0 n (fun i => hermitian_abs Upper G i j).
Proof.
  intros Hj. rewrite (@rsum_split 0 (j + 1) n) by lia. f_equal.
  - apply rsum_ext. intros i Hi. cbn.
    destruct (Z.leb_spec i j); trivial; lia.
  - apply rsum_ext. intros i Hi. cbn.
    destruct (Z.leb_spec i j); trivial; lia.
Qed.

Lemma column_sum_Lower n G j :
  0 <= j < n ->
  radd (rsum 0 j (fun i => Abs (G j i)))
       (rsum j n (fun i => Abs (G i j))) =
  rsum 0 n (fun i => hermitian_abs Lower G i j).
Proof.
  intros Hj. rewrite (@rsum_split 0 j n) by lia. f_equal.
  - apply rsum_ext. intros i Hi. cbn.
    destruct (Z.leb_spec j i); trivial; lia.
  - apply rsum_ext. intros i Hi. cbn.
    destruct (Z.leb_spec j i); trivial; lia.
Qed.

(** The sequential norm adds the moduli of a column in the order of the
    rows, in one accumulator: no law of the addition is needed. *)
Lemma HermitianOneNorm_one_norm shape (M : Matrix) :
  Height M = Width M ->
  HermitianOneNorm shape M = Value (one_norm shape (Width M) (Get M)).
Proof.
  intros Hsq. unfold HermitianOneNorm, one_norm.
  rewrite Hsq, Z.eqb_refl. cbn [negb]. cbv zeta.
  destruct shape; f_equal; apply For_ext; intros j m Hj; f_equal.
  - rewrite <- (@rsum_continue 0 j (Width M)) by lia.
    rewrite (@For_ext R _ (fun i acc =>
               radd acc (hermitian_abs Lower (Get M) i j)) 0 j).
    + apply For_ext. intros i acc Hi. cbn.
      destruct (Z.leb_spec j i); trivial; lia.
    + intros i acc Hi. cbn. destruct (Z.leb_spec j i); trivial; lia.
  - rewrite <- (@rsum_continue 0 (j + 1) (Width M)) by lia.
    rewrite (@For_ext R _ (fun i acc =>
               radd acc (hermitian_abs Upper (Get M) i j)) 0 (j + 1)).
    + apply For_ext. intros i acc Hi. cbn.
      destruct (Z.leb_spec i j); trivial; lia.
    + intros i acc Hi. cbn. destruct (Z.leb_spec i j); trivial; lia.
Qed.

Lemma HermitianOneNormDist_one_norm shape A G row col :
  grid_ok A -> represents A G -> DHeight A = DWidth A ->
  HermitianOneNormDist shape A row col =
  Value (one_norm shape (DWidth A) G).
Proof.
  intros Hg Hrep Hsq. unfold HermitianOneNormDist, one_norm.
  rewrite Hsq, Z.eqb_refl. cbn [negb]. cbv zeta.
  f_equal. apply For_ext. intros j m Hj. f_equal.
  destruct shape.
  - rewrite (@colSums_Lower A G (DWidth A)); trivial.
    rewrite radd_comm. now apply column_sum_Lower.
  - rewrite (@colSums_Upper A G (DWidth A)); trivial.
    now apply column_sum_Upper.
Qed.

End Exactness.


End Norm.

End Norms.

(** ** The norm of a 5 x 5 matrix on a 2 x 3 grid *)

Module NormExamples.

Import Norms.
Import PrimFloat.

Definition G5 (i j : Z) : Z := 3 * i * i - 7 * j + i * j - 5.

(** Column alignment 1, row alignment 2. *)
Definition A5 : DistMatrix Z :=
  {| DHeight := 5; DWidth := 5; GridHeight := 2; GridWidth := 3;
     ColAlignment := 1; RowAlignment := 2;
     LocalEntry := fun row col iLocal jLocal =>
       G5 (Distribution.Shift row 1 2 + iLocal * 2)
          (Distribution.Shift col 2 3 + jLocal * 3) |}.

Lemma A5_grid_ok : grid_ok A5.
Proof. unfold grid_ok. cbn. lia. Qed.

Lemma A5_represents : represents A5 G5.
Proof. intros row col iLocal jLocal _ _ _ _. reflexivity. Qed.

Example norm_A5 :
  HermitianOneNorm ZReal Z.abs Upper (global A5 G5) = Value ZReal 109 /\
  HermitianOneNormDist ZReal Z.abs Upper A5 0 0 = Value ZReal 109 /\
  HermitianOneNormDist ZReal Z.abs Upper A5 1 2 = Value ZReal 109 /\
  HermitianOneNorm ZReal Z.abs Lower (global A5 G5) = Value ZReal 185 /\
  HermitianOneNormDist ZReal Z.abs Lower A5 1 1 = Value ZReal 185.
Proof. vm_compute. auto 10. Qed.


(** ** The same norm in binary64 *)

(** A 3 x 3 matrix whose last column holds [1], [2^53] and [1], on a 2 x 1
    grid: the rows 0 and 2 are on the process of grid row 0, row 1 on the
    process of grid row 1. *)
Definition GF (i j : Z) : PrimFloat.float :=
  if j =? 2 then
    if i =? 1 then 9007199254740992%float else PrimFloat.one
  else PrimFloat.zero.

Definition D3 : DistMatrix PrimFloat.float :=
  {| DHeight := 3; DWidth := 3; GridHeight := 2; GridWidth := 1;
     ColAlignment := 0; RowAlignment := 0;
     LocalEntry := fun row col iLocal jLocal =>
       GF (Distribution.Shift row 0 2 + iLocal * 2)
          (Distribution.Shift col 0 1 + jLocal * 1) |}.

Lemma D3_grid_ok : grid_ok D3.
Proof. unfold grid_ok. cbn. lia. Qed.

Lemma D3_represents : represents D3 GF.
Proof. intros row col iLocal jLocal _ _ _ _. reflexivity. Qed.


End NormExamples.

(* ===================================================================== *)
(** * The local triangular rank-2k update [LocalTrr2k] *)
(* ===================================================================== *)

Inductive UpperOrLower : Type := LOWER | UPPER.

Module Trr2k.

Import Distribution.

Section Local.

Variable T : Scalar.
Add Ring TRingTrr : (scalar_ring T).
Local Open Scope scalar_scope.

(** The local memory of one process. *)
Definition store : Type := Z -> T.

(** [AbstractDistMatrix<T>] as one process holds it: the global extent of
    the (sub)matrix, the first global row and column the process owns with
    the strides to the next ones, and the window of the local memory that
    stores the local entries by columns. *)
Record AbstractDistMatrix : Type := {
  Height : Z;
  Width : Z;
  ColShift : Z;
  ColStride : Z;
  RowShift : Z;
  RowStride : Z;
  LDim : Z;
  Offset : Z
}.

Definition LocalHeight (A : AbstractDistMatrix) : Z :=
  LocalLength (Height A) (ColShift A) (ColStride A).
Definition LocalWidth (A : AbstractDistMatrix) : Z :=
  LocalLength (Width A) (RowShift A) (RowStride A).

(** [A.LockedMatrix()] and [A.Matrix()]: the local matrix, a view of the
    local memory [st]. *)
Definition LockedMatrix (A : AbstractDistMatrix) (st : store)
  : Level3.Matrix T :=
  {| Level3.Height := LocalHeight A;
     Level3.Width := LocalWidth A;
     Level3.LDim := LDim A;
     Level3.Buffer := fun a => st (Offset A + a)%Z |}.

(** The local memory once the local matrix [M] of [A] has been written
    through the view. *)
Definition commit (A : AbstractDistMatrix) (M : Level3.Matrix T) : store :=
  fun a => Level3.Buffer M (a - Offset A)%Z.

(** A constant operand: the matrix and the memory it lives in. *)
Definition Operand : Type := (AbstractDistMatrix * store)%type.

(** Modelled from the spec: the view constructors are outside the given
    sources.  "partitions are always non-owning windows into the parent's
    storage with explicit (offset, extent, stride) triples": the submatrix
    of [height] x [width] entries whose corner is global entry [(i,j)]. *)
Definition View (A : AbstractDistMatrix) (i j height width : Z)
  : AbstractDistMatrix :=
  {| Height := height;
     Width := width;
     ColShift := (ColShift A - i) mod ColStride A;
     ColStride := ColStride A;
     RowShift := (RowShift A - j) mod RowStride A;
     RowStride := RowStride A;
     LDim := LDim A;
     Offset := Offset A + LocalLength i (ColShift A) (ColStride A)
               + LocalLength j (RowShift A) (RowStride A) * LDim A |}.

(** Modelled from the spec: [PartitionDown], [PartitionRight] and
    [PartitionDownDiagonal] are outside the given sources; they cut the
    matrix into windows above and below row [h], left and right of column
    [w], and into the four quadrants around diagonal entry [(d,d)]. *)
Definition PartitionDown (A : AbstractDistMatrix) (h : Z)
  : AbstractDistMatrix * AbstractDistMatrix :=
  (View A 0 0 h (Width A), View A h 0 (Height A - h) (Width A)).

Definition PartitionRight (A : AbstractDistMatrix) (w : Z)
  : AbstractDistMatrix * AbstractDistMatrix :=
  (View A 0 0 (Height A) w, View A 0 w (Height A) (Width A - w)).

Definition PartitionDownDiagonal (A : AbstractDistMatrix) (d : Z)
  : AbstractDistMatrix * AbstractDistMatrix *
    AbstractDistMatrix * AbstractDistMatrix :=
  (View A 0 0 d d, View A 0 d d (Width A - d),
   View A d 0 (Height A - d) d, View A d d (Height A - d) (Width A - d)).

(** Global entry [(i,j)] lies in the triangle named by [uplo], the diagonal
    included. *)
Definition in_triangle (uplo : UpperOrLower) (i j : Z) : bool :=
  match uplo with LOWER => j <=? i | UPPER => i <=? j end.

(** The global row of local row [iLoc], the global column of local column
    [jLoc]. *)
Definition GlobalRow (A : AbstractDistMatrix) (iLoc : Z) : Z :=
  ColShift A + iLoc * ColStride A.
Definition GlobalCol (A : AbstractDistMatrix) (jLoc : Z) : Z :=
  RowShift A + jLoc * RowStride A.

(** Modelled from the spec: [ScaleTrapezoid] is outside the given sources;
    it scales the local entries of the [uplo] triangle by [gamma] ("respects
    the upper/lower triangular target region"). *)
Definition ScaleTrapezoid (gamma : T) (uplo : UpperOrLower)
    (E : AbstractDistMatrix) (st : store) : store :=
  For 0 (LocalWidth E) (fun jLoc st =>
    For 0 (LocalHeight E) (fun iLoc st =>
      Blas.upd st (Offset E + (iLoc + jLoc * LDim E))%Z
        (if in_triangle uplo (GlobalRow E iLoc) (GlobalCol E jLoc)
         then st (Offset E + (iLoc + jLoc * LDim E))%Z * gamma
         else st (Offset E + (iLoc + jLoc * LDim E))%Z)) st) st.

(** Modelled from the spec: [AxpyTriangle] is outside the given sources; it
    adds [alpha] times the [uplo] triangle of [X] to that of [Y], the two
    being distributed alike ("merged via a separate ... accumulation"). *)
Definition AxpyTriangle (uplo : UpperOrLower) (alpha : T)
    (X : AbstractDistMatrix) (stX : store)
    (Y : AbstractDistMatrix) (st : store) : store :=
  For 0 (LocalWidth Y) (fun jLoc st =>
    For 0 (LocalHeight Y) (fun iLoc st =>
      Blas.upd st (Offset Y + (iLoc + jLoc * LDim Y))%Z
        (if in_triangle uplo (GlobalRow Y iLoc) (GlobalCol Y jLoc)
         then st (Offset Y + (iLoc + jLoc * LDim Y))%Z
              + alpha * stX (Offset X + (iLoc + jLoc * LDim X))%Z
         else st (Offset Y + (iLoc + jLoc * LDim Y))%Z)) st) st.

(** Modelled from the spec: [Construct], [AlignWith] and [Resize] are
    outside the given sources; together they give a matrix of the extent
    and alignment of [E] with memory of its own. *)
Definition Fresh (E : AbstractDistMatrix) : AbstractDistMatrix :=
  {| Height := Height E; Width := Width E;
     ColShift := ColShift E; ColStride := ColStride E;
     RowShift := RowShift E; RowStride := RowStride E;
     LDim := Z.max (LocalHeight E) 1;
     Offset := 0 |}.

(** [Gemm( orientA, orientB, alpha, A, B, beta, C->Matrix() )] on the local
    matrices, writing through the view [C] into the local memory [st]. *)
Definition GemmOn (orientA orientB : Orientation) (alpha : T)
    (A B : Level3.Matrix T) (beta : T)
    (C : AbstractDistMatrix) (st : store) : outcome store :=
  match Level3.Gemm orientA orientB alpha A B beta (LockedMatrix C st) with
  | Done M => Done (commit C M)
  | LogicError msg _ => LogicError msg st
  end.

Definition bind (o : outcome store) (k : store -> outcome store)
  : outcome store :=
  match o with
  | Done st => k st
  | LogicError msg st => LogicError msg st
  end.

Definition Locked (A : Operand) : Level3.Matrix T :=
  LockedMatrix (fst A) (snd A).

(** The operand cut as [op(A)] is cut by rows, and as [op(B)] is cut by
    columns. *)
Definition PartitionLeft (transA : bool) (A : Operand) (half : Z)
  : Operand * Operand :=
  let (A0, A1) := if transA then PartitionRight (fst A) half
                  else PartitionDown (fst A) half in
  ((A0, snd A), (A1, snd A)).

Definition PartitionTop (transB : bool) (B : Operand) (half : Z)
  : Operand * Operand :=
  let (B0, B1) := if transB then PartitionDown (fst B) half
                  else PartitionRight (fst B) half in
  ((B0, snd B), (B1, snd B)).

(** [trr2k::LocalTrr2kKernel], Local.hpp lines 17-118.  [fresh] is the
    content of newly allocated memory; the state is the local memory of
    [E]. *)
Definition LocalTrr2kKernel (uplo : UpperOrLower)
    (orientA orientB orientC orientD : Orientation)
    (alpha : T) (A B : Operand) (beta : T) (C D : Operand) (gamma : T)
    (E : AbstractDistMatrix) (fresh : store) (st : store) : outcome store :=
  let transA := negb (is_normal orientA) in
  let transB := negb (is_normal orientB) in
  let transC := negb (is_normal orientC) in
  let transD := negb (is_normal orientD) in
  let half := Z.quot (Height E) 2 in
  let '(A0, A1) := PartitionLeft transA A half in
  let '(B0, B1) := PartitionTop transB B half in
  let '(C0, C1) := PartitionLeft transC C half in
  let '(D0, D1) := PartitionTop transD D half in
  let '(ETL, ETR, EBL, EBR) := PartitionDownDiagonal E half in
  let st := ScaleTrapezoid gamma uplo E st in
  bind
    (match uplo with
     | LOWER =>
         bind (GemmOn orientA orientB alpha (Locked A1) (Locked B0) one EBL st)
              (GemmOn orientC orientD beta (Locked C1) (Locked D0) one EBL)
     | UPPER =>
         bind (GemmOn orientA orientB alpha (Locked A0) (Locked B1) one ETR st)
              (GemmOn orientC orientD beta (Locked C0) (Locked D1) one ETR)
     end)
    (fun st =>
       let FTL := Fresh ETL in
       match bind (GemmOn orientA orientB alpha (Locked A0) (Locked B0)
                     zero FTL fresh)
                  (GemmOn orientC orientD beta (Locked C0) (Locked D0)
                     one FTL) with
       | LogicError msg _ => LogicError msg st
       | Done stF =>
           let st := AxpyTriangle uplo one FTL stF ETL st in
           let FBR := Fresh EBR in
           match bind (GemmOn orientA orientB alpha (Locked A1) (Locked B1)
                         zero FBR fresh)
                      (GemmOn orientC orientD beta (Locked C1) (Locked D1)
                         one FBR) with
           | LogicError msg _ => LogicError msg st
           | Done stF => Done (AxpyTriangle uplo one FBR stF EBR st)
           end
       end).

(** [g.Width()] for the grid of [E], and the tunable
    [LocalTrr2kBlocksize<T>()], which is outside the given sources. *)
Variable GridWidth : Z.
Variable LocalTrr2kBlocksize : Z.

(** [LocalTrr2k], Local.hpp lines 123-214.  The recursion is cut off after
    [fuel] nested calls: [None] means the cut was reached. *)
Fixpoint LocalTrr2k (fuel : nat) (uplo : UpperOrLower)
    (orientA orientB orientC orientD : Orientation)
    (alpha : T) (A B : Operand) (beta : T) (C D : Operand) (gamma : T)
    (E : AbstractDistMatrix) (fresh : store) (st : store)
  : option (outcome store) :=
  match fuel with
  | O => None
  | S fuel =>
      let transA := negb (is_normal orientA) in
      let transB := negb (is_normal orientB) in
      let transC := negb (is_normal orientC) in
      let transD := negb (is_normal orientD) in
      if Height E <? GridWidth * LocalTrr2kBlocksize then
        Some (LocalTrr2kKernel uplo orientA orientB orientC orientD
                alpha A B beta C D gamma E fresh st)
      else
        let half := Z.quot (Height E) 2 in
        let '(A0, A1) := PartitionLeft transA A half in
        let '(B0, B1) := PartitionTop transB B half in
        let '(C0, C1) := PartitionLeft transC C half in
        let '(D0, D1) := PartitionTop transD D half in
        let '(ETL, ETR, EBL, EBR) := PartitionDownDiagonal E half in
        match
          (match uplo with
           | LOWER =>
               bind (GemmOn orientA orientB alpha (Locked A1) (Locked B0)
                       gamma EBL st)
                    (GemmOn orientC orientD beta (Locked C1) (Locked D0)
                       one EBL)
           | UPPER =>
               bind (GemmOn orientA orientB alpha (Locked A0) (Locked B1)
                       gamma ETR st)
                    (GemmOn orientC orientD beta (Locked C0) (Locked D1)
                       one ETR)
           end)
        with
        | LogicError msg st => Some (LogicError msg st)
        | Done st =>
            (* Recurse *)
            match LocalTrr2k fuel uplo orientA orientB orientC orientD
                    alpha A0 B0 beta C0 D0 gamma ETL fresh st with
            | None => None
            | Some (LogicError msg st) => Some (LogicError msg st)
            | Some (Done st) =>
                LocalTrr2k fuel uplo orientA orientB orientC orientD
                  alpha A1 B1 beta C1 D1 gamma EBR fresh st
            end
        end
  end.

(** ** Windows of the local memory *)

(** The layout invariants of a distributed matrix: a nonnegative extent,
    shifts below their strides, and a leading dimension that holds a local
    column. *)
Definition well_formed (A : AbstractDistMatrix) : Prop :=
  (0 <= Height A /\ 0 <= Width A /\
   0 <= ColShift A < ColStride A /\ 0 <= RowShift A < RowStride A /\
   LocalHeight A <= LDim A)%Z.

(** Local entry [(iLoc, jLoc)] of [A] in the memory [st]. *)
Definition LGet (A : AbstractDistMatrix) (st : store) (iLoc jLoc : Z) : T :=
  st (Offset A + (iLoc + jLoc * LDim A))%Z.

Lemma LGet_LockedMatrix A st iLoc jLoc :
  Level3.Get (LockedMatrix A st) iLoc jLoc = LGet A st iLoc jLoc.
Proof. reflexivity. Qed.

Lemma LocalHeight_nonneg A : well_formed A -> (0 <= LocalHeight A)%Z.
Proof. intros (_ & _ & H & _). apply LocalLength_nonneg. lia. Qed.

Lemma LocalWidth_nonneg A : well_formed A -> (0 <= LocalWidth A)%Z.
Proof. intros (_ & _ & _ & H & _). apply LocalLength_nonneg. lia. Qed.

Lemma LockedMatrix_well_formed A st :
  well_formed A -> Level3.well_formed (LockedMatrix A st).
Proof.
  intros Hwf. pose proof (LocalHeight_nonneg Hwf).
  pose proof (LocalWidth_nonneg Hwf). destruct Hwf as (_ & _ & _ & _ & Hl).
  repeat split; trivial.
Qed.

(** The local rows of the window of [A] that starts at global row [i] begin
    at local row [LocalLength i ...] of [A]; the same for columns. *)
Definition RowStart (A : AbstractDistMatrix) (i : Z) : Z :=
  LocalLength i (ColShift A) (ColStride A).
Definition ColStart (A : AbstractDistMatrix) (j : Z) : Z :=
  LocalLength j (RowShift A) (RowStride A).

Lemma View_LGet A i j h w st iLoc jLoc :
  LGet (View A i j h w) st iLoc jLoc =
  LGet A st (RowStart A i + iLoc) (ColStart A j + jLoc).
Proof.
  unfold LGet, View, RowStart, ColStart. cbn. f_equal. ring.
Qed.

Lemma View_LocalHeight A i j h w :
  well_formed A -> (0 <= i)%Z -> (0 <= h)%Z ->
  LocalHeight (View A i j h w) = (RowStart A (i + h) - RowStart A i)%Z.
Proof.
  intros (_ & _ & Hc & _) Hi Hh. unfold LocalHeight, RowStart. cbn.
  now apply LocalLength_sub.
Qed.

Lemma View_LocalWidth A i j h w :
  well_formed A -> (0 <= j)%Z -> (0 <= w)%Z ->
  LocalWidth (View A i j h w) = (ColStart A (j + w) - ColStart A j)%Z.
Proof.
  intros (_ & _ & _ & Hr & _) Hj Hw. unfold LocalWidth, ColStart. cbn.
  now apply LocalLength_sub.
Qed.

Lemma View_GlobalRow A i j h w iLoc :
  well_formed A -> (0 <= i)%Z ->
  (GlobalRow (View A i j h w) iLoc + i)%Z = GlobalRow A (RowStart A i + iLoc).
Proof.
  intros (_ & _ & Hc & _) Hi. unfold GlobalRow, RowStart. cbn.
  pose proof (@shift_sub i (ColShift A) (ColStride A) Hc Hi). lia.
Qed.

Lemma View_GlobalCol A i j h w jLoc :
  well_formed A -> (0 <= j)%Z ->
  (GlobalCol (View A i j h w) jLoc + j)%Z = GlobalCol A (ColStart A j + jLoc).
Proof.
  intros (_ & _ & _ & Hr & _) Hj. unfold GlobalCol, ColStart. cbn.
  pose proof (@shift_sub j (RowShift A) (RowStride A) Hr Hj). lia.
Qed.

Lemma RowStart_0 A : well_formed A -> RowStart A 0 = 0%Z.
Proof. intros (_ & _ & Hc & _). apply LocalLength_0. lia. Qed.

Lemma ColStart_0 A : well_formed A -> ColStart A 0 = 0%Z.
Proof. intros (_ & _ & _ & Hr & _). apply LocalLength_0. lia. Qed.

Lemma RowStart_mono A i i' :
  well_formed A -> (i <= i')%Z -> (RowStart A i <= RowStart A i')%Z.
Proof. intros (_ & _ & Hc & _) H. apply LocalLength_mono; lia. Qed.

Lemma ColStart_mono A j j' :
  well_formed A -> (j <= j')%Z -> (ColStart A j <= ColStart A j')%Z.
Proof. intros (_ & _ & _ & Hr & _) H. apply LocalLength_mono; lia. Qed.

(** A local row lies before the cut exactly when its global row does. *)
Lemma RowStart_spec A i iLoc :
  well_formed A -> (0 <= iLoc)%Z ->
  (iLoc < RowStart A i <-> GlobalRow A iLoc < i)%Z.
Proof. intros (_ & _ & Hc & _) H. apply LocalLength_spec; lia. Qed.

Lemma ColStart_spec A j jLoc :
  well_formed A -> (0 <= jLoc)%Z ->
  (jLoc < ColStart A j <-> GlobalCol A jLoc < j)%Z.
Proof. intros (_ & _ & _ & Hr & _) H. apply LocalLength_spec; lia. Qed.

Lemma View_well_formed A i j h w :
  well_formed A -> (0 <= i)%Z -> (0 <= j)%Z -> (0 <= h)%Z -> (0 <= w)%Z ->
  (i + h <= Height A)%Z ->
  well_formed (View A i j h w).
Proof.
  intros Hwf Hi Hj Hh Hw Hih.
  pose proof (@View_LocalHeight A i j h w Hwf Hi Hh) as HL.
  pose proof (@RowStart_mono A (i + h) (Height A) Hwf Hih) as H1.
  assert (H0 : (0 <= RowStart A i)%Z).
  { rewrite <- (RowStart_0 Hwf). apply RowStart_mono; trivial. }
  destruct Hwf as (H2 & H3 & Hc & Hr & Hl).
  repeat split; trivial; cbn [ColShift ColStride RowShift RowStride View LDim];
    try (apply Z.mod_pos_bound; lia).
  rewrite HL. unfold LocalHeight, RowStart in *. lia.
Qed.

(** ** Updates of a window *)

(** [st'] is [st] with every local entry [(iLoc, jLoc)] of [V] replaced by
    [f iLoc jLoc] of its old value, and nothing else written. *)
Definition updates (V : AbstractDistMatrix) (f : Z -> Z -> T -> T)
    (st st' : store) : Prop :=
  (forall iLoc jLoc,
     (0 <= iLoc < LocalHeight V)%Z -> (0 <= jLoc < LocalWidth V)%Z ->
     LGet V st' iLoc jLoc = f iLoc jLoc (LGet V st iLoc jLoc)) /\
  (forall a,
     ~ Blas.in_window (LocalHeight V) (LocalWidth V) (LDim V) (a - Offset V) ->
     st' a = st a).

Lemma updates_compose V f g st st1 st2 :
  updates V f st st1 -> updates V g st1 st2 ->
  updates V (fun i j v => g i j (f i j v)) st st2.
Proof.
  intros [Hin1 Hout1] [Hin2 Hout2]. split.
  - intros iLoc jLoc Hi Hj. rewrite Hin2, Hin1 by trivial. reflexivity.
  - intros a Ha. rewrite Hout2, Hout1 by trivial. reflexivity.
Qed.

Lemma updates_ext V f g st st' :
  (forall iLoc jLoc v,
     (0 <= iLoc < LocalHeight V)%Z -> (0 <= jLoc < LocalWidth V)%Z ->
     f iLoc jLoc v = g iLoc jLoc v) ->
  updates V f st st' -> updates V g st st'.
Proof.
  intros Hfg [Hin Hout]. split; trivial.
  intros iLoc jLoc Hi Hj. rewrite Hin by trivial. now apply Hfg.
Qed.

(** A loop nest over the local entries of a window at an offset. *)
Lemma nest_at_offset (F : Z -> Z -> T -> T) off m n ld (st : store) a :
  For 0 n (fun j st =>
    For 0 m (fun i st =>
      Blas.upd st (off + (i + j * ld))%Z
        (F j i (st (off + (i + j * ld))%Z))) st) st a =
  Blas.nest_ji m n ld F (fun b => st (off + b)%Z) (a - off)%Z.
Proof.
  unfold Blas.nest_ji.
  rewrite (For_pointwise (V := T)
             (fun j st =>
                For 0 m (fun i st =>
                  Blas.upd st (off + (i + j * ld))%Z
                    (F j i (st (off + (i + j * ld))%Z))) st)
             (fun j a v =>
                For 0 m (fun i v =>
                  if (a =? off + (i + j * ld))%Z then F j i v else v) v)).
  - rewrite (For_pointwise (V := T)
               (fun j C =>
                  For 0 m (fun i C =>
                    Blas.upd C (i + j * ld)%Z
                      (F j i (C (i + j * ld)%Z))) C)
               (fun j b v =>
                  For 0 m (fun i v =>
                    if (b =? i + j * ld)%Z then F j i v else v) v)).
    + replace (off + (a - off))%Z with a by lia.
      apply For_ext. intros j v _. apply For_ext. intros i w _.
      destruct (Z.eqb_spec a (off + (i + j * ld))),
        (Z.eqb_spec (a - off) (i + j * ld)); trivial; lia.
    + intros j C b _.
      apply (For_pointwise (V := T)
               (fun i C => Blas.upd C (i + j * ld)%Z
                             (F j i (C (i + j * ld)%Z)))
               (fun i b v => if (b =? i + j * ld)%Z then F j i v else v)).
      intros i C0 d _. rewrite Blas.upd_eq.
      destruct (Z.eqb_spec d (i + j * ld)) as [->|]; trivial.
  - intros j C b _.
    apply (For_pointwise (V := T)
             (fun i st => Blas.upd st (off + (i + j * ld))%Z
                            (F j i (st (off + (i + j * ld))%Z)))
             (fun i b v =>
                if (b =? off + (i + j * ld))%Z then F j i v else v)).
    intros i C0 d _. rewrite Blas.upd_eq.
    destruct (Z.eqb_spec d (off + (i + j * ld))) as [->|]; trivial.
Qed.

Lemma nest_updates V (F : Z -> Z -> T -> T) st :
  well_formed V ->
  updates V (fun iLoc jLoc v => F jLoc iLoc v) st
    (For 0 (LocalWidth V) (fun j st =>
       For 0 (LocalHeight V) (fun i st =>
         Blas.upd st (Offset V + (i + j * LDim V))%Z
           (F j i (st (Offset V + (i + j * LDim V))%Z))) st) st).
Proof.
  intros Hwf. destruct Hwf as (_ & _ & _ & _ & Hl). split.
  - intros iLoc jLoc Hi Hj. unfold LGet. rewrite nest_at_offset.
    replace (Offset V + (iLoc + jLoc * LDim V) - Offset V)%Z
      with (iLoc + jLoc * LDim V)%Z by lia.
    now rewrite Blas.nest_ji_in.
  - intros a Ha. rewrite nest_at_offset.
    rewrite Blas.nest_ji_out by trivial. f_equal. lia.
Qed.

Lemma ScaleTrapezoid_updates gamma uplo E st :
  well_formed E ->
  updates E
    (fun iLoc jLoc v =>
       if in_triangle uplo (GlobalRow E iLoc) (GlobalCol E jLoc)
       then v * gamma else v)
    st (ScaleTrapezoid gamma uplo E st).
Proof.
  intros Hwf.
  apply (nest_updates
           (fun jLoc iLoc v =>
              if in_triangle uplo (GlobalRow E iLoc) (GlobalCol E jLoc)
              then v * gamma else v) st Hwf).
Qed.

Lemma AxpyTriangle_updates uplo alpha X stX Y st :
  well_formed Y ->
  updates Y
    (fun iLoc jLoc v =>
       if in_triangle uplo (GlobalRow Y iLoc) (GlobalCol Y jLoc)
       then v + alpha * LGet X stX iLoc jLoc else v)
    st (AxpyTriangle uplo alpha X stX Y st).
Proof.
  intros Hwf.
  apply (nest_updates
           (fun jLoc iLoc v =>
              if in_triangle uplo (GlobalRow Y iLoc) (GlobalCol Y jLoc)
              then v + alpha * LGet X stX iLoc jLoc else v) st Hwf).
Qed.

(** The local [Gemm] through a view. *)
Lemma GemmOn_updates orientA orientB alpha A B beta V st :
  well_formed V ->
  Level3.conformal orientA orientB A B (LockedMatrix V st) ->
  exists st',
    GemmOn orientA orientB alpha A B beta V st = Done st' /\
    updates V
      (fun iLoc jLoc v =>
         alpha * Blas.sum (Level3.opWidth orientA A)
                   (fun l => Level3.opGet orientA A iLoc l
                             * Level3.opGet orientB B l jLoc)
         + beta * v)
      st st'.
Proof.
  intros Hwf Hc.
  pose proof (LockedMatrix_well_formed st Hwf) as HwfM.
  pose proof (Level3.Gemm_conformal_Done alpha beta Hc) as HD.
  pose proof (Level3.Gemm_final_dims orientA orientB alpha A B beta
                (LockedMatrix V st)) as (_ & _ & Hld).
  unfold GemmOn. rewrite HD.
  eexists. split; [reflexivity|]. split.
  - intros iLoc jLoc Hi Hj. unfold LGet at 1. unfold commit.
    replace (Offset V + (iLoc + jLoc * LDim V) - Offset V)%Z
      with (iLoc + jLoc * LDim V)%Z by lia.
    change (LDim V) with (Level3.LDim (LockedMatrix V st)) at 1.
    rewrite <- Hld.
    change (Level3.Buffer ?M (iLoc + jLoc * Level3.LDim ?M)%Z)
      with (Level3.Get M iLoc jLoc).
    rewrite Level3.Gemm_final_in by trivial. reflexivity.
  - intros a Ha. unfold commit.
    rewrite Level3.Gemm_final_out by trivial.
    cbn [Level3.Buffer LockedMatrix]. f_equal. lia.
Qed.

(** ** An update of a window of [E], seen from [E] *)

(** Local entry [(iLoc, jLoc)] of [E] lies in the window of [h] x [w]
    global entries at [(i,j)]. *)
Definition in_block (E : AbstractDistMatrix) (i j h w iLoc jLoc : Z) : bool :=
  ((RowStart E i <=? iLoc) && (iLoc <? RowStart E (i + h)) &&
   (ColStart E j <=? jLoc) && (jLoc <? ColStart E (j + w)))%Z.

Lemma in_block_spec E i j h w iLoc jLoc :
  in_block E i j h w iLoc jLoc = true <->
  (RowStart E i <= iLoc < RowStart E (i + h) /\
   ColStart E j <= jLoc < ColStart E (j + w))%Z.
Proof.
  unfold in_block. rewrite !andb_true_iff, !Z.leb_le, !Z.ltb_lt. tauto.
Qed.

Lemma updates_View E i j h w f st st' :
  well_formed E ->
  (0 <= i)%Z -> (0 <= j)%Z -> (0 <= h)%Z -> (0 <= w)%Z ->
  (i + h <= Height E)%Z -> (j + w <= Width E)%Z ->
  updates (View E i j h w) f st st' ->
  updates E
    (fun iLoc jLoc v =>
       if in_block E i j h w iLoc jLoc
       then f (iLoc - RowStart E i)%Z (jLoc - ColStart E j)%Z v else v)
    st st'.
Proof.
  intros Hwf Hi Hj Hh Hw Hih Hjw [Hin Hout].
  pose proof (@View_LocalHeight E i j h w Hwf Hi Hh) as HLH.
  pose proof (@View_LocalWidth E i j h w Hwf Hj Hw) as HLW.
  pose proof (@RowStart_mono E (i + h) (Height E) Hwf Hih) as Hr1.
  pose proof (@ColStart_mono E (j + w) (Width E) Hwf Hjw) as Hc1.
  assert (Hr0 : (0 <= RowStart E i)%Z)
    by (rewrite <- (RowStart_0 Hwf); apply RowStart_mono; trivial).
  assert (Hc0 : (0 <= ColStart E j)%Z)
    by (rewrite <- (ColStart_0 Hwf); apply ColStart_mono; trivial).
  change (RowStart E (Height E)) with (LocalHeight E) in Hr1.
  change (ColStart E (Width E)) with (LocalWidth E) in Hc1.
  assert (Hld : (LocalHeight E <= LDim E)%Z) by apply Hwf.
  assert (Hoff : Offset (View E i j h w) =
                 (Offset E + RowStart E i + ColStart E j * LDim E)%Z)
    by reflexivity.
  change (LDim (View E i j h w)) with (LDim E) in Hout.
  split.
  - intros iLoc jLoc HiL HjL.
    destruct (in_block E i j h w iLoc jLoc) eqn:Hb.
    + apply in_block_spec in Hb. destruct Hb as [Hbi Hbj].
      specialize (Hin (iLoc - RowStart E i)%Z (jLoc - ColStart E j)%Z).
      rewrite !View_LGet in Hin.
      replace (RowStart E i + (iLoc - RowStart E i))%Z with iLoc in Hin
        by lia.
      replace (ColStart E j + (jLoc - ColStart E j))%Z with jLoc in Hin
        by lia.
      apply Hin; lia.
    + unfold LGet. apply Hout. intros (i' & j' & Hi' & Hj' & E').
      rewrite Hoff in E'.
      assert (Hmul : (iLoc - RowStart E i - i' =
                      (j' + ColStart E j - jLoc) * LDim E)%Z) by lia.
      assert (Hz : (j' + ColStart E j - jLoc = 0)%Z) by nia.
      assert (in_block E i j h w iLoc jLoc = true);
        [|congruence].
      apply in_block_spec. rewrite Hz in Hmul. lia.
  - intros a Ha. apply Hout. intros (i' & j' & Hi' & Hj' & E').
    apply Ha. rewrite Hoff in E'.
    exists (RowStart E i + i')%Z, (ColStart E j + j')%Z.
    repeat split; lia.
Qed.

(** ** Conformal operands *)

(** [op(A)] has the rows of [E], distributed as the rows of [E], and [k]
    columns, none distributed. *)
Definition left_conformal (o : Orientation) (A E : AbstractDistMatrix)
    (k : Z) : Prop :=
  (0 <= k)%Z /\
  if is_normal o then
    Height A = Height E /\ ColShift A = ColShift E /\
    ColStride A = ColStride E /\
    Width A = k /\ RowShift A = 0%Z /\ RowStride A = 1%Z
  else
    Width A = Height E /\ RowShift A = ColShift E /\
    RowStride A = ColStride E /\
    Height A = k /\ ColShift A = 0%Z /\ ColStride A = 1%Z.

(** [op(B)] has the columns of [E], distributed as the columns of [E], and
    [k] rows, none distributed. *)
Definition right_conformal (o : Orientation) (B E : AbstractDistMatrix)
    (k : Z) : Prop :=
  (0 <= k)%Z /\
  if is_normal o then
    Width B = Width E /\ RowShift B = RowShift E /\
    RowStride B = RowStride E /\
    Height B = k /\ ColShift B = 0%Z /\ ColStride B = 1%Z
  else
    Height B = Width E /\ ColShift B = RowShift E /\
    ColStride B = RowStride E /\
    Width B = k /\ RowShift B = 0%Z /\ RowStride B = 1%Z.

(** The rows [i .. i+h) of [op(A)], and the columns [j .. j+w) of
    [op(B)]. *)
Definition LeftView (o : Orientation) (A : AbstractDistMatrix) (i h : Z)
  : AbstractDistMatrix :=
  if is_normal o then View A i 0 h (Width A) else View A 0 i (Height A) h.

Definition TopView (o : Orientation) (B : AbstractDistMatrix) (j w : Z)
  : AbstractDistMatrix :=
  if is_normal o then View B 0 j (Height B) w else View B j 0 w (Width B).

Lemma PartitionLeft_views o A E k half :
  left_conformal o (fst A) E k ->
  PartitionLeft (negb (is_normal o)) A half =
  ((LeftView o (fst A) 0 half, snd A),
   (LeftView o (fst A) half (Height E - half), snd A)).
Proof.
  intros [_ Hc]. unfold PartitionLeft, LeftView, PartitionDown, PartitionRight.
  destruct (is_normal o); cbn [negb];
    destruct Hc as (H1 & _); now rewrite H1.
Qed.

Lemma PartitionTop_views o B E k half :
  right_conformal o (fst B) E k ->
  PartitionTop (negb (is_normal o)) B half =
  ((TopView o (fst B) 0 half, snd B),
   (TopView o (fst B) half (Width E - half), snd B)).
Proof.
  intros [_ Hc]. unfold PartitionTop, TopView, PartitionDown, PartitionRight.
  destruct (is_normal o); cbn [negb];
    destruct Hc as (H1 & _); now rewrite H1.
Qed.

Lemma LeftView_conformal o A E k i j h w :
  left_conformal o A E k ->
  left_conformal o (LeftView o A i h) (View E i j h w) k.
Proof.
  intros [Hk Hc]. split; trivial. unfold LeftView.
  destruct (is_normal o); destruct Hc as (H1 & H2 & H3 & H4 & H5 & H6);
    cbn; rewrite ?H2, ?H3, ?H5, ?H6; repeat split; trivial.
Qed.

Lemma TopView_conformal o B E k i j h w :
  right_conformal o B E k ->
  right_conformal o (TopView o B j w) (View E i j h w) k.
Proof.
  intros [Hk Hc]. split; trivial. unfold TopView.
  destruct (is_normal o); destruct Hc as (H1 & H2 & H3 & H4 & H5 & H6);
    cbn; rewrite ?H2, ?H3, ?H5, ?H6; repeat split; trivial.
Qed.

Lemma LeftView_opGet o A E k i h st iLoc l :
  left_conformal o A E k ->
  Level3.opGet o (LockedMatrix (LeftView o A i h) st) iLoc l =
  Level3.opGet o (LockedMatrix A st) (RowStart E i + iLoc)%Z l.
Proof.
  intros [Hk Hc]. unfold LeftView, RowStart.
  destruct o; cbn [is_normal] in Hc |- *;
    destruct Hc as (H1 & H2 & H3 & H4 & H5 & H6);
    cbn [Level3.opGet]; rewrite !LGet_LockedMatrix, View_LGet;
    unfold RowStart, ColStart; rewrite ?H2, ?H3, ?H5, ?H6;
    rewrite LocalLength_0 by lia; rewrite ?Z.add_0_l; reflexivity.
Qed.

Lemma TopView_opGet o B E k j w st l jLoc :
  right_conformal o B E k ->
  Level3.opGet o (LockedMatrix (TopView o B j w) st) l jLoc =
  Level3.opGet o (LockedMatrix B st) l (ColStart E j + jLoc)%Z.
Proof.
  intros [Hk Hc]. unfold TopView, ColStart.
  destruct o; cbn [is_normal] in Hc |- *;
    destruct Hc as (H1 & H2 & H3 & H4 & H5 & H6);
    cbn [Level3.opGet]; rewrite !LGet_LockedMatrix, View_LGet;
    unfold RowStart, ColStart; rewrite ?H2, ?H3, ?H5, ?H6;
    rewrite LocalLength_0 by lia; rewrite ?Z.add_0_l; reflexivity.
Qed.

(** The local matrices of conformal operands are conformal for [Gemm]. *)
Lemma left_conformal_local o A E k st :
  left_conformal o A E k ->
  Level3.opHeight o (LockedMatrix A st) = LocalHeight E /\
  Level3.opWidth o (LockedMatrix A st) = k.
Proof.
  intros [Hk Hc]. unfold Level3.opHeight, Level3.opWidth.
  destruct (is_normal o); destruct Hc as (H1 & H2 & H3 & H4 & H5 & H6);
    cbn [Level3.Height Level3.Width LockedMatrix];
    unfold LocalHeight, LocalWidth;
    rewrite H1, H2, H3, H4, H5, H6; split; trivial;
    now apply LocalLength_star.
Qed.

Lemma right_conformal_local o B E k st :
  right_conformal o B E k ->
  Level3.opWidth o (LockedMatrix B st) = LocalWidth E /\
  Level3.opHeight o (LockedMatrix B st) = k.
Proof.
  intros [Hk Hc]. unfold Level3.opHeight, Level3.opWidth.
  destruct (is_normal o); destruct Hc as (H1 & H2 & H3 & H4 & H5 & H6);
    cbn [Level3.Height Level3.Width LockedMatrix];
    unfold LocalHeight, LocalWidth;
    rewrite H1, H2, H3, H4, H5, H6; split; trivial;
    now apply LocalLength_star.
Qed.

Lemma conformal_local oA oB A B E k stA stB st :
  left_conformal oA A E k -> right_conformal oB B E k ->
  Level3.conformal oA oB (LockedMatrix A stA) (LockedMatrix B stB)
    (LockedMatrix E st).
Proof.
  intros HA HB.
  destruct (left_conformal_local stA HA) as [H1 H2].
  destruct (right_conformal_local stB HB) as [H3 H4].
  unfold Level3.conformal. cbn [Level3.Height Level3.Width LockedMatrix].
  rewrite H1, H2, H3, H4. auto.
Qed.

(** Entry [(iLoc, jLoc)] of the local part of [op(A) op(B)]. *)
Definition product (oA oB : Orientation) (A B : Operand) (k : Z)
    (iLoc jLoc : Z) : T :=
  Blas.sum k (fun l => Level3.opGet oA (Locked A) iLoc l
                       * Level3.opGet oB (Locked B) l jLoc).

Lemma product_views oA oB A B E k i j h w iLoc jLoc :
  left_conformal oA (fst A) E k -> right_conformal oB (fst B) E k ->
  product oA oB (LeftView oA (fst A) i h, snd A)
    (TopView oB (fst B) j w, snd B) k iLoc jLoc =
  product oA oB A B k (RowStart E i + iLoc)%Z (ColStart E j + jLoc)%Z.
Proof.
  intros HA HB. unfold product, Locked. cbn [fst snd].
  apply Blas.sum_ext. intros l _.
  now rewrite (LeftView_opGet i h (snd A) iLoc l HA),
    (TopView_opGet j w (snd B) l jLoc HB).
Qed.

(** ** Local and global positions *)

Lemma GlobalRow_bounds E iLoc :
  well_formed E -> (0 <= iLoc < LocalHeight E)%Z ->
  (0 <= GlobalRow E iLoc < Height E)%Z.
Proof.
  intros Hwf [H0 H1].
  apply (RowStart_spec (Height E) Hwf H0) in H1.
  destruct Hwf as (_ & _ & Hc & _). split; trivial.
  unfold GlobalRow. nia.
Qed.

Lemma GlobalCol_bounds E jLoc :
  well_formed E -> (0 <= jLoc < LocalWidth E)%Z ->
  (0 <= GlobalCol E jLoc < Width E)%Z.
Proof.
  intros Hwf [H0 H1].
  apply (ColStart_spec (Width E) Hwf H0) in H1.
  destruct Hwf as (_ & _ & _ & Hr & _). split; trivial.
  unfold GlobalCol. nia.
Qed.

(** A local entry lies in a window exactly when its global position
    does. *)
Lemma in_block_global E i j h w iLoc jLoc :
  well_formed E -> (0 <= iLoc)%Z -> (0 <= jLoc)%Z ->
  in_block E i j h w iLoc jLoc =
  ((i <=? GlobalRow E iLoc) && (GlobalRow E iLoc <? i + h) &&
   (j <=? GlobalCol E jLoc) && (GlobalCol E jLoc <? j + w))%Z.
Proof.
  intros Hwf Hi Hj. unfold in_block.
  pose proof (RowStart_spec i Hwf Hi).
  pose proof (RowStart_spec (i + h) Hwf Hi).
  pose proof (ColStart_spec j Hwf Hj).
  pose proof (ColStart_spec (j + w) Hwf Hj).
  repeat match goal with
         | |- context [(?a <=? ?b)%Z] => destruct (Z.leb_spec a b)
         | |- context [(?a <? ?b)%Z] => destruct (Z.ltb_spec a b)
         end; cbn; trivial; lia.
Qed.

(** ** The temporaries [FTL] and [FBR] *)

Lemma Fresh_LocalHeight E : LocalHeight (Fresh E) = LocalHeight E.
Proof. reflexivity. Qed.

Lemma Fresh_LocalWidth E : LocalWidth (Fresh E) = LocalWidth E.
Proof. reflexivity. Qed.

Lemma Fresh_well_formed E : well_formed E -> well_formed (Fresh E).
Proof.
  intros (H1 & H2 & H3 & H4 & H5). repeat split; trivial; try apply H3;
    try apply H4.
  cbn [LDim Fresh]. rewrite Fresh_LocalHeight. lia.
Qed.

Lemma Fresh_left_conformal o A E k :
  left_conformal o A E k -> left_conformal o A (Fresh E) k.
Proof. trivial. Qed.

Lemma Fresh_right_conformal o B E k :
  right_conformal o B E k -> right_conformal o B (Fresh E) k.
Proof. trivial. Qed.

(** ** One [Gemm] on a window of [E] *)

(** The entry functions of the steps: the product added to [beta] times
    the old entry, on the window at [(i,j)]. *)
Definition gemm_entry (oA oB : Orientation) (alpha : T) (A B : Operand)
    (k : Z) (beta : T) (iLoc jLoc : Z) (v : T) : T :=
  alpha * product oA oB A B k iLoc jLoc + beta * v.

Lemma GemmOn_conformal oA oB alpha A B beta V k st :
  well_formed V ->
  left_conformal oA (fst A) V k -> right_conformal oB (fst B) V k ->
  exists st',
    GemmOn oA oB alpha (Locked A) (Locked B) beta V st = Done st' /\
    updates V (gemm_entry oA oB alpha A B k beta) st st'.
Proof.
  intros Hwf HA HB.
  destruct (@GemmOn_updates oA oB alpha (Locked A) (Locked B) beta V st Hwf
              (conformal_local (snd A) (snd B) st HA HB))
    as (st' & Hrun & Hup).
  exists st'. split; trivial.
  destruct (left_conformal_local (snd A) HA) as [_ Hk].
  unfold Locked in Hup. rewrite Hk in Hup. exact Hup.
Qed.

Lemma GemmOn_block oA oB alpha A B beta E k i j h w st :
  well_formed E ->
  (0 <= i)%Z -> (0 <= j)%Z -> (0 <= h)%Z -> (0 <= w)%Z ->
  (i + h <= Height E)%Z -> (j + w <= Width E)%Z ->
  left_conformal oA (fst A) E k -> right_conformal oB (fst B) E k ->
  exists st',
    GemmOn oA oB alpha (Locked (LeftView oA (fst A) i h, snd A))
      (Locked (TopView oB (fst B) j w, snd B)) beta (View E i j h w) st
    = Done st' /\
    updates E
      (fun iLoc jLoc v =>
         if in_block E i j h w iLoc jLoc
         then gemm_entry oA oB alpha A B k beta iLoc jLoc v else v)
      st st'.
Proof.
  intros Hwf Hi Hj Hh Hw Hih Hjw HA HB.
  destruct (@GemmOn_conformal oA oB alpha
              (LeftView oA (fst A) i h, snd A)
              (TopView oB (fst B) j w, snd B) beta (View E i j h w) k st)
    as (st' & Hrun & Hup).
  - now apply View_well_formed.
  - cbn [fst]. now apply LeftView_conformal.
  - cbn [fst]. now apply TopView_conformal.
  - exists st'. split; trivial.
    apply (updates_View Hwf Hi Hj Hh Hw Hih Hjw) in Hup.
    revert Hup. apply updates_ext. intros iLoc jLoc v HiL HjL.
    destruct (in_block E i j h w iLoc jLoc); trivial.
    unfold gemm_entry. rewrite (@product_views oA oB A B E k i j h w _ _ HA HB).
    do 3 f_equal; lia.
Qed.

(** ** The update of the triangle *)

(** The four operands are conformal with [E]: [op(A) op(B)] contracts over
    [k1] and [op(C) op(D)] over [k2]. *)
Definition conformal (oA oB oC oD : Orientation) (A B C D : Operand)
    (E : AbstractDistMatrix) (k1 k2 : Z) : Prop :=
  left_conformal oA (fst A) E k1 /\ right_conformal oB (fst B) E k1 /\
  left_conformal oC (fst C) E k2 /\ right_conformal oD (fst D) E k2.

(** What the update makes of the local entry [(iLoc, jLoc)] of [E], whose
    old value is [v]. *)
Definition trr2k_entry (uplo : UpperOrLower) (oA oB oC oD : Orientation)
    (alpha : T) (A B : Operand) (beta : T) (C D : Operand) (gamma : T)
    (E : AbstractDistMatrix) (k1 k2 : Z) (iLoc jLoc : Z) (v : T) : T :=
  if in_triangle uplo (GlobalRow E iLoc) (GlobalCol E jLoc)
  then alpha * product oA oB A B k1 iLoc jLoc
       + beta * product oC oD C D k2 iLoc jLoc
       + gamma * v
  else v.

Lemma View_in_triangle uplo E d h w iLoc jLoc :
  well_formed E -> (0 <= d)%Z ->
  in_triangle uplo (GlobalRow (View E d d h w) (iLoc - RowStart E d))
    (GlobalCol (View E d d h w) (jLoc - ColStart E d)) =
  in_triangle uplo (GlobalRow E iLoc) (GlobalCol E jLoc).
Proof.
  intros Hwf Hd.
  pose proof (@View_GlobalRow E d d h w (iLoc - RowStart E d) Hwf Hd) as Hr.
  pose proof (@View_GlobalCol E d d h w (jLoc - ColStart E d) Hwf Hd) as Hc.
  replace (RowStart E d + (iLoc - RowStart E d))%Z with iLoc in Hr by lia.
  replace (ColStart E d + (jLoc - ColStart E d))%Z with jLoc in Hc by lia.
  rewrite <- Hr, <- Hc. unfold in_triangle.
  destruct uplo;
    repeat match goal with
           | |- context [(?a <=? ?b)%Z] => destruct (Z.leb_spec a b)
           end; trivial; lia.
Qed.

(** The operands of the diagonal block at [(d,d)]. *)
Definition LeftBlock (o : Orientation) (A : Operand) (d h : Z) : Operand :=
  (LeftView o (fst A) d h, snd A).
Definition TopBlock (o : Orientation) (B : Operand) (d w : Z) : Operand :=
  (TopView o (fst B) d w, snd B).

Lemma conformal_block oA oB oC oD A B C D E k1 k2 i j h w :
  conformal oA oB oC oD A B C D E k1 k2 ->
  conformal oA oB oC oD (LeftBlock oA A i h) (TopBlock oB B j w)
    (LeftBlock oC C i h) (TopBlock oD D j w) (View E i j h w) k1 k2.
Proof.
  intros (HA & HB & HC & HD). unfold conformal, LeftBlock, TopBlock.
  cbn [fst]. split; [|split; [|split]];
    first [now apply LeftView_conformal | now apply TopView_conformal].
Qed.

(** An update of the diagonal block at [(d,d)], seen from [E]. *)
Lemma trr2k_entry_block uplo oA oB oC oD alpha A B beta C D gamma
    E k1 k2 d h w st st' :
  well_formed E ->
  (0 <= d)%Z -> (0 <= h)%Z -> (0 <= w)%Z ->
  (d + h <= Height E)%Z -> (d + w <= Width E)%Z ->
  conformal oA oB oC oD A B C D E k1 k2 ->
  updates (View E d d h w)
    (trr2k_entry uplo oA oB oC oD alpha (LeftBlock oA A d h)
       (TopBlock oB B d w) beta (LeftBlock oC C d h) (TopBlock oD D d w)
       gamma (View E d d h w) k1 k2) st st' ->
  updates E
    (fun iLoc jLoc v =>
       if in_block E d d h w iLoc jLoc
       then trr2k_entry uplo oA oB oC oD alpha A B beta C D gamma E k1 k2
              iLoc jLoc v
       else v) st st'.
Proof.
  intros Hwf Hd Hh Hw Hdh Hdw (HA & HB & HC & HD) Hup.
  apply (updates_View Hwf Hd Hd Hh Hw Hdh Hdw) in Hup.
  revert Hup. apply updates_ext. intros iLoc jLoc v HiL HjL.
  destruct (in_block E d d h w iLoc jLoc); trivial.
  unfold trr2k_entry, LeftBlock, TopBlock.
  rewrite (View_in_triangle uplo h w iLoc jLoc Hwf Hd).
  rewrite (@product_views oA oB A B E k1 d d h w _ _ HA HB).
  rewrite (@product_views oC oD C D E k2 d d h w _ _ HC HD).
  replace (RowStart E d + (iLoc - RowStart E d))%Z with iLoc by lia.
  replace (ColStart E d + (jLoc - ColStart E d))%Z with jLoc by lia.
  reflexivity.
Qed.

(** The products of a diagonal block, formed in a temporary and added to
    the triangle of the block. *)
Lemma kernel_block uplo oA oB oC oD alpha A B beta C D E k1 k2 d h w fresh :
  well_formed E ->
  (0 <= d)%Z -> (0 <= h)%Z -> (0 <= w)%Z ->
  (d + h <= Height E)%Z -> (d + w <= Width E)%Z ->
  conformal oA oB oC oD A B C D E k1 k2 ->
  exists stF,
    bind (GemmOn oA oB alpha (Locked (LeftBlock oA A d h))
            (Locked (TopBlock oB B d w)) zero (Fresh (View E d d h w)) fresh)
         (GemmOn oC oD beta (Locked (LeftBlock oC C d h))
            (Locked (TopBlock oD D d w)) one (Fresh (View E d d h w)))
    = Done stF /\
    forall st,
      updates E
        (fun iLoc jLoc v =>
           if in_block E d d h w iLoc jLoc
           then if in_triangle uplo (GlobalRow E iLoc) (GlobalCol E jLoc)
                then v + (alpha * product oA oB A B k1 iLoc jLoc
                          + beta * product oC oD C D k2 iLoc jLoc)
                else v
           else v)
        st (AxpyTriangle uplo one (Fresh (View E d d h w)) stF
              (View E d d h w) st).
Proof.
  intros Hwf Hd Hh Hw Hdh Hdw Hconf.
  pose proof (View_well_formed Hwf Hd Hd Hh Hw Hdh) as HwfV.
  pose proof (Fresh_well_formed HwfV) as HwfF.
  destruct (@conformal_block oA oB oC oD A B C D E k1 k2 d d h w Hconf)
    as (HA' & HB' & HC' & HD').
  destruct Hconf as (HA & HB & HC & HD).
  destruct (@GemmOn_conformal oA oB alpha (LeftBlock oA A d h)
              (TopBlock oB B d w) zero (Fresh (View E d d h w)) k1 fresh
              HwfF (Fresh_left_conformal HA') (Fresh_right_conformal HB'))
    as (st1 & Hrun1 & Hin1 & _).
  destruct (@GemmOn_conformal oC oD beta (LeftBlock oC C d h)
              (TopBlock oD D d w) one (Fresh (View E d d h w)) k2 st1
              HwfF (Fresh_left_conformal HC') (Fresh_right_conformal HD'))
    as (stF & Hrun2 & Hin2 & _).
  exists stF. split.
  - rewrite Hrun1. exact Hrun2.
  - intros st.
    pose proof (AxpyTriangle_updates uplo one (Fresh (View E d d h w)) stF
                  st HwfV) as Hup.
    apply (updates_View Hwf Hd Hd Hh Hw Hdh Hdw) in Hup.
    revert Hup. apply updates_ext. intros iLoc jLoc v HiL HjL.
    destruct (in_block E d d h w iLoc jLoc) eqn:Hb; trivial.
    apply in_block_spec in Hb. destruct Hb as [Hbi Hbj].
    rewrite (View_in_triangle uplo h w iLoc jLoc Hwf Hd).
    destruct (in_triangle uplo (GlobalRow E iLoc) (GlobalCol E jLoc));
      trivial.
    pose proof (@View_LocalHeight E d d h w Hwf Hd Hh) as HLH.
    pose proof (@View_LocalWidth E d d h w Hwf Hd Hw) as HLW.
    rewrite Hin2, Hin1
      by (rewrite ?Fresh_LocalHeight, ?Fresh_LocalWidth; lia).
    unfold gemm_entry, LeftBlock, TopBlock.
    rewrite (@product_views oA oB A B E k1 d d h w _ _ HA HB).
    rewrite (@product_views oC oD C D E k2 d d h w _ _ HC HD).
    replace (RowStart E d + (iLoc - RowStart E d))%Z with iLoc by lia.
    replace (ColStart E d + (jLoc - ColStart E d))%Z with jLoc by lia.
    ring.
Qed.

(** ** The kernel *)

Lemma half_bounds n : (0 <= n)%Z -> (0 <= Z.quot n 2 <= n)%Z.
Proof.
  intros Hn. rewrite Z.quot_div_nonneg by lia. split.
  - apply Z.div_pos; lia.
  - apply Z.div_le_upper_bound; lia.
Qed.

Ltac split_positions :=
  repeat (match goal with
          | |- context [(?a <=? ?b)%Z] => destruct (Z.leb_spec a b)
          | |- context [(?a <? ?b)%Z] => destruct (Z.ltb_spec a b)
          end; cbn [andb]; try lia).

Lemma LocalTrr2kKernel_updates uplo oA oB oC oD alpha A B beta C D gamma
    E k1 k2 fresh st :
  well_formed E -> (Height E <= Width E)%Z ->
  conformal oA oB oC oD A B C D E k1 k2 ->
  exists st',
    LocalTrr2kKernel uplo oA oB oC oD alpha A B beta C D gamma E fresh st
    = Done st' /\
    updates E
      (trr2k_entry uplo oA oB oC oD alpha A B beta C D gamma E k1 k2) st st'.
Proof.
  intros Hwf Hsq Hconf.
  assert (HH : (0 <= Height E)%Z) by apply Hwf.
  pose proof (half_bounds HH) as Hhalf.
  destruct (Hconf) as (HA & HB & HC & HD).
  unfold LocalTrr2kKernel. cbv zeta.
  rewrite (PartitionLeft_views A (Z.quot (Height E) 2) HA),
    (PartitionTop_views B (Z.quot (Height E) 2) HB),
    (PartitionLeft_views C (Z.quot (Height E) 2) HC),
    (PartitionTop_views D (Z.quot (Height E) 2) HD).
  unfold PartitionDownDiagonal.
  set (half := Z.quot (Height E) 2) in *.
  pose proof (ScaleTrapezoid_updates gamma uplo st Hwf) as HupS.
  set (st0 := ScaleTrapezoid gamma uplo E st) in *.
  destruct (@kernel_block uplo oA oB oC oD alpha A B beta C D E k1 k2
              0 half half fresh Hwf)
    as (stTL & HrunTL & HupTL); trivial; try lia.
  destruct (@kernel_block uplo oA oB oC oD alpha A B beta C D E k1 k2
              half (Height E - half) (Width E - half) fresh Hwf)
    as (stBR & HrunBR & HupBR); trivial; try lia.
  unfold LeftBlock, TopBlock in HrunTL, HrunBR.
  destruct uplo.
  - destruct (@GemmOn_block oA oB alpha A B one E k1
                half 0 (Height E - half) half st0 Hwf)
      as (st1 & Hrun1 & Hup1); trivial; try lia.
    destruct (@GemmOn_block oC oD beta C D one E k2
                half 0 (Height E - half) half st1 Hwf)
      as (st2 & Hrun2 & Hup2); trivial; try lia.
    rewrite Hrun1. cbn [bind]. rewrite Hrun2. cbn [bind].
    rewrite HrunTL, HrunBR. eexists. split; [reflexivity|].
    pose proof (updates_compose
                  (updates_compose
                     (updates_compose (updates_compose HupS Hup1) Hup2)
                     (HupTL st2))
                  (HupBR _)) as Hup.
    revert Hup. apply updates_ext. intros iLoc jLoc v HiL HjL.
    rewrite !in_block_global by (trivial; lia).
    pose proof (GlobalRow_bounds Hwf HiL).
    pose proof (GlobalCol_bounds Hwf HjL).
    unfold trr2k_entry, gemm_entry, in_triangle.
    split_positions; ring.
  - destruct (@GemmOn_block oA oB alpha A B one E k1
                0 half half (Width E - half) st0 Hwf)
      as (st1 & Hrun1 & Hup1); trivial; try lia.
    destruct (@GemmOn_block oC oD beta C D one E k2
                0 half half (Width E - half) st1 Hwf)
      as (st2 & Hrun2 & Hup2); trivial; try lia.
    rewrite Hrun1. cbn [bind]. rewrite Hrun2. cbn [bind].
    rewrite HrunTL, HrunBR. eexists. split; [reflexivity|].
    pose proof (updates_compose
                  (updates_compose
                     (updates_compose (updates_compose HupS Hup1) Hup2)
                     (HupTL st2))
                  (HupBR _)) as Hup.
    revert Hup. apply updates_ext. intros iLoc jLoc v HiL HjL.
    rewrite !in_block_global by (trivial; lia).
    pose proof (GlobalRow_bounds Hwf HiL).
    pose proof (GlobalCol_bounds Hwf HjL).
    unfold trr2k_entry, gemm_entry, in_triangle.
    split_positions; ring.
Qed.

(** ** The recursion *)

Lemma half_proper n : (2 <= n)%Z -> (1 <= Z.quot n 2 < n)%Z.
Proof.
  intros Hn. rewrite Z.quot_div_nonneg by lia. split.
  - apply Z.div_le_lower_bound; lia.
  - apply Z.div_lt_upper_bound; lia.
Qed.

(** The two [Gemm] calls of a recursive call update the block of [E] off
    the diagonal that lies in the [uplo] triangle. *)
Definition off_diagonal (uplo : UpperOrLower) (oA oB oC oD : Orientation)
    (alpha : T) (A B : Operand) (beta : T) (C D : Operand) (gamma : T)
    (E : AbstractDistMatrix) (half : Z) (st : store) : outcome store :=
  match uplo with
  | LOWER =>
      bind (GemmOn oA oB alpha
              (Locked (LeftView oA (fst A) half (Height E - half), snd A))
              (Locked (TopView oB (fst B) 0 half, snd B))
              gamma (View E half 0 (Height E - half) half) st)
           (GemmOn oC oD beta
              (Locked (LeftView oC (fst C) half (Height E - half), snd C))
              (Locked (TopView oD (fst D) 0 half, snd D))
              one (View E half 0 (Height E - half) half))
  | UPPER =>
      bind (GemmOn oA oB alpha
              (Locked (LeftView oA (fst A) 0 half, snd A))
              (Locked (TopView oB (fst B) half (Width E - half), snd B))
              gamma (View E 0 half half (Width E - half)) st)
           (GemmOn oC oD beta
              (Locked (LeftView oC (fst C) 0 half, snd C))
              (Locked (TopView oD (fst D) half (Width E - half), snd D))
              one (View E 0 half half (Width E - half)))
  end.

Lemma off_diagonal_updates uplo oA oB oC oD alpha A B beta C D gamma
    E k1 k2 half st :
  well_formed E -> (Height E <= Width E)%Z ->
  conformal oA oB oC oD A B C D E k1 k2 ->
  (0 <= half <= Height E)%Z ->
  exists st',
    off_diagonal uplo oA oB oC oD alpha A B beta C D gamma E half st
    = Done st' /\
    updates E
      (fun iLoc jLoc v =>
         if negb (in_block E 0 0 half half iLoc jLoc) &&
            negb (in_block E half half (Height E - half) (Width E - half)
                    iLoc jLoc)
         then trr2k_entry uplo oA oB oC oD alpha A B beta C D gamma E k1 k2
                iLoc jLoc v
         else v) st st'.
Proof.
  intros Hwf Hsq (HA & HB & HC & HD) Hhalf. unfold off_diagonal.
  destruct uplo.
  - destruct (@GemmOn_block oA oB alpha A B gamma E k1
                half 0 (Height E - half) half st Hwf)
      as (st1 & Hrun1 & Hup1); trivial; try lia.
    destruct (@GemmOn_block oC oD beta C D one E k2
                half 0 (Height E - half) half st1 Hwf)
      as (st2 & Hrun2 & Hup2); trivial; try lia.
    exists st2. rewrite Hrun1. cbn [bind]. split; trivial.
    pose proof (updates_compose Hup1 Hup2) as Hup.
    revert Hup. apply updates_ext. intros iLoc jLoc v HiL HjL.
    rewrite !in_block_global by (trivial; lia).
    pose proof (GlobalRow_bounds Hwf HiL).
    pose proof (GlobalCol_bounds Hwf HjL).
    unfold trr2k_entry, gemm_entry, in_triangle.
    split_positions; cbn [negb andb]; try ring.
  - destruct (@GemmOn_block oA oB alpha A B gamma E k1
                0 half half (Width E - half) st Hwf)
      as (st1 & Hrun1 & Hup1); trivial; try lia.
    destruct (@GemmOn_block oC oD beta C D one E k2
                0 half half (Width E - half) st1 Hwf)
      as (st2 & Hrun2 & Hup2); trivial; try lia.
    exists st2. rewrite Hrun1. cbn [bind]. split; trivial.
    pose proof (updates_compose Hup1 Hup2) as Hup.
    revert Hup. apply updates_ext. intros iLoc jLoc v HiL HjL.
    rewrite !in_block_global by (trivial; lia).
    pose proof (GlobalRow_bounds Hwf HiL).
    pose proof (GlobalCol_bounds Hwf HjL).
    unfold trr2k_entry, gemm_entry, in_triangle.
    split_positions; cbn [negb andb]; try ring.
Qed.

(** A call of [LocalTrr2k] that is not the kernel, on conformal
    operands. *)
Lemma LocalTrr2k_recursive fuel uplo oA oB oC oD alpha A B beta C D gamma
    E k1 k2 fresh st :
  conformal oA oB oC oD A B C D E k1 k2 ->
  (GridWidth * LocalTrr2kBlocksize <= Height E)%Z ->
  LocalTrr2k (S fuel) uplo oA oB oC oD alpha A B beta C D gamma E fresh st =
  let half := Z.quot (Height E) 2 in
  match off_diagonal uplo oA oB oC oD alpha A B beta C D gamma E half st with
  | LogicError msg st => Some (LogicError msg st)
  | Done st =>
      match LocalTrr2k fuel uplo oA oB oC oD alpha
              (LeftBlock oA A 0 half) (TopBlock oB B 0 half) beta
              (LeftBlock oC C 0 half) (TopBlock oD D 0 half) gamma
              (View E 0 0 half half) fresh st with
      | None => None
      | Some (LogicError msg st) => Some (LogicError msg st)
      | Some (Done st) =>
          LocalTrr2k fuel uplo oA oB oC oD alpha
            (LeftBlock oA A half (Height E - half))
            (TopBlock oB B half (Width E - half)) beta
            (LeftBlock oC C half (Height E - half))
            (TopBlock oD D half (Width E - half)) gamma
            (View E half half (Height E - half) (Width E - half)) fresh st
      end
  end.
Proof.
  intros (HA & HB & HC & HD) Hbig. cbn [LocalTrr2k]. cbv zeta.
  destruct (Z.ltb_spec (Height E) (GridWidth * LocalTrr2kBlocksize));
    [lia|].
  rewrite (PartitionLeft_views A (Z.quot (Height E) 2) HA),
    (PartitionTop_views B (Z.quot (Height E) 2) HB),
    (PartitionLeft_views C (Z.quot (Height E) 2) HC),
    (PartitionTop_views D (Z.quot (Height E) 2) HD).
  unfold PartitionDownDiagonal, off_diagonal, LeftBlock, TopBlock.
  destruct uplo; reflexivity.
Qed.

(** Whenever a call returns it has made the update; and with a threshold
    [g.Width() * LocalTrr2kBlocksize<T>()] of at least 2 both diagonal
    blocks of a recursive call are shorter than [E], so that the recursion
    is no deeper than [E] is high. *)
Lemma LocalTrr2k_updates uplo oA oB oC oD alpha beta gamma k1 k2 fresh :
  forall fuel A B C D E st,
    well_formed E -> (Height E <= Width E)%Z ->
    conformal oA oB oC oD A B C D E k1 k2 ->
    match LocalTrr2k fuel uplo oA oB oC oD alpha A B beta C D gamma E
            fresh st with
    | None =>
        ~ ((2 <= GridWidth * LocalTrr2kBlocksize)%Z /\
           (Height E < Z.of_nat fuel)%Z)
    | Some r =>
        exists st',
          r = Done st' /\
          updates E
            (trr2k_entry uplo oA oB oC oD alpha A B beta C D gamma E k1 k2)
            st st'
    end.
Proof.
  intros fuel. induction fuel as [|fuel IH];
    intros A B C D E st Hwf Hsq Hconf.
  { cbn [LocalTrr2k]. assert (0 <= Height E)%Z by apply Hwf. lia. }
  assert (HH : (0 <= Height E)%Z) by apply Hwf.
  destruct (Z_lt_le_dec (Height E) (GridWidth * LocalTrr2kBlocksize))
    as [Hsmall|Hbig].
  { cbn [LocalTrr2k]. cbv zeta.
    destruct (Z.ltb_spec (Height E) (GridWidth * LocalTrr2kBlocksize));
      [|lia].
    destruct (@LocalTrr2kKernel_updates uplo oA oB oC oD alpha A B beta C D
                gamma E k1 k2 fresh st Hwf Hsq Hconf) as (st' & Hrun & Hup).
    exists st'. now split. }
  rewrite (LocalTrr2k_recursive fuel uplo alpha beta gamma fresh st
             Hconf Hbig).
  cbv zeta.
  pose proof (half_bounds HH) as Hhalf.
  set (half := Z.quot (Height E) 2) in *.
  assert (Hproper : (2 <= Height E -> 1 <= half < Height E)%Z)
    by (intros H2; apply (half_proper H2)).
  destruct (@off_diagonal_updates uplo oA oB oC oD alpha A B beta C D gamma
              E k1 k2 half st Hwf Hsq Hconf Hhalf) as (st2 & Hrun2 & Hup2).
  rewrite Hrun2.
  assert (HwfTL : well_formed (View E 0 0 half half))
    by (apply View_well_formed; trivial; lia).
  assert (HwfBR : well_formed
                    (View E half half (Height E - half) (Width E - half)))
    by (apply View_well_formed; trivial; lia).
  pose proof (IH (LeftBlock oA A 0 half) (TopBlock oB B 0 half)
                (LeftBlock oC C 0 half) (TopBlock oD D 0 half)
                (View E 0 0 half half) st2 HwfTL) as IHTL.
  destruct (LocalTrr2k fuel uplo oA oB oC oD alpha
              (LeftBlock oA A 0 half) (TopBlock oB B 0 half) beta
              (LeftBlock oC C 0 half) (TopBlock oD D 0 half) gamma
              (View E 0 0 half half) fresh st2) as [r3|].
  2:{ intros [Hthr Hfuel]. apply IHTL.
      - cbn [Height Width View]; lia.
      - now apply conformal_block.
      - split; trivial. cbn [Height View]. lia. }
  destruct IHTL as (st3 & -> & Hup3);
    [cbn [Height Width View]; lia | now apply conformal_block |].
  pose proof (IH (LeftBlock oA A half (Height E - half))
                (TopBlock oB B half (Width E - half))
                (LeftBlock oC C half (Height E - half))
                (TopBlock oD D half (Width E - half))
                (View E half half (Height E - half) (Width E - half))
                st3 HwfBR) as IHBR.
  destruct (LocalTrr2k fuel uplo oA oB oC oD alpha
              (LeftBlock oA A half (Height E - half))
              (TopBlock oB B half (Width E - half)) beta
              (LeftBlock oC C half (Height E - half))
              (TopBlock oD D half (Width E - half)) gamma
              (View E half half (Height E - half) (Width E - half))
              fresh st3) as [r4|].
  2:{ intros [Hthr Hfuel]. apply IHBR.
      - cbn [Height Width View]; lia.
      - now apply conformal_block.
      - split; trivial. cbn [Height View]. lia. }
  destruct IHBR as (st4 & -> & Hup4);
    [cbn [Height Width View]; lia | now apply conformal_block |].
  exists st4. split; trivial.
  apply (@trr2k_entry_block uplo oA oB oC oD alpha A B beta C D gamma E
           k1 k2 0 half half st2 st3 Hwf) in Hup3; trivial; try lia.
  apply (@trr2k_entry_block uplo oA oB oC oD alpha A B beta C D gamma E
           k1 k2 half (Height E - half) (Width E - half) st3 st4 Hwf)
    in Hup4; trivial; try lia.
  pose proof (updates_compose (updates_compose Hup2 Hup3) Hup4) as Hup.
  revert Hup. apply updates_ext. intros iLoc jLoc v HiL HjL.
  rewrite !in_block_global by (trivial; lia).
  pose proof (GlobalRow_bounds Hwf HiL).
  pose proof (GlobalCol_bounds Hwf HjL).
  split_positions; cbn [negb andb]; trivial.
Qed.

(** With a threshold of at most 1 the lower right block of a matrix with a
    row is as high as the matrix, or half as high and not empty: the
    recursion does not end. *)
Lemma LocalTrr2k_threshold_1 uplo oA oB oC oD alpha beta gamma k1 k2 fresh :
  (GridWidth * LocalTrr2kBlocksize <= 1)%Z ->
  forall fuel A B C D E st,
    well_formed E -> (1 <= Height E <= Width E)%Z ->
    conformal oA oB oC oD A B C D E k1 k2 ->
    LocalTrr2k fuel uplo oA oB oC oD alpha A B beta C D gamma E fresh st
    = None.
Proof.
  intros Hthr fuel. induction fuel as [|fuel IH];
    intros A B C D E st Hwf Hsq Hconf; trivial.
  assert (HH : (0 <= Height E)%Z) by lia.
  rewrite (LocalTrr2k_recursive fuel uplo alpha beta gamma fresh st Hconf)
    by lia.
  cbv zeta.
  pose proof (half_bounds HH) as Hhalf.
  assert (Hlt : (Z.quot (Height E) 2 < Height E)%Z).
  { rewrite Z.quot_div_nonneg by lia. apply Z.div_lt_upper_bound; lia. }
  set (half := Z.quot (Height E) 2) in *.
  destruct (@off_diagonal_updates uplo oA oB oC oD alpha A B beta C D gamma
              E k1 k2 half st Hwf (proj2 Hsq) Hconf Hhalf)
    as (st2 & Hrun2 & _).
  rewrite Hrun2.
  assert (HwfTL : well_formed (View E 0 0 half half))
    by (apply View_well_formed; trivial; lia).
  pose proof (@LocalTrr2k_updates uplo oA oB oC oD alpha beta gamma k1 k2
                fresh fuel (LeftBlock oA A 0 half) (TopBlock oB B 0 half)
                (LeftBlock oC C 0 half) (TopBlock oD D 0 half)
                (View E 0 0 half half) st2 HwfTL) as HTL.
  destruct (LocalTrr2k fuel uplo oA oB oC oD alpha
              (LeftBlock oA A 0 half) (TopBlock oB B 0 half) beta
              (LeftBlock oC C 0 half) (TopBlock oD D 0 half) gamma
              (View E 0 0 half half) fresh st2) as [r3|]; trivial.
  destruct HTL as (st3 & -> & _);
    [cbn [Height Width View]; lia | now apply conformal_block |].
  apply IH.
  - apply View_well_formed; trivial; lia.
  - cbn [Height Width View]. lia.
  - now apply conformal_block.
Qed.

(** ** The update in terms of the global matrices *)

(** Entry [(i,j)] of [op(G)]. *)
Definition opG (o : Orientation) (G : Z -> Z -> T) (i j : Z) : T :=
  match o with
  | NORMAL => G i j
  | TRANSPOSE => G j i
  | ADJOINT => Conj (G j i)
  end.

(** The process holds its entries of the global matrix [G] in the local
    matrix of [A]. *)
Definition holds (A : AbstractDistMatrix) (st : store) (G : Z -> Z -> T)
  : Prop :=
  forall iLoc jLoc,
    (0 <= iLoc < LocalHeight A)%Z -> (0 <= jLoc < LocalWidth A)%Z ->
    LGet A st iLoc jLoc = G (GlobalRow A iLoc) (GlobalCol A jLoc).

(** [alpha op(A) op(B) + beta op(C) op(D) + gamma E] on the [uplo]
    triangle, [E] elsewhere. *)
Definition Trr2kDense (uplo : UpperOrLower) (oA oB oC oD : Orientation)
    (alpha : T) (GA GB : Z -> Z -> T) (beta : T) (GC GD : Z -> Z -> T)
    (gamma : T) (GE : Z -> Z -> T) (k1 k2 : Z) (i j : Z) : T :=
  if in_triangle uplo i j
  then alpha * Blas.sum k1 (fun l => opG oA GA i l * opG oB GB l j)
       + beta * Blas.sum k2 (fun l => opG oC GC i l * opG oD GD l j)
       + gamma * GE i j
  else GE i j.

Lemma left_global o A E k G iLoc l :
  left_conformal o (fst A) E k -> holds (fst A) (snd A) G ->
  (0 <= iLoc < LocalHeight E)%Z -> (0 <= l < k)%Z ->
  Level3.opGet o (Locked A) iLoc l = opG o G (GlobalRow E iLoc) l.
Proof.
  intros HA HG Hi Hl.
  destruct (left_conformal_local (snd A) HA) as [Hh Hw].
  destruct HA as [Hk Hc]. unfold Level3.opHeight, Level3.opWidth in Hh, Hw.
  unfold Locked.
  destruct o; cbn [is_normal] in Hc, Hh, Hw;
    cbn [Level3.Height Level3.Width LockedMatrix] in Hh, Hw;
    destruct Hc as (H1 & H2 & H3 & H4 & H5 & H6);
    cbn [Level3.opGet opG]; rewrite LGet_LockedMatrix, HG by lia;
    unfold GlobalRow, GlobalCol; rewrite H2, H3, H5, H6;
    repeat f_equal; lia.
Qed.

Lemma right_global o B E k G l jLoc :
  right_conformal o (fst B) E k -> holds (fst B) (snd B) G ->
  (0 <= jLoc < LocalWidth E)%Z -> (0 <= l < k)%Z ->
  Level3.opGet o (Locked B) l jLoc = opG o G l (GlobalCol E jLoc).
Proof.
  intros HB HG Hj Hl.
  destruct (right_conformal_local (snd B) HB) as [Hw Hh].
  destruct HB as [Hk Hc]. unfold Level3.opHeight, Level3.opWidth in Hh, Hw.
  unfold Locked.
  destruct o; cbn [is_normal] in Hc, Hh, Hw;
    cbn [Level3.Height Level3.Width LockedMatrix] in Hh, Hw;
    destruct Hc as (H1 & H2 & H3 & H4 & H5 & H6);
    cbn [Level3.opGet opG]; rewrite LGet_LockedMatrix, HG by lia;
    unfold GlobalRow, GlobalCol; rewrite H2, H3, H5, H6;
    repeat f_equal; lia.
Qed.

Lemma product_global oA oB A B E k GA GB iLoc jLoc :
  left_conformal oA (fst A) E k -> right_conformal oB (fst B) E k ->
  holds (fst A) (snd A) GA -> holds (fst B) (snd B) GB ->
  (0 <= iLoc < LocalHeight E)%Z -> (0 <= jLoc < LocalWidth E)%Z ->
  product oA oB A B k iLoc jLoc =
  Blas.sum k (fun l => opG oA GA (GlobalRow E iLoc) l
                       * opG oB GB l (GlobalCol E jLoc)).
Proof.
  intros HA HB HGA HGB Hi Hj. unfold product.
  apply Blas.sum_ext. intros l Hl.
  now rewrite (left_global A HA HGA Hi Hl), (right_global B HB HGB Hj Hl).
Qed.

(** The local memory [st'] holds the process's entries of [G] in the local
    matrix of [E] and is [st] outside it. *)
Definition updated (E : AbstractDistMatrix) (st st' : store)
    (G : Z -> Z -> T) : Prop :=
  holds E st' G /\
  (forall a,
     ~ Blas.in_window (LocalHeight E) (LocalWidth E) (LDim E) (a - Offset E) ->
     st' a = st a).

(** C2. For either [uplo], any four orientations and operands conformal
    with [E], a call of [LocalTrr2k] that returns has, on every process,
    left the local entries of [E] strictly on the other side of the
    diagonal as they were, set each local entry of global position [(i,j)]
    in the [uplo] triangle to
    [alpha (op(A) op(B))(i,j) + beta (op(C) op(D))(i,j) + gamma E(i,j)],
    and written nothing outside the local matrix of [E]; and the call
    returns, after at most as many nested calls as [E] is high, when the
    threshold [g.Width() * LocalTrr2kBlocksize] is at least 2. *)
Theorem LocalTrr2k_correct uplo oA oB oC oD alpha A B beta C D gamma E
    k1 k2 GA GB GC GD GE fresh st :
  well_formed E -> (Height E <= Width E)%Z ->
  conformal oA oB oC oD A B C D E k1 k2 ->
  holds (fst A) (snd A) GA -> holds (fst B) (snd B) GB ->
  holds (fst C) (snd C) GC -> holds (fst D) (snd D) GD ->
  holds E st GE ->
  (forall fuel r,
     LocalTrr2k fuel uplo oA oB oC oD alpha A B beta C D gamma E fresh st
     = Some r ->
     exists st',
       r = Done st' /\
       updated E st st'
         (Trr2kDense uplo oA oB oC oD alpha GA GB beta GC GD gamma GE
            k1 k2)) /\
  ((2 <= GridWidth * LocalTrr2kBlocksize)%Z ->
   forall fuel, (Height E < Z.of_nat fuel)%Z ->
     exists st',
       LocalTrr2k fuel uplo oA oB oC oD alpha A B beta C D gamma E fresh st
       = Some (Done st') /\
       updated E st st'
         (Trr2kDense uplo oA oB oC oD alpha GA GB beta GC GD gamma GE
            k1 k2)).
Proof.
  intros Hwf Hsq Hconf HGA HGB HGC HGD HGE.
  assert (Hdense : forall st',
    updates E
      (trr2k_entry uplo oA oB oC oD alpha A B beta C D gamma E k1 k2)
      st st' ->
    updated E st st'
      (Trr2kDense uplo oA oB oC oD alpha GA GB beta GC GD gamma GE k1 k2)).
  { intros st' [Hin Hout]. split; trivial.
    intros iLoc jLoc Hi Hj. rewrite Hin by trivial.
    destruct Hconf as (HA & HB & HC & HD).
    unfold trr2k_entry, Trr2kDense.
    rewrite (product_global A B HA HB HGA HGB Hi Hj),
      (product_global C D HC HD HGC HGD Hi Hj), (HGE iLoc jLoc Hi Hj).
    reflexivity. }
  split.
  - intros fuel r Hrun.
    pose proof (@LocalTrr2k_updates uplo oA oB oC oD alpha beta gamma k1 k2
                  fresh fuel A B C D E st Hwf Hsq Hconf) as Hspec.
    rewrite Hrun in Hspec. destruct Hspec as (st' & -> & Hup).
    exists st'. split; trivial. now apply Hdense.
  - intros Hthr fuel Hfuel.
    pose proof (@LocalTrr2k_updates uplo oA oB oC oD alpha beta gamma k1 k2
                  fresh fuel A B C D E st Hwf Hsq Hconf) as Hspec.
    destruct (LocalTrr2k fuel uplo oA oB oC oD alpha A B beta C D gamma E
                fresh st) as [r|].
    + destruct Hspec as (st' & -> & Hup).
      exists st'. split; trivial. now apply Hdense.
    + exfalso. apply Hspec. now split.
Qed.

End Local.

End Trr2k.

Module Trr2kExamples.

Import Trr2k.

(** A process of a 2 x 3 grid that owns the rows 0, 2, 4 and the columns
    0, 3 of a 5 x 5 matrix [E]; [op(A)] is the transpose of a 2 x 5 matrix
    and [op(D)] the adjoint of a 5 x 3 matrix. *)
Definition mk (h w cs r rs c : Z) : AbstractDistMatrix :=
  {| Height := h; Width := w; ColShift := cs; ColStride := r;
     RowShift := rs; RowStride := c;
     LDim := Z.max 1 (Distribution.LocalLength h cs r); Offset := 0 |}.

(** The local memory that holds the entries of [G] the process owns. *)
Definition fill (V : AbstractDistMatrix) (G : Z -> Z -> Z) : store ZScalar :=
  fun a => G (GlobalRow V (a mod LDim V)) (GlobalCol V (a / LDim V)).

Definition GA (l i : Z) : Z := i + 2 * l + 1.
Definition GB (l j : Z) : Z := 3 * l - j + 2.
Definition GC (i l : Z) : Z := i * l - 1.
Definition GD (j l : Z) : Z := l + j * j.
Definition GE (i j : Z) : Z := 10 * i + j.

Definition A5 : AbstractDistMatrix := mk 2 5 0 1 0 2.
Definition B5 : AbstractDistMatrix := mk 2 5 0 1 0 3.
Definition C5 : AbstractDistMatrix := mk 5 3 0 2 0 1.
Definition D5 : AbstractDistMatrix := mk 5 3 0 3 0 1.
Definition E5 : AbstractDistMatrix := mk 5 5 0 2 0 3.

Definition fresh5 : store ZScalar := fun _ => 777.

Lemma fill_holds V G :
  well_formed V -> Offset V = 0 -> holds V (fill V G) G.
Proof.
  intros (_ & _ & _ & _ & Hld) Hoff iLoc jLoc Hi Hj.
  unfold LGet, fill. rewrite Hoff, Z.add_0_l.
  rewrite Z.mod_add, Z.div_add, Z.mod_small, Z.div_small by lia.
  reflexivity.
Qed.

Lemma mk_well_formed h w cs r rs c :
  0 <= h -> 0 <= w -> 0 <= cs < r -> 0 <= rs < c ->
  well_formed (mk h w cs r rs c).
Proof.
  intros. unfold well_formed, LocalHeight. cbn. repeat split; lia.
Qed.

Lemma E5_well_formed : well_formed E5.
Proof. apply mk_well_formed; lia. Qed.

Lemma operands_conformal :
  conformal TRANSPOSE NORMAL NORMAL ADJOINT
    (A5, fill A5 GA) (B5, fill B5 GB) (C5, fill C5 GC) (D5, fill D5 GD)
    E5 2 3.
Proof.
  unfold conformal, left_conformal, right_conformal. cbn.
  repeat match goal with |- _ /\ _ => split end; lia.
Qed.

(** The local matrix of [E] after the update, by columns: the entries
    (0,3) and (2,3) lie above the diagonal and keep their values 3 and
    23. *)
Example LocalTrr2k_lower_5x5 :
  match @LocalTrr2k ZScalar 3 1 6 LOWER TRANSPOSE NORMAL NORMAL ADJOINT
          2 (A5, fill A5 GA) (B5, fill B5 GB)
          3 (C5, fill C5 GC) (D5, fill D5 GD) 5 E5 fresh5 (fill E5 GE) with
  | Some (Done st) => map st [0; 1; 2; 3; 4; 5]
  | _ => []
  end = [25; 183; 341; 3; 23; 527] /\
  map (fun p => Trr2kDense ZScalar LOWER TRANSPOSE NORMAL NORMAL ADJOINT
                  2 GA GB 3 GC GD 5 GE 2 3 (fst p) (snd p))
    [(0, 0); (2, 0); (4, 0); (0, 3); (2, 3); (4, 3)]
  = [25; 183; 341; 3; 23; 527].
Proof. vm_compute. split; reflexivity. Qed.

Lemma LocalTrr2k_correct_witness :
  well_formed E5 /\ Height E5 <= Width E5 /\
  conformal TRANSPOSE NORMAL NORMAL ADJOINT
    (A5, fill A5 GA) (B5, fill B5 GB) (C5, fill C5 GC) (D5, fill D5 GD)
    E5 2 3 /\
  holds A5 (fill A5 GA) GA /\ holds B5 (fill B5 GB) GB /\
  holds C5 (fill C5 GC) GC /\ holds D5 (fill D5 GD) GD /\
  holds E5 (fill E5 GE) GE /\
  2 <= 3 * 1 /\ Height E5 < Z.of_nat 6 /\
  exists st',
    @LocalTrr2k ZScalar 3 1 6 UPPER TRANSPOSE NORMAL NORMAL ADJOINT
      2 (A5, fill A5 GA) (B5, fill B5 GB)
      3 (C5, fill C5 GC) (D5, fill D5 GD) 5 E5 fresh5 (fill E5 GE)
    = Some (Done st') /\
    updated E5 (fill E5 GE) st'
      (Trr2kDense ZScalar UPPER TRANSPOSE NORMAL NORMAL ADJOINT
         2 GA GB 3 GC GD 5 GE 2 3).
Proof.
  assert (HA : holds A5 (fill A5 GA) GA)
    by (apply fill_holds; [apply mk_well_formed; lia | reflexivity]).
  assert (HB : holds B5 (fill B5 GB) GB)
    by (apply fill_holds; [apply mk_well_formed; lia | reflexivity]).
  assert (HC : holds C5 (fill C5 GC) GC)
    by (apply fill_holds; [apply mk_well_formed; lia | reflexivity]).
  assert (HD : holds D5 (fill D5 GD) GD)
    by (apply fill_holds; [apply mk_well_formed; lia | reflexivity]).
  assert (HE : holds E5 (fill E5 GE) GE)
    by (apply fill_holds; [exact E5_well_formed | reflexivity]).
  assert (Hsq : Height E5 <= Width E5) by (cbn; lia).
  assert (Hthr : 2 <= 3 * 1) by lia.
  assert (Hfuel : Height E5 < Z.of_nat 6) by (cbn; lia).
  do 10 (split; [first [assumption | exact E5_well_formed
                       | exact operands_conformal]|]).
  exact (proj2
           (@LocalTrr2k_correct ZScalar 3 1 UPPER TRANSPOSE NORMAL NORMAL
              ADJOINT 2 (A5, fill A5 GA) (B5, fill B5 GB) 3
              (C5, fill C5 GC) (D5, fill D5 GD) 5 E5 2 3 GA GB GC GD GE
              fresh5 (fill E5 GE) E5_well_formed Hsq operands_conformal
              HA HB HC HD HE)
           Hthr 6%nat Hfuel).
Defined.

End Trr2kExamples.

(* ===================================================================== *)
(** * Redistribution between distributions *)
(* ===================================================================== *)

Module Redist.

Import Distribution.

(** Modelled from the spec: the distribution tags are declared outside
    the given sources.  "MC/MR: cyclic distribution along grid
    column-communicator / row-communicator axis respectively.  VC/VR:
    cyclic distribution along the linearized column-major / row-major
    process ordering.  STAR: dimension fully replicated on every process
    along that axis.  CIRC: entire dimension owned by a single designated
    process." *)
Inductive Dist : Type := MC | MR | VC | VR | STAR | CIRC.

(** A process of the grid: its row and its column. *)
Definition Process : Type := (Z * Z)%type.

Section Engine.

Variable T : Type.

(** The process grid: height [r] and width [c]. *)
Variable r c : Z.

Definition in_grid (p : Process) : Prop :=
  0 <= fst p < r /\ 0 <= snd p < c.

Definition VCRank (p : Process) : Z := fst p + snd p * r.
Definition VRRank (p : Process) : Z := snd p + fst p * c.

(** ** One axis of a distribution *)

(** Modelled from the spec: the strides and ranks of the distributions
    are outside the given sources.  "the relevant stride (r, c, r c ...)":
    the number of ranks the indices
    of the dimension are dealt out to, and the rank of a process among
    them. *)
Definition Stride (d : Dist) : Z :=
  match d with
  | MC => r
  | MR => c
  | VC | VR => r * c
  | STAR | CIRC => 1
  end.

Definition Rank (d : Dist) (p : Process) : Z :=
  match d with
  | MC => fst p
  | MR => snd p
  | VC => VCRank p
  | VR => VRRank p
  | STAR | CIRC => 0
  end.

(** Under [CIRC] only the designated process, the one of [VC] rank [root],
    holds anything. *)
Definition participates (d : Dist) (root : Z) (p : Process) : bool :=
  match d with
  | CIRC => VCRank p =? root
  | _ => true
  end.

Definition AxisShift (d : Dist) (align : Z) (p : Process) : Z :=
  Shift (Rank d p) align (Stride d).

Definition AxisLength (d : Dist) (align root : Z) (p : Process) (n : Z) : Z :=
  if participates d root p
  then LocalLength n (AxisShift d align p) (Stride d)
  else 0.

(** The global index of a local index, and the local index of a global
    index on a process that owns it. *)
Definition AxisGlobal (d : Dist) (align : Z) (p : Process) (iLoc : Z) : Z :=
  AxisShift d align p + iLoc * Stride d.

Definition AxisLocal (d : Dist) (align : Z) (p : Process) (i : Z) : Z :=
  Z.quot (i - AxisShift d align p) (Stride d).

(** The grid row, and the grid column, that the distribution of one
    dimension confines the owners of global index [i] to; [None] where it
    leaves them free. *)
Definition fixRow (d : Dist) (align root : Z) (i : Z) : option Z :=
  match d with
  | MC => Some (owner i align r)
  | VC => Some (owner i align (r * c) mod r)
  | VR => Some (owner i align (r * c) / c)
  | CIRC => Some (root mod r)
  | MR | STAR => None
  end.

Definition fixCol (d : Dist) (align root : Z) (i : Z) : option Z :=
  match d with
  | MR => Some (owner i align c)
  | VC => Some (owner i align (r * c) / r)
  | VR => Some (owner i align (r * c) mod c)
  | CIRC => Some (root / r)
  | MC | STAR => None
  end.

(** ** Distributed matrices *)

Record Descriptor : Type := {
  Height : Z;
  Width : Z;
  ColDist : Dist;
  RowDist : Dist;
  ColAlign : Z;
  RowAlign : Z;
  Root : Z
}.

(** The local buffer of every process, by local row and column. *)
Record DistMatrix : Type := {
  Desc : Descriptor;
  LocalEntry : Process -> Z -> Z -> T
}.

Definition LocalHeight (D : Descriptor) (p : Process) : Z :=
  AxisLength (ColDist D) (ColAlign D) (Root D) p (Height D).
Definition LocalWidth (D : Descriptor) (p : Process) : Z :=
  AxisLength (RowDist D) (RowAlign D) (Root D) p (Width D).
Definition GlobalRow (D : Descriptor) (p : Process) (iLoc : Z) : Z :=
  AxisGlobal (ColDist D) (ColAlign D) p iLoc.
Definition GlobalCol (D : Descriptor) (p : Process) (jLoc : Z) : Z :=
  AxisGlobal (RowDist D) (RowAlign D) p jLoc.

Definition range (n : Z) : list Z := map Z.of_nat (seq 0 (Z.to_nat n)).

(** The local buffer of process [p], column by column. *)
Definition LocalBuffer (X : DistMatrix) (p : Process) : list (list T) :=
  map (fun jLoc =>
         map (fun iLoc => LocalEntry X p iLoc jLoc)
           (range (LocalHeight (Desc X) p)))
    (range (LocalWidth (Desc X) p)).

(** Modelled from the spec: the list of distribution pairs is outside the
    given sources.  The pairs of tags that lay a matrix out: "not all 2^2-tag combinations
    are meaningful". *)
Definition meaningful (colDist rowDist : Dist) : bool :=
  match colDist, rowDist with
  | MC, MR | MC, STAR | MR, MC | MR, STAR
  | STAR, MC | STAR, MR | STAR, STAR | STAR, VC | STAR, VR
  | VC, STAR | VR, STAR | CIRC, CIRC => true
  | _, _ => false
  end.

(** Modelled from the spec: the communication of section 4.3 is outside
    the given sources.  The process from which process [p] obtains global
    entry [(i,j)]: an
    owner of the entry, [p] itself as far as the distribution leaves the
    owner free ("every process already holds the superset of data
    needed"). *)
Definition sourceProcess (D : Descriptor) (p : Process) (i j : Z) : Process :=
  (match fixRow (ColDist D) (ColAlign D) (Root D) i,
         fixRow (RowDist D) (RowAlign D) (Root D) j with
   | Some row, _ => row
   | None, Some row => row
   | None, None => fst p
   end,
   match fixCol (ColDist D) (ColAlign D) (Root D) i,
         fixCol (RowDist D) (RowAlign D) (Root D) j with
   | Some col, _ => col
   | None, Some col => col
   | None, None => snd p
   end).

(** Modelled from the spec: the entry access of section 4.2, "resolves
    owning rank from distribution + alignment", the value of global entry
    [(i,j)] as process [p] receives it. *)
Definition Get (X : DistMatrix) (p : Process) (i j : Z) : T :=
  let q := sourceProcess (Desc X) p i j in
  LocalEntry X q
    (AxisLocal (ColDist (Desc X)) (ColAlign (Desc X)) q i)
    (AxisLocal (RowDist (Desc X)) (RowAlign (Desc X)) q j).

Inductive result : Type :=
  | Redistributed (Y : DistMatrix)
  | ShapeError
  | Unsupported.

(** Modelled from the spec: the redistribution engine of section 4.3 is
    outside the given sources.  "given a source DistributedMatrix under
    distribution D_src and a target DistributedMatrix handle under
    distribution D_dst ..., produce the target's local buffer such that
    every global entry is correct"; "redistributing between shapes of
    different global (M,N) is an error; attempting a path not implemented
    for an exotic distribution pair is an unsupported-operation error". *)
Definition Redistribute (target source : DistMatrix) : result :=
  let D := Desc target in
  let S := Desc source in
  if negb ((Height D =? Height S) && (Width D =? Width S)) then ShapeError
  else if negb (meaningful (ColDist S) (RowDist S) &&
                meaningful (ColDist D) (RowDist D)) then Unsupported
  else Redistributed
         {| Desc := D;
            LocalEntry := fun p iLoc jLoc =>
              Get source p (GlobalRow D p iLoc) (GlobalCol D p jLoc) |}.

(** ** Owners and local indices *)

Section Laws.

Hypothesis Hr : 0 < r.
Hypothesis Hc : 0 < c.

Definition well_formed (D : Descriptor) : Prop :=
  0 <= Height D /\ 0 <= Width D /\
  meaningful (ColDist D) (RowDist D) = true /\
  0 <= ColAlign D < Stride (ColDist D) /\
  0 <= RowAlign D < Stride (RowDist D) /\
  0 <= Root D < r * c.

(** Every process holds its entries of the global matrix [G]. *)
Definition represents (X : DistMatrix) (G : Z -> Z -> T) : Prop :=
  forall p iLoc jLoc,
    in_grid p ->
    0 <= iLoc < LocalHeight (Desc X) p ->
    0 <= jLoc < LocalWidth (Desc X) p ->
    LocalEntry X p iLoc jLoc =
    G (GlobalRow (Desc X) p iLoc) (GlobalCol (Desc X) p jLoc).

Definition agrees (o : option Z) (x : Z) : Prop :=
  match o with Some y => x = y | None => True end.

Lemma Stride_pos d : 0 < Stride d.
Proof. destruct d; cbn; nia. Qed.

Lemma Rank_nonneg d p : in_grid p -> 0 <= Rank d p.
Proof.
  intros [[H1 H2] [H3 H4]]. destruct d; cbn; unfold VCRank, VRRank; nia.
Qed.

Lemma AxisShift_range d align p :
  in_grid p -> 0 <= align < Stride d ->
  0 <= AxisShift d align p < Stride d.
Proof.
  intros Hp Ha. apply Shift_range; trivial. now apply Rank_nonneg.
Qed.

(** A local index of a process is a global index of the dimension. *)
Lemma axis_local_range d align root p n iLoc :
  in_grid p -> 0 <= align < Stride d ->
  0 <= iLoc < AxisLength d align root p n ->
  0 <= AxisGlobal d align p iLoc < n.
Proof.
  intros Hp Ha Hi. pose proof (@AxisShift_range d align p Hp Ha) as Hs.
  unfold AxisLength in Hi. unfold AxisGlobal.
  destruct (participates d root p); [|lia].
  split; [nia|]. apply LocalLength_spec; lia.
Qed.

Lemma linear_rank o m : 0 < m -> o mod m + o / m * m = o.
Proof. intros Hm. pose proof (Z.div_mod o m ltac:(lia)). lia. Qed.

(** A process in the row and the column that the distribution of the
    dimension asks for is an owner of the global index. *)
Lemma owner_rank d align root p i :
  agrees (fixRow d align root i) (fst p) ->
  agrees (fixCol d align root i) (snd p) ->
  Rank d p = owner i align (Stride d) /\ participates d root p = true.
Proof.
  destruct d; cbn; intros H1 H2; unfold VCRank, VRRank;
    rewrite ?H1, ?H2; split; trivial;
    try (apply linear_rank; lia);
    try (unfold owner; now rewrite Z.rem_1_r).
  apply Z.eqb_eq. apply linear_rank; lia.
Qed.

Lemma axis_owner d align root p n i :
  in_grid p -> 0 <= align < Stride d -> 0 <= i < n ->
  agrees (fixRow d align root i) (fst p) ->
  agrees (fixCol d align root i) (snd p) ->
  0 <= AxisLocal d align p i < AxisLength d align root p n /\
  AxisGlobal d align p (AxisLocal d align p i) = i.
Proof.
  intros Hp Ha Hi H1 H2.
  destruct (owner_rank d align root p i H1 H2) as [Hrank Hpart].
  pose proof (Stride_pos d) as Hpos.
  pose proof (@AxisShift_range d align p Hp Ha) as Hs.
  assert (Hshift : AxisShift d align p = i mod Stride d).
  { unfold AxisShift. rewrite Hrank. apply Shift_owner; lia. }
  unfold AxisLocal, AxisGlobal, AxisLength. rewrite Hpart.
  rewrite local_index_div by (trivial; lia).
  apply owner_local; trivial. now symmetry.
Qed.

Lemma fixRow_range d align root i x :
  0 <= i -> 0 <= align < Stride d -> 0 <= root < r * c ->
  fixRow d align root i = Some x -> 0 <= x < r.
Proof.
  intros Hi Ha Hroot.
  destruct d; cbn in Ha |- *; intros H; inversion H; subst; clear H.
  - now apply owner_range.
  - apply Z.mod_pos_bound; lia.
  - pose proof (owner_range Hi Ha). split.
    + apply Z.div_pos; lia.
    + apply Z.div_lt_upper_bound; lia.
  - apply Z.mod_pos_bound; lia.
Qed.

Lemma fixCol_range d align root i x :
  0 <= i -> 0 <= align < Stride d -> 0 <= root < r * c ->
  fixCol d align root i = Some x -> 0 <= x < c.
Proof.
  intros Hi Ha Hroot.
  destruct d; cbn in Ha |- *; intros H; inversion H; subst; clear H.
  - now apply owner_range.
  - pose proof (owner_range Hi Ha). split.
    + apply Z.div_pos; lia.
    + apply Z.div_lt_upper_bound; lia.
  - apply Z.mod_pos_bound; lia.
  - split.
    + apply Z.div_pos; lia.
    + apply Z.div_lt_upper_bound; lia.
Qed.

Lemma sourceProcess_in_grid D p i j :
  well_formed D -> in_grid p -> 0 <= i -> 0 <= j ->
  in_grid (sourceProcess D p i j).
Proof.
  intros (_ & _ & _ & Hca & Hra & Hroot) [Hp1 Hp2] Hi Hj.
  unfold sourceProcess, in_grid. cbn [fst snd]. split.
  - destruct (fixRow (ColDist D) (ColAlign D) (Root D) i) eqn:E1.
    + apply (@fixRow_range _ _ _ _ _ Hi Hca Hroot E1).
    + destruct (fixRow (RowDist D) (RowAlign D) (Root D) j) eqn:E2; trivial.
      apply (@fixRow_range _ _ _ _ _ Hj Hra Hroot E2).
  - destruct (fixCol (ColDist D) (ColAlign D) (Root D) i) eqn:E1.
    + apply (@fixCol_range _ _ _ _ _ Hi Hca Hroot E1).
    + destruct (fixCol (RowDist D) (RowAlign D) (Root D) j) eqn:E2; trivial.
      apply (@fixCol_range _ _ _ _ _ Hj Hra Hroot E2).
Qed.

(** In a meaningful pair the two dimensions never ask for different
    owners. *)
Lemma sourceProcess_agrees D p i j :
  meaningful (ColDist D) (RowDist D) = true ->
  let q := sourceProcess D p i j in
  agrees (fixRow (ColDist D) (ColAlign D) (Root D) i) (fst q) /\
  agrees (fixCol (ColDist D) (ColAlign D) (Root D) i) (snd q) /\
  agrees (fixRow (RowDist D) (RowAlign D) (Root D) j) (fst q) /\
  agrees (fixCol (RowDist D) (RowAlign D) (Root D) j) (snd q).
Proof.
  unfold sourceProcess.
  destruct (ColDist D), (RowDist D); cbn; intros H;
    try discriminate; auto.
Qed.

(** ** Redistribution of a distributed matrix *)

(** Every process receives the entry of the global matrix. *)
Lemma Get_represents X G p i j :
  well_formed (Desc X) -> represents X G -> in_grid p ->
  0 <= i < Height (Desc X) -> 0 <= j < Width (Desc X) ->
  Get X p i j = G i j.
Proof.
  intros Hwf Hrep Hp Hi Hj. unfold Get. cbv zeta.
  pose proof (@sourceProcess_in_grid (Desc X) p i j Hwf Hp
                ltac:(lia) ltac:(lia)) as Hq.
  destruct Hwf as (_ & _ & Hm & Hca & Hra & Hroot).
  destruct (@sourceProcess_agrees (Desc X) p i j Hm)
    as (A1 & A2 & A3 & A4).
  set (q := sourceProcess (Desc X) p i j) in *.
  destruct (@axis_owner (ColDist (Desc X)) (ColAlign (Desc X))
              (Root (Desc X)) q (Height (Desc X)) i Hq Hca Hi A1 A2)
    as [Hri Hgi].
  destruct (@axis_owner (RowDist (Desc X)) (RowAlign (Desc X))
              (Root (Desc X)) q (Width (Desc X)) j Hq Hra Hj A3 A4)
    as [Hrj Hgj].
  rewrite (Hrep q _ _ Hq Hri Hrj). unfold GlobalRow, GlobalCol.
  now rewrite Hgi, Hgj.
Qed.

(** The matrix that [Redistribute] makes of the target handle. *)
Definition relayout (D : Descriptor) (source : DistMatrix) : DistMatrix :=
  {| Desc := D;
     LocalEntry := fun p iLoc jLoc =>
       Get source p (GlobalRow D p iLoc) (GlobalCol D p jLoc) |}.

Lemma Redistribute_supported target source :
  well_formed (Desc source) -> well_formed (Desc target) ->
  Height (Desc target) = Height (Desc source) ->
  Width (Desc target) = Width (Desc source) ->
  Redistribute target source =
  Redistributed (relayout (Desc target) source).
Proof.
  intros (_ & _ & Hs & _) (_ & _ & Ht & _) Hh Hw. unfold Redistribute.
  cbv zeta. rewrite Hh, Hw, !Z.eqb_refl, Hs, Ht. reflexivity.
Qed.

Lemma relayout_represents D X G :
  well_formed (Desc X) -> well_formed D ->
  Height D = Height (Desc X) -> Width D = Width (Desc X) ->
  represents X G -> represents (relayout D X) G.
Proof.
  intros HwfX HwfD Hh Hw Hrep p iLoc jLoc Hp Hi Hj.
  cbn [LocalEntry Desc relayout] in *.
  destruct HwfD as (_ & _ & _ & Hca & Hra & _).
  apply Get_represents; trivial.
  - rewrite <- Hh.
    apply (@axis_local_range (ColDist D) (ColAlign D) (Root D) p
             (Height D) iLoc Hp Hca Hi).
  - rewrite <- Hw.
    apply (@axis_local_range (RowDist D) (RowAlign D) (Root D) p
             (Width D) jLoc Hp Hra Hj).
Qed.

Lemma In_range n x : In x (range n) -> 0 <= x < n.
Proof.
  unfold range. rewrite in_map_iff. intros (k & <- & Hk).
  apply in_seq in Hk. lia.
Qed.

(** Two layouts of one global matrix under one descriptor have the same
    local buffers. *)
Lemma represents_LocalBuffer X X' G p :
  Desc X' = Desc X -> represents X G -> represents X' G -> in_grid p ->
  LocalBuffer X' p = LocalBuffer X p.
Proof.
  intros HD Hrep Hrep' Hp. unfold LocalBuffer. rewrite HD.
  apply map_ext_in. intros jLoc Hj. apply In_range in Hj.
  apply map_ext_in. intros iLoc Hi. apply In_range in Hi.
  rewrite (Hrep p iLoc jLoc Hp Hi Hj).
  rewrite <- HD in Hi, Hj. rewrite (Hrep' p iLoc jLoc Hp Hi Hj).
  now rewrite HD.
Qed.

(** C4. For meaningful distribution pairs, a distributed matrix [X] under
    the first and target handles [Y] under the second and [W] under the
    first, aligned as [X]: redistributing [X] into [Y] and the result into
    [W] gives on every process the local buffer of [X]; the redistribution
    into [Y] keeps the extent and the value of every global entry, as every
    process receives it; and it gives the same matrix whatever the target
    held before, so that repeating it changes nothing. *)
Theorem Redistribute_round_trip X Y W G :
  well_formed (Desc X) -> well_formed (Desc Y) ->
  Height (Desc Y) = Height (Desc X) -> Width (Desc Y) = Width (Desc X) ->
  Desc W = Desc X ->
  represents X G ->
  exists Y' X',
    Redistribute Y X = Redistributed Y' /\
    Redistribute W Y' = Redistributed X' /\
    (forall p, in_grid p -> LocalBuffer X' p = LocalBuffer X p) /\
    (Height (Desc Y') = Height (Desc X) /\
     Width (Desc Y') = Width (Desc X) /\
     forall p i j,
       in_grid p -> 0 <= i < Height (Desc X) -> 0 <= j < Width (Desc X) ->
       Get Y' p i j = Get X p i j) /\
    (forall Y0, Desc Y0 = Desc Y -> Redistribute Y0 X = Redistributed Y') /\
    Redistribute Y' X = Redistributed Y'.
Proof.
  intros HwfX HwfY Hh Hw HW Hrep.
  exists (relayout (Desc Y) X), (relayout (Desc W) (relayout (Desc Y) X)).
  pose proof (relayout_represents HwfX HwfY Hh Hw Hrep) as HrepY.
  assert (HwfW : well_formed (Desc W)) by now rewrite HW.
  assert (HrepZ : represents (relayout (Desc W) (relayout (Desc Y) X)) G).
  { apply relayout_represents; trivial; cbn [Desc relayout];
      rewrite HW; lia. }
  split; [now apply Redistribute_supported|].
  split.
  { apply Redistribute_supported; trivial; cbn [Desc relayout];
      rewrite HW; lia. }
  split.
  { intros p Hp. apply represents_LocalBuffer with (G := G); trivial. }
  split.
  { cbn [Desc relayout]. repeat split; trivial.
    intros p i j Hp Hi Hj.
    rewrite (Get_represents HwfX Hrep Hp Hi Hj).
    apply Get_represents; trivial; cbn [Desc relayout]; lia. }
  split.
  { intros Y0 HY0. rewrite <- HY0.
    apply Redistribute_supported; trivial; rewrite HY0; trivial. }
  apply (@Redistribute_supported (relayout (Desc Y) X) X); trivial.
Qed.

End Laws.

End Engine.

End Redist.

Module RedistExamples.

Import Redist.

(** A 5 x 4 matrix on a 2 x 3 grid under [MC,MR] with alignments 1 and 2,
    and target handles under [VC,STAR] with alignment 4, under [STAR,VR]
    with alignment 5 and under [CIRC,CIRC] with root 3. *)
Definition G54 (i j : Z) : Z := 10 * i + j.

Definition D1 : Descriptor :=
  {| Height := 5; Width := 4; ColDist := MC; RowDist := MR;
     ColAlign := 1; RowAlign := 2; Root := 0 |}.

Definition D2 : Descriptor :=
  {| Height := 5; Width := 4; ColDist := VC; RowDist := STAR;
     ColAlign := 4; RowAlign := 0; Root := 0 |}.

Definition D3 : Descriptor :=
  {| Height := 5; Width := 4; ColDist := CIRC; RowDist := CIRC;
     ColAlign := 0; RowAlign := 0; Root := 3 |}.

Definition D4 : Descriptor :=
  {| Height := 5; Width := 4; ColDist := STAR; RowDist := VR;
     ColAlign := 0; RowAlign := 5; Root := 0 |}.

Definition X54 : DistMatrix Z :=
  {| Desc := D1;
     LocalEntry := fun p iLoc jLoc =>
       G54 (GlobalRow 2 3 D1 p iLoc) (GlobalCol 2 3 D1 p jLoc) |}.

Definition handle (D : Descriptor) : DistMatrix Z :=
  {| Desc := D; LocalEntry := fun _ _ _ => 0 |}.

Definition grid23 : list Process :=
  [(0, 0); (1, 0); (0, 1); (1, 1); (0, 2); (1, 2)].

Definition buffers (R : result Z) : list (list (list Z)) :=
  match R with
  | Redistributed Y => map (LocalBuffer 2 3 Y) grid23
  | _ => []
  end.

Definition and_then (R : result Z) (D : Descriptor) : result Z :=
  match R with
  | Redistributed Y => Redistribute 2 3 (handle D) Y
  | e => e
  end.

Example X54_buffers :
  map (LocalBuffer 2 3 X54) grid23 =
  [[[11; 31]]; [[1; 21; 41]]; [[12; 32]]; [[2; 22; 42]];
   [[10; 30]; [13; 33]]; [[0; 20; 40]; [3; 23; 43]]].
Proof. vm_compute. reflexivity. Qed.

Example to_VC_STAR :
  buffers (Redistribute 2 3 (handle D2) X54) =
  [[[20]; [21]; [22]; [23]]; [[30]; [31]; [32]; [33]];
   [[40]; [41]; [42]; [43]]; [[]; []; []; []];
   [[0]; [1]; [2]; [3]]; [[10]; [11]; [12]; [13]]].
Proof. vm_compute. reflexivity. Qed.

Example to_VC_STAR_and_back :
  buffers (and_then (Redistribute 2 3 (handle D2) X54) D1) =
  map (LocalBuffer 2 3 X54) grid23.
Proof. vm_compute. reflexivity. Qed.

Example to_CIRC_CIRC :
  buffers (Redistribute 2 3 (handle D3) X54) =
  [[]; []; [];
   [[0; 10; 20; 30; 40]; [1; 11; 21; 31; 41]; [2; 12; 22; 32; 42];
    [3; 13; 23; 33; 43]];
   []; []].
Proof. vm_compute. reflexivity. Qed.

Example through_STAR_VR_and_CIRC_CIRC :
  buffers (and_then (and_then (Redistribute 2 3 (handle D4) X54) D3) D1) =
  map (LocalBuffer 2 3 X54) grid23.
Proof. vm_compute. reflexivity. Qed.

(** [MC,MC] lays no matrix out, and the extents must agree. *)
Example unsupported_pair :
  Redistribute 2 3
    (handle {| Height := 5; Width := 4; ColDist := MC; RowDist := MC;
               ColAlign := 0; RowAlign := 0; Root := 0 |}) X54
  = Unsupported Z /\
  Redistribute 2 3
    (handle {| Height := 4; Width := 4; ColDist := MC; RowDist := MR;
               ColAlign := 0; RowAlign := 0; Root := 0 |}) X54
  = ShapeError Z.
Proof. split; reflexivity. Qed.

Lemma D1_well_formed : well_formed 2 3 D1.
Proof. unfold well_formed. cbn. repeat split; lia. Qed.

Lemma D2_well_formed : well_formed 2 3 D2.
Proof. unfold well_formed. cbn. repeat split; lia. Qed.

Lemma X54_represents : represents 2 3 X54 G54.
Proof. intros p iLoc jLoc _ _ _. reflexivity. Qed.

Lemma Redistribute_round_trip_witness :
  0 < 2 /\ 0 < 3 /\
  well_formed 2 3 (Desc X54) /\ well_formed 2 3 (Desc (handle D2)) /\
  Height (Desc (handle D2)) = Height (Desc X54) /\
  Width (Desc (handle D2)) = Width (Desc X54) /\
  Desc (handle D1) = Desc X54 /\
  represents 2 3 X54 G54 /\
  exists Y' X',
    Redistribute 2 3 (handle D2) X54 = Redistributed Y' /\
    Redistribute 2 3 (handle D1) Y' = Redistributed X' /\
    (forall p, in_grid 2 3 p ->
               LocalBuffer 2 3 X' p = LocalBuffer 2 3 X54 p) /\
    (Height (Desc Y') = Height (Desc X54) /\
     Width (Desc Y') = Width (Desc X54) /\
     forall p i j,
       in_grid 2 3 p ->
       0 <= i < Height (Desc X54) -> 0 <= j < Width (Desc X54) ->
       Get 2 3 Y' p i j = Get 2 3 X54 p i j) /\
    (forall Y0, Desc Y0 = Desc (handle D2) ->
                Redistribute 2 3 Y0 X54 = Redistributed Y') /\
    Redistribute 2 3 Y' X54 = Redistributed Y'.
Proof.
  assert (H2 : 0 < 2) by lia. assert (H3 : 0 < 3) by lia.
  split; [exact H2|]. split; [exact H3|].
  split; [exact D1_well_formed|]. split; [exact D2_well_formed|].
  split; [reflexivity|]. split; [reflexivity|]. split; [reflexivity|].
  split; [exact X54_represents|].
  exact (@Redistribute_round_trip Z 2 3 H2 H3 X54 (handle D2) (handle D1)
           G54 D1_well_formed D2_well_formed eq_refl eq_refl eq_refl
           X54_represents).
Defined.

End RedistExamples.

(* ===================================================================== *)
(** * Further properties of the reference kernel [blas::Gemm] *)
(* ===================================================================== *)

Module BlasLaws.

Import Blas.

(** The letter the kernel takes an orientation character for: it tests
    [std::toupper(trans) == 'N'], then [== 'T'], and treats every other
    character as the conjugate transpose. *)
Definition letter (c : ascii) : ascii :=
  if Ascii.eqb (toupper c) "N" then "N"%char
  else if Ascii.eqb (toupper c) "T" then "T"%char
  else "C"%char.

Lemma letter_N c :
  Ascii.eqb (toupper (letter c)) "N" = Ascii.eqb (toupper c) "N".
Proof.
  unfold letter. destruct (Ascii.eqb (toupper c) "N") eqn:E1; trivial.
  destruct (Ascii.eqb (toupper c) "T"); reflexivity.
Qed.

Lemma letter_T c :
  Ascii.eqb (toupper (letter c)) "T" = Ascii.eqb (toupper c) "T".
Proof.
  unfold letter. destruct (Ascii.eqb (toupper c) "N") eqn:E1.
  - apply Ascii.eqb_eq in E1. rewrite E1. reflexivity.
  - destruct (Ascii.eqb (toupper c) "T"); reflexivity.
Qed.

Lemma letter_orientation_char c : orientation_char (letter c).
Proof.
  unfold letter, orientation_char.
  destruct (Ascii.eqb (toupper c) "N"); [now left|].
  destruct (Ascii.eqb (toupper c) "T"); [right; now left|right; now right].
Qed.

Section Laws.

Variable T : Scalar.
Add Ring TRingLaws : (scalar_ring T).
Local Open Scope scalar_scope.

Lemma op_letter trans (M : buffer T) LDim r c :
  op (letter trans) M LDim r c = op trans M LDim r c.
Proof. unfold op. now rewrite letter_N, letter_T. Qed.

Lemma Gemm_letter transA transB m n k (alpha : T) A ALDim B BLDim beta C CLDim :
  Gemm transA transB m n k alpha A ALDim B BLDim beta C CLDim =
  Gemm (letter transA) (letter transB) m n k alpha A ALDim B BLDim beta C
    CLDim.
Proof. unfold Gemm. now rewrite !letter_N, !letter_T. Qed.

(** Entry [(i,j)] of the window after the call, for any two characters. *)
Lemma Gemm_at transA transB m n k (alpha : T) A ALDim B BLDim beta C CLDim
    i j :
  (m <= CLDim)%Z -> (0 <= i < m)%Z -> (0 <= j < n)%Z ->
  Gemm transA transB m n k alpha A ALDim B BLDim beta C CLDim
    (i + j * CLDim)%Z =
  alpha * sum k (fun l => op transA A ALDim i l * op transB B BLDim l j)
  + beta * C (i + j * CLDim)%Z.
Proof.
  intros Hm Hi Hj. rewrite Gemm_letter.
  rewrite Gemm_window
    by (trivial; apply letter_orientation_char).
  unfold Gemm_entry. f_equal. f_equal. apply sum_ext. intros l _.
  now rewrite !op_letter.
Qed.

(** The orientation characters are read through [std::toupper], and a
    character that is neither N nor T, in either case, selects the
    conjugate transpose: the call is the call with the letters N, T or C
    the characters stand for, and no character is refused. *)
Theorem Gemm_orientation_letters transA transB m n k (alpha : T)
    A ALDim B BLDim beta C CLDim :
  Gemm transA transB m n k alpha A ALDim B BLDim beta C CLDim =
  Gemm (letter transA) (letter transB) m n k alpha A ALDim B BLDim beta C
    CLDim /\
  (letter transA = "N" \/ letter transA = "T" \/ letter transA = "C")%char /\
  (letter "n" = "N" /\ letter "t" = "T" /\ letter "c" = "C" /\
   letter "x" = "C" /\ letter "0" = "C")%char.
Proof.
  split; [apply Gemm_letter|]. split.
  - unfold letter. destruct (Ascii.eqb (toupper transA) "N"); auto.
    destruct (Ascii.eqb (toupper transA) "T"); auto.
  - repeat split.
Qed.

(** The kernel writes no cell of [C] outside the [m] x [n] window, the
    padding between the columns included, and with [m <= 0] or [n <= 0] it
    writes nothing at all. *)
Theorem Gemm_writes_window_only transA transB m n k (alpha : T)
    A ALDim B BLDim beta C CLDim :
  (forall a, ~ in_window m n CLDim a ->
     Gemm transA transB m n k alpha A ALDim B BLDim beta C CLDim a = C a) /\
  ((m <= 0)%Z \/ (n <= 0)%Z ->
   forall a,
     Gemm transA transB m n k alpha A ALDim B BLDim beta C CLDim a = C a).
Proof.
  split.
  - intros a Ha. now apply Gemm_frame.
  - intros Hmn a. apply Gemm_frame. intros (i & j & Hi & Hj & _). lia.
Qed.

(** The kernel reads [A] and [B] only where [op(A)] and [op(B)] have their
    [m] x [k] and [k] x [n] entries: operands that agree there give the
    same [C]. *)
Theorem Gemm_reads_operands_only transA transB m n k (alpha : T)
    A A' ALDim B B' BLDim beta C CLDim i j :
  (m <= CLDim)%Z -> (0 <= i < m)%Z -> (0 <= j < n)%Z ->
  (forall r l, (0 <= r < m)%Z -> (0 <= l < k)%Z ->
     op transA A ALDim r l = op transA A' ALDim r l) ->
  (forall l c, (0 <= l < k)%Z -> (0 <= c < n)%Z ->
     op transB B BLDim l c = op transB B' BLDim l c) ->
  Gemm transA transB m n k alpha A ALDim B BLDim beta C CLDim
    (i + j * CLDim)%Z =
  Gemm transA transB m n k alpha A' ALDim B' BLDim beta C CLDim
    (i + j * CLDim)%Z.
Proof.
  intros Hm Hi Hj HA HB. rewrite !Gemm_at by trivial.
  f_equal. f_equal. apply sum_ext. intros l Hl.
  now rewrite HA, HB.
Qed.

(** With [alpha = 0], or with no term to sum ([k <= 0]), the call scales
    the window by [beta], whatever [A] and [B] hold. *)
Theorem Gemm_scales_only transA transB m n k (alpha : T)
    A ALDim B BLDim beta C CLDim i j :
  (m <= CLDim)%Z -> (0 <= i < m)%Z -> (0 <= j < n)%Z ->
  alpha = zero \/ (k <= 0)%Z ->
  Gemm transA transB m n k alpha A ALDim B BLDim beta C CLDim
    (i + j * CLDim)%Z = beta * C (i + j * CLDim)%Z.
Proof.
  intros Hm Hi Hj [->|Hk]; rewrite Gemm_at by trivial.
  - ring.
  - rewrite sum_nil by trivial. ring.
Qed.

(** For an element type whose conjugation is the identity (the real
    types), the characters C and T give the same result. *)
Theorem Gemm_real_conjugate_is_transpose transB m n k (alpha : T)
    A ALDim B BLDim beta C CLDim i j :
  (forall x : T, Conj x = x) ->
  (m <= CLDim)%Z -> (0 <= i < m)%Z -> (0 <= j < n)%Z ->
  Gemm "C" transB m n k alpha A ALDim B BLDim beta C CLDim
    (i + j * CLDim)%Z =
  Gemm "T" transB m n k alpha A ALDim B BLDim beta C CLDim
    (i + j * CLDim)%Z /\
  Gemm transB "C" m n k alpha A ALDim B BLDim beta C CLDim
    (i + j * CLDim)%Z =
  Gemm transB "T" m n k alpha A ALDim B BLDim beta C CLDim
    (i + j * CLDim)%Z.
Proof.
  intros Hconj Hm Hi Hj. rewrite !Gemm_at by trivial.
  split; f_equal; f_equal; apply sum_ext; intros l _; f_equal;
    unfold op; cbn; now rewrite Hconj.
Qed.

(** A second call with [beta = 1] adds its product to the result of the
    first. *)
Theorem Gemm_accumulates tA1 tB1 tA2 tB2 m n k1 k2 (alpha1 alpha2 : T)
    A1 A1LDim B1 B1LDim A2 A2LDim B2 B2LDim beta C CLDim i j :
  (m <= CLDim)%Z -> (0 <= i < m)%Z -> (0 <= j < n)%Z ->
  Gemm tA2 tB2 m n k2 alpha2 A2 A2LDim B2 B2LDim one
    (Gemm tA1 tB1 m n k1 alpha1 A1 A1LDim B1 B1LDim beta C CLDim) CLDim
    (i + j * CLDim)%Z =
  alpha1 * sum k1 (fun l => op tA1 A1 A1LDim i l * op tB1 B1 B1LDim l j)
  + alpha2 * sum k2 (fun l => op tA2 A2 A2LDim i l * op tB2 B2 B2LDim l j)
  + beta * C (i + j * CLDim)%Z.
Proof.
  intros Hm Hi Hj. rewrite !Gemm_at by trivial. ring.
Qed.

(** The transpose of a product is the product of the transposes in the
    opposite order: forming [A^T B^T] into [C] and [B A] into the
    transpose of [C] gives the same entries. *)
Theorem Gemm_transpose_dual m n k (alpha : T) A ALDim B BLDim beta
    C CLDim C' C'LDim i j :
  (m <= CLDim)%Z -> (n <= C'LDim)%Z -> (0 <= i < m)%Z -> (0 <= j < n)%Z ->
  C' (j + i * C'LDim)%Z = C (i + j * CLDim)%Z ->
  Gemm "T" "T" m n k alpha A ALDim B BLDim beta C CLDim (i + j * CLDim)%Z =
  Gemm "N" "N" n m k alpha B BLDim A ALDim beta C' C'LDim
    (j + i * C'LDim)%Z.
Proof.
  intros Hm Hn Hi Hj HC. rewrite !Gemm_at by trivial. rewrite HC.
  f_equal. f_equal. apply sum_ext. intros l _. unfold op. cbn. ring.
Qed.

End Laws.

End BlasLaws.

Module BlasLawsExamples.

Import Blas BlasLaws BlasExamples.

Definition A22 : buffer ZScalar := of_list 0 [1; 2; 3; 4].
Definition A22' : buffer ZScalar := of_list 0 [1; 2; 3; 4; 99].
Definition B22 : buffer ZScalar := of_list 0 [5; 6; 7; 8].
Definition B22' : buffer ZScalar := of_list 0 [5; 6; 7; 8; 99; 98].
Definition C23 : buffer ZScalar := of_list 0 [1; 1; 77; 1; 1; 88].
Definition C22t : buffer ZScalar := of_list 0 [1; 1; 1; 1].

(** A lower-case and an unknown character, and the cell after the
    window. *)
Example gemm_letters :
  dump 4 (@Gemm ZScalar "n" "?" 2 2 2 1 A22 2 B22 2 0 C22t 2) =
  dump 4 (@Gemm ZScalar "N" "C" 2 2 2 1 A22 2 B22 2 0 C22t 2) /\
  dump 6 (@Gemm ZScalar "N" "N" 2 2 2 1 A22 2 B22 2 0 C23 3) =
  [23; 34; 77; 31; 46; 88].
Proof. vm_compute. split; reflexivity. Qed.

Lemma in_window_dec_22 : ~ in_window 2 2 3 2.
Proof. intros (i & j & Hi & Hj & E). lia. Qed.

Lemma Gemm_writes_window_only_witness :
  ~ in_window 2 2 3 2 /\
  @Gemm ZScalar "N" "N" 2 2 2 1 A22 2 B22 2 0 C23 3 2 = C23 2 /\
  (0 <= 0 \/ 2 <= 0) /\
  @Gemm ZScalar "N" "N" 0 2 2 1 A22 2 B22 2 0 C23 3 0 = C23 0.
Proof.
  assert (H0 : 0 <= 0 \/ 2 <= 0) by (left; lia).
  split; [exact in_window_dec_22|].
  split.
  { exact (proj1 (@Gemm_writes_window_only ZScalar "N" "N" 2 2 2 1
                    A22 2 B22 2 0 C23 3) 2 in_window_dec_22). }
  split; [exact H0|].
  exact (proj2 (@Gemm_writes_window_only ZScalar "N" "N" 0 2 2 1
                  A22 2 B22 2 0 C23 3) H0 0).
Defined.

Lemma A22_agree r l :
  0 <= r < 2 -> 0 <= l < 2 -> op "N" A22 2 r l = op "N" A22' 2 r l.
Proof.
  intros Hr Hl.
  assert (Er : r = 0 \/ r = 1) by lia. assert (El : l = 0 \/ l = 1) by lia.
  destruct Er, El; subst; reflexivity.
Qed.

Lemma B22_agree l c :
  0 <= l < 2 -> 0 <= c < 2 -> op "T" B22 2 l c = op "T" B22' 2 l c.
Proof.
  intros Hl Hc.
  assert (El : l = 0 \/ l = 1) by lia. assert (Ec : c = 0 \/ c = 1) by lia.
  destruct El, Ec; subst; reflexivity.
Qed.

Lemma Gemm_reads_operands_only_witness :
  2 <= 3 /\ 0 <= 1 < 2 /\ 0 <= 1 < 2 /\
  @Gemm ZScalar "N" "T" 2 2 2 2 A22 2 B22 2 3 C23 3 (1 + 1 * 3) =
  @Gemm ZScalar "N" "T" 2 2 2 2 A22' 2 B22' 2 3 C23 3 (1 + 1 * 3).
Proof.
  assert (H1 : 2 <= 3) by lia. assert (H2 : 0 <= 1 < 2) by lia.
  split; [exact H1|]. split; [exact H2|]. split; [exact H2|].
  exact (@Gemm_reads_operands_only ZScalar "N" "T" 2 2 2 2 A22 A22' 2
           B22 B22' 2 3 C23 3 1 1 H1 H2 H2 A22_agree B22_agree).
Defined.

Lemma Gemm_scales_only_witness :
  2 <= 3 /\ 0 <= 1 < 2 /\ 0 <= 1 < 2 /\
  @Gemm ZScalar "T" "N" 2 2 2 0 A22 2 B22 2 3 C23 3 (1 + 1 * 3) = 3 /\
  @Gemm ZScalar "T" "N" 2 2 0 5 A22 2 B22 2 3 C23 3 (1 + 1 * 3) = 3.
Proof.
  assert (H1 : 2 <= 3) by lia. assert (H2 : 0 <= 1 < 2) by lia.
  split; [exact H1|]. split; [exact H2|]. split; [exact H2|].
  split.
  - exact (@Gemm_scales_only ZScalar "T" "N" 2 2 2 0 A22 2 B22 2 3 C23 3
             1 1 H1 H2 H2 (or_introl eq_refl)).
  - assert (H0 : 0 <= 0) by lia.
    exact (@Gemm_scales_only ZScalar "T" "N" 2 2 0 5 A22 2 B22 2 3 C23 3
             1 1 H1 H2 H2 (or_intror H0)).
Defined.

Lemma Gemm_real_conjugate_is_transpose_witness :
  (forall x : ZScalar, Conj x = x) /\ 2 <= 3 /\ 0 <= 1 < 2 /\ 0 <= 0 < 2 /\
  @Gemm ZScalar "C" "N" 2 2 2 2 A22 2 B22 2 3 C23 3 (1 + 0 * 3) =
  @Gemm ZScalar "T" "N" 2 2 2 2 A22 2 B22 2 3 C23 3 (1 + 0 * 3).
Proof.
  assert (Hc : forall x : ZScalar, Conj x = x) by reflexivity.
  assert (H1 : 2 <= 3) by lia. assert (H2 : 0 <= 1 < 2) by lia.
  assert (H3 : 0 <= 0 < 2) by lia.
  split; [exact Hc|]. split; [exact H1|]. split; [exact H2|].
  split; [exact H3|].
  exact (proj1 (@Gemm_real_conjugate_is_transpose ZScalar "N" 2 2 2 2
                  A22 2 B22 2 3 C23 3 1 0 Hc H1 H2 H3)).
Defined.

Lemma Gemm_accumulates_witness :
  2 <= 3 /\ 0 <= 1 < 2 /\ 0 <= 0 < 2 /\
  @Gemm ZScalar "N" "N" 2 2 2 1 A22 2 B22 2 1
    (@Gemm ZScalar "T" "N" 2 2 2 2 A22 2 B22 2 3 C23 3) 3 (1 + 0 * 3) = 115.
Proof.
  assert (H1 : 2 <= 3) by lia. assert (H2 : 0 <= 1 < 2) by lia.
  assert (H3 : 0 <= 0 < 2) by lia.
  split; [exact H1|]. split; [exact H2|]. split; [exact H3|].
  exact (eq_trans
           (@Gemm_accumulates ZScalar "T" "N" "N" "N" 2 2 2 2 2 1
              A22 2 B22 2 A22 2 B22 2 3 C23 3 1 0 H1 H2 H3)
           eq_refl).
Defined.

Lemma Gemm_transpose_dual_witness :
  2 <= 2 /\ 0 <= 1 < 2 /\ 0 <= 0 < 2 /\
  C22t (0 + 1 * 2) = C22t (1 + 0 * 2) /\
  @Gemm ZScalar "T" "T" 2 2 2 2 A22 2 B22 2 3 C22t 2 (1 + 0 * 2) =
  @Gemm ZScalar "N" "N" 2 2 2 2 B22 2 A22 2 3 C22t 2 (0 + 1 * 2).
Proof.
  assert (H1 : 2 <= 2) by lia. assert (H2 : 0 <= 1 < 2) by lia.
  assert (H3 : 0 <= 0 < 2) by lia.
  assert (HC : C22t (0 + 1 * 2) = C22t (1 + 0 * 2)) by reflexivity.
  split; [exact H1|]. split; [exact H2|]. split; [exact H3|].
  split; [exact HC|].
  exact (@Gemm_transpose_dual ZScalar 2 2 2 2 A22 2 B22 2 3 C22t 2 C22t 2
           1 0 H1 H1 H2 H3 HC).
Defined.

End BlasLawsExamples.

(* ===================================================================== *)
(** * Further properties of [Zero] and of the [Gemm] overloads *)
(* ===================================================================== *)

Module Level3Laws.

Section Sequential.

Variable T : Scalar.
Add Ring TRingL3 : (scalar_ring T).
Local Open Scope scalar_scope.

Local Abbreviation Matrix := (Level3.Matrix T).

(** [Zero( Matrix<T>& A )], Zero.hpp lines 14-38, clears the [Height] x
    [Width] entries and nothing else: with a leading dimension above the
    height the cells between the columns keep their content, and the extent
    and the leading dimension stay. *)
Theorem Zero_clears_entries_only (A : Matrix) :
  Level3.well_formed A ->
  (Level3.Height (Level3.Zero A) = Level3.Height A /\
   Level3.Width (Level3.Zero A) = Level3.Width A /\
   Level3.LDim (Level3.Zero A) = Level3.LDim A) /\
  (forall i j,
     (0 <= i < Level3.Height A)%Z -> (0 <= j < Level3.Width A)%Z ->
     Level3.Get (Level3.Zero A) i j = zero) /\
  (forall a,
     ~ Blas.in_window (Level3.Height A) (Level3.Width A) (Level3.LDim A) a ->
     Level3.Buffer (Level3.Zero A) a = Level3.Buffer A a).
Proof.
  intros Hwf. split; [apply Level3.Zero_dims|]. split.
  - intros i j Hi Hj. now apply Level3.Zero_in.
  - intros a Ha. now apply Level3.Zero_out.
Qed.

(** ** The overload of [Gemm] without [beta] *)

(** [Matrix<T>::Resize] is outside the given sources and is taken as a
    parameter: it gives the matrix the requested extent, with a leading
    dimension that holds a column. *)
Variable Resize : Matrix -> Z -> Z -> Matrix.

Definition resizes : Prop :=
  forall C m n, (0 <= m)%Z -> (0 <= n)%Z ->
    Level3.Height (Resize C m n) = m /\ Level3.Width (Resize C m n) = n /\
    (m <= Level3.LDim (Resize C m n))%Z.

(** [Gemm( orientA, orientB, alpha, A, B, C )], Gemm.cpp lines 107-120. *)
Definition GemmAssign (orientA orientB : Orientation) (alpha : T)
    (A B C : Matrix) : outcome Matrix :=
  let m := if is_normal orientA then Level3.Height A else Level3.Width A in
  let n := if is_normal orientB then Level3.Width B else Level3.Height B in
  let C := Resize C m n in
  let C := Level3.Zero C in
  Level3.Gemm orientA orientB alpha A B zero C.

(** The overload without [beta] gives [C] the extent of [op(A) op(B)] and
    the entries of [alpha op(A) op(B)], whatever [C] was and whatever
    [Resize] left in its memory; its only error is a mismatch of the inner
    dimensions, raised when [C] is already resized and cleared. *)
Theorem GemmAssign_overwrites orientA orientB alpha (A B C : Matrix) :
  resizes ->
  (0 <= Level3.Height A)%Z -> (0 <= Level3.Width A)%Z ->
  (0 <= Level3.Height B)%Z -> (0 <= Level3.Width B)%Z ->
  let m := Level3.opHeight orientA A in
  let n := Level3.opWidth orientB B in
  (Level3.opWidth orientA A = Level3.opHeight orientB B ->
   exists C',
     GemmAssign orientA orientB alpha A B C = Done C' /\
     Level3.Height C' = m /\ Level3.Width C' = n /\
     forall i j, (0 <= i < m)%Z -> (0 <= j < n)%Z ->
       Level3.Get C' i j =
       alpha * Blas.sum (Level3.opWidth orientA A)
                 (fun l => Level3.opGet orientA A i l
                           * Level3.opGet orientB B l j)) /\
  (Level3.opWidth orientA A <> Level3.opHeight orientB B ->
   exists msg,
     GemmAssign orientA orientB alpha A B C =
     LogicError msg (Level3.Zero (Resize C m n))).
Proof.
  intros Hres HhA HwA HhB HwB m n.
  assert (Hm : (0 <= m)%Z)
    by (unfold m, Level3.opHeight; destruct (is_normal orientA); trivial).
  assert (Hn : (0 <= n)%Z)
    by (unfold n, Level3.opWidth; destruct (is_normal orientB); trivial).
  destruct (Hres C m n Hm Hn) as (Rh & Rw & Rl).
  destruct (Level3.Zero_dims (Resize C m n)) as (Zh & Zw & Zl).
  assert (Hwf : Level3.well_formed (Level3.Zero (Resize C m n))).
  { unfold Level3.well_formed. rewrite Zh, Zw, Zl, Rh, Rw. auto. }
  unfold GemmAssign. fold (Level3.opHeight orientA A).
  fold (Level3.opWidth orientB B). fold m. fold n. cbv zeta.
  split.
  - intros Hk.
    assert (Hc : Level3.conformal orientA orientB A B
                   (Level3.Zero (Resize C m n))).
    { unfold Level3.conformal. rewrite Zh, Zw, Rh, Rw. auto. }
    pose proof (Level3.Gemm_final_dims orientA orientB alpha A B zero
                  (Level3.Zero (Resize C m n))) as (Fh & Fw & _).
    eexists. split; [apply (Level3.Gemm_conformal_Done alpha zero Hc)|].
    rewrite Fh, Fw, Zh, Zw, Rh, Rw. repeat split; trivial.
    intros i j Hi Hj.
    rewrite Level3.Gemm_final_in; trivial; rewrite ?Zh, ?Zw, ?Rh, ?Rw;
      trivial.
    unfold Level3.Gemm_value. ring.
  - intros Hk.
    assert (Hraise : raised (Level3.Gemm orientA orientB alpha A B zero
                               (Level3.Zero (Resize C m n))) = true).
    { apply Level3.Gemm_raises_iff. intros (_ & _ & Hc). contradiction. }
    pose proof (Level3.Gemm_raise_keeps_C _ _ _ _ _ _ _ Hraise) as Hkeep.
    destruct (Level3.Gemm orientA orientB alpha A B zero
                (Level3.Zero (Resize C m n))) as [C'|msg C'];
      [discriminate|].
    cbn [final] in Hkeep. subst C'. now exists msg.
Qed.

End Sequential.

(** ** [LocalGemm] *)

Section LocalGemm.

Variable T : Scalar.
Add Ring TRingLG : (scalar_ring T).
Local Open Scope scalar_scope.

(** The distribution tags, an enumeration declared outside the given
    sources, with the comparison [!=] of the checks. *)
Variable Dist : Type.
Variable Dist_eqb : Dist -> Dist -> bool.

(** What [LocalGemm] reads of an [AbstractDistMatrix<T>]: distributions,
    alignments, global extent and the local matrix of the calling
    process. *)
Record DistMatrix : Type := {
  ColDist : Dist;
  RowDist : Dist;
  ColAlign : Z;
  RowAlign : Z;
  Height : Z;
  Width : Z;
  LocalMatrix : Level3.Matrix T
}.

Definition differ (a b : Dist) : bool := negb (Dist_eqb a b).
Definition differZ (a b : Z) : bool := negb (a =? b)%Z.

(** The checks under [EL_DEBUG_ONLY], Gemm.cpp lines 176-272: the first
    literal of the message of the [LogicError] thrown, if any (the messages
    go on with the distributions and extents of the operands). *)
Definition debug_check (orientA orientB : Orientation)
    (A B C : DistMatrix) : option string :=
  if is_normal orientA && is_normal orientB then
    if differ (ColDist A) (ColDist C) || differ (RowDist A) (ColDist B) ||
       differ (RowDist B) (RowDist C)
    then Some "Tried to form C["%string
    else if differZ (ColAlign A) (ColAlign C)
    then Some "A's cols must align with C's rows"%string
    else if differZ (RowAlign A) (ColAlign B)
    then Some "A's rows must align with B's cols"%string
    else if differZ (RowAlign B) (RowAlign C)
    then Some "B's rows must align with C's rows"%string
    else if differZ (Height A) (Height C) || differZ (Width A) (Height B) ||
            differZ (Width B) (Width C)
    then Some "Nonconformal LocalGemmNN:"%string
    else None
  else if is_normal orientA then
    if differ (ColDist A) (ColDist C) || differ (RowDist A) (RowDist B) ||
       differ (ColDist B) (RowDist C)
    then Some "Tried to form C["%string
    else if differZ (ColAlign A) (ColAlign C)
    then Some "A's cols must align with C's rows"%string
    else if differZ (RowAlign A) (RowAlign B)
    then Some "A's rows must align with B's rows"%string
    else if differZ (ColAlign B) (RowAlign C)
    then Some "B's cols must align with C's rows"%string
    else if differZ (Height A) (Height C) || differZ (Width A) (Width B) ||
            differZ (Height B) (Width C)
    then Some "Nonconformal LocalGemmNT:"%string
    else None
  else if is_normal orientB then
    if differ (RowDist A) (ColDist C) || differ (ColDist A) (ColDist B) ||
       differ (RowDist B) (RowDist C)
    then Some "Tried to form C["%string
    else if differZ (RowAlign A) (ColAlign C)
    then Some "A's rows must align with C's cols"%string
    else if differZ (ColAlign A) (ColAlign B)
    then Some "A's cols must align with B's cols"%string
    else if differZ (RowAlign B) (RowAlign C)
    then Some "B's rows must align with C's rows"%string
    else if differZ (Width A) (Height C) || differZ (Height A) (Height B) ||
            differZ (Width B) (Width C)
    then Some "Nonconformal LocalGemmTN:"%string
    else None
  else
    if differ (RowDist A) (ColDist C) || differ (ColDist A) (RowDist B) ||
       differ (ColDist B) (RowDist C)
    then Some "Tried to form C["%string
    else if differZ (RowAlign A) (ColAlign C)
    then Some "A's rows must align with C's cols"%string
    else if differZ (ColAlign A) (RowAlign B)
    then Some "A's cols must align with B's rows"%string
    else if differZ (ColAlign B) (RowAlign C)
    then Some "B's cols must align with C's rows"%string
    else if differZ (Width A) (Height C) || differZ (Height A) (Width B) ||
            differZ (Height B) (Width C)
    then Some "Nonconformal LocalGemmTT:"%string
    else None.

(** [LocalGemm( orientA, orientB, alpha, A, B, beta, C )], Gemm.cpp lines
    168-277; [debug] tells whether the build has [EL_DEBUG_ONLY].  The
    state is the local matrix of [C]. *)
Definition LocalGemm (debug : bool) (orientA orientB : Orientation)
    (alpha : T) (A B : DistMatrix) (beta : T) (C : DistMatrix)
  : outcome (Level3.Matrix T) :=
  match (if debug then debug_check orientA orientB A B C else None) with
  | Some msg => LogicError msg (LocalMatrix C)
  | None =>
      Level3.Gemm orientA orientB alpha (LocalMatrix A) (LocalMatrix B)
        beta (LocalMatrix C)
  end.

(** The local extent of a dimension on the calling process: a function of
    the distribution, the alignment and the global extent for matrices on
    one grid. *)
Variable localLength : Dist -> Z -> Z -> Z.

Definition consistent (X : DistMatrix) : Prop :=
  Level3.Height (LocalMatrix X) =
    localLength (ColDist X) (ColAlign X) (Height X) /\
  Level3.Width (LocalMatrix X) =
    localLength (RowDist X) (RowAlign X) (Width X).

Hypothesis Dist_eqb_eq : forall a b, Dist_eqb a b = true <-> a = b.

Lemma differ_false a b : differ a b = false -> a = b.
Proof.
  unfold differ. intros H. apply Dist_eqb_eq.
  now destruct (Dist_eqb a b).
Qed.

Lemma differZ_false a b : differZ a b = false -> a = b.
Proof.
  unfold differZ. intros H. apply Z.eqb_eq. now destruct (a =? b)%Z.
Qed.

Ltac passed H :=
  repeat match type of H with
         | (if ?c then _ else _) = None =>
             let E := fresh "E" in
             destruct c eqn:E; [discriminate H|]
         end;
  repeat match goal with
         | E : (_ || _) = false |- _ =>
             apply orb_false_iff in E; destruct E
         end;
  repeat match goal with
         | E : differ _ _ = false |- _ => apply differ_false in E
         | E : differZ _ _ = false |- _ => apply differZ_false in E
         end.

(** Operands that pass the checks of the debug build have conformal local
    matrices. *)
Lemma debug_check_conformal orientA orientB A B C :
  consistent A -> consistent B -> consistent C ->
  debug_check orientA orientB A B C = None ->
  Level3.conformal orientA orientB (LocalMatrix A) (LocalMatrix B)
    (LocalMatrix C).
Proof.
  intros [HA1 HA2] [HB1 HB2] [HC1 HC2] H.
  unfold debug_check in H.
  unfold Level3.conformal, Level3.opHeight, Level3.opWidth.
  destruct (is_normal orientA), (is_normal orientB); cbn [andb] in H;
    passed H; rewrite ?HA1, ?HA2, ?HB1, ?HB2, ?HC1, ?HC2;
    repeat split; congruence.
Qed.


End LocalGemm.

End Level3Laws.

Module Level3LawsExamples.

Import Level3Laws.

Definition mat (h w ld : Z) (l : list Z) : Level3.Matrix ZScalar :=
  @Level3.Build_Matrix ZScalar h w ld (BlasExamples.of_list 0 l).

(** A 2 x 2 matrix in memory with leading dimension 3. *)
Definition P22 : Level3.Matrix ZScalar := mat 2 2 3 [1; 2; 77; 3; 4; 88].

Example Zero_padded :
  BlasExamples.dump 6 (Level3.Buffer (Level3.Zero P22)) =
  [0; 0; 77; 0; 0; 88] /\
  BlasExamples.dump 5 (Level3.Buffer (Level3.Zero (mat 2 2 2 [1; 2; 3; 4; 99])))
  = [0; 0; 0; 0; 99].
Proof. vm_compute. split; reflexivity. Qed.

Lemma P22_well_formed : Level3.well_formed P22.
Proof. unfold Level3.well_formed. cbn. lia. Qed.

Lemma Zero_clears_entries_only_witness :
  Level3.well_formed P22 /\
  Level3.LDim (Level3.Zero P22) = Level3.LDim P22 /\
  (forall i j, 0 <= i < 2 -> 0 <= j < 2 ->
     Level3.Get (Level3.Zero P22) i j = 0).
Proof.
  split; [exact P22_well_formed|].
  split.
  - exact (proj2 (proj2 (proj1
             (@Zero_clears_entries_only ZScalar P22 P22_well_formed)))).
  - exact (proj1 (proj2
             (@Zero_clears_entries_only ZScalar P22 P22_well_formed))).
Defined.

(** A [Resize] that keeps the memory and packs the columns. *)
Definition Repack (C : Level3.Matrix ZScalar) (m n : Z)
  : Level3.Matrix ZScalar :=
  @Level3.Build_Matrix ZScalar m n (Z.max m 1) (Level3.Buffer C).

Lemma Repack_resizes : resizes Repack.
Proof. intros C m n Hm Hn. cbn. repeat split; lia. Qed.

Definition A23 : Level3.Matrix ZScalar := mat 2 3 2 [1; 2; 3; 4; 5; 6].
Definition B32 : Level3.Matrix ZScalar := mat 3 2 3 [1; 0; 2; 0; 1; 3].

(** [A] is 2 x 3 and [B] 3 x 2; [C] comes in as a 1 x 1 matrix. *)
Example GemmAssign_2x2 :
  match GemmAssign Repack NORMAL NORMAL (2 : ZScalar) A23 B32
          (mat 1 1 1 [555; 556; 557; 558]) with
  | Done C' =>
      (Level3.Height C', Level3.Width C',
       BlasExamples.dump 4 (Level3.Buffer C'))
  | LogicError _ _ => (0, 0, [])
  end = (2, 2, [22; 28; 36; 44]) /\
  GemmAssign Repack NORMAL NORMAL (2 : ZScalar) A23 A23
    (mat 1 1 1 [555; 556; 557; 558; 559; 560; 561]) =
  LogicError "Nonconformal GemmNN"
    (Level3.Zero (Repack (mat 1 1 1 [555; 556; 557; 558; 559; 560; 561])
                    2 3)) /\
  BlasExamples.dump 7
    (Level3.Buffer
       (Level3.Zero (Repack (mat 1 1 1 [555; 556; 557; 558; 559; 560; 561])
                       2 3))) = [0; 0; 0; 0; 0; 0; 561].
Proof. vm_compute. repeat split. Qed.

Lemma GemmAssign_overwrites_witness :
  resizes Repack /\
  0 <= Level3.Height A23 /\ 0 <= Level3.Width A23 /\
  0 <= Level3.Height B32 /\ 0 <= Level3.Width B32 /\
  Level3.opWidth NORMAL A23 = Level3.opHeight NORMAL B32 /\
  exists C',
    GemmAssign Repack NORMAL NORMAL (2 : ZScalar) A23 B32 P22 = Done C' /\
    Level3.Height C' = 2 /\ Level3.Width C' = 2 /\
    forall i j, 0 <= i < 2 -> 0 <= j < 2 ->
      Level3.Get C' i j =
      2 * @Blas.sum ZScalar 3
            (fun l => Level3.opGet NORMAL A23 i l
                      * Level3.opGet NORMAL B32 l j).
Proof.
  assert (H0 : 0 <= 2) by lia. assert (H1 : 0 <= 3) by lia.
  split; [exact Repack_resizes|].
  split; [exact H0|]. split; [exact H1|].
  split; [exact H1|]. split; [exact H0|].
  split; [reflexivity|].
  exact (proj1 (@GemmAssign_overwrites ZScalar Repack NORMAL NORMAL
                  (2 : ZScalar) A23 B32 P22 Repack_resizes H0 H1 H1 H0)
           eq_refl).
Defined.

(** The tags of three operands of a local product, compared by name. *)
Inductive Tag : Type := MC | MR | STAR.

Definition Tag_eqb (a b : Tag) : bool :=
  match a, b with
  | MC, MC | MR, MR | STAR, STAR => true
  | _, _ => false
  end.

Lemma Tag_eqb_eq a b : Tag_eqb a b = true <-> a = b.
Proof. destruct a, b; cbn; split; intros H; try discriminate; trivial. Qed.

(** The local lengths on the process in row 0 and column 1 of a 2 x 3
    grid. *)
Definition length01 (d : Tag) (align n : Z) : Z :=
  match d with
  | MC => Distribution.LocalLength n (Distribution.Shift 0 align 2) 2
  | MR => Distribution.LocalLength n (Distribution.Shift 1 align 3) 3
  | STAR => n
  end.

(** [A] is 5 x 2 in [MC,STAR], [B] 2 x 4 in [STAR,MR], [C] 5 x 4 in
    [MC,MR]; the process holds 3 x 2, 2 x 1 and 3 x 1 entries. *)
Definition dA : DistMatrix ZScalar Tag :=
  {| ColDist := MC; RowDist := STAR; ColAlign := 0; RowAlign := 0;
     Height := 5; Width := 2;
     LocalMatrix := mat 3 2 3 [1; 2; 3; 4; 5; 6] |}.
Definition dB : DistMatrix ZScalar Tag :=
  {| ColDist := STAR; RowDist := MR; ColAlign := 0; RowAlign := 0;
     Height := 2; Width := 4;
     LocalMatrix := mat 2 1 2 [7; 8] |}.
Definition dC : DistMatrix ZScalar Tag :=
  {| ColDist := MC; RowDist := MR; ColAlign := 0; RowAlign := 0;
     Height := 5; Width := 4;
     LocalMatrix := mat 3 1 3 [1; 1; 1] |}.

Example LocalGemm_local_product :
  match LocalGemm Tag_eqb true NORMAL NORMAL (1 : ZScalar) dA dB
          (10 : ZScalar) dC with
  | Done C' => BlasExamples.dump 3 (Level3.Buffer C')
  | LogicError _ _ => []
  end = [49; 64; 79] /\
  LocalGemm Tag_eqb true NORMAL NORMAL (1 : ZScalar) dA dC (10 : ZScalar) dC
  = LogicError "Tried to form C[" (LocalMatrix dC) /\
  raised (LocalGemm Tag_eqb false NORMAL NORMAL (1 : ZScalar) dA dC
            (10 : ZScalar) dC) = true.
Proof. vm_compute. repeat split. Qed.

Lemma dA_consistent : consistent length01 dA.
Proof. split; reflexivity. Qed.
Lemma dB_consistent : consistent length01 dB.
Proof. split; reflexivity. Qed.
Lemma dC_consistent : consistent length01 dC.
Proof. split; reflexivity. Qed.
Lemma dC_well_formed : Level3.well_formed (LocalMatrix dC).
Proof. unfold Level3.well_formed. cbn. lia. Qed.


End Level3LawsExamples.

(* ===================================================================== *)
(** * [Diagonal]: the diagonal matrix of a vector *)
(* ===================================================================== *)

Module Matrices.

Section Sequential.

(** The instantiation of the templates with [S = T]. *)
Variable T : Scalar.
Local Open Scope scalar_scope.

Local Abbreviation Matrix := (Level3.Matrix T).

(** [Zeros( D, m, n )] is outside the given sources and is taken as a
    parameter: it makes [D] an [m] x [n] matrix of zeros. *)
Variable Zeros : Matrix -> Z -> Z -> Matrix.

Definition zeros : Prop :=
  forall D m n, (0 <= m)%Z -> (0 <= n)%Z ->
    Level3.Height (Zeros D m n) = m /\ Level3.Width (Zeros D m n) = n /\
    (m <= Level3.LDim (Zeros D m n))%Z /\
    forall i j, (0 <= i < m)%Z -> (0 <= j < n)%Z ->
      Level3.Get (Zeros D m n) i j = zero.

(** The assignment [D(i,j) = v]. *)
Definition SetEntry (D : Matrix) (i j : Z) (v : T) : Matrix :=
  Level3.with_buffer D
    (Blas.upd (Level3.Buffer D) (i + j * Level3.LDim D)%Z v).

(** [d[j]] for a [vector<T>]. *)
Definition at_ (d : list T) (j : Z) : T := nth (Z.to_nat j) d zero.

(** [Diagonal( Matrix<S>& D, const vector<T>& d )], Diagonal.cpp lines
    15-24. *)
Definition Diagonal (D : Matrix) (d : list T) : Matrix :=
  let n := Z.of_nat (List.length d) in
  let D := Zeros D n n in
  For 0 n (fun j D => SetEntry D j j (at_ d j)) D.

(** [Diagonal( Matrix<S>& D, const Matrix<T>& d )], Diagonal.cpp lines
    26-37. *)
Definition DiagonalOfColumn (D d : Matrix) : outcome Matrix :=
  if negb (Level3.Width d =? 1)%Z then
    LogicError "d must be a column vector" D
  else
    let n := Level3.Height d in
    let D := Zeros D n n in
    Done (For 0 n (fun j D => SetEntry D j j (Level3.Buffer d j)) D).

(** The loop of both functions on an [n] x [n] matrix of zeros. *)
Lemma diagonal_loop (v : Z -> T) (D0 : Matrix) n :
  (0 <= n)%Z ->
  Level3.Height D0 = n -> Level3.Width D0 = n ->
  (n <= Level3.LDim D0)%Z ->
  (forall i j, (0 <= i < n)%Z -> (0 <= j < n)%Z ->
     Level3.Get D0 i j = zero) ->
  let D' := For 0 n (fun j D => SetEntry D j j (v j)) D0 in
  Level3.Height D' = n /\ Level3.Width D' = n /\
  forall i j, (0 <= i < n)%Z -> (0 <= j < n)%Z ->
    Level3.Get D' i j = if (i =? j)%Z then v j else zero.
Proof.
  intros Hn Hh Hw Hl H0. cbv zeta.
  set (P := fun (x : Z) (D : Matrix) =>
       Level3.Height D = n /\ Level3.Width D = n /\
       Level3.LDim D = Level3.LDim D0 /\
       forall i j, (0 <= i < n)%Z -> (0 <= j < n)%Z ->
         Level3.Get D i j =
         if ((i =? j) && (j <? x))%Z then v j else zero).
  assert (Inv : P n (For 0 n (fun j D => SetEntry D j j (v j)) D0)).
  { apply (For_inv P); trivial; unfold P.
    - split; [|split; [|split]]; trivial.
      intros i j Hi Hj. rewrite H0 by trivial.
      destruct (Z.ltb_spec j 0); [lia|]. now rewrite andb_false_r.
    - intros x D Hx (Dh & Dw & Dl & Dv). split; [|split; [|split]]; trivial.
      intros i j Hi Hj. unfold Level3.Get, SetEntry.
      cbn [Level3.Buffer Level3.LDim Level3.with_buffer].
      rewrite Blas.upd_eq.
      destruct (Z.eqb_spec (i + j * Level3.LDim D) (x + x * Level3.LDim D))
        as [E|E].
      + assert (j = x) by nia. assert (i = x) by nia. subst.
        rewrite Z.eqb_refl.
        destruct (Z.ltb_spec x (x + 1)); [reflexivity|lia].
      + specialize (Dv i j Hi Hj). unfold Level3.Get in Dv. rewrite Dv.
        destruct (Z.eqb_spec i j) as [->|]; cbn [andb]; trivial.
        destruct (Z.ltb_spec j x), (Z.ltb_spec j (x + 1)); trivial; try lia.
        assert (j = x) by lia. subst. contradiction. }
  destruct Inv as (Dh & Dw & _ & Dv). split; [|split]; trivial.
  intros i j Hi Hj. rewrite Dv by trivial.
  destruct (Z.ltb_spec j n); [|lia]. now rewrite andb_true_r.
Qed.

(** [Diagonal] makes [D], whatever it was, the square matrix of the order
    of [d] with [d] on the diagonal and zero elsewhere; for the empty
    vector that is the 0 x 0 matrix. *)
Theorem Diagonal_of_vector (D : Matrix) (d : list T) :
  zeros ->
  let n := Z.of_nat (List.length d) in
  Level3.Height (Diagonal D d) = n /\ Level3.Width (Diagonal D d) = n /\
  forall i j, (0 <= i < n)%Z -> (0 <= j < n)%Z ->
    Level3.Get (Diagonal D d) i j = if (i =? j)%Z then at_ d j else zero.
Proof.
  intros Hz n. assert (Hn : (0 <= n)%Z) by (unfold n; lia).
  destruct (Hz D n n Hn Hn) as (Zh & Zw & Zl & Z0).
  apply (@diagonal_loop (at_ d) (Zeros D n n) n Hn Zh Zw Zl Z0).
Qed.

(** For a column [d] of height [n] the same, with [d(j)] in entry [(j,j)];
    a [d] of another width is refused before [D] is touched. *)
Theorem Diagonal_of_column (D d : Matrix) :
  zeros -> (0 <= Level3.Height d)%Z ->
  (Level3.Width d <> 1%Z ->
   DiagonalOfColumn D d = LogicError "d must be a column vector" D) /\
  (Level3.Width d = 1%Z ->
   exists D',
     DiagonalOfColumn D d = Done D' /\
     Level3.Height D' = Level3.Height d /\
     Level3.Width D' = Level3.Height d /\
     forall i j,
       (0 <= i < Level3.Height d)%Z -> (0 <= j < Level3.Height d)%Z ->
       Level3.Get D' i j = if (i =? j)%Z then Level3.Get d j 0 else zero).
Proof.
  intros Hz Hn. unfold DiagonalOfColumn. split.
  - intros Hw. destruct (Z.eqb_spec (Level3.Width d) 1); [contradiction|].
    reflexivity.
  - intros Hw. rewrite Hw. cbn [Z.eqb Pos.eqb negb]. cbv zeta.
    destruct (Hz D _ _ Hn Hn) as (Zh & Zw & Zl & Z0).
    destruct (@diagonal_loop (Level3.Buffer d) _ _ Hn Zh Zw Zl Z0)
      as (Dh & Dw & Dv).
    eexists. split; [reflexivity|]. split; [|split]; trivial.
    intros i j Hi Hj. rewrite Dv by trivial.
    unfold Level3.Get. now rewrite Z.mul_0_l, Z.add_0_r.
Qed.

End Sequential.

(** ** On a distributed matrix *)

Section Distributed.

Variable T : Scalar.
Local Open Scope scalar_scope.

(** A distributed matrix as the calling process holds it, with its local
    memory. *)
Definition Operand : Type := (Trr2k.AbstractDistMatrix * Trr2k.store T)%type.

(** [Zeros( D, m, n )] on a distributed matrix is outside the given sources
    and is taken as a parameter: it gives [D] the extent [m] x [n], keeps
    its distribution, and clears the local entries. *)
Variable Zeros : Operand -> Z -> Z -> Operand.

Definition valid_shifts (D : Trr2k.AbstractDistMatrix) : Prop :=
  (0 <= Trr2k.ColShift D < Trr2k.ColStride D /\
   0 <= Trr2k.RowShift D < Trr2k.RowStride D)%Z.

Definition zeros_dist : Prop :=
  forall D m n, valid_shifts (fst D) -> (0 <= m)%Z -> (0 <= n)%Z ->
    let D' := fst (Zeros D m n) in
    Trr2k.Height D' = m /\ Trr2k.Width D' = n /\
    Trr2k.ColShift D' = Trr2k.ColShift (fst D) /\
    Trr2k.ColStride D' = Trr2k.ColStride (fst D) /\
    Trr2k.RowShift D' = Trr2k.RowShift (fst D) /\
    Trr2k.RowStride D' = Trr2k.RowStride (fst D) /\
    (Trr2k.LocalHeight D' <= Trr2k.LDim D')%Z /\
    forall iLoc jLoc,
      (0 <= iLoc < Trr2k.LocalHeight D')%Z ->
      (0 <= jLoc < Trr2k.LocalWidth D')%Z ->
      Trr2k.LGet D' (snd (Zeros D m n)) iLoc jLoc = zero.

(** Modelled from the spec: [AbstractDistMatrix::Set] and the index maps it
    uses are outside the given sources.  "Set(i,j,v) ... only the owner
    mutates": the process that owns row [i] and column [j] writes its local
    entry, the others do nothing. *)
Definition IsLocalRow (D : Trr2k.AbstractDistMatrix) (i : Z) : bool :=
  (i mod Trr2k.ColStride D =? Trr2k.ColShift D)%Z.
Definition IsLocalCol (D : Trr2k.AbstractDistMatrix) (j : Z) : bool :=
  (j mod Trr2k.RowStride D =? Trr2k.RowShift D)%Z.
Definition LocalRow (D : Trr2k.AbstractDistMatrix) (i : Z) : Z :=
  Z.quot (i - Trr2k.ColShift D) (Trr2k.ColStride D).
Definition LocalCol (D : Trr2k.AbstractDistMatrix) (j : Z) : Z :=
  Z.quot (j - Trr2k.RowShift D) (Trr2k.RowStride D).

Definition Set_ (D : Trr2k.AbstractDistMatrix) (i j : Z) (v : T)
    (st : Trr2k.store T) : Trr2k.store T :=
  if IsLocalRow D i && IsLocalCol D j then
    Blas.upd st
      (Trr2k.Offset D + (LocalRow D i + LocalCol D j * Trr2k.LDim D))%Z v
  else st.

(** [Diagonal( AbstractDistMatrix<S>& D, const vector<T>& d )],
    Diagonal.cpp lines 39-52, on the calling process. *)
Definition DiagonalDist (D : Operand) (d : list T) : Operand :=
  let n := Z.of_nat (List.length d) in
  let D := Zeros D n n in
  let localWidth := Trr2k.LocalWidth (fst D) in
  (fst D,
   For 0 localWidth (fun jLoc st =>
     let j := Trr2k.GlobalCol (fst D) jLoc in
     Set_ (fst D) j j (@at_ T d j) st) (snd D)).

Lemma local_cell_unique ld h iLoc jLoc iLoc' jLoc' :
  (h <= ld)%Z -> (0 <= iLoc < h)%Z -> (0 <= iLoc' < h)%Z ->
  (iLoc + jLoc * ld = iLoc' + jLoc' * ld)%Z ->
  iLoc = iLoc' /\ jLoc = jLoc'.
Proof. intros Hl Hi Hi' E. assert (jLoc = jLoc') by nia. split; lia. Qed.

(** On every process [Diagonal] leaves the local part of the square matrix
    with [d] on the diagonal and zero elsewhere: a process writes the
    diagonal entries of its columns whose rows it owns too, and each of
    them once. *)
Theorem Diagonal_distributed (D : Operand) (d : list T) :
  zeros_dist -> valid_shifts (fst D) ->
  let n := Z.of_nat (List.length d) in
  let D' := DiagonalDist D d in
  Trr2k.Height (fst D') = n /\ Trr2k.Width (fst D') = n /\
  Trr2k.holds (fst D') (snd D')
    (fun i j => if (i =? j)%Z then @at_ T d j else zero).
Proof.
  intros Hz Hv n. assert (Hn : (0 <= n)%Z) by (unfold n; lia).
  destruct (Hz D n n Hv Hn Hn) as (Zh & Zw & Zcs & Zcr & Zrs & Zrr & Zl & Z0).
  cbv zeta. unfold DiagonalDist. fold n. cbv zeta. cbn [fst snd].
  set (E := fst (Zeros D n n)) in *. set (st0 := snd (Zeros D n n)) in *.
  destruct Hv as [Hc Hr]. rewrite <- Zcs, <- Zcr in Hc.
  rewrite <- Zrs, <- Zrr in Hr.
  assert (Hwf : Trr2k.well_formed E).
  { unfold Trr2k.well_formed. rewrite Zh, Zw. auto. }
  split; [exact Zh|]. split; [exact Zw|].
  set (P := fun (x : Z) (st : Trr2k.store T) =>
    forall iLoc jLoc,
      (0 <= iLoc < Trr2k.LocalHeight E)%Z ->
      (0 <= jLoc < Trr2k.LocalWidth E)%Z ->
      Trr2k.LGet E st iLoc jLoc =
      if ((Trr2k.GlobalRow E iLoc =? Trr2k.GlobalCol E jLoc) && (jLoc <? x))%Z
      then @at_ T d (Trr2k.GlobalCol E jLoc) else zero).
  assert (Inv : P (Trr2k.LocalWidth E)
                  (For 0 (Trr2k.LocalWidth E) (fun jLoc st =>
                     Set_ E (Trr2k.GlobalCol E jLoc)
                       (Trr2k.GlobalCol E jLoc)
                       (@at_ T d (Trr2k.GlobalCol E jLoc)) st) st0)).
  { apply (For_inv P); unfold P.
    - apply Trr2k.LocalWidth_nonneg. exact Hwf.
    - intros iLoc jLoc Hi Hj. rewrite Z0 by trivial.
      destruct (Z.ltb_spec jLoc 0); [lia|]. now rewrite andb_false_r.
    - intros x st Hx IH iLoc jLoc Hi Hj.
      pose proof (Trr2k.GlobalCol_bounds Hwf Hx) as Hjx.
      rewrite Zw, <- Zh in Hjx.
      set (j := Trr2k.GlobalCol E x) in *.
      assert (Hcol : IsLocalCol E j = true /\ LocalCol E j = x).
      { unfold IsLocalCol, LocalCol, j, Trr2k.GlobalCol. split.
        - apply Z.eqb_eq. now apply Distribution.strided_mod.
        - replace (Trr2k.RowShift E + x * Trr2k.RowStride E
                   - Trr2k.RowShift E)%Z with (x * Trr2k.RowStride E)%Z
            by lia.
          rewrite Z.quot_div_nonneg by nia. apply Z.div_mul. lia. }
      destruct Hcol as [Hic Hlc]. unfold Set_. rewrite Hic, Hlc.
      rewrite andb_true_r.
      destruct (IsLocalRow E j) eqn:Hir.
      + apply Z.eqb_eq in Hir.
        destruct (@Distribution.owner_local (Trr2k.Height E) j
                    (Trr2k.ColShift E) (Trr2k.ColStride E) Hc Hjx Hir)
          as [Hrange Hback].
        assert (Hlr : LocalRow E j = (j / Trr2k.ColStride E)%Z).
        { unfold LocalRow. apply Distribution.local_index_div; lia. }
        rewrite Hlr. unfold Trr2k.LGet. rewrite Blas.upd_eq.
        destruct (Z.eqb_spec
                    (Trr2k.Offset E + (iLoc + jLoc * Trr2k.LDim E))
                    (Trr2k.Offset E
                     + (j / Trr2k.ColStride E + x * Trr2k.LDim E)))
          as [Ea|Ea].
        * destruct (@local_cell_unique (Trr2k.LDim E) (Trr2k.LocalHeight E)
                      iLoc jLoc (j / Trr2k.ColStride E) x Zl Hi Hrange
                      ltac:(lia)) as [-> ->].
          unfold Trr2k.GlobalRow. rewrite Hback. fold j.
          rewrite Z.eqb_refl.
          destruct (Z.ltb_spec x (x + 1)); [reflexivity|lia].
        * specialize (IH iLoc jLoc Hi Hj). unfold Trr2k.LGet in IH.
          rewrite IH.
          destruct (Z.eqb_spec (Trr2k.GlobalRow E iLoc)
                      (Trr2k.GlobalCol E jLoc)) as [Eg|]; cbn [andb];
            trivial.
          destruct (Z.ltb_spec jLoc x), (Z.ltb_spec jLoc (x + 1));
            trivial; try lia.
          assert (jLoc = x) by lia. subst jLoc. exfalso. apply Ea.
          fold j in Eg. unfold Trr2k.GlobalRow in Eg.
          assert (iLoc = j / Trr2k.ColStride E)%Z by nia. subst iLoc.
          reflexivity.
      + rewrite IH by trivial.
        destruct (Z.eqb_spec (Trr2k.GlobalRow E iLoc)
                    (Trr2k.GlobalCol E jLoc)) as [Eg|]; cbn [andb];
          trivial.
        destruct (Z.ltb_spec jLoc x), (Z.ltb_spec jLoc (x + 1));
          trivial; try lia.
        assert (jLoc = x) by lia. subst jLoc. exfalso.
        apply Z.eqb_neq in Hir. apply Hir. fold j in Eg. rewrite <- Eg.
        now apply Distribution.strided_mod. }
  intros iLoc jLoc Hi Hj. rewrite (Inv iLoc jLoc Hi Hj).
  destruct (Z.ltb_spec jLoc (Trr2k.LocalWidth E)); [|lia].
  rewrite andb_true_r.
  destruct (Z.eqb_spec (Trr2k.GlobalRow E iLoc) (Trr2k.GlobalCol E jLoc));
    trivial.
Qed.

End Distributed.

End Matrices.

Module MatricesExamples.

Import Matrices.

(** [Zeros] as a repacking of the memory followed by [Zero]. *)
Definition ZerosZ (D : Level3.Matrix ZScalar) (m n : Z)
  : Level3.Matrix ZScalar :=
  Level3.Zero (Level3LawsExamples.Repack D m n).

Lemma ZerosZ_zeros : zeros ZerosZ.
Proof.
  intros D m n Hm Hn. unfold ZerosZ.
  destruct (Level3.Zero_dims (Level3LawsExamples.Repack D m n))
    as (Zh & Zw & Zl).
  rewrite Zh, Zw, Zl. cbn [Level3.Height Level3.Width Level3.LDim
                            Level3LawsExamples.Repack].
  split; [reflexivity|]. split; [reflexivity|]. split; [lia|].
  intros i j Hi Hj. apply Level3.Zero_in; trivial.
  unfold Level3.well_formed. cbn. lia.
Qed.

Definition D11 : Level3.Matrix ZScalar :=
  Level3LawsExamples.mat 1 1 1 [9; 9; 9; 9; 9; 9; 9; 9; 9; 9].

Example Diagonal_3 :
  BlasExamples.dump 10 (Level3.Buffer (Diagonal ZerosZ D11 [4; 5; 6])) =
  [4; 0; 0; 0; 5; 0; 0; 0; 6; 9] /\
  Level3.Height (Diagonal ZerosZ D11 []) = 0 /\
  DiagonalOfColumn ZerosZ D11 (Level3LawsExamples.mat 1 2 1 [4; 5]) =
  LogicError "d must be a column vector" D11.
Proof. vm_compute. repeat split. Qed.

Lemma Diagonal_of_vector_witness :
  zeros ZerosZ /\
  Level3.Height (Diagonal ZerosZ D11 [4; 5; 6]) = 3 /\
  Level3.Width (Diagonal ZerosZ D11 [4; 5; 6]) = 3 /\
  forall i j, 0 <= i < 3 -> 0 <= j < 3 ->
    Level3.Get (Diagonal ZerosZ D11 [4; 5; 6]) i j =
    if i =? j then @at_ ZScalar [4; 5; 6] j else 0.
Proof.
  split; [exact ZerosZ_zeros|].
  exact (@Diagonal_of_vector ZScalar ZerosZ D11 [4; 5; 6] ZerosZ_zeros).
Defined.

Definition col3 : Level3.Matrix ZScalar :=
  Level3LawsExamples.mat 3 1 3 [4; 5; 6].

Lemma Diagonal_of_column_witness :
  zeros ZerosZ /\ 0 <= Level3.Height col3 /\ Level3.Width col3 = 1 /\
  exists D',
    DiagonalOfColumn ZerosZ D11 col3 = Done D' /\
    Level3.Height D' = 3 /\ Level3.Width D' = 3 /\
    forall i j, 0 <= i < 3 -> 0 <= j < 3 ->
      Level3.Get D' i j = if i =? j then Level3.Get col3 j 0 else 0.
Proof.
  assert (H3 : 0 <= Level3.Height col3) by (cbn; lia).
  split; [exact ZerosZ_zeros|]. split; [exact H3|].
  split; [reflexivity|].
  exact (proj2 (@Diagonal_of_column ZScalar ZerosZ D11 col3 ZerosZ_zeros H3)
           eq_refl).
Defined.

(** [Zeros] on a distributed matrix, into fresh memory. *)
Definition ZerosDistZ (D : Operand ZScalar) (m n : Z) : Operand ZScalar :=
  ({| Trr2k.Height := m; Trr2k.Width := n;
      Trr2k.ColShift := Trr2k.ColShift (fst D);
      Trr2k.ColStride := Trr2k.ColStride (fst D);
      Trr2k.RowShift := Trr2k.RowShift (fst D);
      Trr2k.RowStride := Trr2k.RowStride (fst D);
      Trr2k.LDim :=
        Z.max 1 (Distribution.LocalLength m (Trr2k.ColShift (fst D))
                   (Trr2k.ColStride (fst D)));
      Trr2k.Offset := 0 |},
   fun _ => 0).

Lemma ZerosDistZ_zeros : zeros_dist ZerosDistZ.
Proof.
  intros D m n Hv Hm Hn. cbn. repeat split; trivial.
  unfold Trr2k.LocalHeight. cbn. lia.
Qed.

(** The process of a 2 x 3 grid that owns the rows 1, 3, 5 and the columns
    2, 5 of a matrix of order 6: the diagonal entry (5,5) is its own. *)
Definition D23 : Operand ZScalar :=
  (Trr2kExamples.mk 0 0 1 2 2 3, fun _ => 9).

Example Diagonal_on_process :
  map (snd (DiagonalDist ZerosDistZ D23 [10; 11; 12; 13; 14; 15]))
    [0; 1; 2; 3; 4; 5] = [0; 0; 0; 0; 0; 15].
Proof. vm_compute. reflexivity. Qed.

Lemma D23_valid : valid_shifts (fst D23).
Proof. unfold valid_shifts. cbn. lia. Qed.

Lemma Diagonal_distributed_witness :
  zeros_dist ZerosDistZ /\ valid_shifts (fst D23) /\
  Trr2k.holds (fst (DiagonalDist ZerosDistZ D23 [10; 11; 12; 13; 14; 15]))
    (snd (DiagonalDist ZerosDistZ D23 [10; 11; 12; 13; 14; 15]))
    (fun i j => if i =? j then @at_ ZScalar [10; 11; 12; 13; 14; 15] j
                else 0).
Proof.
  split; [exact ZerosDistZ_zeros|]. split; [exact D23_valid|].
  exact (proj2 (proj2 (@Diagonal_distributed ZScalar ZerosDistZ D23
                         [10; 11; 12; 13; 14; 15] ZerosDistZ_zeros
                         D23_valid))).
Defined.

End MatricesExamples.

(* ===================================================================== *)
(** * Further properties of the [VR,*] matrix *)
(* ===================================================================== *)

Module VRStarLaws.

Import Distribution VRStar.

Section Access.

Variable R : Type.

(** The matrix once every process of the grid has made the call
    [SetReal( i, j, u )], and the same for [SetImag]. *)
Definition SetRealAll (release : bool) (A : DistMatrix R) (i j : Z) (u : R)
  : DistMatrix R :=
  For 0 (GridSize A)
    (fun rank A => fst (final (SetReal release rank A i j u))) A.

Definition SetImagAll (release : bool) (A : DistMatrix R) (i j : Z) (v : R)
  : DistMatrix R :=
  For 0 (GridSize A)
    (fun rank A => fst (final (SetImag release rank A i j v))) A.

(** The local row of global row [i] on its owner. *)
Definition ownerRow (A : DistMatrix R) (i : Z) : Z :=
  Z.quot (i - ColShift A (ownerRank A i)) (GridSize A).

Lemma ValidEntry_true (A : DistMatrix R) i j :
  0 <= i < Height A -> 0 <= j < Width A -> ValidEntry A i j = true.
Proof. intros Hi Hj. now apply ValidEntry_spec. Qed.

(** Of all the calls only the owner's writes. *)
Lemma set_all_owner (part : bool) release (A : DistMatrix R) i j (u : R) :
  grid_ok A -> 0 <= i < Height A -> 0 <= j < Width A ->
  (if part then SetRealAll release A i j u else SetImagAll release A i j u) =
  SetLocalEntry A (ownerRank A i) (ownerRow A i) j
    (if part
     then (u, imag (LocalEntries A (ownerRank A i) (ownerRow A i) j))
     else (real (LocalEntries A (ownerRank A i) (ownerRow A i) j), u)).
Proof.
  intros Hg Hi Hj.
  pose proof (@ownerRank_range R A i Hg ltac:(lia)) as Ho.
  pose proof (@owner_rem R A i Hg ltac:(lia)) as Hrem.
  set (z := if part
            then (u, imag (LocalEntries A (ownerRank A i) (ownerRow A i) j))
            else (real (LocalEntries A (ownerRank A i) (ownerRow A i) j), u)).
  set (P := fun (x : Z) (B : DistMatrix R) =>
    B = if ownerRank A i <? x
        then SetLocalEntry A (ownerRank A i) (ownerRow A i) j z else A).
  assert (Hstep : forall x B, 0 <= x < GridSize A -> P x B ->
            P (x + 1)
              (if part then fst (final (SetReal release x B i j u))
               else fst (final (SetImag release x B i j u)))).
  { intros x B Hx HB. unfold P in *.
    destruct (Z.ltb_spec (ownerRank A i) x) as [Hlt|Hge].
    - destruct (Z.ltb_spec (ownerRank A i) (x + 1)); [|lia].
      subst B. unfold SetReal, SetImag.
      rewrite ValidEntry_true by trivial. rewrite andb_false_r.
      cbn [ColAlignment GridSize SetLocalEntry]. rewrite Hrem.
      destruct (Z.eqb_spec x (ownerRank A i)); [lia|].
      now destruct part.
    - subst B. unfold SetReal, SetImag.
      rewrite ValidEntry_true by trivial. rewrite andb_false_r.
      cbv zeta. rewrite Hrem.
      destruct (Z.eqb_spec x (ownerRank A i)) as [->|Hne].
      + destruct (Z.ltb_spec (ownerRank A i) (ownerRank A i + 1)); [|lia].
        unfold z, GetLocalEntry, ownerRow. now destruct part.
      + destruct (Z.ltb_spec (ownerRank A i) (x + 1)); [lia|].
        now destruct part. }
  assert (Inv : P (GridSize A)
                  (if part then SetRealAll release A i j u
                   else SetImagAll release A i j u)).
  { destruct part; unfold SetRealAll, SetImagAll; apply (For_inv P);
      try lia; try (intros x B Hx HB).
    - unfold P. destruct (Z.ltb_spec (ownerRank A i) 0); [lia|reflexivity].
    - apply (Hstep x B Hx HB).
    - unfold P. destruct (Z.ltb_spec (ownerRank A i) 0); [lia|reflexivity].
    - apply (Hstep x B Hx HB). }
  unfold P in Inv. rewrite Inv.
  destruct (Z.ltb_spec (ownerRank A i) (GridSize A)); [reflexivity|lia].
Qed.

Lemma Get_global (A : DistMatrix R) G release rank i j :
  grid_ok A -> represents A G ->
  0 <= i < Height A -> 0 <= j < Width A ->
  GetReal release rank A i j =
    Done (Some (real (G i j)), [Bcast (ownerRank A i)]) /\
  GetImag release rank A i j =
    Done (Some (imag (G i j)), [Bcast (ownerRank A i)]).
Proof.
  intros Hg Hrep Hi Hj. unfold GetReal, GetImag.
  rewrite ValidEntry_true by trivial. rewrite andb_false_r. cbv zeta.
  rewrite (@owner_rem R A i Hg) by lia.
  rewrite !Broadcast_owner by (trivial; lia).
  unfold GetReal_u, GetImag_u. rewrite (@owner_rem R A i Hg) by lia.
  rewrite Z.eqb_refl.
  now rewrite (@owner_reads_global R A G i j Hg Hrep Hi Hj).
Qed.

(** Once every process has called [SetReal( i, j, u )], [GetReal( i, j )]
    returns [u] on every process, [GetImag( i, j )] returns what it
    returned before, and both return for every other entry what they
    returned before. *)
Theorem SetReal_then_Get (A : DistMatrix R) G release i j u rank i' j' :
  grid_ok A -> represents A G ->
  0 <= i < Height A -> 0 <= j < Width A ->
  0 <= i' < Height A -> 0 <= j' < Width A ->
  let A' := SetRealAll release A i j u in
  GetReal release rank A' i' j' =
    Done (Some (if (i' =? i) && (j' =? j) then u else real (G i' j')),
          [Bcast (ownerRank A i')]) /\
  GetImag release rank A' i' j' =
    Done (Some (imag (G i' j')), [Bcast (ownerRank A i')]).
Proof.
  intros Hg Hrep Hi Hj Hi' Hj'. cbv zeta.
  rewrite (@set_all_owner true release A i j u Hg Hi Hj).
  set (z := (u, imag (LocalEntries A (ownerRank A i) (ownerRow A i) j))).
  pose proof (@SetLocalEntry_represents R A G i j z Hg Hrep Hi) as Hrep'.
  fold (ownerRow A i) in Hrep'.
  destruct (@Get_global (SetLocalEntry A (ownerRank A i) (ownerRow A i) j z)
              (with_entry G i j z) release rank i' j' Hg Hrep' Hi' Hj')
    as [Hre Him].
  change (ownerRank (SetLocalEntry A (ownerRank A i) (ownerRow A i) j z) i')
    with (ownerRank A i') in Hre, Him.
  rewrite Hre, Him. unfold with_entry.
  destruct ((i' =? i) && (j' =? j)) eqn:E; [|split; reflexivity].
  apply andb_true_iff in E. destruct E as [Ei Ej].
  apply Z.eqb_eq in Ei, Ej. subst i' j'. split; [reflexivity|].
  unfold z, imag. cbn [snd].
  fold (imag (LocalEntries A (ownerRank A i) (ownerRow A i) j)).
  pose proof (@owner_reads_global R A G i j Hg Hrep Hi Hj) as Hread.
  unfold GetLocalEntry in Hread. fold (ownerRow A i) in Hread.
  now rewrite Hread.
Qed.

(** [SetReal] and [SetImag] on one entry commute, and a later [SetReal]
    replaces an earlier one: after the calls the owner's entry holds the
    two parts last set. *)
Theorem SetReal_SetImag_compose (A : DistMatrix R) release i j u u' v :
  grid_ok A -> 0 <= i < Height A -> 0 <= j < Width A ->
  SetImagAll release (SetRealAll release A i j u) i j v =
    SetLocalEntry (SetLocalEntry A (ownerRank A i) (ownerRow A i) j
                     (u, imag (LocalEntries A (ownerRank A i)
                                 (ownerRow A i) j)))
      (ownerRank A i) (ownerRow A i) j (u, v) /\
  (forall r il jl,
     LocalEntries (SetImagAll release (SetRealAll release A i j u) i j v)
       r il jl =
     LocalEntries (SetRealAll release (SetImagAll release A i j v) i j u)
       r il jl) /\
  (forall r il jl,
     LocalEntries (SetRealAll release (SetRealAll release A i j u) i j u')
       r il jl =
     LocalEntries (SetRealAll release A i j u') r il jl).
Proof.
  intros Hg Hi Hj.
  rewrite (@set_all_owner true release A i j u Hg Hi Hj).
  rewrite (@set_all_owner true release A i j u' Hg Hi Hj).
  rewrite (@set_all_owner false release A i j v Hg Hi Hj).
  set (o := ownerRank A i). set (l := ownerRow A i).
  assert (Hset : forall z B,
            B = SetLocalEntry A o l j z ->
            grid_ok B /\ (0 <= i < Height B) /\ (0 <= j < Width B) /\
            ownerRank B i = o /\ ownerRow B i = l /\
            LocalEntries B o l j = z).
  { intros z B ->. repeat split; try apply Hg; try apply Hi; try apply Hj.
    cbn [LocalEntries SetLocalEntry]. now rewrite !Z.eqb_refl. }
  split; [|split].
  - destruct (Hset (u, imag (LocalEntries A o l j)) _ eq_refl)
      as (Hg' & Hi' & Hj' & Ho & Hl & Hz).
    rewrite (@set_all_owner false release _ i j v Hg' Hi' Hj').
    rewrite Ho, Hl, Hz. reflexivity.
  - intros r il jl.
    destruct (Hset (u, imag (LocalEntries A o l j)) _ eq_refl)
      as (Hg1 & Hi1 & Hj1 & Ho1 & Hl1 & Hz1).
    destruct (Hset (real (LocalEntries A o l j), v) _ eq_refl)
      as (Hg2 & Hi2 & Hj2 & Ho2 & Hl2 & Hz2).
    rewrite (@set_all_owner false release _ i j v Hg1 Hi1 Hj1).
    rewrite (@set_all_owner true release _ i j u Hg2 Hi2 Hj2).
    rewrite Ho1, Hl1, Hz1, Ho2, Hl2, Hz2.
    cbn [LocalEntries SetLocalEntry real imag fst snd].
    destruct ((r =? o) && (il =? l) && (jl =? j)); reflexivity.
  - intros r il jl.
    destruct (Hset (u, imag (LocalEntries A o l j)) _ eq_refl)
      as (Hg1 & Hi1 & Hj1 & Ho1 & Hl1 & Hz1).
    rewrite (@set_all_owner true release _ i j u' Hg1 Hi1 Hj1).
    rewrite Ho1, Hl1, Hz1.
    cbn [LocalEntries SetLocalEntry real imag fst snd].
    destruct ((r =? o) && (il =? l) && (jl =? j)); reflexivity.
Qed.

End Access.

(** ** [SetToRandomHPD] *)

Section HPD.

(** The real ring [Z] of the entries, with the conversion of [Width()]. *)
Variable R : Type.
Variable radd : R -> R -> R.
Variable rzero : R.
Variable of_int : Z -> R.

(** [SetToRandom()] is outside the given sources: [random] is what it
    leaves in the local matrix of each process. *)
Definition SetToRandom (A : DistMatrix R) (rank : Z)
    (random : Z -> Z -> Z -> complex R) : DistMatrix R :=
  {| Height := Height A; Width := Width A;
     ColAlignment := ColAlignment A; GridSize := GridSize A;
     LocalEntries := fun r il jl =>
       if r =? rank then random r il jl else LocalEntries A r il jl |}.

(** [DistMatrix<complex<Z>,VR,Star>::SetToRandomHPD()], VR_Star.cpp lines
    85-116, as run by process [rank].  [AssertNotLockedView] is outside the
    given sources: [lockedView] is the message it throws, if any. *)
Definition SetToRandomHPD (release : bool) (lockedView : option string)
    (random : Z -> Z -> Z -> complex R) (rank : Z) (A : DistMatrix R)
  : outcome (DistMatrix R) :=
  match (if release then None
         else match lockedView with
              | Some msg => Some msg
              | None =>
                  if negb (Height A =? Width A)
                  then Some "Positive-definite matrices must be square."%string
                  else None
              end) with
  | Some msg => LogicError msg A
  | None =>
      let width := Width A in
      let localHeight := LocalHeight A rank in
      let p := GridSize A in
      let colShift := ColShift A rank in
      let A := SetToRandom A rank random in
      Done (For 0 localHeight (fun iLoc A =>
              let i := colShift + iLoc * p in
              if i <? width then
                let value := real (GetLocalEntry A rank iLoc i) in
                SetLocalEntry A rank iLoc i
                  (radd value (of_int (Width A)), rzero)
              else A) A)
  end.

(** The calling process adds the width to the real part of each diagonal
    entry it stores and clears its imaginary part, once, leaves the other
    random entries as they are and touches no entry of another process; a
    build without [RELEASE] refuses a locked view, with the message of
    [AssertNotLockedView], and then a matrix that is not square, before
    anything is drawn; a build with [RELEASE] makes neither check. *)
Theorem SetToRandomHPD_diagonal release lockedView random rank
    (A : DistMatrix R) :
  (forall msg, release = false -> lockedView = Some msg ->
   SetToRandomHPD release lockedView random rank A = LogicError msg A) /\
  (release = false -> lockedView = None -> Height A <> Width A ->
   SetToRandomHPD release lockedView random rank A =
   LogicError "Positive-definite matrices must be square." A) /\
  (release = true \/ (lockedView = None /\ Height A = Width A) ->
   exists A',
     SetToRandomHPD release lockedView random rank A = Done A' /\
     Height A' = Height A /\ Width A' = Width A /\
     (forall iLoc j,
        0 <= iLoc < LocalHeight A rank ->
        LocalEntries A' rank iLoc j =
        if (j =? ColShift A rank + iLoc * GridSize A) && (j <? Width A)
        then (radd (real (random rank iLoc j)) (of_int (Width A)), rzero)
        else random rank iLoc j) /\
     (forall r iLoc j, r <> rank ->
        LocalEntries A' r iLoc j = LocalEntries A r iLoc j)).
Proof.
  split; [|split].
  - intros msg -> ->. reflexivity.
  - intros -> -> Hne. unfold SetToRandomHPD.
    destruct (Z.eqb_spec (Height A) (Width A)); [contradiction|].
    reflexivity.
  - intros Hok.
    assert (Hcheck : (if release then None
                      else match lockedView with
                           | Some msg => Some msg
                           | None =>
                               if negb (Height A =? Width A)
                               then Some "Positive-definite matrices must be square."%string
                               else None
                           end) = None).
    { destruct release; trivial.
      destruct Hok as [|[-> E]]; [discriminate|].
      rewrite E, Z.eqb_refl. reflexivity. }
    unfold SetToRandomHPD. rewrite Hcheck. cbv zeta.
    set (A0 := SetToRandom A rank random).
    set (P := fun (x : Z) (B : DistMatrix R) =>
      Height B = Height A /\ Width B = Width A /\
      forall r il jl,
        LocalEntries B r il jl =
        if (r =? rank) && (0 <=? il) && (il <? x) &&
           (jl =? ColShift A rank + il * GridSize A) && (jl <? Width A)
        then (radd (real (random rank il jl)) (of_int (Width A)), rzero)
        else LocalEntries A0 r il jl).
    set (body := fun (iLoc : Z) (B : DistMatrix R) =>
      if ColShift A rank + iLoc * GridSize A <? Width A
      then SetLocalEntry B rank iLoc (ColShift A rank + iLoc * GridSize A)
             (radd (real (GetLocalEntry B rank iLoc
                            (ColShift A rank + iLoc * GridSize A)))
                (of_int (Width B)), rzero)
      else B).
    assert (Inv : P (Z.max 0 (LocalHeight A rank))
                    (For 0 (LocalHeight A rank) body A0)).
    { destruct (Z_le_gt_dec 0 (LocalHeight A rank)) as [Hnn|Hneg].
      - rewrite Z.max_r by trivial. apply (For_inv P); trivial; unfold P.
        + split; [reflexivity|]. split; [reflexivity|].
          intros r il jl.
          destruct (Z.leb_spec 0 il), (Z.ltb_spec il 0); try lia;
            now rewrite ?andb_false_r.
        + intros x B Hx (Bh & Bw & Bv). unfold body.
          destruct (Z.ltb_spec (ColShift A rank + x * GridSize A) (Width A))
            as [Hin|Hout].
          * split; [exact Bh|]. split; [exact Bw|]. intros r il jl.
            cbn [LocalEntries SetLocalEntry]. unfold GetLocalEntry.
            rewrite (Bv rank x), Bw.
            destruct (Z.ltb_spec x x); [lia|]. rewrite andb_false_r.
            cbn [andb].
            assert (E0 : LocalEntries A0 rank x
                           (ColShift A rank + x * GridSize A) =
                         random rank x (ColShift A rank + x * GridSize A)).
            { unfold A0. cbn [LocalEntries SetToRandom].
              now rewrite Z.eqb_refl. }
            rewrite E0, (Bv r il jl).
            destruct (Z.eqb_spec r rank) as [->|]; cbn [andb]; trivial.
            destruct (Z.eqb_spec il x) as [->|Hil]; cbn [andb].
            -- destruct (Z.leb_spec 0 x); [|lia].
               destruct (Z.ltb_spec x (x + 1)); [|lia].
               destruct (Z.ltb_spec x x); [lia|]. cbn [andb].
               destruct (Z.eqb_spec jl (ColShift A rank + x * GridSize A))
                 as [->|]; cbn [andb]; trivial.
               destruct (Z.ltb_spec (ColShift A rank + x * GridSize A)
                           (Width A)); [reflexivity|lia].
            -- destruct (Z.leb_spec 0 il); cbn [andb]; trivial.
               destruct (Z.ltb_spec il x), (Z.ltb_spec il (x + 1));
                 trivial; lia.
          * split; [exact Bh|]. split; [exact Bw|]. intros r il jl.
            rewrite (Bv r il jl).
            destruct (Z.eqb_spec r rank) as [->|]; cbn [andb]; trivial.
            destruct (Z.leb_spec 0 il); cbn [andb]; trivial.
            destruct (Z.ltb_spec il x), (Z.ltb_spec il (x + 1));
              trivial; try lia.
            assert (il = x) by lia. subst il. cbn [andb].
            destruct (Z.eqb_spec jl (ColShift A rank + x * GridSize A))
              as [->|]; cbn [andb]; trivial.
            destruct (Z.ltb_spec (ColShift A rank + x * GridSize A)
                        (Width A)); [lia|reflexivity].
      - rewrite For_nil by lia. rewrite Z.max_l by lia. unfold P.
        split; [reflexivity|]. split; [reflexivity|]. intros r il jl.
        destruct (Z.leb_spec 0 il), (Z.ltb_spec il 0); try lia;
          now rewrite ?andb_false_r. }
    exists (For 0 (LocalHeight A rank) body A0).
    split; [reflexivity|].
    destruct Inv as (Ih & Iw & Iv).
    split; [exact Ih|]. split; [exact Iw|]. split.
    + intros iLoc j Hi. rewrite (Iv rank iLoc j). rewrite Z.eqb_refl.
      destruct (Z.leb_spec 0 iLoc); [|lia].
      destruct (Z.ltb_spec iLoc (Z.max 0 (LocalHeight A rank))); [|lia].
      cbn [andb].
      destruct ((j =? ColShift A rank + iLoc * GridSize A) && (j <? Width A));
        trivial.
      unfold A0. cbn [LocalEntries SetToRandom]. now rewrite Z.eqb_refl.
    + intros r iLoc j Hr. rewrite (Iv r iLoc j).
      destruct (Z.eqb_spec r rank); [contradiction|]. cbn [andb].
      unfold A0. cbn [LocalEntries SetToRandom].
      destruct (Z.eqb_spec r rank); [contradiction|reflexivity].
Qed.

End HPD.

End VRStarLaws.

Module VRStarLawsExamples.

Import VRStar VRStarLaws VRStarExamples.

Example SetReal_row1_everywhere :
  map (fun rank =>
         final (GetReal true rank (SetRealAll true A0 1 1 7) 1 1))
    [0; 1] = [(Some 7, [Bcast 0]); (Some 7, [Bcast 0])] /\
  final (GetImag true 1 (SetRealAll true A0 1 1 7) 1 1) =
    (Some 111, [Bcast 0]) /\
  final (GetReal true 0 (SetRealAll true A0 1 1 7) 2 1) =
    (Some 21, [Bcast 1]).
Proof. vm_compute. auto. Qed.

Lemma SetReal_then_Get_witness :
  grid_ok A0 /\ represents A0 G0 /\
  0 <= 1 < Height A0 /\ 0 <= 1 < Width A0 /\
  GetReal false 0 (SetRealAll false A0 1 1 7) 1 1 =
    Done (Some 7, [Bcast (ownerRank A0 1)]) /\
  GetImag false 0 (SetRealAll false A0 1 1 7) 1 1 =
    Done (Some (imag (G0 1 1)), [Bcast (ownerRank A0 1)]).
Proof.
  assert (Hi : 0 <= 1 < Height A0) by (cbn; lia).
  assert (Hj : 0 <= 1 < Width A0) by (cbn; lia).
  split; [exact A0_grid_ok|]. split; [exact A0_represents|].
  split; [exact Hi|]. split; [exact Hj|].
  exact (@SetReal_then_Get Z A0 G0 false 1 1 7 0 1 1
           A0_grid_ok A0_represents Hi Hj Hi Hj).
Defined.

Lemma SetReal_SetImag_compose_witness :
  grid_ok A0 /\ 0 <= 1 < Height A0 /\ 0 <= 1 < Width A0 /\
  (forall r il jl,
     LocalEntries (SetImagAll false (SetRealAll false A0 1 1 7) 1 1 8)
       r il jl =
     LocalEntries (SetRealAll false (SetImagAll false A0 1 1 8) 1 1 7)
       r il jl) /\
  (forall r il jl,
     LocalEntries (SetRealAll false (SetRealAll false A0 1 1 7) 1 1 9)
       r il jl =
     LocalEntries (SetRealAll false A0 1 1 9) r il jl).
Proof.
  assert (Hi : 0 <= 1 < Height A0) by (cbn; lia).
  assert (Hj : 0 <= 1 < Width A0) by (cbn; lia).
  split; [exact A0_grid_ok|]. split; [exact Hi|]. split; [exact Hj|].
  exact (proj2 (@SetReal_SetImag_compose Z A0 false 1 1 7 9 8
                  A0_grid_ok Hi Hj)).
Defined.

(** A 3 x 3 matrix on two processes, column alignment 1: process 1 stores
    the rows 0 and 2. *)
Definition S0 : DistMatrix Z :=
  {| Height := 3; Width := 3; ColAlignment := 1; GridSize := 2;
     LocalEntries := fun _ _ _ => (0, 0) |}.

Definition random0 (rank iLoc j : Z) : complex Z :=
  (10 * (Distribution.Shift rank 1 2 + iLoc * 2) + j, 5).

Example SetToRandomHPD_rows_0_2 :
  match SetToRandomHPD Z.add 0 (fun n => n) true None random0 1 S0 with
  | Done A' =>
      map (fun il => map (LocalEntries A' 1 il) [0; 1; 2]) [0; 1]
  | LogicError _ _ => []
  end = [[(3, 0); (1, 5); (2, 5)]; [(20, 5); (21, 5); (25, 0)]].
Proof. vm_compute. reflexivity. Qed.

(** A locked view is refused in a build without [RELEASE] only. *)
Example SetToRandomHPD_locked_view :
  SetToRandomHPD Z.add 0 (fun n => n) false (Some "locked"%string)
    random0 1 S0 = LogicError "locked" S0 /\
  raised (SetToRandomHPD Z.add 0 (fun n => n) true (Some "locked"%string)
            random0 1 S0) = false.
Proof. vm_compute. auto. Qed.

Lemma SetToRandomHPD_diagonal_witness :
  (false = true \/ (@None string = None /\ Height S0 = Width S0)) /\
  exists A',
    SetToRandomHPD Z.add 0 (fun n => n) false None random0 1 S0 = Done A' /\
    Height A' = Height S0 /\ Width A' = Width S0 /\
    (forall iLoc j,
       0 <= iLoc < LocalHeight S0 1 ->
       LocalEntries A' 1 iLoc j =
       if (j =? ColShift S0 1 + iLoc * GridSize S0) && (j <? Width S0)
       then (real (random0 1 iLoc j) + Width S0, 0)
       else random0 1 iLoc j) /\
    (forall r iLoc j, r <> 1 ->
       LocalEntries A' r iLoc j = LocalEntries S0 r iLoc j).
Proof.
  assert (Hsq : false = true \/ (@None string = None /\ Height S0 = Width S0))
    by (right; split; reflexivity).
  split; [exact Hsq|].
  exact (proj2 (proj2 (@SetToRandomHPD_diagonal Z Z.add 0 (fun n => n) false
                         None random0 1 S0)) Hsq).
Defined.

End VRStarLawsExamples.

(* ===================================================================== *)
(** * Further properties of [HermitianOneNorm] *)
(* ===================================================================== *)

Module NormLaws.

Import Norms.

Section Sequential.

Variable R : RealType.
Variable F : Type.
Variable Abs : F -> R.

(** Entry [(i,j)] lies in the triangle named by [shape], the diagonal
    included. *)
Definition stored (shape : Shape) (i j : Z) : bool :=
  match shape with Upper => i <=? j | Lower => j <=? i end.

Lemma hermitian_abs_stored shape (G G' : Z -> Z -> F) n i j :
  (forall i j, 0 <= i < n -> 0 <= j < n -> stored shape i j = true ->
     G i j = G' i j) ->
  0 <= i < n -> 0 <= j < n ->
  hermitian_abs R Abs shape G i j = hermitian_abs R Abs shape G' i j.
Proof.
  intros H Hi Hj. unfold hermitian_abs.
  destruct shape.
  - destruct (Z.leb_spec j i).
    + rewrite (H i j); trivial. cbn. now apply Z.leb_le.
    + rewrite (H j i); trivial. cbn. apply Z.leb_le. lia.
  - destruct (Z.leb_spec i j).
    + rewrite (H i j); trivial. cbn. now apply Z.leb_le.
    + rewrite (H j i); trivial. cbn. apply Z.leb_le. lia.
Qed.

(** The norm reads the stored triangle only: two matrices of one extent
    that agree on it have the same norm (or are both refused), whatever
    the strictly opposite triangle holds. *)
Theorem HermitianOneNorm_reads_triangle shape (A B : Matrix F) :
  Height A = Height B -> Width A = Width B ->
  (forall i j, 0 <= i < Width A -> 0 <= j < Width A ->
     stored shape i j = true -> Get A i j = Get B i j) ->
  HermitianOneNorm R Abs shape A = HermitianOneNorm R Abs shape B.
Proof.
  intros Hh Hw Hag.
  destruct (Z.eq_dec (Height A) (Width A)) as [Hsq|Hns].
  - rewrite (@HermitianOneNorm_one_norm R F Abs shape A Hsq).
    rewrite (@HermitianOneNorm_one_norm R F Abs shape B) by congruence.
    rewrite <- Hw. f_equal. unfold one_norm.
    apply For_ext. intros j m Hj. f_equal.
    apply rsum_ext. intros i Hi.
    now apply hermitian_abs_stored with (n := Width A).
  - unfold HermitianOneNorm. rewrite <- Hh, <- Hw.
    destruct (Z.eqb_spec (Height A) (Width A)); [contradiction|].
    reflexivity.
Qed.

(** For a square matrix whose moduli are symmetric, as those of a Hermitian
    matrix stored in full, both shapes give the maximal column sum of the
    moduli. *)
Theorem HermitianOneNorm_symmetric (A : Matrix F) :
  Height A = Width A ->
  (forall i j, 0 <= i < Width A -> 0 <= j < Width A ->
     Abs (Get A i j) = Abs (Get A j i)) ->
  HermitianOneNorm R Abs Upper A = HermitianOneNorm R Abs Lower A /\
  HermitianOneNorm R Abs Upper A =
  Value R
    (For 0 (Width A) (fun j m =>
       rmax m (rsum R 0 (Width A) (fun i => Abs (Get A i j)))) rzero).
Proof.
  intros Hsq Hsym.
  assert (Hcol : forall shape,
    HermitianOneNorm R Abs shape A =
    Value R
      (For 0 (Width A) (fun j m =>
         rmax m (rsum R 0 (Width A) (fun i => Abs (Get A i j)))) rzero)).
  { intros shape. rewrite (@HermitianOneNorm_one_norm R F Abs shape A Hsq).
    f_equal. unfold one_norm. apply For_ext. intros j m Hj. f_equal.
    apply rsum_ext. intros i Hi. unfold hermitian_abs.
    destruct shape.
    - destruct (Z.leb_spec j i); trivial. now apply Hsym.
    - destruct (Z.leb_spec i j); trivial. now apply Hsym. }
  split; [now rewrite !Hcol | apply Hcol].
Qed.

End Sequential.

End NormLaws.

Module NormLawsExamples.

Import Norms NormLaws.

(** An upper triangle with rubbish below, and the same triangle with zeros
    below. *)
Definition U3 : Matrix Z :=
  {| Height := 3; Width := 3;
     Get := fun i j => if i <=? j then i - 2 * j else 1000 + i |}.
Definition U3' : Matrix Z :=
  {| Height := 3; Width := 3;
     Get := fun i j => if i <=? j then i - 2 * j else 0 |}.

Example norm_U3 :
  HermitianOneNorm ZReal Z.abs Upper U3 = Value ZReal 9 /\
  HermitianOneNorm ZReal Z.abs Upper U3' = Value ZReal 9 /\
  HermitianOneNorm ZReal Z.abs Lower U3 = Value ZReal 2006.
Proof. vm_compute. auto. Qed.

Lemma U3_agree i j :
  0 <= i < Width U3 -> 0 <= j < Width U3 -> stored Upper i j = true ->
  Get U3 i j = Get U3' i j.
Proof. intros _ _ H. cbn in H |- *. now rewrite H. Qed.

Lemma HermitianOneNorm_reads_triangle_witness :
  Height U3 = Height U3' /\ Width U3 = Width U3' /\
  HermitianOneNorm ZReal Z.abs Upper U3 =
  HermitianOneNorm ZReal Z.abs Upper U3'.
Proof.
  split; [reflexivity|]. split; [reflexivity|].
  exact (@HermitianOneNorm_reads_triangle ZReal Z Z.abs Upper U3 U3'
           eq_refl eq_refl U3_agree).
Defined.

Definition H3 : Matrix Z :=
  {| Height := 3; Width := 3; Get := fun i j => i * j - i - j |}.

Lemma H3_symmetric i j :
  0 <= i < Width H3 -> 0 <= j < Width H3 ->
  Z.abs (Get H3 i j) = Z.abs (Get H3 j i).
Proof. intros _ _. cbn. f_equal. lia. Qed.

Lemma HermitianOneNorm_symmetric_witness :
  Height H3 = Width H3 /\
  HermitianOneNorm ZReal Z.abs Upper H3 =
  HermitianOneNorm ZReal Z.abs Lower H3.
Proof.
  split; [reflexivity|].
  exact (proj1 (@HermitianOneNorm_symmetric ZReal Z Z.abs H3 eq_refl
                  H3_symmetric)).
Defined.

End NormLawsExamples.

(* ===================================================================== *)
(** * Further properties of [LocalTrr2k] *)
(* ===================================================================== *)

Module Trr2kLaws.

Import Trr2k.

Section Laws.

Variable T : Scalar.

Lemma updates_agree (E : AbstractDistMatrix) (f : Z -> Z -> T -> T)
    (st st1 st2 : store T) :
  updates E f st st1 -> updates E f st st2 ->
  (forall iLoc jLoc,
     0 <= iLoc < LocalHeight E -> 0 <= jLoc < LocalWidth E ->
     LGet E st1 iLoc jLoc = LGet E st2 iLoc jLoc) /\
  (forall a,
     ~ Blas.in_window (LocalHeight E) (LocalWidth E) (LDim E)
         (a - Offset E) ->
     st1 a = st a /\ st2 a = st a).
Proof.
  intros [Hin1 Hout1] [Hin2 Hout2]. split.
  - intros iLoc jLoc Hi Hj. now rewrite Hin1, Hin2.
  - intros a Ha. split; [now apply Hout1 | now apply Hout2].
Qed.

(** The blocksize, the width of the grid in the threshold and the content
    of the memory allocated for the temporaries do not change the result:
    with two thresholds of at least 2 the recursion leaves the same local
    matrix of [E], and it is the one the kernel leaves when it is run on
    the whole of [E]. *)
Theorem LocalTrr2k_blocksize_independent
    gw1 bs1 gw2 bs2 fuel1 fuel2 (fresh1 fresh2 : store T)
    uplo oA oB oC oD alpha A B beta C D gamma E k1 k2 st :
  well_formed E -> Height E <= Width E ->
  conformal oA oB oC oD A B C D E k1 k2 ->
  2 <= gw1 * bs1 -> 2 <= gw2 * bs2 ->
  Height E < Z.of_nat fuel1 -> Height E < Z.of_nat fuel2 ->
  exists st1 st2 st3,
    LocalTrr2k gw1 bs1 fuel1 uplo oA oB oC oD alpha A B beta C D gamma E
      fresh1 st = Some (Done st1) /\
    LocalTrr2k gw2 bs2 fuel2 uplo oA oB oC oD alpha A B beta C D gamma E
      fresh2 st = Some (Done st2) /\
    LocalTrr2kKernel uplo oA oB oC oD alpha A B beta C D gamma E fresh2 st
      = Done st3 /\
    (forall iLoc jLoc,
       0 <= iLoc < LocalHeight E -> 0 <= jLoc < LocalWidth E ->
       LGet E st1 iLoc jLoc = LGet E st2 iLoc jLoc /\
       LGet E st1 iLoc jLoc = LGet E st3 iLoc jLoc) /\
    (forall a,
       ~ Blas.in_window (LocalHeight E) (LocalWidth E) (LDim E)
           (a - Offset E) ->
       st1 a = st a /\ st2 a = st a /\ st3 a = st a).
Proof.
  intros Hwf Hsq Hconf H1 H2 Hf1 Hf2.
  pose proof (@LocalTrr2k_updates T gw1 bs1 uplo oA oB oC oD alpha beta gamma
                k1 k2 fresh1 fuel1 A B C D E st Hwf Hsq Hconf) as R1.
  pose proof (@LocalTrr2k_updates T gw2 bs2 uplo oA oB oC oD alpha beta gamma
                k1 k2 fresh2 fuel2 A B C D E st Hwf Hsq Hconf) as R2.
  destruct (@LocalTrr2kKernel_updates T uplo oA oB oC oD alpha A B beta C D
              gamma E k1 k2 fresh2 st Hwf Hsq Hconf) as (st3 & R3 & U3).
  destruct (LocalTrr2k gw1 bs1 fuel1 uplo oA oB oC oD alpha A B beta C D
              gamma E fresh1 st) as [r1|]; [|exfalso; apply R1; now split].
  destruct (LocalTrr2k gw2 bs2 fuel2 uplo oA oB oC oD alpha A B beta C D
              gamma E fresh2 st) as [r2|]; [|exfalso; apply R2; now split].
  destruct R1 as (st1 & -> & U1). destruct R2 as (st2 & -> & U2).
  exists st1, st2, st3. split; [reflexivity|]. split; [reflexivity|].
  split; [exact R3|].
  destruct (updates_agree U1 U2) as [I12 O12].
  destruct (updates_agree U1 U3) as [I13 O13].
  split.
  - intros iLoc jLoc Hi Hj. split; [now apply I12 | now apply I13].
  - intros a Ha. destruct (O12 a Ha) as [E1 E2].
    destruct (O13 a Ha) as [_ E3]. auto.
Qed.

(** With a threshold [g.Width() * LocalTrr2kBlocksize] of 1 or less, a
    call on a matrix [E] with at least one row splits, and its lower right
    block has at least one row again: no depth of recursion lets the call
    return. *)
Theorem LocalTrr2k_needs_threshold_2 gw bs (fresh : store T)
    uplo oA oB oC oD alpha A B beta C D gamma E k1 k2 st :
  well_formed E -> 1 <= Height E <= Width E ->
  conformal oA oB oC oD A B C D E k1 k2 ->
  gw * bs <= 1 ->
  forall fuel,
    LocalTrr2k gw bs fuel uplo oA oB oC oD alpha A B beta C D gamma E
      fresh st = None.
Proof.
  intros Hwf Hh Hconf Hthr fuel.
  now apply (@LocalTrr2k_threshold_1 T gw bs uplo oA oB oC oD alpha beta
               gamma k1 k2 fresh Hthr fuel A B C D E st).
Qed.

End Laws.

End Trr2kLaws.

Module Trr2kLawsExamples.

Import Trr2k Trr2kLaws Trr2kExamples.

Lemma LocalTrr2k_blocksize_independent_witness :
  well_formed E5 /\ Height E5 <= Width E5 /\
  conformal TRANSPOSE NORMAL NORMAL ADJOINT
    (A5, fill A5 GA) (B5, fill B5 GB) (C5, fill C5 GC) (D5, fill D5 GD)
    E5 2 3 /\
  2 <= 3 * 1 /\ 2 <= 1 * 64 /\
  Height E5 < Z.of_nat 6 /\ Height E5 < Z.of_nat 7 /\
  exists st1 st2 st3,
    @LocalTrr2k ZScalar 3 1 6 LOWER TRANSPOSE NORMAL NORMAL ADJOINT
      2 (A5, fill A5 GA) (B5, fill B5 GB)
      3 (C5, fill C5 GC) (D5, fill D5 GD) 5 E5 fresh5 (fill E5 GE)
    = Some (Done st1) /\
    @LocalTrr2k ZScalar 1 64 7 LOWER TRANSPOSE NORMAL NORMAL ADJOINT
      2 (A5, fill A5 GA) (B5, fill B5 GB)
      3 (C5, fill C5 GC) (D5, fill D5 GD) 5 E5 (fun _ => 1) (fill E5 GE)
    = Some (Done st2) /\
    @LocalTrr2kKernel ZScalar LOWER TRANSPOSE NORMAL NORMAL ADJOINT
      2 (A5, fill A5 GA) (B5, fill B5 GB)
      3 (C5, fill C5 GC) (D5, fill D5 GD) 5 E5 (fun _ => 1) (fill E5 GE)
    = Done st3 /\
    (forall iLoc jLoc,
       0 <= iLoc < LocalHeight E5 -> 0 <= jLoc < LocalWidth E5 ->
       LGet E5 st1 iLoc jLoc = LGet E5 st2 iLoc jLoc /\
       LGet E5 st1 iLoc jLoc = LGet E5 st3 iLoc jLoc) /\
    (forall a,
       ~ Blas.in_window (LocalHeight E5) (LocalWidth E5) (LDim E5)
           (a - Offset E5) ->
       st1 a = fill E5 GE a /\ st2 a = fill E5 GE a /\
       st3 a = fill E5 GE a).
Proof.
  assert (Hsq : Height E5 <= Width E5) by (cbn; lia).
  assert (H1 : 2 <= 3 * 1) by lia. assert (H2 : 2 <= 1 * 64) by lia.
  assert (Hf1 : Height E5 < Z.of_nat 6) by (cbn; lia).
  assert (Hf2 : Height E5 < Z.of_nat 7) by (cbn; lia).
  split; [exact E5_well_formed|]. split; [exact Hsq|].
  split; [exact operands_conformal|].
  split; [exact H1|]. split; [exact H2|].
  split; [exact Hf1|]. split; [exact Hf2|].
  exact (@LocalTrr2k_blocksize_independent ZScalar 3 1 1 64 6 7 fresh5
           (fun _ => 1) LOWER TRANSPOSE NORMAL NORMAL ADJOINT 2
           (A5, fill A5 GA) (B5, fill B5 GB) 3 (C5, fill C5 GC)
           (D5, fill D5 GD) 5 E5 2 3 (fill E5 GE)
           E5_well_formed Hsq operands_conformal H1 H2 Hf1 Hf2).
Defined.

(** One process and a blocksize of 1. *)
Example LocalTrr2k_blocksize_1 :
  @LocalTrr2k ZScalar 1 1 40 LOWER TRANSPOSE NORMAL NORMAL ADJOINT
    2 (A5, fill A5 GA) (B5, fill B5 GB)
    3 (C5, fill C5 GC) (D5, fill D5 GD) 5 E5 fresh5 (fill E5 GE) = None.
Proof. vm_compute. reflexivity. Qed.

Lemma LocalTrr2k_needs_threshold_2_witness :
  well_formed E5 /\ 1 <= Height E5 <= Width E5 /\
  conformal TRANSPOSE NORMAL NORMAL ADJOINT
    (A5, fill A5 GA) (B5, fill B5 GB) (C5, fill C5 GC) (D5, fill D5 GD)
    E5 2 3 /\
  1 * 1 <= 1 /\
  forall fuel,
    @LocalTrr2k ZScalar 1 1 fuel LOWER TRANSPOSE NORMAL NORMAL ADJOINT
      2 (A5, fill A5 GA) (B5, fill B5 GB)
      3 (C5, fill C5 GC) (D5, fill D5 GD) 5 E5 fresh5 (fill E5 GE) = None.
Proof.
  assert (Hh : 1 <= Height E5 <= Width E5) by (cbn; lia).
  assert (Ht : 1 * 1 <= 1) by lia.
  split; [exact E5_well_formed|]. split; [exact Hh|].
  split; [exact operands_conformal|]. split; [exact Ht|].
  exact (@LocalTrr2k_needs_threshold_2 ZScalar 1 1 fresh5 LOWER TRANSPOSE
           NORMAL NORMAL ADJOINT 2 (A5, fill A5 GA) (B5, fill B5 GB) 3
           (C5, fill C5 GC) (D5, fill D5 GD) 5 E5 2 3 (fill E5 GE)
           E5_well_formed Hh operands_conformal Ht).
Defined.

End Trr2kLawsExamples.

(* ===================================================================== *)
(** * Further properties of [Dot] for [MC,MR] *)
(* ===================================================================== *)

Module DotLaws.

Import DotMCMR.

(** The length of a vector as the checks compute it, Dot.cpp lines 97-98. *)
Definition Length (v : Meta) : Z :=
  if Width v =? 1 then Height v else Width v.

Lemma debug_check_passes x y :
  debug_check x y = None <->
  GridId x = GridId y /\
  (Height x = 1 \/ Width x = 1) /\ (Height y = 1 \/ Width y = 1) /\
  Length x = Length y.
Proof.
  unfold debug_check, Length.
  destruct (Z.eqb_spec (GridId x) (GridId y)) as [Hg|Hg]; cbn [negb].
  2:{ split; [discriminate | intros [H _]; contradiction]. }
  destruct (Z.eqb_spec (Height x) 1) as [Hhx|Hhx];
    destruct (Z.eqb_spec (Width x) 1) as [Hwx|Hwx];
    destruct (Z.eqb_spec (Height y) 1) as [Hhy|Hhy];
    destruct (Z.eqb_spec (Width y) 1) as [Hwy|Hwy];
    cbn [negb andb orb];
    try (split; [discriminate | intros (_ & [?|?] & [?|?] & _); contradiction]);
    match goal with
    | |- context [?a =? ?b] =>
        destruct (Z.eqb_spec a b) as [Hl|Hl]; cbn [negb];
        (split; [try discriminate; intros _; repeat split; auto
                | try reflexivity; intros (_ & _ & _ & ?); contradiction])
    end.
Qed.

Section Laws.

Variable T : Type.
Variable LocalData : Type.
Variable local_dot : LocalData -> LocalData -> T.

(** In a debug build [Dot] returns exactly when [x] and [y] live on the
    same grid, both are vectors and their lengths agree; otherwise it
    throws before the first collective call, on every process alike.  A
    release build never throws. *)
Theorem Dot_checks_before_communicating x y :
  (debug_check x y = None <->
   GridId x = GridId y /\
   (Height x = 1 \/ Width x = 1) /\ (Height y = 1 \/ Width y = 1) /\
   Length x = Length y) /\
  (forall row col xl yl,
     match debug_check x y with
     | Some msg =>
         Dot local_dot false row col x y xl yl = LogicError msg []
     | None => raised (Dot local_dot false row col x y xl yl) = false
     end /\
     raised (Dot local_dot true row col x y xl yl) = false /\
     2 <= Z.of_nat (List.length
                      (final (Dot local_dot true row col x y xl yl))) <= 3).
Proof.
  split; [apply debug_check_passes|].
  intros row col xl yl. unfold Dot.
  split; [destruct (debug_check x y); cbn;
          [|destruct (_ && _), (Width x =? 1), (Width y =? 1)]; reflexivity|].
  destruct ((Width x =? 1) && (Width y =? 1)), (Width x =? 1),
    (Width y =? 1), (col =? RowAlignment y), (row =? ColAlignment y);
    cbn; (split; [reflexivity | lia]).
Qed.

(** When [y] is not a column, the processes of the grid row that owns it
    reduce over their row communicator and every process takes part in the
    broadcast over its column communicator, from the owner row, whether
    [x] is a column or a row. *)
Theorem Dot_row_vectors (release : bool) (x y : Meta) :
  Width y <> 1 ->
  (if release then None else debug_check x y) = None ->
  forall row col xl yl,
    Dot local_dot release row col x y xl yl =
    Done ([(GridComm, Redistribute T)]
          ++ (if row =? ColAlignment y
              then [(MRComm row, AllReduceSum (local_dot xl yl))]
              else [])
          ++ [(MCComm col, Broadcast T (ColAlignment y))]).
Proof.
  intros Hw Hd row col xl yl.
  rewrite Dot_row_case.
  - now rewrite Hd.
  - unfold column_case. destruct (Z.eqb_spec (Width y) 1); [contradiction|].
    now rewrite !andb_false_r.
Qed.

End Laws.

End DotLaws.

Module DotLawsExamples.

Import DotMCMR DotLaws DotExamples.

(** A matrix, which is no vector. *)
Definition m22 : Meta :=
  {| Height := 2; Width := 2; ColAlignment := 0; RowAlignment := 0;
     GridId := 0 |}.

Example Dot_rejects_matrix :
  Dot dotZ false 0 1 x4 m22 [1; 2] [3; 4] =
    LogicError "Dot requires x and y to be vectors." [] /\
  Dot dotZ true 0 1 x4 m22 [1; 2] [3; 4] =
    Done [(GridComm, Redistribute Z); (MRComm 0, AllReduceSum 11);
          (MCComm 1, Broadcast Z 0)].
Proof. vm_compute. auto. Qed.

Lemma Dot_row_vectors_witness :
  Width yRow4 <> 1 /\
  (if false then None else debug_check x4 yRow4) = None /\
  forall row col xl yl,
    Dot dotZ false row col x4 yRow4 xl yl =
    Done ([(GridComm, Redistribute Z)]
          ++ (if row =? ColAlignment yRow4
              then [(MRComm row, AllReduceSum (dotZ xl yl))]
              else [])
          ++ [(MCComm col, Broadcast Z (ColAlignment yRow4))]).
Proof.
  assert (Hw : Width yRow4 <> 1) by (cbn; lia).
  assert (Hd : (if false then None else debug_check x4 yRow4) = None)
    by reflexivity.
  split; [exact Hw|]. split; [exact Hd|].
  exact (@Dot_row_vectors Z (list Z) dotZ false x4 yRow4 Hw Hd).
Defined.

End DotLawsExamples.
